(** * Trading-strategy analytics: a shallow embedding and its properties

    The development follows the Python sources

      - [src/analysis/address_analysis.py]  (class [AddressAnalysis]),
      - [src/api/backpack_client.py]        ([analyze_market_depth]),
      - [src/analysis/market_analysis.py]   (class [MarketAnalysis]),
      - [src/analysis/trader_analysis.py]   ([TraderAnalysis.analyze_trades]).

    Numbers.  The code is read twice.  Over the rationals ([Q]) a finite
    float is its exact value: rounding, overflow and signed zeros are left
    out, and the special values the code produces on purpose or through
    numpy's non-raising arithmetic (+inf, -inf, NaN) are kept, in the type
    [npfloat], with the IEEE rules numpy applies to them.  This reading
    serves the statements on the structure of the results: which records
    are selected, which branch is taken, what is raised and caught, how
    the rankings are ordered.  On machine numbers every float operation is
    rounded to binary64 ([round64]: to nearest, ties to even, gradual
    underflow, overflow to an infinity), Python integers are exact and of
    any size, and numpy's [int64] arrays wrap around modulo 2^64.  This
    reading ([AddressAnalysisPy], and the price trend of
    [MarketAnalysis._analyze_trades]) serves the statements that depend on
    the value of a sum, a difference or a quotient.  Signed zeros are not
    modelled in either reading.  Plain Python division raises
    [ZeroDivisionError] on a zero divisor; numpy division does not.

    Exceptions.  A [try] body is a computation in the [outcome] monad;
    [try_except] is the handler.  The dynamically typed fields of a trade
    dictionary keep their Python shape ([pyval]), so that a malformed record
    raises where the Python code would. *)

From Stdlib Require Import QArith Qabs Qround Qpower Lqa Lia ZArith List String.
From Stdlib Require Import Bool.
From Stdlib Require Import Permutation Sorting.Sorted.
Import ListNotations.
Open Scope string_scope.
Open Scope list_scope.
Open Scope Q_scope.

(* ================================================================== *)
(** ** Rational helpers *)

Definition Qlt_bool (x y : Q) : bool := negb (Qle_bool y x).
Definition Qmaxb (x y : Q) : Q := if Qle_bool x y then y else x.
Definition Qminb (x y : Q) : Q := if Qle_bool x y then x else y.

Definition Qsum (l : list Q) : Q := fold_left Qplus l 0.

(** Truth value of a list: [if l] is [if nonempty l]. *)
Definition nonempty {A} (l : list A) : bool :=
  match l with [] => false | _ => true end.

(** Python's [len] as a rational. *)
Definition Qlen {A} (l : list A) : Q := inject_Z (Z.of_nat (List.length l)).

(* ================================================================== *)
(** ** numpy floating point values *)

Module Numpy.

Inductive npfloat : Type :=
| Fin (q : Q)
| PInf
| NInf
| NaN.

Definition nan_free (x : npfloat) : Prop := x <> NaN.

(** Equality of values as numbers ([Qeq] on the finite part); [NaN] is
    not related to anything by the Python operator, this is the
    structural relation used to state results. *)
Definition np_same (x y : npfloat) : Prop :=
  match x, y with
  | Fin a, Fin b => a == b
  | PInf, PInf | NInf, NInf | NaN, NaN => True
  | _, _ => False
  end.

Definition np_neg (x : npfloat) : npfloat :=
  match x with
  | Fin a => Fin (- a)
  | PInf => NInf
  | NInf => PInf
  | NaN => NaN
  end.

Definition np_add (x y : npfloat) : npfloat :=
  match x, y with
  | NaN, _ | _, NaN => NaN
  | Fin a, Fin b => Fin (a + b)
  | PInf, NInf | NInf, PInf => NaN
  | PInf, _ | _, PInf => PInf
  | NInf, _ | _, NInf => NInf
  end.

Definition np_sub (x y : npfloat) : npfloat := np_add x (np_neg y).

(** Sign of a rational: [Gt] positive, [Lt] negative, [Eq] zero. *)
Definition Qsign (a : Q) : comparison := 0 ?= a.

Definition inf_of_sign (c : comparison) : npfloat :=
  match c with
  | Lt => PInf
  | Gt => NInf
  | Eq => NaN
  end.

Definition sign_mul (c d : comparison) : comparison :=
  match c, d with
  | Eq, _ | _, Eq => Eq
  | Lt, Lt | Gt, Gt => Lt
  | _, _ => Gt
  end.

Definition np_sign (x : npfloat) : option comparison :=
  match x with
  | Fin a => Some (Qsign a)
  | PInf => Some Lt
  | NInf => Some Gt
  | NaN => None
  end.

Definition np_mul (x y : npfloat) : npfloat :=
  match x, y with
  | NaN, _ | _, NaN => NaN
  | Fin a, Fin b => Fin (a * b)
  | _, _ =>
      match np_sign x, np_sign y with
      | Some c, Some d => inf_of_sign (sign_mul c d)
      | _, _ => NaN
      end
  end.

(** numpy true division: a zero divisor yields an infinity (or NaN for
    0/0) and a warning, never an exception. *)
Definition np_div (x y : npfloat) : npfloat :=
  match x, y with
  | NaN, _ | _, NaN => NaN
  | Fin a, Fin b =>
      if Qeq_bool b 0 then inf_of_sign (Qsign a) else Fin (a / b)
  | Fin _, _ => Fin 0
  | _, Fin b =>
      match np_sign x with
      | Some c => inf_of_sign (sign_mul c (if Qeq_bool b 0 then Lt else Qsign b))
      | None => NaN
      end
  | _, _ => NaN
  end.

(** Ordered comparisons: false as soon as one side is NaN. *)
Definition np_ltb (x y : npfloat) : bool :=
  match x, y with
  | NaN, _ | _, NaN => false
  | Fin a, Fin b => Qlt_bool a b
  | NInf, NInf | PInf, _ => false
  | NInf, _ => true
  | Fin _, PInf => true
  | Fin _, NInf => false
  end.

Definition np_gtb (x y : npfloat) : bool := np_ltb y x.

Definition np_leb (x y : npfloat) : bool :=
  match x, y with
  | NaN, _ | _, NaN => false
  | Fin a, Fin b => Qle_bool a b
  | NInf, _ | _, PInf => true
  | _, _ => false
  end.

Definition np_isnan (x : npfloat) : bool :=
  match x with NaN => true | _ => false end.

(** [np.mean] and [np.std] (population standard deviation, [ddof = 0])
    of a non-empty array of finite values; [sqrt] is numpy's square
    root, a parameter of the development. *)
Definition np_mean (l : list Q) : Q := Qsum l / Qlen l.

Definition np_var (l : list Q) : Q :=
  let m := np_mean l in
  np_mean (map (fun x => (x - m) * (x - m)) l).

Definition np_std (sqrt : Q -> Q) (l : list Q) : Q := sqrt (np_var l).

(** [np.cumsum] *)
Fixpoint cumsum_from (acc : Q) (l : list Q) : list Q :=
  match l with
  | [] => []
  | x :: l' => (acc + x) :: cumsum_from (acc + x) l'
  end.

Definition cumsum (l : list Q) : list Q := cumsum_from 0 l.

(** [np.maximum.accumulate] *)
Fixpoint maximum_accumulate_from (m : Q) (l : list Q) : list Q :=
  match l with
  | [] => []
  | x :: l' => Qmaxb m x :: maximum_accumulate_from (Qmaxb m x) l'
  end.

Definition maximum_accumulate (l : list Q) : list Q :=
  match l with
  | [] => []
  | x :: l' => x :: maximum_accumulate_from x l'
  end.

(** Element-wise subtraction of two arrays of the same length. *)
Fixpoint arr_sub (a b : list Q) : list Q :=
  match a, b with
  | x :: a', y :: b' => (x - y) :: arr_sub a' b'
  | _, _ => []
  end.

(** [np.max] of a non-empty array; the argument [d] is only used for
    the empty array, which the callers exclude. *)
Definition np_max (d : Q) (l : list Q) : Q :=
  match l with
  | [] => d
  | x :: l' => fold_left Qmaxb l' x
  end.

Definition np_min (d : Q) (l : list Q) : Q :=
  match l with
  | [] => d
  | x :: l' => fold_left Qminb l' x
  end.

End Numpy.
Import Numpy.

(* ================================================================== *)
(** ** IEEE 754 binary64 rounding *)

Module Binary64.

(** [floor (log2 q)] of a positive rational. *)
Definition ilog2 (q : Q) : Z :=
  let l := (Z.log2 (Qnum q) - Z.log2 (Zpos (Qden q)))%Z in
  if Qle_bool (2 ^ l) q then l else (l - 1)%Z.

(** Rounding to the nearest integer, ties to even. *)
Definition rne (x : Q) : Z :=
  let f := Qfloor x in
  match Qcompare (x - inject_Z f) (1 # 2) with
  | Lt => f
  | Gt => (f + 1)%Z
  | Eq => if Z.even f then f else (f + 1)%Z
  end.

(** Exponent of the last place of a positive rational: 53 significant
    bits, and no place below [2 ^ -1074] (gradual underflow). *)
Definition quantum_exp (x : Q) : Z := Z.max (ilog2 x - 52) (-1074).

Definition round_pos (x : Q) : Q :=
  let e := quantum_exp x in inject_Z (rne (x / 2 ^ e)) * 2 ^ e.

(** The double nearest to a rational (round to nearest, ties to even);
    the result is an infinity when the rounded magnitude reaches
    [2 ^ 1024].  Python's [float(text)], [int / int] and every double
    operation of Python and numpy round their exact result this way. *)
Definition round64 (q : Q) : npfloat :=
  match Qcompare 0 q with
  | Eq => Fin 0
  | Lt => let v := round_pos q in if Qle_bool (2 ^ 1024) v then PInf else Fin v
  | Gt => let v := round_pos (- q) in
          if Qle_bool (2 ^ 1024) v then NInf else Fin (- v)
  end.

(** The rationals that are doubles. *)
Definition is_binary64 (q : Q) : Prop :=
  exists m e : Z,
    (Z.abs m < 2 ^ 53)%Z /\ (-1074 <= e <= 971)%Z /\ q == inject_Z m * 2 ^ e.

(** Half a unit in the last place, relative: [2 ^ -53]. *)
Definition eps64 : Q := 1 # 9007199254740992.

(** An arithmetic result, rounded. *)
Definition f64 (x : npfloat) : npfloat :=
  match x with
  | Fin q => round64 q
  | _ => x
  end.

Definition f64_add (x y : npfloat) : npfloat := f64 (np_add x y).
Definition f64_sub (x y : npfloat) : npfloat := f64 (np_sub x y).
Definition f64_mul (x y : npfloat) : npfloat := f64 (np_mul x y).
Definition f64_div (x y : npfloat) : npfloat := f64 (np_div x y).

End Binary64.
Import Binary64.

(* ================================================================== *)
(** ** Python exceptions *)

Module Py.

Inductive exn : Type :=
| TypeError
| ZeroDivisionError
| ValueError
| OverflowError
| AttributeError.

Inductive outcome (A : Type) : Type :=
| Returned (a : A)
| Raised (e : exn).
Arguments Returned {A} a.
Arguments Raised {A} e.

Definition bind {A B} (m : outcome A) (k : A -> outcome B) : outcome B :=
  match m with
  | Returned a => k a
  | Raised e => Raised e
  end.

(** [try: body  except Exception as e: handler e] *)
Definition try_except {A} (body : outcome A) (handler : exn -> outcome A)
  : outcome A :=
  match body with
  | Returned a => Returned a
  | Raised e => handler e
  end.

(** A list comprehension whose element expression may raise. *)
Fixpoint mapM {A B} (f : A -> outcome B) (l : list A) : outcome (list B) :=
  match l with
  | [] => Returned []
  | x :: l' =>
      bind (f x) (fun y => bind (mapM f l') (fun ys => Returned (y :: ys)))
  end.

(** A list comprehension with a condition that may raise. *)
Fixpoint filterM {A} (p : A -> outcome bool) (l : list A) : outcome (list A) :=
  match l with
  | [] => Returned []
  | x :: l' =>
      bind (p x) (fun b =>
      bind (filterM p l') (fun xs => Returned (if b then x :: xs else xs)))
  end.

(** Dynamically typed values found in a record. *)
Inductive pyval : Type :=
| PyNum (q : Q)
| PyStr (s : string)
| PyNone.

(** [v > 0], [v < 0] and arithmetic on a value: [TypeError] unless it
    is a number. *)
Definition as_num (v : pyval) : outcome Q :=
  match v with
  | PyNum q => Returned q
  | _ => Raised TypeError
  end.

(** Python float division [a / b]. *)
Definition py_div (a b : Q) : outcome Q :=
  if Qeq_bool b 0 then Raised ZeroDivisionError else Returned (a / b).

End Py.
Import Py.

Declare Scope py_scope.
Delimit Scope py_scope with py.
Notation "x <- m ;; k" := (bind m (fun x => k))
  (at level 61, m at next level, right associativity) : py_scope.
Notation "'ret' x" := (Returned x) (at level 60) : py_scope.
Open Scope py_scope.


(* ================================================================== *)
(** ** Python builtins used by the analysis *)

(** [max(iterable, key=...)] and [max(iterable, default=d)]: the first
    maximal item wins, an item replaces the current best only when it is
    strictly greater. *)
Fixpoint max_by_from {A} (gt : A -> A -> bool) (best : A) (l : list A) : A :=
  match l with
  | [] => best
  | x :: l' => max_by_from gt (if gt x best then x else best) l'
  end.

Definition max_by {A} (gt : A -> A -> bool) (l : list A) : option A :=
  match l with
  | [] => None
  | x :: l' => Some (max_by_from gt x l')
  end.

Definition py_max (l : list Q) (default : Q) : Q :=
  match max_by (fun x best => Qlt_bool best x) l with
  | Some m => m
  | None => default
  end.

Definition py_min (l : list Q) (default : Q) : Q :=
  match max_by (fun x best => Qlt_bool x best) l with
  | Some m => m
  | None => default
  end.

(** [list.sort(key=..., reverse=...)] on keys compared with [<] only.
    The sort is stable; with [reverse=True] every comparison is reversed
    and stability is kept.  It is modelled by a stable insertion sort,
    which agrees with any stable comparison sort as long as [<] is a
    strict weak order on the keys (no NaN among them). *)
Section ListSort.
Context {A : Type}.
Variable key : A -> npfloat.
Variable reverse : bool.

Definition sort_lt (a b : A) : bool :=
  if reverse then np_ltb (key a) (key b) else np_ltb (key b) (key a).

Fixpoint sort_insert (x : A) (l : list A) : list A :=
  match l with
  | [] => [x]
  | y :: l' => if sort_lt x y then y :: sort_insert x l' else x :: y :: l'
  end.

Fixpoint list_sort (l : list A) : list A :=
  match l with
  | [] => []
  | x :: l' => sort_insert x (list_sort l')
  end.

End ListSort.

(* ================================================================== *)
(** ** [AddressAnalysis] (address_analysis.py) *)

Module AddressAnalysis.

(** A trade record is a dictionary; a key may be missing ([None] here)
    and the value under ['profit'] or ['timestamp'] may be of any type. *)
Record Trade : Type := mkTrade {
  t_address : option string;
  t_profit : option pyval;
  t_symbol : option string;
  t_timestamp : option pyval
}.

Record TimeDistribution : Type := mkTimeDistribution {
  most_active_hour : option nat
}.

Record SymbolDistribution : Type := mkSymbolDistribution {
  most_traded_symbol : string;
  most_profitable_symbol : string
}.

(** The dictionary returned by [analyze_trades]; the empty dictionary
    [{}] is [None] (for the two nested dictionaries as well). *)
Record AddressResult : Type := mkAddressResult {
  address : string;
  total_trades : nat;
  win_rate : Q;
  total_profit : Q;
  total_loss : Q;
  avg_profit : Q;
  avg_loss : Q;
  max_profit : Q;
  max_loss : Q;
  profit_factor : npfloat;
  sharpe_ratio : npfloat;
  max_drawdown : Q;
  time_distribution : option TimeDistribution;
  symbol_distribution : option SymbolDistribution
}.

(** [t.get('profit', 0)] and [t.get('timestamp', 0)] *)
Definition get_profit (t : Trade) : pyval :=
  match t_profit t with
  | Some v => v
  | None => PyNum 0
  end.

Definition get_timestamp (t : Trade) : pyval :=
  match t_timestamp t with
  | Some v => v
  | None => PyNum 0
  end.

(** [t.get('address') == address] *)
Definition address_is (address : string) (t : Trade) : bool :=
  match t_address t with
  | Some a => String.eqb a address
  | None => false
  end.

(** [t.get('profit', 0) > 0] and [t.get('profit', 0) < 0] *)
Definition profit_gt0 (t : Trade) : outcome bool :=
  p <- as_num (get_profit t) ;; ret (Qlt_bool 0 p).

Definition profit_lt0 (t : Trade) : outcome bool :=
  p <- as_num (get_profit t) ;; ret (Qlt_bool p 0).

(** [sum(t.get('profit', 0) for t in ts)] *)
Definition sum_profit (ts : list Trade) : outcome Q :=
  ps <- mapM (fun t => as_num (get_profit t)) ts ;; ret (Qsum ps).

Section Analysis.

(** [np.sqrt] on finite values. *)
Variable sqrt : Q -> Q.

(** [datetime.fromtimestamp(s).hour]: hour of the day, in the local time
    of the host, of [s] seconds since the epoch; it raises when [s] is
    out of the platform's range. *)
Variable fromtimestamp_hour : Q -> outcome nat.

(** Iteration order of [set(xs)]: Python leaves it unspecified (for
    strings it changes with the hash seed of the process). *)
Variable set_iter : list string -> list string.

Definition _calculate_sharpe_ratio_rf (returns : list Q) (risk_free_rate : Q)
  : npfloat :=
  if negb (nonempty returns) then Fin 0
  else
    let excess_returns := map (fun r => r - risk_free_rate / 252) returns in
    if (List.length excess_returns <? 2)%nat then Fin 0
    else
      np_mul
        (np_div (Fin (np_mean excess_returns))
                (Fin (np_std sqrt excess_returns)))
        (Fin (sqrt 252)).

(** The default [risk_free_rate = 0.02]. *)
Definition _calculate_sharpe_ratio (returns : list Q) : npfloat :=
  _calculate_sharpe_ratio_rf returns (2 # 100).

Definition _calculate_max_drawdown (returns : list Q) : Q :=
  if negb (nonempty returns) then 0
  else
    let cumulative := cumsum returns in
    let running_max := maximum_accumulate cumulative in
    let drawdown := arr_sub running_max cumulative in
    if (0 <? List.length drawdown)%nat then np_max 0 drawdown else 0.

(** [pd.Series(hours).value_counts()]: one entry per distinct hour, by
    decreasing count; equal counts stay in first-encountered order. *)
Fixpoint count_add (h : nat) (tbl : list (nat * nat)) : list (nat * nat) :=
  match tbl with
  | [] => [(h, 1%nat)]
  | (k, c) :: tbl' =>
      if (k =? h)%nat then (k, S c) :: tbl' else (k, c) :: count_add h tbl'
  end.

Definition value_counts (hours : list nat) : list (nat * nat) :=
  fold_left (fun tbl h => count_add h tbl) hours [].

Definition _analyze_time_distribution (trades : list Trade)
  : option TimeDistribution :=
  let body :=
    hours <- mapM (fun t => ts <- as_num (get_timestamp t) ;;
                            fromtimestamp_hour (ts / 1000)) trades ;;
    let hour_counts := value_counts hours in
    ret (Some (mkTimeDistribution
                 (option_map fst
                    (max_by (fun x best => (snd best <? snd x)%nat)
                            hour_counts)))) in
  match try_except body (fun _ => ret None) with
  | Returned d => d
  | Raised _ => None
  end.

(** [symbol_stats]: a dictionary in insertion order,
    symbol -> (count, profit). *)
Fixpoint stats_add (s : string) (p : Q) (tbl : list (string * (nat * Q)))
  : list (string * (nat * Q)) :=
  match tbl with
  | [] => [(s, (1%nat, 0 + p))]
  | (k, (c, q)) :: tbl' =>
      if String.eqb k s then (k, (S c, q + p)) :: tbl'
      else (k, (c, q)) :: stats_add s p tbl'
  end.

Fixpoint symbol_stats_loop (trades : list Trade)
  (tbl : list (string * (nat * Q))) : outcome (list (string * (nat * Q))) :=
  match trades with
  | [] => ret tbl
  | trade :: rest =>
      match t_symbol trade with
      | None => symbol_stats_loop rest tbl
      | Some s =>
          if String.eqb s "" then symbol_stats_loop rest tbl
          else
            p <- as_num (get_profit trade) ;;
            symbol_stats_loop rest (stats_add s p tbl)
      end
  end.

Definition _analyze_symbol_distribution (trades : list Trade)
  : option SymbolDistribution :=
  let body :=
    symbol_stats <- symbol_stats_loop trades [] ;;
    match
      max_by (fun x best => (fst (snd best) <? fst (snd x))%nat) symbol_stats,
      max_by (fun x best => Qlt_bool (snd (snd best)) (snd (snd x))) symbol_stats
    with
    | Some most_traded, Some most_profitable =>
        ret (Some (mkSymbolDistribution (fst most_traded) (fst most_profitable)))
    | _, _ => ret None
    end in
  match try_except body (fun _ => ret None) with
  | Returned d => d
  | Raised _ => None
  end.

(** The body of the [try] block of [analyze_trades]. *)
Definition analyze_trades_body (trades : list Trade) (address : string)
  : outcome (option AddressResult) :=
  let address_trades := filter (address_is address) trades in
  if negb (nonempty address_trades) then ret None
  else
    let total_trades := List.length address_trades in
    winning_trades <- filterM profit_gt0 address_trades ;;
    losing_trades <- filterM profit_lt0 address_trades ;;
    win_rate <- (if (0 <? total_trades)%nat
                 then py_div (Qlen winning_trades) (Qlen address_trades)
                 else ret 0) ;;
    total_profit <- sum_profit winning_trades ;;
    total_loss <- sum_profit losing_trades ;;
    avg_profit <- (if nonempty winning_trades
                   then py_div total_profit (Qlen winning_trades)
                   else ret 0) ;;
    avg_loss <- (if nonempty losing_trades
                 then py_div total_loss (Qlen losing_trades)
                 else ret 0) ;;
    win_profits <- mapM (fun t => as_num (get_profit t)) winning_trades ;;
    let max_profit := py_max win_profits 0 in
    lose_profits <- mapM (fun t => as_num (get_profit t)) losing_trades ;;
    let max_loss := py_min lose_profits 0 in
    profit_factor <- (if negb (Qeq_bool total_loss 0)
                      then q <- py_div total_profit total_loss ;;
                           ret (Fin (Qabs q))
                      else ret PInf) ;;
    returns <- mapM (fun t => as_num (get_profit t)) address_trades ;;
    let sharpe_ratio := _calculate_sharpe_ratio returns in
    let max_drawdown := _calculate_max_drawdown returns in
    let time_distribution := _analyze_time_distribution address_trades in
    let symbol_distribution := _analyze_symbol_distribution address_trades in
    ret (Some (mkAddressResult address total_trades win_rate total_profit
                 total_loss avg_profit avg_loss max_profit max_loss
                 profit_factor sharpe_ratio max_drawdown
                 time_distribution symbol_distribution)).

(** [analyze_trades]: the body under [try], the handler returns [{}]. *)
Definition analyze_trades (trades : list Trade) (address : string)
  : outcome (option AddressResult) :=
  try_except (analyze_trades_body trades address) (fun _ => ret None).

(** [set(t.get('address') for t in trades if t.get('address'))]: the
    truthy addresses, in list order, before the set is built. *)
Definition truthy_addresses (trades : list Trade) : list string :=
  flat_map (fun t => match t_address t with
                     | Some a => if String.eqb a "" then [] else [a]
                     | None => []
                     end) trades.

(** The [for address in addresses] loop of [find_top_traders]. *)
Fixpoint collect_results (trades : list Trade) (min_trades : Z)
  (addresses : list string) : outcome (list AddressResult) :=
  match addresses with
  | [] => ret []
  | a :: rest =>
      result <- analyze_trades trades a ;;
      trader_results <- collect_results trades min_trades rest ;;
      ret (match result with
           | Some r =>
               if (min_trades <=? Z.of_nat (total_trades r))%Z
               then r :: trader_results
               else trader_results
           | None => trader_results
           end)
  end.

Definition find_top_traders_body (trades : list Trade) (min_trades : Z)
  : outcome (list AddressResult) :=
  let addresses := set_iter (truthy_addresses trades) in
  trader_results <- collect_results trades min_trades addresses ;;
  ret (list_sort sharpe_ratio true trader_results).

Definition find_top_traders (trades : list Trade) (min_trades : Z)
  : outcome (list AddressResult) :=
  try_except (find_top_traders_body trades min_trades) (fun _ => ret []).


End Analysis.

End AddressAnalysis.

(* ================================================================== *)
(** ** [BackpackClient.analyze_market_depth] (backpack_client.py) *)

Module BackpackClient.

(** An order book as [get_orderbook] returns it: each level is
    [[price, size]], best level first.  The two entries of a level are
    well-formed decimal texts; [float(...)] of them is the rational
    they denote. *)
Record OrderBook : Type := mkOrderBook {
  bids : list (Q * Q);
  asks : list (Q * Q)
}.

Record DepthResult : Type := mkDepthResult {
  bid_volume : Q;
  ask_volume : Q;
  bid_value : Q;
  ask_value : Q;
  spread : Q;
  spread_percentage : Q;
  mid_price : Q;
  imbalance : Q
}.

Definition level_price (l : Q * Q) : Q := fst l.
Definition level_size (l : Q * Q) : Q := snd l.

(** The body of the [try] block, after the order book was fetched. *)
Definition analyze_market_depth_body (orderbook : OrderBook)
  : outcome (option DepthResult) :=
  match bids orderbook, asks orderbook with
  | [], _ | _, [] => ret None
  | bid0 :: _, ask0 :: _ =>
      let bid_volume := Qsum (map level_size (bids orderbook)) in
      let ask_volume := Qsum (map level_size (asks orderbook)) in
      let bid_value :=
        Qsum (map (fun bid => level_price bid * level_size bid) (bids orderbook)) in
      let ask_value :=
        Qsum (map (fun ask => level_price ask * level_size ask) (asks orderbook)) in
      let best_bid := level_price bid0 in
      let best_ask := level_price ask0 in
      let spread := best_ask - best_bid in
      mid_price <- py_div (best_bid + best_ask) 2 ;;
      ratio <- py_div spread mid_price ;;
      let spread_percentage := ratio * 100 in
      let total_volume := bid_volume + ask_volume in
      imbalance <- (if Qlt_bool 0 total_volume
                    then py_div (bid_volume - ask_volume) total_volume
                    else ret 0) ;;
      ret (Some (mkDepthResult bid_volume ask_volume bid_value ask_value
                   spread spread_percentage mid_price imbalance))
  end.

Definition analyze_market_depth (orderbook : OrderBook)
  : outcome (option DepthResult) :=
  try_except (analyze_market_depth_body orderbook) (fun _ => ret None).

End BackpackClient.

(* ================================================================== *)
(** ** pandas series operations used by [MarketAnalysis] *)

Module Pandas.

(** [s.rolling(window=w).mean().iloc[-1]] on a series of finite values:
    NaN while fewer than [w] observations are available, else the mean
    of the last [w]. *)
Definition rolling_mean_last (w : nat) (s : list Q) : npfloat :=
  if (List.length s <? w)%nat then NaN
  else Fin (np_mean (skipn (List.length s - w) s)).

(** [s.diff()] without its first entry (which is NaN). *)
Fixpoint diff_tail (prev : Q) (s : list Q) : list Q :=
  match s with
  | [] => []
  | x :: s' => (x - prev) :: diff_tail x s'
  end.

(** [s.pct_change()] without its first entry (which is NaN):
    [s / s.shift(1) - 1]. *)
Fixpoint pct_change_tail (prev : Q) (s : list Q) : list npfloat :=
  match s with
  | [] => []
  | x :: s' => np_sub (np_div (Fin x) (Fin prev)) (Fin 1) :: pct_change_tail x s'
  end.

Definition np_sum (l : list npfloat) : npfloat := fold_left np_add l (Fin 0).

Definition np_sqrt (sqrt : Q -> Q) (x : npfloat) : npfloat :=
  match x with
  | Fin q => if Qlt_bool q 0 then NaN else Fin (sqrt q)
  | PInf => PInf
  | _ => NaN
  end.

(** [s.std()]: sample standard deviation ([ddof = 1]) of the entries
    that are not NaN; NaN when fewer than two remain. *)
Definition series_std (sqrt : Q -> Q) (s : list npfloat) : npfloat :=
  let xs := filter (fun x => negb (np_isnan x)) s in
  let n := List.length xs in
  if (n <=? 1)%nat then NaN
  else
    let mean := np_div (np_sum xs) (Fin (Qlen xs)) in
    let sq := map (fun x => np_mul (np_sub x mean) (np_sub x mean)) xs in
    np_sqrt sqrt (np_div (np_sum sq) (Fin (Qlen xs - 1))).

End Pandas.
Import Pandas.

(* ================================================================== *)
(** ** [MarketAnalysis] (market_analysis.py) *)

Module MarketAnalysis.

(** A market trade as [get_trades] documents it, numeric columns after
    [astype(float)]. *)
Record MarketTrade : Type := mkMarketTrade {
  price : Q;
  quantity : Q;
  quoteQuantity : Q;
  isBuyerMaker : bool
}.

Record TradeAnalysis : Type := mkTradeAnalysis {
  ta_total_trades : nat;
  total_volume : Q;
  total_value : Q;
  avg_trade_size : Q;
  avg_trade_value : Q;
  buy_ratio : Q;
  price_trend : Z;
  volatility : npfloat
}.

(** A kline row, columns in the order of the data frame. *)
Record Kline : Type := mkKline {
  openTime : Z;
  k_open : Q;
  k_high : Q;
  k_low : Q;
  k_close : Q;
  k_volume : Q;
  closeTime : Z;
  quoteVolume : Q;
  k_trades : Z
}.

Inductive trend_label : Type :=
| strong_up
| up
| neutral
| down
| strong_down.

Record PriceAnalysis : Type := mkPriceAnalysis {
  current_price : Q;
  price_change_24h : Q;
  price_change_percentage_24h : Q;
  high_24h : Q;
  low_24h : Q;
  volume_24h : Q;
  ma7 : npfloat;
  ma25 : npfloat;
  rsi : npfloat;
  trend : trend_label
}.

Section Analysis.

Variable sqrt : Q -> Q.

(** [df.iloc[0]['price']] and [df.iloc[-1]['price']] of a non-empty
    frame. *)
Definition iloc_first (d : Q) (s : list Q) : Q := hd d s.
Definition iloc_last (d : Q) (s : list Q) : Q := last s d.

(** The literal [0.001] of the trend test: the double nearest to
    1/1000. *)
Definition trend_threshold : npfloat := round64 (1 # 1000).

(** The price-trend classification of [_analyze_trades]. *)
Definition classify_price_change (price_change : npfloat) : Z :=
  if np_gtb price_change trend_threshold then 1%Z
  else if np_ltb price_change (np_neg trend_threshold) then (-1)%Z
  else 0%Z.

Definition _analyze_trades_body (trades : list MarketTrade)
  : outcome (option TradeAnalysis) :=
  if negb (nonempty trades) then ret None
  else
    let prices := map price trades in
    let total_trades := List.length trades in
    let total_volume := Qsum (map quantity trades) in
    let total_value := Qsum (map quoteQuantity trades) in
    let avg_trade_size := total_volume / Qlen trades in
    let avg_trade_value := total_value / Qlen trades in
    buy_ratio <-
      py_div (Qlen (filter (fun t => negb (isBuyerMaker t)) trades))
             (Qlen trades) ;;
    let first_price := iloc_last 0 prices in
    let last_price := iloc_first 0 prices in
    let price_change :=
      f64_div (f64_sub (Fin last_price) (Fin first_price)) (Fin first_price) in
    let price_trend := classify_price_change price_change in
    let returns := NaN :: pct_change_tail (iloc_first 0 prices) (tl prices) in
    let volatility := np_mul (series_std sqrt returns) (Fin (sqrt (Qlen trades))) in
    ret (Some (mkTradeAnalysis total_trades total_volume total_value
                 avg_trade_size avg_trade_value buy_ratio price_trend
                 volatility)).

Definition _analyze_trades (trades : list MarketTrade)
  : outcome (option TradeAnalysis) :=
  try_except (_analyze_trades_body trades) (fun _ => ret None).

(** The trend label of [_analyze_price]. *)
Definition classify_trend (current_price : Q) (ma7 ma25 rsi : npfloat)
  : trend_label :=
  if np_gtb (Fin current_price) ma7 && np_gtb ma7 ma25 && np_gtb rsi (Fin 70)
  then strong_up
  else if np_gtb (Fin current_price) ma7 && np_gtb ma7 ma25
  then up
  else if np_ltb (Fin current_price) ma7 && np_ltb ma7 ma25 && np_ltb rsi (Fin 30)
  then strong_down
  else if np_ltb (Fin current_price) ma7 && np_ltb ma7 ma25
  then down
  else neutral.

(** [delta.where(delta > 0, 0)] and [-delta.where(delta < 0, 0)]; the
    first entry of [delta] is NaN and is replaced by 0 in both. *)
Definition gains (closes : list Q) : list Q :=
  0 :: map (fun d => if Qlt_bool 0 d then d else 0)
           (diff_tail (hd 0 closes) (tl closes)).

Definition losses (closes : list Q) : list Q :=
  - 0 :: map (fun d => - (if Qlt_bool d 0 then d else 0))
             (diff_tail (hd 0 closes) (tl closes)).

Definition _analyze_price_body (klines : list Kline)
  : outcome (option PriceAnalysis) :=
  if negb (nonempty klines) then ret None
  else
    let closes := map k_close klines in
    let current_price := iloc_last 0 closes in
    let price_24h_ago := iloc_first 0 closes in
    let price_change_24h := current_price - price_24h_ago in
    ratio <- py_div price_change_24h price_24h_ago ;;
    let price_change_percentage_24h := ratio * 100 in
    let high_24h := np_max 0 (map k_high klines) in
    let low_24h := np_min 0 (map k_low klines) in
    let volume_24h := Qsum (map k_volume klines) in
    let ma7 := rolling_mean_last 7 closes in
    let ma25 := rolling_mean_last 25 closes in
    let gain := rolling_mean_last 14 (gains closes) in
    let loss := rolling_mean_last 14 (losses closes) in
    let rs := np_div gain loss in
    let rsi := np_sub (Fin 100) (np_div (Fin 100) (np_add (Fin 1) rs)) in
    let trend := classify_trend current_price ma7 ma25 rsi in
    ret (Some (mkPriceAnalysis current_price price_change_24h
                 price_change_percentage_24h high_24h low_24h volume_24h
                 ma7 ma25 rsi trend)).

Definition _analyze_price (klines : list Kline)
  : outcome (option PriceAnalysis) :=
  try_except (_analyze_price_body klines) (fun _ => ret None).

(** The exchange as [analyze_market] sees it: what the three requests
    return for a symbol (and a limit). *)
Record Client : Type := mkClient {
  get_orderbook : string -> nat -> BackpackClient.OrderBook;
  get_trades : string -> nat -> list MarketTrade;
  get_klines : string -> nat -> list Kline
}.

Record MarketResult : Type := mkMarketResult {
  market_depth : option BackpackClient.DepthResult;
  trade_analysis : option TradeAnalysis;
  price_analysis : option PriceAnalysis
}.

Definition analyze_market_body (client : Client) (symbol : string)
  : outcome (option MarketResult) :=
  depth_analysis <-
    BackpackClient.analyze_market_depth (get_orderbook client symbol 20) ;;
  let trades := get_trades client symbol 100 in
  trade_analysis <- _analyze_trades trades ;;
  let klines := get_klines client symbol 24 in
  price_analysis <- _analyze_price klines ;;
  ret (Some (mkMarketResult depth_analysis trade_analysis price_analysis)).

Definition analyze_market (client : Client) (symbol : string)
  : outcome (option MarketResult) :=
  try_except (analyze_market_body client symbol) (fun _ => ret None).

End Analysis.

End MarketAnalysis.

(* ================================================================== *)
(** ** Sample environments

    Concrete choices for the parameters of the analysis, used to run
    the model on examples: a square root rounded down to twelve
    decimals, a host whose local time is UTC, and two iteration orders
    for a set of strings. *)

Definition sqrt_12 (q : Q) : Q :=
  let n := Qnum q in
  let d := Qden q in
  if (n <=? 0)%Z then 0
  else Z.sqrt (n * Zpos d * 10 ^ 24) # (d * 1000000000000).

Definition utc_hour (s : Q) : outcome nat :=
  ret (Z.to_nat ((Qfloor s / 3600) mod 24)).

Fixpoint first_seen (l : list string) : list string :=
  match l with
  | [] => []
  | x :: l' => x :: filter (fun y => negb (String.eqb y x)) (first_seen l')
  end.


(* ================================================================== *)
(** ** Vocabulary of the statements *)

Module Spec.
Import AddressAnalysis.

(** The trades of one address, as [analyze_trades] selects them. *)
Definition address_trades (trades : list Trade) (a : string) : list Trade :=
  filter (address_is a) trades.

(** A trade whose profit is a number (or is missing, hence 0). *)
Definition numeric_profit (t : Trade) : Prop :=
  exists q, get_profit t = PyNum q.

Definition numeric_profitb (t : Trade) : bool :=
  match get_profit t with PyNum _ => true | _ => false end.

Definition num_profit (t : Trade) : Q :=
  match get_profit t with PyNum q => q | _ => 0 end.

Definition winning (ts : list Trade) : list Trade :=
  filter (fun t => Qlt_bool 0 (num_profit t)) ts.

Definition losing (ts : list Trade) : list Trade :=
  filter (fun t => Qlt_bool (num_profit t) 0) ts.

Definition breakeven (ts : list Trade) : list Trade :=
  filter (fun t => Qeq_bool (num_profit t) 0) ts.

(** A well-formed trade of address [a] with profit [p]. *)
Definition trade (a : string) (p : Q) : Trade :=
  mkTrade (Some a) (Some (PyNum p)) None None.

(** The result of [analyze_trades] on an address whose trades [ats]
    (not empty) all carry numeric profits, field by field. *)
Definition result_of (sqrt : Q -> Q) (hour : Q -> outcome nat)
  (a : string) (ats : list Trade) : AddressResult :=
  let W := winning ats in
  let L := losing ats in
  let tp := Qsum (map num_profit W) in
  let tl := Qsum (map num_profit L) in
  mkAddressResult a (List.length ats)
    (Qlen W / Qlen ats) tp tl
    (if nonempty W then tp / Qlen W else 0)
    (if nonempty L then tl / Qlen L else 0)
    (py_max (map num_profit W) 0)
    (py_min (map num_profit L) 0)
    (if negb (Qeq_bool tl 0) then Fin (Qabs (tp / tl)) else PInf)
    (_calculate_sharpe_ratio sqrt (map num_profit ats))
    (_calculate_max_drawdown (map num_profit ats))
    (_analyze_time_distribution hour ats)
    (_analyze_symbol_distribution ats).

(** Non-decreasing sequence of rationals. *)
Fixpoint non_decreasing (l : list Q) : Prop :=
  match l with
  | [] => True
  | x :: l' =>
      match l' with
      | [] => True
      | y :: _ => x <= y /\ non_decreasing l'
      end
  end.

(** An iteration order for sets: every element once, nothing else. *)
Definition set_order (iter : list string -> list string) : Prop :=
  forall l, NoDup (iter l) /\ (forall x, In x (iter l) <-> In x l).




Definition mean (l : list Q) : Q := Qsum l / Qlen l.


(** What [analyze_trades] hands back for an address; [None] is [{}]. *)
Definition analysis_of (sqrt : Q -> Q) (hour : Q -> outcome nat)
  (trades : list Trade) (a : string) : option AddressResult :=
  match analyze_trades sqrt hour trades a with
  | Returned v => v
  | Raised _ => None
  end.

(** The results that pass the activity filter, in the order of the
    given addresses. *)
Definition qualifying (sqrt : Q -> Q) (hour : Q -> outcome nat)
  (trades : list Trade) (min_trades : Z) (addresses : list string)
  : list AddressResult :=
  flat_map (fun a => match analysis_of sqrt hour trades a with
                     | Some r =>
                         if (min_trades <=? Z.of_nat (total_trades r))%Z
                         then [r] else []
                     | None => []
                     end) addresses.

(** Bounds on the exact relative change between which the price-trend
    test of [_analyze_trades] can go either way in double precision:
    0.001 (1 + 2^-50) and 0.001 (1 - 2^-50). *)
Definition trend_margin_up : Q := (1 # 1000) * (1 + (1 # 1125899906842624)).
Definition trend_margin_flat : Q := (1 # 1000) * (1 - (1 # 1125899906842624)).


End Spec.
Import AddressAnalysis Spec.

(* ================================================================== *)
(** ** [BackpackClient]: rate limit and kline window (backpack_client.py) *)

Module BackpackRequests.

(** The [rate_limit] dictionary of the client. *)
Record RateLimit : Type := mkRateLimit {
  requests_per_minute : Q;
  last_request_time : Q
}.

(** As [__init__] sets it. *)
Definition initial_rate_limit : RateLimit := mkRateLimit 2000 0.

(** [max(0, x)]: the second argument wins only when it is greater. *)
Definition py_max0 (x : Q) : Q := if Qlt_bool 0 x then x else 0.

(** [_check_rate_limit].  The two readings of [time.time()] are given:
    [t1] on entry and [t2] after the optional [time.sleep].  The result
    is the updated dictionary and the duration passed to [time.sleep]
    ([None] when it is not called). *)
Definition _check_rate_limit (t1 t2 : Q) (rate_limit : RateLimit)
  : outcome (RateLimit * option Q) :=
  let current_time := t1 in
  let time_since_last_request := current_time - last_request_time rate_limit in
  interval <- py_div 60 (requests_per_minute rate_limit) ;;
  let wait_time := py_max0 (interval - time_since_last_request) in
  let slept := if Qlt_bool 0 wait_time then Some wait_time else None in
  ret (mkRateLimit (requests_per_minute rate_limit) t2, slept).

(** What [time.sleep] and [time.time] guarantee between the two
    readings: the clock does not go back, and a sleep of [w] seconds
    lasts at least [w]. *)
Definition clock_contract (t1 t2 : Q) (slept : option Q) : Prop :=
  match slept with
  | Some w => t1 + w <= t2
  | None => t1 <= t2
  end.

Local Open Scope Z_scope.

(** Milliseconds in 24 hours and in 8 hours. *)
Definition ms_24h : Z := 24 * 60 * 60 * 1000.
Definition ms_8h : Z := 8 * 60 * 60 * 1000.

(** The ['startTime'] and ['endTime'] parameters [get_klines] sends,
    from [current_time = int(time.time() * 1000)] and the two optional
    arguments. *)
Definition get_klines_window (current_time : Z) (start_time end_time : option Z)
  : Z * Z :=
  let start_time :=
    match start_time with
    | None => current_time - ms_24h
    | Some s => s
    end in
  let end_time :=
    match end_time with
    | None => current_time
    | Some e => e
    end in
  let start_time :=
    if start_time >? current_time then current_time - ms_24h else start_time in
  let end_time :=
    if end_time >? current_time then current_time else end_time in
  let start_time :=
    if start_time >=? end_time then end_time - ms_24h else start_time in
  let start_time :=
    if start_time >? current_time then current_time - ms_24h else start_time in
  let end_time :=
    if end_time >? current_time then current_time else end_time in
  let start_time := start_time - ms_8h in
  let end_time := end_time - ms_8h in
  (start_time, end_time).

(** The same computation without the second pair of range checks. *)
Definition get_klines_window_short (current_time : Z)
  (start_time end_time : option Z) : Z * Z :=
  let start_time :=
    match start_time with
    | None => current_time - ms_24h
    | Some s => s
    end in
  let end_time :=
    match end_time with
    | None => current_time
    | Some e => e
    end in
  let start_time :=
    if start_time >? current_time then current_time - ms_24h else start_time in
  let end_time :=
    if end_time >? current_time then current_time else end_time in
  let start_time :=
    if start_time >=? end_time then end_time - ms_24h else start_time in
  (start_time - ms_8h, end_time - ms_8h).

End BackpackRequests.

(* ================================================================== *)
(** ** [MarketAnalysis.find_active_markets] (market_analysis.py) *)

Module MarketDiscovery.
Import MarketAnalysis.

(** An entry of [get_markets()]; only its ['symbol'] key is read. *)
Record Market : Type := mkMarket {
  m_symbol : option string
}.

(** An entry of the returned list. *)
Record ActiveMarket : Type := mkActiveMarket {
  am_symbol : string;
  am_analysis : MarketResult
}.

(** [analysis.get('trade_analysis', {}).get('total_trades', 0)] and
    [....get('total_value', 0)]. *)
Definition get_total_trades (analysis : MarketResult) : Z :=
  match trade_analysis analysis with
  | Some t => Z.of_nat (ta_total_trades t)
  | None => 0%Z
  end.

Definition get_total_value (analysis : MarketResult) : Q :=
  match trade_analysis analysis with
  | Some t => total_value t
  | None => 0
  end.

(** The activity test of the loop. *)
Definition is_active (min_trades : Z) (min_volume : Q)
  (analysis : MarketResult) : bool :=
  (min_trades <=? get_total_trades analysis)%Z
  && Qle_bool min_volume (get_total_value analysis).

Section Discovery.
Variable sqrt : Q -> Q.
Variable client : Client.

(** The [for market in markets] loop. *)
Fixpoint active_markets_loop (markets : list Market)
  (min_trades : Z) (min_volume : Q) : outcome (list ActiveMarket) :=
  match markets with
  | [] => ret []
  | market :: rest =>
      match m_symbol market with
      | None => active_markets_loop rest min_trades min_volume
      | Some symbol =>
          if String.eqb symbol ""
          then active_markets_loop rest min_trades min_volume
          else
            analysis <- analyze_market sqrt client symbol ;;
            match analysis with
            | None => active_markets_loop rest min_trades min_volume
            | Some an =>
                active_markets <-
                  active_markets_loop rest min_trades min_volume ;;
                ret (if is_active min_trades min_volume an
                     then mkActiveMarket symbol an :: active_markets
                     else active_markets)
            end
      end
  end.

(** [markets] is what [get_markets()] returned. *)
Definition find_active_markets_body (markets : list Market)
  (min_trades : Z) (min_volume : Q) : outcome (list ActiveMarket) :=
  active_markets <- active_markets_loop markets min_trades min_volume ;;
  ret (list_sort (fun x => Fin (get_total_value (am_analysis x))) true
         active_markets).

Definition find_active_markets (markets : list Market)
  (min_trades : Z) (min_volume : Q) : outcome (list ActiveMarket) :=
  try_except (find_active_markets_body markets min_trades min_volume)
             (fun _ => ret []).

(** The defaults [min_trades = 100], [min_volume = 1000]. *)
Definition find_active_markets_default (markets : list Market)
  : outcome (list ActiveMarket) :=
  find_active_markets markets 100 1000.

End Discovery.

End MarketDiscovery.

(* ================================================================== *)
(** ** Vocabulary of the further statements *)

Module SpecMore.
Import MarketAnalysis MarketDiscovery.

(** The symbols [find_active_markets] analyses, in market order. *)
Definition truthy_symbols (markets : list Market) : list string :=
  flat_map (fun m => match m_symbol m with
                     | Some s => if String.eqb s "" then [] else [s]
                     | None => []
                     end) markets.

(** What [analyze_market] hands back for a symbol. *)
Definition market_analysis_of (sqrt : Q -> Q) (client : Client)
  (symbol : string) : option MarketResult :=
  match analyze_market sqrt client symbol with
  | Returned v => v
  | Raised _ => None
  end.

(** The active markets in market order, before sorting. *)
Definition active_in_order (sqrt : Q -> Q) (client : Client)
  (markets : list Market) (min_trades : Z) (min_volume : Q)
  : list ActiveMarket :=
  flat_map (fun s => match market_analysis_of sqrt client s with
                     | Some an =>
                         if is_active min_trades min_volume an
                         then [mkActiveMarket s an] else []
                     | None => []
                     end) (truthy_symbols markets).

(** Descending order of traded value. *)
Definition value_ge (x y : ActiveMarket) : Prop :=
  get_total_value (am_analysis y) <= get_total_value (am_analysis x).

Definition same_value (v : Q) (x : ActiveMarket) : bool :=
  Qeq_bool v (get_total_value (am_analysis x)).



(** Strictly increasing sequence of rationals. *)
Fixpoint increasing (l : list Q) : Prop :=
  match l with
  | [] => True
  | x :: l' =>
      match l' with
      | [] => True
      | y :: _ => x < y /\ increasing l'
      end
  end.

(** Strictly decreasing sequence of rationals. *)
Fixpoint decreasing (l : list Q) : Prop :=
  match l with
  | [] => True
  | x :: l' =>
      match l' with
      | [] => True
      | y :: _ => y < x /\ decreasing l'
      end
  end.

End SpecMore.

(* ================================================================== *)
(** ** [src/analysis/trader_analysis.py]: [TraderAnalysis.analyze_trades] *)

Module TraderAnalysis.
Import MarketAnalysis.

(** The dictionary [analyze_trades] returns. *)
Record TraderResult : Type := mkTraderResult {
  total_trades : nat;
  win_rate : Q;
  profit_loss : Q;
  avg_profit : Q;
  max_profit : Q;
  max_loss : Q
}.

(** [df['value']]: price times quantity. *)
Definition value (t : MarketTrade) : Q := price t * quantity t.

(** [df['profit']]: the value of the trade, negated when the buyer is
    the maker. *)
Definition profit (t : MarketTrade) : Q :=
  if negb (isBuyerMaker t) then value t else - value t.

Definition analyze_trades_body (trades : list MarketTrade)
  : outcome (option TraderResult) :=
  if negb (nonempty trades) then ret (Some (mkTraderResult 0 0 0 0 0 0))
  else
    let total_trades := List.length trades in
    let profits := map profit trades in
    let profitable_trades := filter (fun p => Qlt_bool 0 p) profits in
    win_rate <-
      (if (0 <? total_trades)%nat
       then py_div (Qlen profitable_trades) (Qlen trades)
       else ret 0) ;;
    let total_profit := Qsum profits in
    let avg_profit := np_mean profits in
    let max_profit := np_max 0 profits in
    let max_loss := np_min 0 profits in
    ret (Some (mkTraderResult total_trades win_rate total_profit avg_profit
                 max_profit max_loss)).

Definition analyze_trades (trades : list MarketTrade)
  : outcome (option TraderResult) :=
  try_except (analyze_trades_body trades) (fun _ => ret None).

End TraderAnalysis.

(* ================================================================== *)
(** ** Vocabulary: counting tables *)

Module SpecTables.
Import AddressAnalysis Spec.






(** Reading the hour counts. *)
Definition hour_count (h : nat) (tbl : list (nat * nat)) : nat :=
  match find (fun e => Nat.eqb (fst e) h) tbl with
  | Some e => snd e
  | None => 0%nat
  end.

(** The hour of one trade, as [_analyze_time_distribution] derives it. *)
Definition trade_hour (hour : Q -> outcome nat) (t : Trade) : outcome nat :=
  ts <- as_num (get_timestamp t) ;; hour (ts / 1000).

End SpecTables.

(** A square root that respects equality of rationals: [sqrt_12] of the
    reduced fraction. *)
Definition sqrt_12_red (q : Q) : Q := sqrt_12 (Qred q).

(* ================================================================== *)
(** ** numpy arrays of machine numbers

    The array operations of [_calculate_max_drawdown] as numpy carries
    them out: on a [float64] array every sum and difference is rounded
    to binary64, may overflow to an infinity, and NaN propagates; on an
    [int64] array sums and differences wrap around modulo [2 ^ 64]. *)

Module Float64.

(** [np.cumsum]: the first entry is the first element, each further
    entry adds one element to the previous entry. *)
Fixpoint cumsum_from (acc : npfloat) (l : list npfloat) : list npfloat :=
  match l with
  | [] => []
  | x :: l' => f64_add acc x :: cumsum_from (f64_add acc x) l'
  end.

Definition cumsum (l : list npfloat) : list npfloat :=
  match l with
  | [] => []
  | x :: l' => x :: cumsum_from x l'
  end.

(** [np.maximum]: NaN as soon as one side is NaN. *)
Definition np_maximum (x y : npfloat) : npfloat :=
  if np_isnan x then x
  else if np_isnan y then y
  else if np_ltb x y then y else x.

Fixpoint maximum_accumulate_from (m : npfloat) (l : list npfloat)
  : list npfloat :=
  match l with
  | [] => []
  | x :: l' => np_maximum m x :: maximum_accumulate_from (np_maximum m x) l'
  end.

Definition maximum_accumulate (l : list npfloat) : list npfloat :=
  match l with
  | [] => []
  | x :: l' => x :: maximum_accumulate_from x l'
  end.

Fixpoint arr_sub (a b : list npfloat) : list npfloat :=
  match a, b with
  | x :: a', y :: b' => f64_sub x y :: arr_sub a' b'
  | _, _ => []
  end.

(** [np.max] of a non-empty array: NaN as soon as one entry is NaN. *)
Definition np_max (d : npfloat) (l : list npfloat) : npfloat :=
  match l with
  | [] => d
  | x :: l' => fold_left np_maximum l' x
  end.

(** Lines 117 to 119 of address_analysis.py on a [float64] array. *)
Definition max_drawdown (returns : list npfloat) : npfloat :=
  let cumulative := cumsum returns in
  let running_max := maximum_accumulate cumulative in
  let drawdown := arr_sub running_max cumulative in
  if (0 <? List.length drawdown)%nat then np_max (Fin 0) drawdown else Fin 0.

End Float64.

Module Int64.

Local Open Scope Z_scope.

Definition in_range (z : Z) : bool := (- 2 ^ 63 <=? z) && (z <? 2 ^ 63).

(** The 64-bit two's complement value of an integer. *)
Definition wrap (z : Z) : Z := (z + 2 ^ 63) mod 2 ^ 64 - 2 ^ 63.

Fixpoint cumsum_from (acc : Z) (l : list Z) : list Z :=
  match l with
  | [] => []
  | x :: l' => wrap (acc + x) :: cumsum_from (wrap (acc + x)) l'
  end.

Definition cumsum (l : list Z) : list Z :=
  match l with
  | [] => []
  | x :: l' => x :: cumsum_from x l'
  end.

Fixpoint maximum_accumulate_from (m : Z) (l : list Z) : list Z :=
  match l with
  | [] => []
  | x :: l' => Z.max m x :: maximum_accumulate_from (Z.max m x) l'
  end.

Definition maximum_accumulate (l : list Z) : list Z :=
  match l with
  | [] => []
  | x :: l' => x :: maximum_accumulate_from x l'
  end.

Fixpoint arr_sub (a b : list Z) : list Z :=
  match a, b with
  | x :: a', y :: b' => wrap (x - y) :: arr_sub a' b'
  | _, _ => []
  end.

Definition np_max (d : Z) (l : list Z) : Z :=
  match l with
  | [] => d
  | x :: l' => fold_left Z.max l' x
  end.

(** Lines 117 to 119 of address_analysis.py on an [int64] array. *)
Definition max_drawdown (returns : list Z) : Z :=
  let cumulative := cumsum returns in
  let running_max := maximum_accumulate cumulative in
  let drawdown := arr_sub running_max cumulative in
  if (0 <? List.length drawdown)%nat then np_max 0 drawdown else 0.

End Int64.

(* ================================================================== *)
(** ** [AddressAnalysis] on Python numbers (address_analysis.py)

    [analyze_trades] and [_calculate_max_drawdown] once more, with the
    numbers as Python and numpy have them.  A profit is an [int] of any
    size or a [float] (a double, an infinity or NaN).  Sums of [int]s
    are exact; as soon as a [float] takes part, the [int] operand is
    converted (which raises [OverflowError] when it is too large) and
    the result is rounded to binary64; a quotient is always a rounded
    [float].  A record of the trade list need not be a dictionary.
    [AddressAnalysis] above is the same code read over the rationals. *)

Module AddressAnalysisPy.

Inductive pynum : Type :=
| PyInt (z : Z)
| PyFloat (x : npfloat).

(** The value under ['profit']: a number, or anything else. *)
Inductive profit_value : Type :=
| PyNumber (n : pynum)
| PyOther.

Record TradeDict : Type := mkTradeDict {
  d_address : option string;
  d_profit : option profit_value;
  d_symbol : option string;
  d_timestamp : option pyval
}.

(** An item of the trade list: a dictionary, or an object without a
    [get] method. *)
Inductive record : Type :=
| Dict (d : TradeDict)
| NotDict.

(** The dictionary returned by [analyze_trades]. *)
Record AddressResult : Type := mkAddressResult {
  address : string;
  total_trades : nat;
  win_rate : pynum;
  total_profit : pynum;
  total_loss : pynum;
  avg_profit : pynum;
  avg_loss : pynum;
  max_profit : pynum;
  max_loss : pynum;
  profit_factor : pynum;
  sharpe_ratio : npfloat;
  max_drawdown : pynum;
  time_distribution : option AddressAnalysis.TimeDistribution;
  symbol_distribution : option AddressAnalysis.SymbolDistribution
}.

(** The number a Python value stands for. *)
Definition num_val (n : pynum) : npfloat :=
  match n with
  | PyInt z => Fin (inject_Z z)
  | PyFloat x => x
  end.

(** [float(n)]: the nearest double; [OverflowError] for an [int] that
    rounds beyond the largest double. *)
Definition to_float (n : pynum) : outcome npfloat :=
  match n with
  | PyFloat x => ret x
  | PyInt z =>
      match round64 (inject_Z z) with
      | Fin q => ret (Fin q)
      | _ => Raised OverflowError
      end
  end.

(** [x == y] on floats: false as soon as one side is NaN. *)
Definition np_eqb (x y : npfloat) : bool :=
  match x, y with
  | Fin a, Fin b => Qeq_bool a b
  | PInf, PInf | NInf, NInf => true
  | _, _ => false
  end.

Definition np_abs (x : npfloat) : npfloat :=
  match x with
  | Fin a => Fin (Qabs a)
  | PInf | NInf => PInf
  | NaN => NaN
  end.

(** Python compares an [int] with a [float] by their exact values. *)
Definition py_gt (a b : pynum) : bool := np_gtb (num_val a) (num_val b).
Definition py_lt (a b : pynum) : bool := np_ltb (num_val a) (num_val b).
Definition py_eq (a b : pynum) : bool := np_eqb (num_val a) (num_val b).

(** [a + b] *)
Definition py_add (a b : pynum) : outcome pynum :=
  match a, b with
  | PyInt x, PyInt y => ret (PyInt (x + y))
  | _, _ => x <- to_float a ;; y <- to_float b ;; ret (PyFloat (f64_add x y))
  end.

(** [a / b]: the quotient of two [int]s is rounded once, and raises
    [OverflowError] when it rounds beyond the largest double. *)
Definition py_truediv (a b : pynum) : outcome pynum :=
  match a, b with
  | PyInt x, PyInt y =>
      if (y =? 0)%Z then Raised ZeroDivisionError
      else match round64 (inject_Z x / inject_Z y) with
           | Fin q => ret (PyFloat (Fin q))
           | _ => Raised OverflowError
           end
  | _, _ =>
      x <- to_float a ;;
      y <- to_float b ;;
      if np_eqb y (Fin 0) then Raised ZeroDivisionError
      else ret (PyFloat (f64_div x y))
  end.

(** [abs(a)] *)
Definition py_abs (a : pynum) : pynum :=
  match a with
  | PyInt z => PyInt (Z.abs z)
  | PyFloat x => PyFloat (np_abs x)
  end.

(** [sum(...)]: the items are added from left to right, starting from
    the [int] 0 (as CPython does up to version 3.11; later versions
    compensate the rounding error of a sum of floats). *)
Fixpoint py_sum_from (acc : pynum) (l : list pynum) : outcome pynum :=
  match l with
  | [] => ret acc
  | x :: l' => s <- py_add acc x ;; py_sum_from s l'
  end.

Definition py_sum (l : list pynum) : outcome pynum := py_sum_from (PyInt 0) l.

(** [max(..., default=0)] and [min(..., default=0)] *)
Definition py_max (l : list pynum) (default : pynum) : pynum :=
  match max_by (fun x best => py_gt x best) l with
  | Some m => m
  | None => default
  end.

Definition py_min (l : list pynum) (default : pynum) : pynum :=
  match max_by (fun x best => py_lt x best) l with
  | Some m => m
  | None => default
  end.

(** [t.get('profit', 0)] *)
Definition get_profit (t : TradeDict) : profit_value :=
  match d_profit t with
  | Some v => v
  | None => PyNumber (PyInt 0)
  end.

(** Comparison and arithmetic raise [TypeError] on a value that is not
    a number. *)
Definition as_number (v : profit_value) : outcome pynum :=
  match v with
  | PyNumber n => ret n
  | PyOther => Raised TypeError
  end.

(** [[t for t in trades if t.get('address') == address]]: an item
    without [get] raises [AttributeError]. *)
Fixpoint select_address (address : string) (trades : list record)
  : outcome (list TradeDict) :=
  match trades with
  | [] => ret []
  | NotDict :: _ => Raised AttributeError
  | Dict t :: rest =>
      ts <- select_address address rest ;;
      ret (match d_address t with
           | Some a => if String.eqb a address then t :: ts else ts
           | None => ts
           end)
  end.

(** [t.get('profit', 0) > 0] and [t.get('profit', 0) < 0] *)
Definition profit_gt0 (t : TradeDict) : outcome bool :=
  p <- as_number (get_profit t) ;; ret (py_gt p (PyInt 0)).

Definition profit_lt0 (t : TradeDict) : outcome bool :=
  p <- as_number (get_profit t) ;; ret (py_lt p (PyInt 0)).

(** [[t.get('profit', 0) for t in ts]] *)
Definition profits (ts : list TradeDict) : outcome (list pynum) :=
  mapM (fun t => as_number (get_profit t)) ts.

(** [sum(t.get('profit', 0) for t in ts)] *)
Definition sum_profit (ts : list TradeDict) : outcome pynum :=
  ps <- profits ts ;; py_sum ps.

(** [np.array(returns)] and the conversion [np.cumsum(returns)] makes:
    an [int64] array when every item is an [int] of the 64-bit range
    (the default integer of numpy on 64-bit Linux and macOS, and of
    numpy 2 on every 64-bit platform), a [float64] array when a [float]
    is among the items.  With an [int] outside the 64-bit range numpy
    builds an [uint64], [float64] or object array by rules that are not
    modelled ([None] here). *)
Inductive ndarray : Type :=
| Int64Array (a : list Z)
| Float64Array (a : list npfloat).

Definition is_int (n : pynum) : bool :=
  match n with PyInt _ => true | PyFloat _ => false end.

Definition as_int64 (n : pynum) : option Z :=
  match n with
  | PyInt z => if Int64.in_range z then Some z else None
  | PyFloat _ => None
  end.

Definition as_double (n : pynum) : option npfloat :=
  match n with
  | PyInt z => if Int64.in_range z then Some (round64 (inject_Z z)) else None
  | PyFloat x => Some x
  end.

Fixpoint all_of {A B} (f : A -> option B) (l : list A) : option (list B) :=
  match l with
  | [] => Some []
  | x :: l' =>
      match f x, all_of f l' with
      | Some y, Some ys => Some (y :: ys)
      | _, _ => None
      end
  end.

Definition np_array (l : list pynum) : option ndarray :=
  if forallb is_int l then option_map Int64Array (all_of as_int64 l)
  else option_map Float64Array (all_of as_double l).

(** [symbol_stats]: number of trades and summed profit per symbol, in
    the order in which the symbols first occur. *)
Fixpoint stats_add (s : string) (p : pynum)
  (tbl : list (string * (nat * pynum))) : outcome (list (string * (nat * pynum))) :=
  match tbl with
  | [] => q <- py_add (PyInt 0) p ;; ret [(s, (1%nat, q))]
  | (k, (c, q)) :: tbl' =>
      if String.eqb k s then q' <- py_add q p ;; ret ((k, (S c, q')) :: tbl')
      else rest <- stats_add s p tbl' ;; ret ((k, (c, q)) :: rest)
  end.

Fixpoint symbol_stats_loop (trades : list TradeDict)
  (tbl : list (string * (nat * pynum)))
  : outcome (list (string * (nat * pynum))) :=
  match trades with
  | [] => ret tbl
  | trade :: rest =>
      match d_symbol trade with
      | None => symbol_stats_loop rest tbl
      | Some s =>
          if String.eqb s "" then symbol_stats_loop rest tbl
          else
            p <- as_number (get_profit trade) ;;
            tbl' <- stats_add s p tbl ;;
            symbol_stats_loop rest tbl'
      end
  end.

Definition _analyze_symbol_distribution (trades : list TradeDict)
  : option AddressAnalysis.SymbolDistribution :=
  let body :=
    symbol_stats <- symbol_stats_loop trades [] ;;
    match
      max_by (fun x best => (fst (snd best) <? fst (snd x))%nat) symbol_stats,
      max_by (fun x best => py_gt (snd (snd x)) (snd (snd best))) symbol_stats
    with
    | Some most_traded, Some most_profitable =>
        ret (Some (AddressAnalysis.mkSymbolDistribution
                     (fst most_traded) (fst most_profitable)))
    | _, _ => ret None
    end in
  match try_except body (fun _ => ret None) with
  | Returned d => d
  | Raised _ => None
  end.

(** [_analyze_time_distribution] reads the timestamps only. *)
Definition timestamps_of (t : TradeDict) : AddressAnalysis.Trade :=
  AddressAnalysis.mkTrade (d_address t) None (d_symbol t) (d_timestamp t).

Section Analysis.

(** [np.mean(excess) / np.std(excess) * np.sqrt(252)] for the array
    [np.array(returns)] of two or more items.  numpy adds the entries of
    an array pairwise, in an order that depends on its length; this and
    the square root are not modelled, the value is a parameter.  On an
    [int64] or [float64] array these operations return a float and do
    not raise. *)
Variable sharpe_of_array : ndarray -> npfloat.

(** [_calculate_sharpe_ratio] and [_calculate_max_drawdown] on a list
    that holds an [int] outside the 64-bit range. *)
Variable wide_sharpe_ratio : list pynum -> outcome npfloat.
Variable wide_max_drawdown : list pynum -> outcome pynum.

Variable fromtimestamp_hour : Q -> outcome nat.

Definition _calculate_sharpe_ratio (returns : list pynum) : outcome npfloat :=
  if negb (nonempty returns) then ret (Fin 0)
  else
    match np_array returns with
    | None => wide_sharpe_ratio returns
    | Some array =>
        if (List.length returns <? 2)%nat then ret (Fin 0)
        else ret (sharpe_of_array array)
    end.

Definition _calculate_max_drawdown (returns : list pynum) : outcome pynum :=
  if negb (nonempty returns) then ret (PyFloat (Fin 0))
  else
    match np_array returns with
    | None => wide_max_drawdown returns
    | Some (Int64Array a) => ret (PyInt (Int64.max_drawdown a))
    | Some (Float64Array a) => ret (PyFloat (Float64.max_drawdown a))
    end.

(** The body of the [try] block of [analyze_trades]. *)
Definition analyze_trades_body (trades : list record) (address : string)
  : outcome (option AddressResult) :=
  address_trades <- select_address address trades ;;
  if negb (nonempty address_trades) then ret None
  else
    let total_trades := List.length address_trades in
    winning_trades <- filterM profit_gt0 address_trades ;;
    losing_trades <- filterM profit_lt0 address_trades ;;
    win_rate <- (if (0 <? total_trades)%nat
                 then py_truediv (PyInt (Z.of_nat (List.length winning_trades)))
                                 (PyInt (Z.of_nat total_trades))
                 else ret (PyInt 0)) ;;
    total_profit <- sum_profit winning_trades ;;
    total_loss <- sum_profit losing_trades ;;
    avg_profit <- (if nonempty winning_trades
                   then py_truediv total_profit
                          (PyInt (Z.of_nat (List.length winning_trades)))
                   else ret (PyInt 0)) ;;
    avg_loss <- (if nonempty losing_trades
                 then py_truediv total_loss
                        (PyInt (Z.of_nat (List.length losing_trades)))
                 else ret (PyInt 0)) ;;
    win_profits <- profits winning_trades ;;
    let max_profit := py_max win_profits (PyInt 0) in
    lose_profits <- profits losing_trades ;;
    let max_loss := py_min lose_profits (PyInt 0) in
    profit_factor <- (if negb (py_eq total_loss (PyInt 0))
                      then q <- py_truediv total_profit total_loss ;;
                           ret (py_abs q)
                      else ret (PyFloat PInf)) ;;
    returns <- profits address_trades ;;
    sharpe_ratio <- _calculate_sharpe_ratio returns ;;
    max_drawdown <- _calculate_max_drawdown returns ;;
    let time_distribution :=
      AddressAnalysis._analyze_time_distribution fromtimestamp_hour
        (map timestamps_of address_trades) in
    let symbol_distribution := _analyze_symbol_distribution address_trades in
    ret (Some (mkAddressResult address total_trades win_rate total_profit
                 total_loss avg_profit avg_loss max_profit max_loss
                 profit_factor sharpe_ratio max_drawdown
                 time_distribution symbol_distribution)).

Definition analyze_trades (trades : list record) (address : string)
  : outcome (option AddressResult) :=
  try_except (analyze_trades_body trades address) (fun _ => ret None).

End Analysis.

End AddressAnalysisPy.

(* ================================================================== *)
(** ** Vocabulary of the statements on Python numbers *)

Module SpecPy.
Import AddressAnalysisPy.

Definition is_dict (r : record) : Prop := exists t, r = Dict t.

(** The trades of one address, as [analyze_trades] selects them. *)
Definition address_trades (trades : list record) (a : string)
  : list TradeDict :=
  flat_map (fun r => match r with
                     | Dict t =>
                         match d_address t with
                         | Some a' => if String.eqb a' a then [t] else []
                         | None => []
                         end
                     | NotDict => []
                     end) trades.

(** A [float], or an [int] of the 64-bit range. *)
Definition machine_number (n : pynum) : Prop :=
  match n with
  | PyInt z => Int64.in_range z = true
  | PyFloat _ => True
  end.

(** A trade whose profit is a machine number (or is missing, hence 0). *)
Definition machine_profit (t : TradeDict) : Prop :=
  exists n, get_profit t = PyNumber n /\ machine_number n.

(** The exact value of the profit of a trade; NaN stands in for a
    profit that is not a number. *)
Definition profit_of (t : TradeDict) : npfloat :=
  match get_profit t with
  | PyNumber n => num_val n
  | PyOther => NaN
  end.

(** The profit of a trade as a number (0 for a profit that is not a
    number). *)
Definition number_of (t : TradeDict) : pynum :=
  match get_profit t with
  | PyNumber n => n
  | PyOther => PyInt 0
  end.

(** A trade whose profit is a machine number other than NaN. *)
Definition ordered_profit (t : TradeDict) : Prop :=
  machine_profit t /\ profit_of t <> NaN.

Definition winning (ts : list TradeDict) : list TradeDict :=
  filter (fun t => np_gtb (profit_of t) (Fin 0)) ts.

Definition losing (ts : list TradeDict) : list TradeDict :=
  filter (fun t => np_ltb (profit_of t) (Fin 0)) ts.

Definition breakeven (ts : list TradeDict) : list TradeDict :=
  filter (fun t => np_eqb (profit_of t) (Fin 0)) ts.

(** The trades whose profit compares with nothing. *)
Definition unordered (ts : list TradeDict) : list TradeDict :=
  filter (fun t => np_isnan (profit_of t)) ts.

(** A trade whose profit is a machine number that is 0 or of magnitude
    between [2 ^ -480] and [2 ^ 480]. *)
Definition moderate_profit (t : TradeDict) : Prop :=
  machine_profit t
  /\ exists q, profit_of t = Fin q
               /\ (q == 0 \/ (2 ^ (-480) <= Qabs q /\ Qabs q <= 2 ^ 480)).

(** A trade whose profit is an [int] of the 64-bit range (or is
    missing, hence 0), that profit, and the sum of a list of integers. *)
Definition int_profit (t : TradeDict) : Prop :=
  exists z, get_profit t = PyNumber (PyInt z) /\ Int64.in_range z = true.

Definition int_of (t : TradeDict) : Z :=
  match get_profit t with
  | PyNumber (PyInt z) => z
  | _ => 0%Z
  end.

Definition Zsum (l : list Z) : Z := fold_right Z.add 0%Z l.

(** A number that, when it is a finite float, is a double; and a trade
    whose profit is such a number. *)
Definition double_number (n : pynum) : Prop :=
  match n with
  | PyFloat (Fin q) => is_binary64 q
  | _ => True
  end.

Definition double_profit (t : TradeDict) : Prop := double_number (number_of t).

(** A number whose exact value lies between two rationals. *)
Definition value_between (a b : Q) (n : pynum) : Prop :=
  exists v, num_val n = Fin v /\ a <= v /\ v <= b.

(** A [float], or an [int] of magnitude at most [k * 2 ^ 63]. *)
Definition int_bounded (k : Z) (n : pynum) : Prop :=
  match n with
  | PyInt z => (Z.abs z <= k * 2 ^ 63)%Z
  | PyFloat _ => True
  end.

(** Well-formed trades of address [a]. *)
Definition float_trade (a : string) (x : npfloat) : record :=
  Dict (mkTradeDict (Some a) (Some (PyNumber (PyFloat x))) None None).

Definition int_trade (a : string) (z : Z) : record :=
  Dict (mkTradeDict (Some a) (Some (PyNumber (PyInt z))) None None).

Definition is_finite (x : npfloat) : Prop := exists q, x = Fin q.

(** A value that is a double. *)
Definition is_double (x : npfloat) : Prop :=
  match x with
  | Fin q => is_binary64 q
  | _ => True
  end.

(** Non-decreasing sequence of floats. *)
Fixpoint non_decreasing_float (l : list npfloat) : Prop :=
  match l with
  | [] => True
  | x :: l' =>
      match l' with
      | [] => True
      | y :: _ => np_leb x y = true /\ non_decreasing_float l'
      end
  end.

(** The running sums of a list of integers, computed without
    wrap-around, and a non-decreasing sequence of integers. *)
Fixpoint running_sums_from (acc : Z) (l : list Z) : list Z :=
  match l with
  | [] => []
  | x :: l' => (acc + x)%Z :: running_sums_from (acc + x)%Z l'
  end.

Definition running_sums (l : list Z) : list Z := running_sums_from 0 l.

Fixpoint non_decreasing_int (l : list Z) : Prop :=
  match l with
  | [] => True
  | x :: l' =>
      match l' with
      | [] => True
      | y :: _ => (x <= y)%Z /\ non_decreasing_int l'
      end
  end.

(** Sample parameters for running [AddressAnalysisPy]: the Sharpe ratio
    of an array taken over the rationals with [sqrt_12] when all its
    entries are finite, and no result for a list with an [int] outside
    the 64-bit range. *)
Definition finite_value (x : npfloat) : option Q :=
  match x with Fin q => Some q | _ => None end.

Definition sharpe_exact (a : ndarray) : npfloat :=
  match a with
  | Int64Array zs =>
      AddressAnalysis._calculate_sharpe_ratio sqrt_12 (map inject_Z zs)
  | Float64Array xs =>
      match all_of finite_value xs with
      | Some qs => AddressAnalysis._calculate_sharpe_ratio sqrt_12 qs
      | None => NaN
      end
  end.

Definition wide_sharpe_raises (_ : list pynum) : outcome npfloat :=
  Raised OverflowError.

Definition wide_drawdown_raises (_ : list pynum) : outcome pynum :=
  Raised OverflowError.

End SpecPy.

(* ================================================================== *)
(** * Properties *)

(** ** The numeric model on examples *)

Example np_div_by_zero :
  np_div (Fin 1) (Fin 0) = PInf
  /\ np_div (Fin (-1)) (Fin 0) = NInf
  /\ np_div (Fin 0) (Fin 0) = NaN.
Proof. repeat split. Qed.

Example py_div_by_zero : py_div 1 0 = Raised ZeroDivisionError.
Proof. reflexivity. Qed.

Example max_drawdown_example : _calculate_max_drawdown [10; -5; 20] = 5.
Proof. reflexivity. Qed.

Example sharpe_single_trade : _calculate_sharpe_ratio sqrt_12 [7] = Fin 0.
Proof. reflexivity. Qed.

Example sharpe_constant_profits :
  _calculate_sharpe_ratio sqrt_12 [3; 3] = PInf.
Proof. reflexivity. Qed.

Example list_sort_descending_stable :
  list_sort (fun p => Fin (fst p)) true
    [(1, "a"); (3, "b"); (1, "c"); (2, "d"); (3, "e")]
  = [(3, "b"); (3, "e"); (2, "d"); (1, "a"); (1, "c")].
Proof. reflexivity. Qed.

(** A malformed timestamp is absorbed by the inner handler: the time
    distribution is empty, the analysis itself succeeds. *)
Example time_distribution_malformed :
  option_map time_distribution
    (analysis_of sqrt_12 utc_hour
       [mkTrade (Some "A") (Some (PyNum 4)) (Some "SOL_USDC") (Some (PyStr "noon"))]
       "A")
  = Some None.
Proof. reflexivity. Qed.

Example symbol_distribution_example :
  option_map symbol_distribution
    (analysis_of sqrt_12 utc_hour
       [mkTrade (Some "A") (Some (PyNum 4)) (Some "SOL_USDC") (Some (PyNum 0));
        mkTrade (Some "A") (Some (PyNum (-1))) (Some "SOL_USDC") (Some (PyNum 0));
        mkTrade (Some "A") (Some (PyNum 5)) (Some "BTC_USDC") (Some (PyNum 0))]
       "A")
  = Some (Some (mkSymbolDistribution "SOL_USDC" "BTC_USDC")).
Proof. reflexivity. Qed.

Example rolling_mean_examples :
  rolling_mean_last 3 [1; 2] = NaN
  /\ np_same (rolling_mean_last 3 [1; 2; 3; 4]) (Fin 3).
Proof. split; reflexivity. Qed.

(** ** Rationals and lists *)

Lemma Qlt_bool_iff (x y : Q) : Qlt_bool x y = true <-> x < y.
Proof.
  unfold Qlt_bool. rewrite negb_true_iff.
  split; intro H.
  - apply Qnot_le_lt. intro Hle. apply Qle_bool_iff in Hle. congruence.
  - destruct (Qle_bool y x) eqn:E; [|reflexivity].
    apply Qle_bool_iff in E. exfalso. apply (Qlt_not_le _ _ H E).
Qed.

Lemma Qlt_bool_false_iff (x y : Q) : Qlt_bool x y = false <-> y <= x.
Proof.
  unfold Qlt_bool. rewrite negb_false_iff. apply Qle_bool_iff.
Qed.

Lemma Qeq_bool_false_iff (x y : Q) : Qeq_bool x y = false <-> ~ x == y.
Proof.
  split; intro H.
  - intro E. apply Qeq_bool_iff in E. congruence.
  - destruct (Qeq_bool x y) eqn:E; [|reflexivity].
    apply Qeq_bool_iff in E. contradiction.
Qed.

Lemma Qmaxb_ge_l (x y : Q) : x <= Qmaxb x y.
Proof.
  unfold Qmaxb. destruct (Qle_bool x y) eqn:E.
  - now apply Qle_bool_iff.
  - apply Qle_refl.
Qed.

Lemma Qmaxb_ge_r (x y : Q) : y <= Qmaxb x y.
Proof.
  unfold Qmaxb. destruct (Qle_bool x y) eqn:E.
  - apply Qle_refl.
  - assert (Qlt_bool y x = true) as H by (unfold Qlt_bool; now rewrite E).
    apply Qlt_bool_iff in H. now apply Qlt_le_weak.
Qed.

Lemma Qmaxb_cases (x y : Q) : Qmaxb x y = x \/ Qmaxb x y = y.
Proof. unfold Qmaxb. destruct (Qle_bool x y); auto. Qed.

Lemma Qmaxb_le_r (x y : Q) : x <= y -> Qmaxb x y = y.
Proof.
  intro H. unfold Qmaxb. apply Qle_bool_iff in H. now rewrite H.
Qed.

Lemma Qsum_from (l : list Q) (a : Q) : fold_left Qplus l a == a + Qsum l.
Proof.
  unfold Qsum. revert a.
  induction l as [|x l IH]; intro a; simpl.
  - ring.
  - rewrite (IH (a + x)), (IH (0 + x)). ring.
Qed.

Lemma Qsum_cons (x : Q) (l : list Q) : Qsum (x :: l) == x + Qsum l.
Proof.
  unfold Qsum at 1. simpl. rewrite Qsum_from. ring.
Qed.

Lemma Qlen_pos {A} (l : list A) : l <> [] -> 0 < Qlen l.
Proof.
  destruct l as [|x l]; [congruence|]. intros _.
  unfold Qlen, Qlt. simpl. lia.
Qed.

Lemma Qlen_nonzero {A} (l : list A) : l <> [] -> Qeq_bool (Qlen l) 0 = false.
Proof.
  intro H. apply Qeq_bool_false_iff. intro E.
  pose proof (Qlen_pos l H) as P. rewrite E in P.
  exact (Qlt_irrefl _ P).
Qed.

Lemma Qlen_le {A} (l1 l2 : list A) :
  (List.length l1 <= List.length l2)%nat -> Qlen l1 <= Qlen l2.
Proof.
  intro H. unfold Qlen. rewrite <- Zle_Qle. lia.
Qed.

Lemma Qlen_nonneg {A} (l : list A) : 0 <= Qlen l.
Proof.
  unfold Qlen. change 0 with (inject_Z 0). rewrite <- Zle_Qle. lia.
Qed.

Lemma nonempty_true {A} (l : list A) : nonempty l = true <-> l <> [].
Proof. destruct l; simpl; split; congruence. Qed.

(** ** The exception monad *)

Lemma py_div_returns (a b : Q) :
  Qeq_bool b 0 = false -> py_div a b = Returned (a / b).
Proof. intro H. unfold py_div. now rewrite H. Qed.

Lemma py_div_raises (a b : Q) :
  b == 0 -> py_div a b = Raised ZeroDivisionError.
Proof.
  intro H. unfold py_div. apply Qeq_bool_iff in H. now rewrite H.
Qed.

Lemma try_except_returns {A} (body : outcome A) (d : A) :
  exists v, try_except body (fun _ => Returned d) = Returned v.
Proof. destruct body; simpl; eauto. Qed.

Lemma mapM_pure {A B} (f : A -> outcome B) (g : A -> B) (l : list A) :
  Forall (fun x => f x = Returned (g x)) l ->
  mapM f l = Returned (map g l).
Proof.
  induction 1 as [|x l Hx _ IH]; simpl.
  - reflexivity.
  - now rewrite Hx, IH.
Qed.

Lemma filterM_pure {A} (p : A -> outcome bool) (q : A -> bool) (l : list A) :
  Forall (fun x => p x = Returned (q x)) l ->
  filterM p l = Returned (filter q l).
Proof.
  induction 1 as [|x l Hx _ IH]; simpl.
  - reflexivity.
  - rewrite Hx, IH. simpl. now destruct (q x).
Qed.

Lemma filterM_raises {A} (p : A -> outcome bool) (e : exn) (l : list A) :
  (forall x e', p x = Raised e' -> e' = e) ->
  Exists (fun x => p x = Raised e) l ->
  filterM p l = Raised e.
Proof.
  intros Hp. induction 1 as [x l Hx | x l _ IH]; simpl.
  - now rewrite Hx.
  - rewrite IH. destruct (p x) as [b|e'] eqn:E; simpl; [reflexivity|].
    now rewrite (Hp x e' E).
Qed.

(** ** [analyze_trades]: what the [try] block computes *)

Section AnalyzeTrades.
Variable sqrt : Q -> Q.
Variable hour : Q -> outcome nat.

Lemma as_num_numeric (t : Trade) :
  numeric_profit t -> as_num (get_profit t) = Returned (num_profit t).
Proof.
  intros [q Hq]. unfold num_profit. now rewrite Hq.
Qed.

Lemma as_num_malformed (t : Trade) :
  ~ numeric_profit t -> as_num (get_profit t) = Raised TypeError.
Proof.
  intro H. unfold numeric_profit in H.
  destruct (get_profit t) as [q| |] eqn:E; simpl; try reflexivity.
  exfalso. apply H. now exists q.
Qed.

Lemma numeric_profit_dec (t : Trade) : {numeric_profit t} + {~ numeric_profit t}.
Proof.
  unfold numeric_profit.
  destruct (get_profit t) as [q| |]; [left; now exists q| |];
    right; intros [q Hq]; discriminate.
Defined.

Lemma Forall_numeric_filter (f : Trade -> bool) (l : list Trade) :
  Forall numeric_profit l -> Forall numeric_profit (filter f l).
Proof.
  intro H. apply Forall_forall. intros t Ht.
  apply filter_In in Ht. destruct Ht as [Ht _].
  now apply (proj1 (Forall_forall _ _) H).
Qed.

Lemma filterM_gt0 (l : list Trade) :
  Forall numeric_profit l -> filterM profit_gt0 l = Returned (winning l).
Proof.
  intro H. apply filterM_pure.
  apply Forall_forall. intros t Ht.
  unfold profit_gt0.
  rewrite (as_num_numeric t (proj1 (Forall_forall _ _) H t Ht)).
  reflexivity.
Qed.

Lemma filterM_lt0 (l : list Trade) :
  Forall numeric_profit l -> filterM profit_lt0 l = Returned (losing l).
Proof.
  intro H. apply filterM_pure.
  apply Forall_forall. intros t Ht.
  unfold profit_lt0.
  rewrite (as_num_numeric t (proj1 (Forall_forall _ _) H t Ht)).
  reflexivity.
Qed.

Lemma mapM_profits (l : list Trade) :
  Forall numeric_profit l ->
  mapM (fun t => as_num (get_profit t)) l = Returned (map num_profit l).
Proof.
  intro H. apply mapM_pure.
  apply Forall_forall. intros t Ht.
  apply as_num_numeric. now apply (proj1 (Forall_forall _ _) H).
Qed.

Lemma sum_profit_numeric (l : list Trade) :
  Forall numeric_profit l ->
  sum_profit l = Returned (Qsum (map num_profit l)).
Proof.
  intro H. unfold sum_profit. now rewrite (mapM_profits l H).
Qed.

Lemma analyze_trades_body_empty (trades : list Trade) (a : string) :
  address_trades trades a = [] ->
  analyze_trades_body sqrt hour trades a = Returned None.
Proof.
  unfold analyze_trades_body, address_trades. intro H. now rewrite H.
Qed.

Lemma analyze_trades_body_numeric (trades : list Trade) (a : string) :
  address_trades trades a <> [] ->
  Forall numeric_profit (address_trades trades a) ->
  analyze_trades_body sqrt hour trades a
  = Returned (Some (result_of sqrt hour a (address_trades trades a))).
Proof.
  intros Hne Hnum. unfold analyze_trades_body.
  fold (address_trades trades a).
  set (ats := address_trades trades a) in *.
  assert (nonempty ats = true) as Hn by now apply nonempty_true.
  rewrite Hn. cbn [negb].
  rewrite (filterM_gt0 ats Hnum). cbn [bind].
  rewrite (filterM_lt0 ats Hnum). cbn [bind].
  assert ((0 <? List.length ats)%nat = true) as Hlen.
  { apply Nat.ltb_lt. destruct ats; [congruence|simpl; lia]. }
  rewrite Hlen.
  rewrite (py_div_returns _ _ (Qlen_nonzero ats Hne)). cbn [bind].
  pose proof (Forall_numeric_filter (fun t => Qlt_bool 0 (num_profit t)) ats Hnum) as HW.
  pose proof (Forall_numeric_filter (fun t => Qlt_bool (num_profit t) 0) ats Hnum) as HL.
  fold (winning ats) in HW. fold (losing ats) in HL.
  rewrite (sum_profit_numeric _ HW). cbn [bind].
  rewrite (sum_profit_numeric _ HL). cbn [bind].
  rewrite (mapM_profits _ HW), (mapM_profits _ HL), (mapM_profits _ Hnum).
  unfold result_of.
  assert ((if nonempty (winning ats)
           then py_div (Qsum (map num_profit (winning ats))) (Qlen (winning ats))
           else Returned 0)
          = Returned (if nonempty (winning ats)
                      then Qsum (map num_profit (winning ats)) / Qlen (winning ats)
                      else 0)) as E1.
  { destruct (nonempty (winning ats)) eqn:E; [|reflexivity].
    apply py_div_returns, Qlen_nonzero. now apply nonempty_true. }
  assert ((if nonempty (losing ats)
           then py_div (Qsum (map num_profit (losing ats))) (Qlen (losing ats))
           else Returned 0)
          = Returned (if nonempty (losing ats)
                      then Qsum (map num_profit (losing ats)) / Qlen (losing ats)
                      else 0)) as E2.
  { destruct (nonempty (losing ats)) eqn:E; [|reflexivity].
    apply py_div_returns, Qlen_nonzero. now apply nonempty_true. }
  rewrite E1, E2. cbn [bind].
  destruct (Qeq_bool (Qsum (map num_profit (losing ats))) 0) eqn:E3; cbn [negb bind].
  - reflexivity.
  - rewrite (py_div_returns _ _ E3). reflexivity.
Qed.

Lemma analyze_trades_body_malformed (trades : list Trade) (a : string) :
  Exists (fun t => ~ numeric_profit t) (address_trades trades a) ->
  analyze_trades_body sqrt hour trades a = Raised TypeError.
Proof.
  intro Hex. unfold analyze_trades_body.
  fold (address_trades trades a).
  set (ats := address_trades trades a) in *.
  assert (nonempty ats = true) as Hn.
  { destruct ats; [inversion Hex|reflexivity]. }
  rewrite Hn. cbn [negb].
  rewrite (filterM_raises profit_gt0 TypeError ats).
  - reflexivity.
  - intros t e' H. unfold profit_gt0 in H.
    destruct (get_profit t); simpl in H; congruence.
  - apply Exists_exists. apply Exists_exists in Hex.
    destruct Hex as [t [Ht Hbad]]. exists t. split; [assumption|].
    unfold profit_gt0. now rewrite (as_num_malformed t Hbad).
Qed.

(** The three cases of [analyze_trades]. *)
Lemma analyze_trades_cases (trades : list Trade) (a : string) :
  let ats := address_trades trades a in
  (ats = [] /\ analyze_trades sqrt hour trades a = Returned None)
  \/ (ats <> [] /\ Forall numeric_profit ats
      /\ analyze_trades sqrt hour trades a
         = Returned (Some (result_of sqrt hour a ats)))
  \/ (ats <> [] /\ Exists (fun t => ~ numeric_profit t) ats
      /\ analyze_trades sqrt hour trades a = Returned None).
Proof.
  intro ats. unfold analyze_trades.
  destruct ats as [|t0 ats0] eqn:E.
  - left. split; [reflexivity|].
    now rewrite (analyze_trades_body_empty trades a E).
  - right.
    destruct (Forall_Exists_dec numeric_profit numeric_profit_dec (t0 :: ats0))
      as [Hall|Hex].
    + left. split; [congruence|]. split; [assumption|].
      rewrite <- E in *. fold (address_trades trades a) in *.
      rewrite analyze_trades_body_numeric; [reflexivity| |assumption].
      unfold ats in E. rewrite E. congruence.
    + right. split; [congruence|]. split; [assumption|].
      rewrite analyze_trades_body_malformed; [reflexivity|].
      unfold ats in E. now rewrite E.
Qed.

Lemma analyze_trades_some (trades : list Trade) (a : string) (r : AddressResult) :
  analyze_trades sqrt hour trades a = Returned (Some r) ->
  address_trades trades a <> []
  /\ Forall numeric_profit (address_trades trades a)
  /\ r = result_of sqrt hour a (address_trades trades a).
Proof.
  intro H.
  destruct (analyze_trades_cases trades a) as [[_ E]|[[Hne [Hnum E]]|[_ [_ E]]]];
    rewrite E in H; try discriminate.
  injection H as <-. auto.
Qed.

End AnalyzeTrades.

(** ** Per-address statistics *)

(** C1.  For the trades [A:10, A:-5, A:20], [analyze_trades] on address
    "A" returns a result with win_rate 2/3, total_profit 30, total_loss
    -5, profit_factor 6 and max_drawdown 5; the cumulative sums are
    [10, 5, 25], the running peaks [10, 10, 25] and the drawdowns
    [0, 5, 0].  This holds whatever the square root and the local time
    of the host are. *)
Theorem analyze_trades_scenario :
  forall (sqrt : Q -> Q) (hour : Q -> outcome nat),
  exists r,
    analyze_trades sqrt hour
      [trade "A" 10; trade "A" (-5); trade "A" 20] "A" = Returned (Some r)
    /\ total_trades r = 3%nat
    /\ win_rate r == 2 # 3
    /\ total_profit r == 30
    /\ total_loss r == -5
    /\ np_same (profit_factor r) (Fin 6)
    /\ max_drawdown r == 5
    /\ cumsum [10; -5; 20] = [10; 5; 25]
    /\ maximum_accumulate [10; 5; 25] = [10; 10; 25]
    /\ arr_sub [10; 10; 25] [10; 5; 25] = [0; 5; 0].
Proof.
  intros sqrt hour.
  exists (result_of sqrt hour "A" [trade "A" 10; trade "A" (-5); trade "A" 20]).
  split.
  - unfold analyze_trades.
    rewrite analyze_trades_body_numeric.
    + reflexivity.
    + discriminate.
    + repeat constructor; eexists; reflexivity.
  - repeat split; reflexivity.
Qed.

Lemma result_of_fields (sqrt : Q -> Q) (hour : Q -> outcome nat)
  (a : string) (ats : list Trade) :
  let r := result_of sqrt hour a ats in
  address r = a
  /\ total_trades r = List.length ats
  /\ win_rate r = Qlen (winning ats) / Qlen ats
  /\ total_profit r = Qsum (map num_profit (winning ats))
  /\ total_loss r = Qsum (map num_profit (losing ats))
  /\ profit_factor r
     = (if negb (Qeq_bool (total_loss r) 0)
        then Fin (Qabs (total_profit r / total_loss r)) else PInf)
  /\ sharpe_ratio r = _calculate_sharpe_ratio sqrt (map num_profit ats)
  /\ max_drawdown r = _calculate_max_drawdown (map num_profit ats).
Proof. repeat split. Qed.

(** Every non-empty group of trades with numeric profits is analysed. *)
Lemma analyze_trades_returns (sqrt : Q -> Q) (hour : Q -> outcome nat)
  (trades : list Trade) (a : string) :
  address_trades trades a <> [] ->
  Forall numeric_profit (address_trades trades a) ->
  analyze_trades sqrt hour trades a
  = Returned (Some (result_of sqrt hour a (address_trades trades a))).
Proof.
  intros Hne Hnum. unfold analyze_trades.
  now rewrite analyze_trades_body_numeric.
Qed.

(** C2, as stated, fails: a single breakeven trade gives total_loss = 0
    and profit_factor = +infinity although total_profit is not
    positive. *)
Lemma profit_factor_infinite_without_profit :
  exists r,
    analyze_trades sqrt_12 utc_hour [trade "A" 0] "A" = Returned (Some r)
    /\ ~ (profit_factor r = PInf <-> (total_loss r == 0 /\ 0 < total_profit r)).
Proof.
  eexists. split.
  - vm_compute. reflexivity.
  - cbn. intros [H _]. destruct (H eq_refl) as [_ Hlt].
    revert Hlt. vm_compute. discriminate.
Qed.

Lemma sign_partition (l : list Trade) :
  List.length l
  = (List.length (winning l) + List.length (losing l)
     + List.length (breakeven l))%nat.
Proof.
  unfold winning, losing, breakeven.
  induction l as [|t l IH]; [reflexivity|].
  cbn [filter List.length].
  destruct (Qlt_bool 0 (num_profit t)) eqn:Hw;
    destruct (Qlt_bool (num_profit t) 0) eqn:Hl;
    destruct (Qeq_bool (num_profit t) 0) eqn:He;
    cbn [List.length]; try lia; exfalso;
    repeat match goal with
           | H : Qlt_bool _ _ = true |- _ => apply Qlt_bool_iff in H
           | H : Qlt_bool _ _ = false |- _ => apply Qlt_bool_false_iff in H
           | H : Qeq_bool _ _ = true |- _ => apply Qeq_bool_iff in H
           | H : Qeq_bool _ _ = false |- _ => apply Qeq_bool_false_iff in H
           end;
    lra.
Qed.

Lemma filter_length_le {A} (f : A -> bool) (l : list A) :
  (List.length (filter f l) <= List.length l)%nat.
Proof.
  induction l as [|x l IH]; simpl; [lia|].
  destruct (f x); simpl; lia.
Qed.

(** ** Maximum drawdown *)

Lemma np_max_in (d : Q) (l : list Q) : l <> [] -> In (np_max d l) l.
Proof.
  destruct l as [|x l]; [congruence|]. intros _. cbn [np_max].
  assert (forall l' m, In (fold_left Qmaxb l' m) (m :: l')) as H.
  { induction l' as [|y l' IH]; intro m; cbn [fold_left].
    - now left.
    - destruct (IH (Qmaxb m y)) as [E|E].
      + rewrite <- E.
        destruct (Qmaxb_cases m y) as [C|C]; rewrite C.
        * now left.
        * right. now left.
      + right. right. exact E. }
  apply H.
Qed.

Lemma drawdown_from_nonneg (l : list Q) (m : Q) :
  Forall (fun x => 0 <= x) (arr_sub (maximum_accumulate_from m l) l).
Proof.
  revert m. induction l as [|x l IH]; intro m; cbn; constructor.
  - pose proof (Qmaxb_ge_r m x). lra.
  - apply IH.
Qed.

Lemma drawdown_nonneg (l : list Q) :
  Forall (fun x => 0 <= x) (arr_sub (maximum_accumulate l) l).
Proof.
  destruct l as [|x l]; cbn; constructor.
  - lra.
  - apply drawdown_from_nonneg.
Qed.

Lemma arr_sub_length (a b : list Q) :
  List.length a = List.length b -> List.length (arr_sub a b) = List.length b.
Proof.
  revert b. induction a as [|x a IH]; intros [|y b]; cbn; try congruence.
  intro H. f_equal. apply IH. congruence.
Qed.

Lemma maximum_accumulate_from_length (l : list Q) (m : Q) :
  List.length (maximum_accumulate_from m l) = List.length l.
Proof.
  revert m. induction l as [|x l IH]; intro m; cbn; [reflexivity|].
  now rewrite IH.
Qed.

Lemma maximum_accumulate_length (l : list Q) :
  List.length (maximum_accumulate l) = List.length l.
Proof.
  destruct l as [|x l]; cbn; [reflexivity|].
  now rewrite maximum_accumulate_from_length.
Qed.

Lemma cumsum_from_length (l : list Q) (acc : Q) :
  List.length (cumsum_from acc l) = List.length l.
Proof.
  revert acc. induction l as [|x l IH]; intro acc; cbn; [reflexivity|].
  now rewrite IH.
Qed.

Lemma drawdown_from_zero (l : list Q) (m : Q) :
  non_decreasing (m :: l) ->
  Forall (fun x => x == 0) (arr_sub (maximum_accumulate_from m l) l).
Proof.
  revert m. induction l as [|x l IH]; intros m H; cbn; constructor.
  - cbn in H. destruct H as [Hmx _].
    rewrite (Qmaxb_le_r m x Hmx). ring.
  - cbn in H. destruct H as [Hmx Hrest].
    rewrite (Qmaxb_le_r m x Hmx). apply IH. exact Hrest.
Qed.

Lemma drawdown_zero (l : list Q) :
  non_decreasing l ->
  Forall (fun x => x == 0) (arr_sub (maximum_accumulate l) l).
Proof.
  destruct l as [|x l]; intro H; cbn; constructor.
  - ring.
  - now apply drawdown_from_zero.
Qed.

(** ** Sharpe ratio *)



(** ** [list.sort]: permutation, order and stability *)

Lemma np_ltb_asym (x y : npfloat) : np_ltb x y = true -> np_ltb y x = false.
Proof.
  destruct x as [a| | |], y as [b| | |]; cbn; try congruence.
  intro H. apply Qlt_bool_iff in H. apply Qlt_bool_false_iff.
  now apply Qlt_le_weak.
Qed.


Lemma np_leb_trans (x y z : npfloat) :
  np_leb x y = true -> np_leb y z = true -> np_leb x z = true.
Proof.
  destruct x as [a| | |], y as [b| | |], z as [c| | |]; cbn; try congruence.
  intros H1 H2. apply Qle_bool_iff in H1, H2. apply Qle_bool_iff.
  now apply Qle_trans with b.
Qed.

Section ListSortFacts.
Context {A : Type}.
Variable key : A -> npfloat.
Variable reverse : bool.

Lemma sort_lt_asym (x y : A) :
  sort_lt key reverse x y = true -> sort_lt key reverse y x = false.
Proof.
  unfold sort_lt. destruct reverse; apply np_ltb_asym.
Qed.

Lemma sort_insert_perm (x : A) (l : list A) :
  Permutation (sort_insert key reverse x l) (x :: l).
Proof.
  induction l as [|y l IH]; cbn.
  - apply Permutation_refl.
  - destruct (sort_lt key reverse x y).
    + apply perm_trans with (y :: x :: l).
      * now apply perm_skip.
      * apply perm_swap.
    + apply Permutation_refl.
Qed.

Lemma list_sort_perm (l : list A) : Permutation (list_sort key reverse l) l.
Proof.
  induction l as [|x l IH]; cbn.
  - apply perm_nil.
  - apply perm_trans with (x :: list_sort key reverse l).
    + apply sort_insert_perm.
    + now apply perm_skip.
Qed.

(** Adjacent elements of the result are never out of order. *)
Lemma sort_insert_sorted (x : A) (l : list A) :
  Sorted (fun a b => sort_lt key reverse a b = false) l ->
  Sorted (fun a b => sort_lt key reverse a b = false)
         (sort_insert key reverse x l).
Proof.
  induction 1 as [|y l Hs IH Hhd]; cbn.
  - repeat constructor.
  - destruct (sort_lt key reverse x y) eqn:E.
    + constructor; [exact IH|].
      destruct l as [|z l]; cbn.
      * constructor. now apply sort_lt_asym.
      * destruct (sort_lt key reverse x z).
        -- constructor. now inversion Hhd.
        -- constructor. now apply sort_lt_asym.
    + constructor; [now constructor|]. now constructor.
Qed.

Lemma list_sort_sorted (l : list A) :
  Sorted (fun a b => sort_lt key reverse a b = false) (list_sort key reverse l).
Proof.
  induction l as [|x l IH]; cbn.
  - constructor.
  - now apply sort_insert_sorted.
Qed.

(** Stability: a class [p] of elements that the order does not tell
    apart keeps its relative order. *)
Variable p : A -> bool.
Hypothesis p_tie :
  forall x y, p x = true -> p y = true -> sort_lt key reverse x y = false.

Lemma sort_insert_stable (x : A) (l : list A) :
  filter p (sort_insert key reverse x l) = filter p (x :: l).
Proof.
  induction l as [|y l IH]; [reflexivity|].
  cbn [sort_insert].
  destruct (sort_lt key reverse x y) eqn:E; [|reflexivity].
  cbn [filter] in *. rewrite IH.
  destruct (p x) eqn:Px, (p y) eqn:Py; try reflexivity.
  rewrite (p_tie x y Px Py) in E. discriminate.
Qed.

Lemma list_sort_stable (l : list A) :
  filter p (list_sort key reverse l) = filter p l.
Proof.
  induction l as [|x l IH]; [reflexivity|].
  cbn [list_sort]. rewrite sort_insert_stable.
  cbn [filter]. now rewrite IH.
Qed.

End ListSortFacts.



(** ** Iteration orders of a set *)

Lemma first_seen_in (l : list string) (x : string) :
  In x (first_seen l) <-> In x l.
Proof.
  induction l as [|y l IH]; [reflexivity|].
  cbn [first_seen]. split.
  - intros [E|H]; [now left|].
    apply filter_In in H. right. now apply IH.
  - intros [E|H]; [now left|].
    destruct (String.eqb_spec x y) as [->|Hne]; [now left|].
    right. apply filter_In. split; [now apply IH|].
    apply negb_true_iff. now apply String.eqb_neq.
Qed.

Lemma first_seen_nodup (l : list string) : NoDup (first_seen l).
Proof.
  induction l as [|y l IH]; cbn [first_seen]; constructor.
  - intro H. apply filter_In in H. destruct H as [_ H].
    rewrite String.eqb_refl in H. discriminate.
  - now apply NoDup_filter.
Qed.

Lemma set_order_first_seen : set_order first_seen.
Proof.
  intro l. split; [apply first_seen_nodup|]. intro x. apply first_seen_in.
Qed.


(** ** Ranking: [find_top_traders] *)

Section Ranking.
Variable sqrt : Q -> Q.
Variable hour : Q -> outcome nat.
Variable set_iter : list string -> list string.

Lemma analyze_trades_total (trades : list Trade) (a : string) :
  analyze_trades sqrt hour trades a
  = Returned (analysis_of sqrt hour trades a).
Proof.
  unfold analysis_of.
  destruct (try_except_returns (analyze_trades_body sqrt hour trades a) None)
    as [v Hv].
  unfold analyze_trades. now rewrite Hv.
Qed.

Lemma collect_results_qualifying (trades : list Trade) (min_trades : Z)
  (addresses : list string) :
  collect_results sqrt hour trades min_trades addresses
  = Returned (qualifying sqrt hour trades min_trades addresses).
Proof.
  induction addresses as [|a rest IH]; [reflexivity|].
  cbn [collect_results qualifying flat_map].
  rewrite analyze_trades_total, IH. cbn [bind].
  destruct (analysis_of sqrt hour trades a) as [r|]; [|reflexivity].
  now destruct (min_trades <=? Z.of_nat (total_trades r))%Z.
Qed.

Lemma find_top_traders_sorted_qualifying (trades : list Trade) (min_trades : Z) :
  find_top_traders sqrt hour set_iter trades min_trades
  = Returned (list_sort sharpe_ratio true
                (qualifying sqrt hour trades min_trades
                   (set_iter (truthy_addresses trades)))).
Proof.
  unfold find_top_traders, find_top_traders_body.
  now rewrite collect_results_qualifying.
Qed.

Lemma in_qualifying (trades : list Trade) (min_trades : Z)
  (addresses : list string) (r : AddressResult) :
  In r (qualifying sqrt hour trades min_trades addresses)
  <-> exists a, In a addresses
                /\ analyze_trades sqrt hour trades a = Returned (Some r)
                /\ (min_trades <= Z.of_nat (total_trades r))%Z.
Proof.
  unfold qualifying. rewrite in_flat_map. split.
  - intros [a [Ha Hr]]. exists a. split; [assumption|].
    rewrite analyze_trades_total.
    destruct (analysis_of sqrt hour trades a) as [r'|]; [|contradiction].
    destruct (min_trades <=? Z.of_nat (total_trades r'))%Z eqn:E;
      [|contradiction].
    destruct Hr as [->|[]]. split; [reflexivity|]. now apply Z.leb_le.
  - intros [a [Ha [Hr Hmin]]]. exists a. split; [assumption|].
    rewrite analyze_trades_total in Hr. injection Hr as ->.
    apply Z.leb_le in Hmin. rewrite Hmin. now left.
Qed.

Lemma analysis_address (trades : list Trade) (a : string) (r : AddressResult) :
  analyze_trades sqrt hour trades a = Returned (Some r) ->
  address r = a
  /\ total_trades r = List.length (address_trades trades a).
Proof.
  intro H. apply analyze_trades_some in H.
  destruct H as (_ & _ & ->). split; reflexivity.
Qed.


End Ranking.




(** ** Error policy of [analyze_trades] *)



(** ** Market depth *)

Import BackpackClient.


Lemma two_nonzero : Qeq_bool 2 0 = false.
Proof. reflexivity. Qed.




(** ** Binary64 rounding *)

(** ** Powers of two *)

Lemma pow2_pos (e : Z) : 0 < 2 ^ e.
Proof. apply Qpower_0_lt. reflexivity. Qed.

Lemma pow2_add (a b : Z) : 2 ^ (a + b) == 2 ^ a * 2 ^ b.
Proof. apply Qpower_plus. discriminate. Qed.

Lemma pow2_le (a b : Z) : (a <= b)%Z -> 2 ^ a <= 2 ^ b.
Proof. intro H. apply Qpower_le_compat_l; [exact H|discriminate]. Qed.

Lemma pow2_lt (a b : Z) : (a < b)%Z -> 2 ^ a < 2 ^ b.
Proof. intro H. apply Qpower_lt_compat_l; [exact H|reflexivity]. Qed.

Lemma pow2_lt_inv (a b : Z) : 2 ^ a < 2 ^ b -> (a < b)%Z.
Proof. intro H. apply Qpower_lt_compat_l_inv with 2; [exact H|reflexivity]. Qed.

Lemma pow2_inject (n : Z) : (0 <= n)%Z -> 2 ^ n == inject_Z (2 ^ n).
Proof. intro H. symmetry. apply (Zpower_Qpower 2 n H). Qed.

Lemma pow2_succ (a : Z) : 2 ^ (a + 1) == 2 * 2 ^ a.
Proof. rewrite pow2_add. change (2 ^ 1) with 2. ring. Qed.

Lemma pow2_sub (a b : Z) : 2 ^ (a - b) == 2 ^ a / 2 ^ b.
Proof.
  unfold Z.sub. rewrite pow2_add, Qpower_opp. reflexivity.
Qed.

(** ** The position of the leading bit *)

Lemma ilog2_spec (q : Q) :
  0 < q -> 2 ^ ilog2 q <= q /\ q < 2 ^ (ilog2 q + 1).
Proof.
  destruct q as [n d]. intro Hq.
  assert (0 < n)%Z as Hn.
  { unfold Qlt in Hq. cbn in Hq. lia. }
  destruct (Z.log2_spec n Hn) as [Hn1 Hn2].
  destruct (Z.log2_spec (Zpos d) (Pos2Z.is_pos d)) as [Hd1 Hd2].
  pose proof (Z.log2_nonneg n) as Ha. pose proof (Z.log2_nonneg (Zpos d)) as Hb.
  set (a := Z.log2 n) in *. set (b := Z.log2 (Zpos d)) in *.
  assert (2 ^ a <= inject_Z n) as Qn1.
  { rewrite pow2_inject by exact Ha. now rewrite <- Zle_Qle. }
  assert (inject_Z n < 2 ^ (a + 1)) as Qn2.
  { rewrite pow2_inject by lia. rewrite <- Zlt_Qlt. exact Hn2. }
  assert (2 ^ b <= inject_Z (Zpos d)) as Qd1.
  { rewrite pow2_inject by exact Hb. now rewrite <- Zle_Qle. }
  assert (inject_Z (Zpos d) < 2 ^ (b + 1)) as Qd2.
  { rewrite pow2_inject by lia. rewrite <- Zlt_Qlt. exact Hd2. }
  assert (0 < inject_Z (Zpos d)) as Dpos.
  { change 0 with (inject_Z 0). rewrite <- Zlt_Qlt. apply Pos2Z.is_pos. }
  assert (n # d == inject_Z n / inject_Z (Zpos d)) as Eq by apply Qmake_Qdiv.
  unfold ilog2. cbn [Qnum Qden]. fold a b.
  set (l := (a - b)%Z).
  assert (n # d < 2 ^ (l + 1)) as Hup.
  { rewrite Eq. apply Qlt_shift_div_r; [exact Dpos|].
    eapply Qlt_le_trans; [exact Qn2|].
    assert (2 ^ (a + 1) == 2 ^ (l + 1) * 2 ^ b) as Ea.
    { rewrite <- pow2_add.
      replace (l + 1 + b)%Z with (a + 1)%Z by (unfold l; lia). reflexivity. }
    rewrite Ea.
    apply Qmult_le_l; [apply pow2_pos|exact Qd1]. }
  assert (2 ^ (l - 1) <= n # d) as Hlo.
  { rewrite Eq. apply Qle_shift_div_l; [exact Dpos|].
    eapply Qle_trans; [|exact Qn1].
    assert (2 ^ a == 2 ^ (l - 1) * 2 ^ (b + 1)) as Ea.
    { rewrite <- pow2_add.
      replace (l - 1 + (b + 1))%Z with a by (unfold l; lia). reflexivity. }
    rewrite Ea.
    apply Qmult_le_l; [apply pow2_pos|]. now apply Qlt_le_weak. }
  destruct (Qle_bool (2 ^ l) (n # d)) eqn:E.
  - apply Qle_bool_iff in E. split; [exact E|exact Hup].
  - split; [exact Hlo|].
    replace (l - 1 + 1)%Z with l by lia.
    apply Qnot_le_lt. intro H. apply Qle_bool_iff in H. congruence.
Qed.

Lemma ilog2_unique (q : Q) (k : Z) :
  2 ^ k <= q -> q < 2 ^ (k + 1) -> ilog2 q = k.
Proof.
  intros H1 H2.
  assert (0 < q) as Hq by (eapply Qlt_le_trans; [apply (pow2_pos k)|exact H1]).
  destruct (ilog2_spec q Hq) as [S1 S2].
  assert (ilog2 q < k + 1)%Z.
  { apply pow2_lt_inv. eapply Qle_lt_trans; [exact S1|exact H2]. }
  assert (k < ilog2 q + 1)%Z.
  { apply pow2_lt_inv. eapply Qle_lt_trans; [exact H1|exact S2]. }
  lia.
Qed.

Lemma ilog2_mono (x y : Q) : 0 < x -> x <= y -> (ilog2 x <= ilog2 y)%Z.
Proof.
  intros Hx Hxy.
  assert (0 < y) as Hy by (eapply Qlt_le_trans; eassumption).
  destruct (ilog2_spec x Hx) as [X1 _]. destruct (ilog2_spec y Hy) as [_ Y2].
  assert (ilog2 x < ilog2 y + 1)%Z; [|lia].
  apply pow2_lt_inv.
  eapply Qle_lt_trans; [exact X1|]. eapply Qle_lt_trans; [exact Hxy|exact Y2].
Qed.

Lemma ilog2_eq (x y : Q) : 0 < x -> x == y -> ilog2 x = ilog2 y.
Proof.
  intros Hx E. destruct (ilog2_spec x Hx) as [X1 X2].
  symmetry. apply ilog2_unique; rewrite <- E; assumption.
Qed.

Lemma ilog2_lt_pow2 (x : Q) (k : Z) : 0 < x -> x < 2 ^ k -> (ilog2 x < k)%Z.
Proof.
  intros Hx H. destruct (ilog2_spec x Hx) as [X1 _].
  apply pow2_lt_inv. eapply Qle_lt_trans; eassumption.
Qed.

Lemma ilog2_ge_pow2 (x : Q) (k : Z) : 2 ^ k <= x -> (k <= ilog2 x)%Z.
Proof.
  intro H.
  assert (0 < x) as Hx by (eapply Qlt_le_trans; [apply (pow2_pos k)|exact H]).
  destruct (ilog2_spec x Hx) as [_ X2].
  assert (k < ilog2 x + 1)%Z; [|lia].
  apply pow2_lt_inv. eapply Qle_lt_trans; eassumption.
Qed.

(** ** Rounding to the nearest integer *)

Lemma rne_cases (x : Q) : rne x = Qfloor x \/ rne x = (Qfloor x + 1)%Z.
Proof.
  unfold rne. destruct (Qcompare _ _); [destruct (Z.even _)| |]; auto.
Qed.

Lemma rne_spec (x : Q) :
  x - (1 # 2) <= inject_Z (rne x) /\ inject_Z (rne x) <= x + (1 # 2).
Proof.
  pose proof (Qfloor_le x) as H1. pose proof (Qlt_floor x) as H2.
  rewrite inject_Z_plus in H2. change (inject_Z 1) with 1 in H2.
  unfold rne.
  destruct (Qcompare_spec (x - inject_Z (Qfloor x)) (1 # 2)) as [E|E|E].
  - destruct (Z.even (Qfloor x)).
    + split; lra.
    + rewrite inject_Z_plus. change (inject_Z 1) with 1. split; lra.
  - split; lra.
  - rewrite inject_Z_plus. change (inject_Z 1) with 1. split; lra.
Qed.

Lemma rne_Z (z : Z) : rne (inject_Z z) = z.
Proof.
  unfold rne. rewrite Qfloor_Z.
  destruct (Qcompare_spec (inject_Z z - inject_Z z) (1 # 2)) as [E|E|E].
  - exfalso. lra.
  - reflexivity.
  - exfalso. lra.
Qed.

Lemma rne_eq (x y : Q) : x == y -> rne x = rne y.
Proof.
  intro E. unfold rne. rewrite (Qfloor_comp _ _ E).
  assert (Qcompare (x - inject_Z (Qfloor y)) (1 # 2)
          = Qcompare (y - inject_Z (Qfloor y)) (1 # 2)) as C
    by (now rewrite E).
  now rewrite C.
Qed.

Lemma rne_mono (x y : Q) : x <= y -> (rne x <= rne y)%Z.
Proof.
  intro H. pose proof (Qfloor_resp_le x y H) as Hf.
  destruct (Z.eq_dec (Qfloor x) (Qfloor y)) as [E|N].
  - unfold rne. rewrite <- E.
    destruct (Qcompare_spec (x - inject_Z (Qfloor x)) (1 # 2)) as [A|A|A];
    destruct (Qcompare_spec (y - inject_Z (Qfloor x)) (1 # 2)) as [B|B|B];
    destruct (Z.even (Qfloor x)); try lia; exfalso; lra.
  - destruct (rne_cases x) as [Ex|Ex], (rne_cases y) as [Ey|Ey]; lia.
Qed.

Lemma rne_nonneg (x : Q) : 0 <= x -> (0 <= rne x)%Z.
Proof.
  intro H. change 0%Z with (rne (inject_Z 0)) at 1.
  rewrite rne_Z. rewrite <- (rne_Z 0). now apply rne_mono.
Qed.

(** ** Rounding a positive rational *)

Lemma quantum_exp_mono (x y : Q) :
  0 < x -> x <= y -> (quantum_exp x <= quantum_exp y)%Z.
Proof.
  intros Hx H. unfold quantum_exp.
  pose proof (ilog2_mono x y Hx H). lia.
Qed.

Lemma quantum_exp_eq (x y : Q) : 0 < x -> x == y -> quantum_exp x = quantum_exp y.
Proof. intros Hx E. unfold quantum_exp. now rewrite (ilog2_eq x y Hx E). Qed.

Lemma round_pos_eq (x y : Q) : 0 < x -> x == y -> round_pos x = round_pos y.
Proof.
  intros Hx E. unfold round_pos. rewrite (quantum_exp_eq x y Hx E).
  assert (x / 2 ^ quantum_exp y == y / 2 ^ quantum_exp y) as Es by (now rewrite E).
  now rewrite (rne_eq _ _ Es).
Qed.

Lemma scaled_pos (x : Q) (e : Z) : 0 < x -> 0 < x / 2 ^ e.
Proof.
  intro Hx. apply Qlt_shift_div_l; [apply pow2_pos|]. now rewrite Qmult_0_l.
Qed.

Lemma scaled_lt (x : Q) : 0 < x -> x / 2 ^ quantum_exp x < 2 ^ 53.
Proof.
  intro Hx. destruct (ilog2_spec x Hx) as [_ H].
  apply Qlt_shift_div_r; [apply pow2_pos|].
  rewrite <- pow2_add. eapply Qlt_le_trans; [exact H|].
  apply pow2_le. unfold quantum_exp. lia.
Qed.

Lemma scaled_ge (x : Q) :
  0 < x -> (-1074 < quantum_exp x)%Z -> 2 ^ 52 <= x / 2 ^ quantum_exp x.
Proof.
  intros Hx He. destruct (ilog2_spec x Hx) as [H _].
  apply Qle_shift_div_l; [apply pow2_pos|].
  rewrite <- pow2_add. eapply Qle_trans; [|exact H].
  apply pow2_le. unfold quantum_exp in *. lia.
Qed.

Lemma round_pos_nonneg (x : Q) : 0 < x -> 0 <= round_pos x.
Proof.
  intro Hx. unfold round_pos.
  apply Qmult_le_0_compat; [|apply Qlt_le_weak, pow2_pos].
  change 0 with (inject_Z 0). rewrite <- Zle_Qle.
  apply rne_nonneg. apply Qlt_le_weak. now apply scaled_pos.
Qed.

Lemma round_pos_le_top (x : Q) :
  0 < x -> round_pos x <= 2 ^ (53 + quantum_exp x).
Proof.
  intro Hx. unfold round_pos. rewrite pow2_add.
  apply Qmult_le_compat_r; [|apply Qlt_le_weak, pow2_pos].
  rewrite (pow2_inject 53) by lia. rewrite <- Zle_Qle.
  rewrite <- (rne_Z (2 ^ 53)). apply rne_mono.
  rewrite <- (pow2_inject 53) by lia.
  apply Qlt_le_weak. now apply scaled_lt.
Qed.

Lemma round_pos_ge_bottom (x : Q) :
  0 < x -> (-1074 < quantum_exp x)%Z -> 2 ^ (52 + quantum_exp x) <= round_pos x.
Proof.
  intros Hx He. unfold round_pos. rewrite pow2_add.
  apply Qmult_le_compat_r; [|apply Qlt_le_weak, pow2_pos].
  rewrite (pow2_inject 52) by lia. rewrite <- Zle_Qle.
  rewrite <- (rne_Z (2 ^ 52)). apply rne_mono.
  rewrite <- (pow2_inject 52) by lia.
  now apply scaled_ge.
Qed.

Lemma round_pos_mono (x y : Q) : 0 < x -> x <= y -> round_pos x <= round_pos y.
Proof.
  intros Hx H.
  assert (0 < y) as Hy by (eapply Qlt_le_trans; eassumption).
  pose proof (quantum_exp_mono x y Hx H) as He.
  destruct (Z.eq_dec (quantum_exp x) (quantum_exp y)) as [E|N].
  - unfold round_pos. rewrite E.
    apply Qmult_le_compat_r; [|apply Qlt_le_weak, pow2_pos].
    rewrite <- Zle_Qle. apply rne_mono.
    apply Qmult_le_compat_r; [exact H|].
    apply Qlt_le_weak, Qinv_lt_0_compat, pow2_pos.
  - eapply Qle_trans; [apply (round_pos_le_top x Hx)|].
    eapply Qle_trans; [|apply (round_pos_ge_bottom y Hy)].
    + apply pow2_le. lia.
    + unfold quantum_exp in *. lia.
Qed.

Lemma round_pos_exact (m k : Z) :
  (0 < m < 2 ^ 53)%Z -> (-1074 <= k)%Z ->
  round_pos (inject_Z m * 2 ^ k) == inject_Z m * 2 ^ k.
Proof.
  intros Hm Hk. set (x := inject_Z m * 2 ^ k).
  assert (0 < x) as Hx.
  { unfold x. apply Qmult_lt_0_compat; [|apply pow2_pos].
    change 0 with (inject_Z 0). rewrite <- Zlt_Qlt. lia. }
  assert (quantum_exp x <= k)%Z as He.
  { unfold quantum_exp.
    assert (ilog2 x < 53 + k)%Z; [|lia].
    apply ilog2_lt_pow2; [exact Hx|].
    unfold x. rewrite pow2_add.
    apply Qmult_lt_compat_r; [apply pow2_pos|].
    rewrite (pow2_inject 53) by lia. rewrite <- Zlt_Qlt. lia. }
  unfold round_pos. set (e := quantum_exp x) in *.
  assert (x / 2 ^ e == inject_Z (m * 2 ^ (k - e))) as Es.
  { unfold x. rewrite inject_Z_mult, <- (pow2_inject (k - e)) by lia.
    rewrite pow2_sub. field.
    pose proof (pow2_pos e). lra. }
  rewrite (rne_eq _ _ Es), rne_Z.
  rewrite inject_Z_mult, <- (pow2_inject (k - e)) by lia.
  rewrite pow2_sub. unfold x. field.
  pose proof (pow2_pos e). lra.
Qed.

Lemma round_pos_abs_err (x : Q) :
  0 < x ->
  x - 2 ^ (quantum_exp x - 1) <= round_pos x
  /\ round_pos x <= x + 2 ^ (quantum_exp x - 1).
Proof.
  intro Hx. unfold round_pos. set (e := quantum_exp x).
  destruct (rne_spec (x / 2 ^ e)) as [H1 H2].
  pose proof (pow2_pos e) as He.
  assert (2 ^ (e - 1) == 2 ^ e * (1 # 2)) as Eh.
  { rewrite pow2_sub. change (2 ^ 1) with 2. field. }
  assert (x == x / 2 ^ e * 2 ^ e) as Ex by (field; lra).
  rewrite Eh. split.
  - assert ((x / 2 ^ e - (1 # 2)) * 2 ^ e <= inject_Z (rne (x / 2 ^ e)) * 2 ^ e) as H.
    { apply Qmult_le_compat_r; [exact H1|lra]. }
    eapply Qle_trans; [|exact H].
    setoid_replace ((x / 2 ^ e - (1 # 2)) * 2 ^ e)
      with (x / 2 ^ e * 2 ^ e - 2 ^ e * (1 # 2)) by ring.
    rewrite <- Ex. apply Qle_refl.
  - assert (inject_Z (rne (x / 2 ^ e)) * 2 ^ e <= (x / 2 ^ e + (1 # 2)) * 2 ^ e) as H.
    { apply Qmult_le_compat_r; [exact H2|lra]. }
    eapply Qle_trans; [exact H|].
    setoid_replace ((x / 2 ^ e + (1 # 2)) * 2 ^ e)
      with (x / 2 ^ e * 2 ^ e + 2 ^ e * (1 # 2)) by ring.
    rewrite <- Ex. apply Qle_refl.
Qed.

(** In the normal range the relative error is at most [2 ^ -53]. *)
Lemma round_pos_rel_err (x : Q) :
  2 ^ (-1022) <= x ->
  x - x * 2 ^ (-53) <= round_pos x /\ round_pos x <= x + x * 2 ^ (-53).
Proof.
  intro Hn.
  assert (0 < x) as Hx by (eapply Qlt_le_trans; [apply (pow2_pos (-1022))|exact Hn]).
  destruct (round_pos_abs_err x Hx) as [H1 H2].
  assert (2 ^ (quantum_exp x - 1) <= x * 2 ^ (-53)) as Hb.
  { assert (quantum_exp x = ilog2 x - 52)%Z as Ee.
    { unfold quantum_exp. pose proof (ilog2_ge_pow2 x (-1022) Hn). lia. }
    destruct (ilog2_spec x Hx) as [S1 _].
    rewrite Ee.
    replace (ilog2 x - 52 - 1)%Z with (ilog2 x + -53)%Z by lia.
    rewrite pow2_add.
    apply Qmult_le_compat_r; [exact S1|apply Qlt_le_weak, pow2_pos]. }
  split; lra.
Qed.

(** ** Rounding to binary64 *)

Lemma round64_zero (q : Q) : q == 0 -> round64 q = Fin 0.
Proof.
  intro E. unfold round64.
  destruct (Qcompare_spec 0 q) as [H|H|H]; [reflexivity| |]; exfalso; lra.
Qed.

Lemma round64_pos (q : Q) :
  0 < q ->
  round64 q
  = if Qle_bool (2 ^ 1024) (round_pos q) then PInf else Fin (round_pos q).
Proof.
  intro Hq. unfold round64.
  destruct (Qcompare_spec 0 q) as [H|H|H]; [exfalso; lra|reflexivity|exfalso; lra].
Qed.

Lemma round64_neg (q : Q) :
  q < 0 ->
  round64 q
  = if Qle_bool (2 ^ 1024) (round_pos (- q)) then NInf
    else Fin (- round_pos (- q)).
Proof.
  intro Hq. unfold round64.
  destruct (Qcompare_spec 0 q) as [H|H|H]; [exfalso; lra|exfalso; lra|reflexivity].
Qed.

Lemma round64_eq (x y : Q) : x == y -> round64 x = round64 y.
Proof.
  intro E. destruct (Qlt_le_dec 0 x) as [Hx|Hx].
  - rewrite (round64_pos x Hx), (round64_pos y) by lra.
    now rewrite (round_pos_eq x y Hx E).
  - destruct (Qlt_le_dec x 0) as [Hn|Hn].
    + rewrite (round64_neg x Hn), (round64_neg y) by lra.
      assert (- x == - y) as E' by (now rewrite E).
      rewrite (round_pos_eq (- x) (- y)); [reflexivity|lra|exact E'].
    + rewrite (round64_zero x), (round64_zero y) by lra. reflexivity.
Qed.

Lemma round64_opp (x : Q) : round64 (- x) = np_neg (round64 x).
Proof.
  destruct (Qlt_le_dec 0 x) as [Hx|Hx].
  - rewrite (round64_pos x Hx), (round64_neg (- x)) by lra.
    assert (- - x == x) as E by ring.
    rewrite (round_pos_eq (- - x) x); [|lra|exact E].
    now destruct (Qle_bool _ _).
  - destruct (Qlt_le_dec x 0) as [Hn|Hn].
    + rewrite (round64_neg x Hn), (round64_pos (- x)) by lra.
      destruct (Qle_bool _ _); [reflexivity|].
      cbn [np_neg]. f_equal.
      destruct (round_pos (- x)) as [n d]. unfold Qopp. cbn.
      now rewrite Z.opp_involutive.
    + rewrite (round64_zero x), (round64_zero (- x)) by lra. reflexivity.
Qed.

Lemma round64_mono (x y : Q) :
  x <= y -> np_leb (round64 x) (round64 y) = true.
Proof.
  intro H.
  destruct (Qlt_le_dec 0 x) as [Hx|Hx].
  - assert (0 < y) as Hy by lra.
    rewrite (round64_pos x Hx), (round64_pos y Hy).
    pose proof (round_pos_mono x y Hx H) as Hm.
    destruct (Qle_bool (2 ^ 1024) (round_pos y)) eqn:Ey.
    + now destruct (Qle_bool (2 ^ 1024) (round_pos x)).
    + destruct (Qle_bool (2 ^ 1024) (round_pos x)) eqn:Ex.
      * apply Qle_bool_iff in Ex.
        assert (Qle_bool (2 ^ 1024) (round_pos y) = true) as C
          by (apply Qle_bool_iff; lra).
        congruence.
      * cbn [np_leb]. now apply Qle_bool_iff.
  - destruct (Qlt_le_dec x 0) as [Hn|Hn].
    + rewrite (round64_neg x Hn).
      pose proof (round_pos_nonneg (- x) ltac:(lra)) as Px.
      destruct (Qlt_le_dec 0 y) as [Hy|Hy].
      * rewrite (round64_pos y Hy).
        pose proof (round_pos_nonneg y Hy) as Py.
        destruct (Qle_bool (2 ^ 1024) (round_pos (- x))),
                 (Qle_bool (2 ^ 1024) (round_pos y)); cbn [np_leb];
          try reflexivity.
        apply Qle_bool_iff. lra.
      * destruct (Qlt_le_dec y 0) as [Hyn|Hyn].
        -- rewrite (round64_neg y Hyn).
           pose proof (round_pos_mono (- y) (- x) ltac:(lra) ltac:(lra)) as Hm.
           destruct (Qle_bool (2 ^ 1024) (round_pos (- x))) eqn:Ex;
             [now destruct (Qle_bool (2 ^ 1024) (round_pos (- y)))|].
           destruct (Qle_bool (2 ^ 1024) (round_pos (- y))) eqn:Ey.
           ++ apply Qle_bool_iff in Ey.
              assert (Qle_bool (2 ^ 1024) (round_pos (- x)) = true) as C
                by (apply Qle_bool_iff; lra).
              congruence.
           ++ cbn [np_leb]. apply Qle_bool_iff. lra.
        -- rewrite (round64_zero y) by lra.
           destruct (Qle_bool (2 ^ 1024) (round_pos (- x))); cbn [np_leb];
             [reflexivity|].
           apply Qle_bool_iff. lra.
    + rewrite (round64_zero x) by lra.
      destruct (Qlt_le_dec 0 y) as [Hy|Hy].
      * rewrite (round64_pos y Hy).
        pose proof (round_pos_nonneg y Hy) as Py.
        destruct (Qle_bool (2 ^ 1024) (round_pos y)); cbn [np_leb];
          [reflexivity|].
        now apply Qle_bool_iff.
      * rewrite (round64_zero y) by lra. reflexivity.
Qed.

Lemma is_binary64_opp (q : Q) : is_binary64 q -> is_binary64 (- q).
Proof.
  intros (m & e & Hm & He & E). exists (- m)%Z, e.
  split; [lia|]. split; [exact He|].
  rewrite E, inject_Z_opp. ring.
Qed.

Lemma is_binary64_lt_top (q : Q) : is_binary64 q -> q < 2 ^ 1024.
Proof.
  intros (m & e & Hm & He & E). rewrite E.
  assert (inject_Z m < 2 ^ 53) as Hq.
  { rewrite (pow2_inject 53) by lia. rewrite <- Zlt_Qlt. lia. }
  assert (2 ^ 53 * 2 ^ e <= 2 ^ 1024) as Ht.
  { rewrite <- pow2_add. apply pow2_le. lia. }
  pose proof (pow2_pos e) as Pe.
  assert (inject_Z m * 2 ^ e < 2 ^ 53 * 2 ^ e) as Hlt.
  { apply Qmult_lt_compat_r; assumption. }
  lra.
Qed.

Lemma round64_exact (q : Q) : is_binary64 q -> np_same (round64 q) (Fin q).
Proof.
  assert (forall q, 0 < q -> is_binary64 q -> round64 q = Fin (round_pos q)
                    /\ round_pos q == q) as Hpos.
  { clear q. intros q Hq Hb. pose proof (is_binary64_lt_top q Hb) as Ht.
    destruct Hb as (m & e & Hm & He & E).
    assert (0 < m)%Z as Hm0.
    { destruct (Z_lt_le_dec 0 m) as [L|L]; [exact L|exfalso].
      assert (inject_Z m <= 0) as Hle
        by (change 0 with (inject_Z 0); now rewrite <- Zle_Qle).
      pose proof (pow2_pos e) as Pe.
      assert (inject_Z m * 2 ^ e <= 0 * 2 ^ e) as Hc.
      { apply Qmult_le_compat_r; [exact Hle|lra]. }
      lra. }
    assert (round_pos q == q) as Er.
    { rewrite (round_pos_eq q (inject_Z m * 2 ^ e) Hq E).
      rewrite round_pos_exact by lia. now symmetry. }
    split; [|exact Er].
    rewrite (round64_pos q Hq).
    assert (Qle_bool (2 ^ 1024) (round_pos q) = false) as F.
    { destruct (Qle_bool (2 ^ 1024) (round_pos q)) eqn:F; [|reflexivity].
      apply Qle_bool_iff in F. lra. }
    now rewrite F. }
  intro Hb.
  destruct (Qlt_le_dec 0 q) as [Hq|Hq].
  - destruct (Hpos q Hq Hb) as [E1 E2]. rewrite E1. exact E2.
  - destruct (Qlt_le_dec q 0) as [Hn|Hn].
    + destruct (Hpos (- q) ltac:(lra) (is_binary64_opp q Hb)) as [E1 E2].
      assert (round64 q = np_neg (round64 (- q))) as E.
      { rewrite <- round64_opp. apply round64_eq. ring. }
      rewrite E, E1. cbn [np_neg np_same]. lra.
    + rewrite (round64_zero q) by lra. cbn [np_same]. lra.
Qed.

(** Comparison with a double: rounding does not cross it. *)
Lemma round64_le_bound (q b : Q) :
  q <= b -> is_binary64 b -> np_leb (round64 q) (Fin b) = true.
Proof.
  intros H Hb. pose proof (round64_mono q b H) as Hm.
  pose proof (round64_exact b Hb) as Hs.
  destruct (round64 b) as [v| | |]; cbn [np_same] in Hs; try contradiction.
  destruct (round64 q) as [u| | |]; cbn [np_leb] in *; try congruence.
  apply Qle_bool_iff. apply Qle_bool_iff in Hm. lra.
Qed.

Lemma round64_ge_bound (q b : Q) :
  b <= q -> is_binary64 b -> np_leb (Fin b) (round64 q) = true.
Proof.
  intros H Hb. pose proof (round64_mono b q H) as Hm.
  pose proof (round64_exact b Hb) as Hs.
  destruct (round64 b) as [v| | |]; cbn [np_same] in Hs; try contradiction.
  destruct (round64 q) as [u| | |]; cbn [np_leb] in *; try congruence.
  apply Qle_bool_iff. apply Qle_bool_iff in Hm. lra.
Qed.

Lemma np_leb_between (x : npfloat) (a b : Q) :
  np_leb (Fin a) x = true -> np_leb x (Fin b) = true ->
  exists v, x = Fin v /\ a <= v /\ v <= b.
Proof.
  destruct x as [v| | |]; cbn [np_leb]; try discriminate.
  intros H1 H2. apply Qle_bool_iff in H1. apply Qle_bool_iff in H2. eauto.
Qed.

Lemma round64_between (q a b : Q) :
  a <= q -> q <= b -> is_binary64 a -> is_binary64 b ->
  exists v, round64 q = Fin v /\ a <= v /\ v <= b.
Proof.
  intros H1 H2 Ha Hb. apply np_leb_between.
  - now apply round64_ge_bound.
  - now apply round64_le_bound.
Qed.

Lemma is_binary64_Z (z : Z) : (Z.abs z < 2 ^ 53)%Z -> is_binary64 (inject_Z z).
Proof.
  intro H. exists z, 0%Z. split; [exact H|]. split; [lia|].
  change (2 ^ 0) with 1. ring.
Qed.

Lemma is_binary64_pow2 (k : Z) : (-1074 <= k <= 1023)%Z -> is_binary64 (2 ^ k).
Proof.
  intro H. destruct (Z_le_gt_dec k 971) as [L|G].
  - exists 1%Z, k. split; [reflexivity|]. split; [lia|]. ring.
  - exists (2 ^ 52)%Z, (k - 52)%Z. split; [|split; [lia|]].
    + rewrite Z.abs_eq by (apply Z.pow_nonneg; lia).
      apply Z.pow_lt_mono_r; lia.
    + rewrite <- (pow2_inject 52) by lia. rewrite <- pow2_add.
      replace (52 + (k - 52))%Z with k by lia. reflexivity.
Qed.

(** ** The error of one subtraction and one division *)

Lemma eps64_pow2 : 2 ^ (-53) == eps64.
Proof. reflexivity. Qed.

Lemma is_binary64_multiple (a : Q) :
  is_binary64 a -> exists k : Z, a == inject_Z k * 2 ^ (-1074).
Proof.
  intros (m & e & _ & He & E). exists (m * 2 ^ (e + 1074))%Z.
  rewrite E, inject_Z_mult, <- (pow2_inject (e + 1074)) by lia.
  rewrite <- Qmult_assoc, <- pow2_add.
  replace (e + 1074 + -1074)%Z with e by lia. reflexivity.
Qed.

(** The difference of two doubles is rounded with a relative error of
    at most [2 ^ -53]; below the normal range it is exact. *)
Lemma round_pos_sub_err (a b : Q) :
  is_binary64 a -> is_binary64 b -> 0 < a - b ->
  a - b - (a - b) * eps64 <= round_pos (a - b)
  /\ round_pos (a - b) <= a - b + (a - b) * eps64.
Proof.
  intros Ha Hb Hd. set (d := a - b) in *.
  destruct (Qlt_le_dec d (2 ^ (-1022))) as [Hs|Hn].
  - destruct (is_binary64_multiple a Ha) as [ka Ea].
    destruct (is_binary64_multiple b Hb) as [kb Eb].
    assert (d == inject_Z (ka - kb) * 2 ^ (-1074)) as Ed.
    { unfold d. rewrite Ea, Eb. unfold Z.sub.
      rewrite inject_Z_plus, inject_Z_opp. ring. }
    pose proof (pow2_pos (-1074)) as Pp.
    assert (0 < ka - kb)%Z as Hk0.
    { destruct (Z_lt_le_dec 0 (ka - kb)) as [L|L]; [exact L|exfalso].
      assert (inject_Z (ka - kb) <= 0) as Hle
        by (change 0 with (inject_Z 0); now rewrite <- Zle_Qle).
      assert (inject_Z (ka - kb) * 2 ^ (-1074) <= 0 * 2 ^ (-1074)) as Hc.
      { apply Qmult_le_compat_r; [exact Hle|lra]. }
      lra. }
    assert (ka - kb < 2 ^ 52)%Z as Hk1.
    { destruct (Z_lt_le_dec (ka - kb) (2 ^ 52)) as [L|L]; [exact L|exfalso].
      assert (2 ^ 52 <= inject_Z (ka - kb)) as Hle.
      { rewrite (pow2_inject 52) by lia. now rewrite <- Zle_Qle. }
      assert (2 ^ 52 * 2 ^ (-1074) <= inject_Z (ka - kb) * 2 ^ (-1074)) as Hc.
      { apply Qmult_le_compat_r; [exact Hle|lra]. }
      rewrite <- pow2_add in Hc. change (52 + -1074)%Z with (-1022)%Z in Hc.
      lra. }
    assert (round_pos d == d) as Er.
    { rewrite (round_pos_eq d _ Hd Ed).
      rewrite round_pos_exact; [now symmetry| |lia].
      assert (2 ^ 52 < 2 ^ 53)%Z by (apply Z.pow_lt_mono_r; lia). lia. }
    rewrite Er. unfold eps64.
    assert (0 <= d * (1 # 9007199254740992)) by
      (apply Qmult_le_0_compat; [lra|discriminate]).
    split; lra.
  - destruct (round_pos_rel_err d Hn) as [H1 H2].
    rewrite eps64_pow2 in H1, H2. split; assumption.
Qed.

Lemma np_div_fin (x b : Q) : ~ b == 0 -> np_div (Fin x) (Fin b) = Fin (x / b).
Proof.
  intro H. unfold np_div.
  destruct (Qeq_bool b 0) eqn:E; [|reflexivity].
  apply Qeq_bool_iff in E. contradiction.
Qed.

Lemma np_div_inf (b : Q) :
  (0 < b -> np_div PInf (Fin b) = PInf /\ np_div NInf (Fin b) = NInf)
  /\ (b < 0 -> np_div PInf (Fin b) = NInf /\ np_div NInf (Fin b) = PInf).
Proof.
  unfold np_div, np_sign, Qsign. split; intro H.
  - assert (Qeq_bool b 0 = false) as E.
    { destruct (Qeq_bool b 0) eqn:E; [|reflexivity].
      apply Qeq_bool_iff in E. exfalso. lra. }
    rewrite E. rewrite (proj1 (Qlt_alt _ _) H). split; reflexivity.
  - assert (Qeq_bool b 0 = false) as E.
    { destruct (Qeq_bool b 0) eqn:E; [|reflexivity].
      apply Qeq_bool_iff in E. exfalso. lra. }
    rewrite E. rewrite (proj1 (Qgt_alt _ _) H). split; reflexivity.
Qed.

Lemma Qdiv_gt_1 (d b : Q) : 0 < b -> b < d -> 1 < d / b.
Proof.
  intros Hb H. apply Qlt_shift_div_l; [exact Hb|]. lra.
Qed.

Lemma Qabs_of_neg (x : Q) : x <= 0 -> Qabs x == - x.
Proof. intro H. now apply Qabs_neg. Qed.

Lemma is_binary64_abs_le_max (b : Q) :
  is_binary64 b -> Qabs b <= 2 ^ 1024 * (1 - eps64).
Proof.
  intros (m & e & Hm & He & E). rewrite E, Qabs_Qmult.
  rewrite (Qabs_pos (2 ^ e)) by (apply Qlt_le_weak, pow2_pos).
  assert (Qabs (inject_Z m) <= 2 ^ 53 - 1) as Hq.
  { assert (Qabs (inject_Z m) == inject_Z (Z.abs m)) as Ea.
    { unfold Qabs, inject_Z. reflexivity. }
    rewrite Ea, (pow2_inject 53) by lia.
    assert (inject_Z (Z.abs m) <= inject_Z (2 ^ 53 - 1)) as Hz
      by (rewrite <- Zle_Qle; lia).
    unfold Z.sub in Hz. rewrite inject_Z_plus in Hz.
    change (inject_Z (- (1))) with (- (1)) in Hz. lra. }
  assert (2 ^ e <= 2 ^ 971) as Hp by (apply pow2_le; lia).
  pose proof (pow2_pos e) as Pe.
  assert (Qabs (inject_Z m) * 2 ^ e <= (2 ^ 53 - 1) * 2 ^ e) as H1.
  { apply Qmult_le_compat_r; [exact Hq|lra]. }
  assert ((2 ^ 53 - 1) * 2 ^ e <= (2 ^ 53 - 1) * 2 ^ 971) as H2.
  { apply Qmult_le_l; [reflexivity|exact Hp]. }
  assert ((2 ^ 53 - 1) * 2 ^ 971 == 2 ^ 1024 * (1 - eps64)) as H3 by reflexivity.
  rewrite <- H3. lra.
Qed.

(** When the difference of two doubles overflows, it exceeds both in
    magnitude. *)
Lemma overflow_exceeds (d b : Q) :
  is_binary64 b -> 0 < d ->
  2 ^ 1024 <= round_pos d -> round_pos d <= d + d * eps64 ->
  Qabs b < d.
Proof.
  intros Hb Hd Ov E2. pose proof (is_binary64_abs_le_max b Hb) as Hm.
  set (t := 2 ^ 1024) in *.
  assert (0 < t) as Ht by apply pow2_pos.
  unfold eps64 in *. lra.
Qed.

(** What line 95 computes from two doubles: the quotient of the exact
    relative change, up to one rounding error of the difference and one
    rounding of the quotient; or an infinity of the sign of the change
    when the difference overflows. *)
Lemma price_change_cases (a b : Q) :
  is_binary64 a -> is_binary64 b -> ~ b == 0 ->
  let q := (a - b) / b in
  let c := f64_div (f64_sub (Fin a) (Fin b)) (Fin b) in
  (exists x, c = round64 x
             /\ q - Qabs q * eps64 <= x /\ x <= q + Qabs q * eps64)
  \/ (c = PInf /\ 1 < q) \/ (c = NInf /\ q < - (1)).
Proof.
  intros Ha Hb Hz q c.
  assert (forall d' : Q,
            Qabs (d' - (a - b)) <= Qabs (a - b) * eps64 ->
            q - Qabs q * eps64 <= d' / b /\ d' / b <= q + Qabs q * eps64) as Hq.
  { intros d' Hd'.
    assert (d' / b - q == (d' - (a - b)) / b) as E1 by (unfold q; field; exact Hz).
    assert (Qabs (d' / b - q) <= Qabs q * eps64) as Hb'.
    { rewrite E1. unfold Qdiv. rewrite Qabs_Qmult.
      unfold q, Qdiv. rewrite Qabs_Qmult.
      setoid_replace (Qabs (a - b) * Qabs (/ b) * eps64)
        with (Qabs (a - b) * eps64 * Qabs (/ b)) by ring.
      apply Qmult_le_compat_r; [exact Hd'|apply Qabs_nonneg]. }
    apply Qabs_Qle_condition in Hb'. split; lra. }
  assert (forall d : Q, 0 < d -> Qabs b < d ->
            (0 < b -> 1 < d / b) /\ (b < 0 -> d / b < - (1))) as Hbig.
  { intros d Hd Hbd. split; intro Hs.
    - rewrite (Qabs_pos b) in Hbd by lra.
      apply Qlt_shift_div_l; [exact Hs|]. lra.
    - rewrite (Qabs_neg b) in Hbd by lra.
      assert (d / b == - (d / - b)) as E by (field; lra).
      rewrite E.
      assert (1 < d / - b); [|lra].
      apply Qlt_shift_div_l; lra. }
  unfold c, f64_sub, f64_div, np_sub. cbn [np_neg np_add f64].
  assert (a + - b == a - b) as Esub by ring.
  rewrite (round64_eq _ _ Esub).
  destruct (np_div_inf b) as [Hip Hin].
  destruct (Qlt_le_dec 0 (a - b)) as [Hd|Hd].
  - rewrite (round64_pos _ Hd).
    destruct (round_pos_sub_err a b Ha Hb Hd) as [E1 E2].
    destruct (Qle_bool (2 ^ 1024) (round_pos (a - b))) eqn:Ov.
    + apply Qle_bool_iff in Ov.
      pose proof (overflow_exceeds _ b Hb Hd Ov E2) as Hex.
      destruct (Hbig _ Hd Hex) as [B1 B2].
      destruct (Qlt_le_dec 0 b) as [L|L].
      * right. left. destruct (Hip L) as [Hi _]. rewrite Hi.
        split; [reflexivity|exact (B1 L)].
      * right. right.
        assert (b < 0) as L' by (destruct (Qle_lt_or_eq _ _ L); [assumption|contradiction]).
        destruct (Hin L') as [Hi _]. rewrite Hi.
        split; [reflexivity|exact (B2 L')].
    + left. exists (round_pos (a - b) / b).
      rewrite (np_div_fin _ _ Hz). cbn [f64]. split; [reflexivity|].
      apply Hq. apply Qabs_Qle_condition.
      rewrite (Qabs_pos (a - b)) by lra. split; lra.
  - destruct (Qle_lt_or_eq _ _ Hd) as [Hn|Hzero].
    + rewrite (round64_neg _ Hn).
      assert (- (a - b) == b - a) as Eo by ring.
      assert (0 < b - a) as Hd' by lra.
      rewrite (round_pos_eq (- (a - b)) (b - a)) by (lra || exact Eo).
      destruct (round_pos_sub_err b a Hb Ha Hd') as [E1 E2].
      destruct (Qle_bool (2 ^ 1024) (round_pos (b - a))) eqn:Ov.
      * apply Qle_bool_iff in Ov.
        pose proof (overflow_exceeds _ b Hb Hd' Ov E2) as Hex.
        destruct (Hbig _ Hd' Hex) as [B1 B2].
        assert (q == - ((b - a) / b)) as Eq' by (unfold q; field; exact Hz).
        destruct (Qlt_le_dec 0 b) as [L|L].
        -- right. right. destruct (Hip L) as [_ Hi]. rewrite Hi.
           split; [reflexivity|]. rewrite Eq'. pose proof (B1 L). lra.
        -- right. left.
           assert (b < 0) as L' by (destruct (Qle_lt_or_eq _ _ L); [assumption|contradiction]).
           destruct (Hin L') as [_ Hi]. rewrite Hi.
           split; [reflexivity|]. rewrite Eq'. pose proof (B2 L'). lra.
      * left. exists (- round_pos (b - a) / b).
        rewrite (np_div_fin _ _ Hz). cbn [f64]. split; [reflexivity|].
        apply Hq. apply Qabs_Qle_condition.
        rewrite (Qabs_neg (a - b)) by lra. split; lra.
    + assert (a - b == 0) as Ez by (now symmetry).
      rewrite (round64_zero _ Ez). left. exists (0 / b).
      rewrite (np_div_fin _ _ Hz). cbn [f64]. split; [reflexivity|].
      apply Hq. rewrite Ez. cbn. discriminate.
Qed.

(** ** The result of rounding is a double *)

Lemma round_pos_is_binary64 (x : Q) :
  0 < x -> round_pos x < 2 ^ 1024 -> is_binary64 (round_pos x).
Proof.
  intros Hx Hv.
  set (e := quantum_exp x).
  set (m := rne (x / 2 ^ e)).
  assert (round_pos x = inject_Z m * 2 ^ e) as Ev by reflexivity.
  assert (0 <= m)%Z as M0.
  { apply rne_nonneg. apply Qlt_le_weak. now apply scaled_pos. }
  assert (m <= 2 ^ 53)%Z as M1.
  { rewrite <- (rne_Z (2 ^ 53)).
    apply rne_mono. rewrite <- (pow2_inject 53) by lia.
    apply Qlt_le_weak. now apply scaled_lt. }
  assert (-1074 <= e)%Z as E0 by (unfold e, quantum_exp; lia).
  assert (e <= 971)%Z as E1.
  { destruct (Z_le_gt_dec e 971) as [H|H]; [exact H|exfalso].
    pose proof (round_pos_ge_bottom x Hx ltac:(fold e; lia)) as B.
    fold e in B.
    assert (2 ^ 1024 <= 2 ^ (52 + e)) as P by (apply pow2_le; lia).
    lra. }
  destruct (Z.eq_dec m (2 ^ 53)) as [Em|Nm].
  - assert (round_pos x == 2 ^ (53 + e)) as Ev2.
    { rewrite Ev, Em, <- (pow2_inject 53) by lia. now rewrite pow2_add. }
    assert (53 + e < 1024)%Z as E2.
    { apply pow2_lt_inv. now rewrite <- Ev2. }
    exists (2 ^ 52)%Z, (e + 1)%Z.
    split; [reflexivity|]. split; [lia|].
    rewrite Ev2, <- (pow2_inject 52), <- pow2_add by lia.
    now replace (53 + e)%Z with (52 + (e + 1))%Z by lia.
  - exists m, e. split; [lia|]. split; [lia|]. now rewrite Ev.
Qed.

Lemma round64_is_binary64 (q v : Q) : round64 q = Fin v -> is_binary64 v.
Proof.
  intro E.
  destruct (Qcompare_spec 0 q) as [Z|P|N].
  - rewrite (round64_zero q) in E by now symmetry.
    injection E as <-.
    exists 0%Z, 0%Z. split; [reflexivity|]. split; [lia|]. reflexivity.
  - rewrite (round64_pos q P) in E.
    destruct (Qle_bool (2 ^ 1024) (round_pos q)) eqn:B; [discriminate|].
    injection E as <-.
    apply round_pos_is_binary64; [exact P|].
    apply Qnot_le_lt. intro C. apply Qle_bool_iff in C. congruence.
  - rewrite (round64_neg q N) in E.
    destruct (Qle_bool (2 ^ 1024) (round_pos (- q))) eqn:B; [discriminate|].
    injection E as <-.
    apply is_binary64_opp, round_pos_is_binary64; [lra|].
    apply Qnot_le_lt. intro C. apply Qle_bool_iff in C. congruence.
Qed.

(** ** Market trades: price trend *)

Import MarketAnalysis.

Lemma np_ltb_gtb_exclusive (c lo hi : npfloat) :
  np_leb lo hi = true -> np_ltb c lo = true -> np_gtb c hi = false.
Proof.
  unfold np_gtb.
  destruct c as [q| | |], lo as [a| | |], hi as [b| | |]; cbn; try congruence.
  intros H1 H2. apply Qle_bool_iff in H1. apply Qlt_bool_iff in H2.
  apply Qlt_bool_false_iff. lra.
Qed.

Lemma np_ltb_leb_trans (x y z : npfloat) :
  np_ltb x y = true -> np_leb y z = true -> np_ltb x z = true.
Proof.
  destruct x as [a| | |], y as [b| | |], z as [c| | |]; cbn; try congruence.
  intros H1 H2. apply Qlt_bool_iff in H1. apply Qle_bool_iff in H2.
  apply Qlt_bool_iff. lra.
Qed.

Lemma np_leb_ltb_trans (x y z : npfloat) :
  np_leb x y = true -> np_ltb y z = true -> np_ltb x z = true.
Proof.
  destruct x as [a| | |], y as [b| | |], z as [c| | |]; cbn; try congruence.
  intros H1 H2. apply Qle_bool_iff in H1. apply Qlt_bool_iff in H2.
  apply Qlt_bool_iff. lra.
Qed.

Lemma np_leb_not_ltb (x y : npfloat) :
  np_leb x y = true -> np_ltb y x = false.
Proof.
  destruct x as [a| | |], y as [b| | |]; cbn; try congruence.
  intro H. apply Qle_bool_iff in H. now apply Qlt_bool_false_iff.
Qed.

Lemma _analyze_trades_nonempty (sqrt : Q -> Q) (trades : list MarketTrade) :
  trades <> [] ->
  exists r,
    _analyze_trades sqrt trades = Returned (Some r)
    /\ price_trend r
       = classify_price_change
           (f64_div (f64_sub (Fin (hd 0 (map price trades)))
                             (Fin (last (map price trades) 0)))
                    (Fin (last (map price trades) 0))).
Proof.
  intro Hne. unfold _analyze_trades, _analyze_trades_body.
  assert (nonempty trades = true) as Hn by now apply nonempty_true.
  rewrite Hn. cbn [negb].
  rewrite (py_div_returns _ _ (Qlen_nonzero trades Hne)).
  cbn [bind try_except]. eexists. split; reflexivity.
Qed.

(** The two thresholds against the bounds that one rounding error
    leaves around them. *)
Lemma trend_threshold_bounds :
  np_ltb trend_threshold (round64 (trend_margin_up * (1 - eps64))) = true
  /\ np_ltb (round64 (- (trend_margin_up * (1 - eps64))))
            (np_neg trend_threshold) = true
  /\ np_leb (round64 (trend_margin_flat * (1 + eps64))) trend_threshold = true
  /\ np_leb (np_neg trend_threshold)
            (round64 (- (trend_margin_flat * (1 + eps64)))) = true
  /\ np_ltb trend_threshold PInf = true
  /\ np_ltb NInf (np_neg trend_threshold) = true
  /\ np_leb (np_neg trend_threshold) trend_threshold = true.
Proof. vm_compute. repeat split. Qed.

(** C9, as the code has it.  For every non-empty list of market trades
    [_analyze_trades] returns a result.  When the newest price (first
    element) and the oldest (last element) are doubles and the oldest is
    not 0, price_trend is decided by the relative change as line 95
    computes it in double precision, [fl (fl (newest - oldest) / oldest)],
    against the double 0.001: +1 above it, -1 below its opposite, 0
    otherwise.  In terms of the exact relative change
    (newest - oldest)/oldest this gives +1 above 0.001 (1 + 2^-50), -1
    below -0.001 (1 + 2^-50) and 0 within 0.001 (1 - 2^-50) of zero;
    closer to the thresholds than that, the rounding decides. *)
Theorem price_trend_classification
  (sqrt : Q -> Q) (trades : list MarketTrade) :
  trades <> [] ->
  let newest := hd 0 (map price trades) in
  let oldest := last (map price trades) 0 in
  let change := f64_div (f64_sub (Fin newest) (Fin oldest)) (Fin oldest) in
  let exact := (newest - oldest) / oldest in
  exists r,
    _analyze_trades sqrt trades = Returned (Some r)
    /\ (is_binary64 newest -> is_binary64 oldest -> ~ oldest == 0 ->
        (np_gtb change trend_threshold = true -> price_trend r = 1%Z)
        /\ (np_ltb change (np_neg trend_threshold) = true ->
            price_trend r = (-1)%Z)
        /\ (np_gtb change trend_threshold = false ->
            np_ltb change (np_neg trend_threshold) = false ->
            price_trend r = 0%Z)
        /\ (trend_margin_up < exact -> price_trend r = 1%Z)
        /\ (exact < - trend_margin_up -> price_trend r = (-1)%Z)
        /\ (- trend_margin_flat <= exact -> exact <= trend_margin_flat ->
            price_trend r = 0%Z)).
Proof.
  intros Hne newest oldest change exact.
  destruct (_analyze_trades_nonempty sqrt trades Hne) as [r [Hr Ht]].
  fold newest oldest change in Ht.
  exists r. split; [exact Hr|]. intros Hn Ho Hz.
  rewrite Ht. unfold classify_price_change.
  destruct trend_threshold_bounds as (K1 & K2 & K3 & K4 & K5 & K6 & K7).
  assert (np_ltb change (np_neg trend_threshold) = true ->
          np_gtb change trend_threshold = false) as Hex.
  { now apply np_ltb_gtb_exclusive. }
  assert (0 < trend_margin_up /\ 0 < trend_margin_flat
          /\ trend_margin_flat < 1) as (Mu & Mf & Mf1)
    by (repeat split).
  pose proof (price_change_cases newest oldest Hn Ho Hz) as Hc.
  cbv zeta in Hc. fold exact change in Hc.
  split; [|split; [|split; [|split; [|split]]]].
  - intro H. now rewrite H.
  - intro H. now rewrite (Hex H), H.
  - intros H1 H2. now rewrite H1, H2.
  - intro Hq.
    assert (np_gtb change trend_threshold = true) as G; [|now rewrite G].
    unfold np_gtb.
    destruct Hc as [(x & Ex & X1 & X2)|[[Ec Hc]|[Ec Hc]]].
    + rewrite Ex. eapply np_ltb_leb_trans; [exact K1|].
      apply round64_mono. rewrite (Qabs_pos exact) in X1 by lra.
      unfold eps64 in *.
      assert (0 <= (exact - trend_margin_up) * (1 - (1 # 9007199254740992))) as P.
      { apply Qmult_le_0_compat; [lra|discriminate]. }
      lra.
    + rewrite Ec. exact K5.
    + exfalso. lra.
  - intro Hq.
    assert (np_ltb change (np_neg trend_threshold) = true) as G;
      [|now rewrite (Hex G), G].
    destruct Hc as [(x & Ex & X1 & X2)|[[Ec Hc]|[Ec Hc]]].
    + rewrite Ex. eapply np_leb_ltb_trans; [|exact K2].
      apply round64_mono. rewrite (Qabs_neg exact) in X2 by lra.
      unfold eps64 in *.
      assert (0 <= (- trend_margin_up - exact) * (1 - (1 # 9007199254740992))) as P.
      { apply Qmult_le_0_compat; [lra|discriminate]. }
      lra.
    + exfalso. lra.
    + rewrite Ec. exact K6.
  - intros Hlo Hhi.
    assert (Qabs exact <= trend_margin_flat) as Ha
      by (apply Qabs_Qle_condition; split; assumption).
    pose proof (Qabs_nonneg exact) as Ha0.
    destruct Hc as [(x & Ex & X1 & X2)|[[Ec Hc]|[Ec Hc]]]; try (exfalso; lra).
    assert (np_leb change (round64 (trend_margin_flat * (1 + eps64))) = true)
      as U.
    { rewrite Ex. apply round64_mono. unfold eps64 in *.
      assert (0 <= (trend_margin_flat - Qabs exact) * (1 # 9007199254740992)) as P.
      { apply Qmult_le_0_compat; [lra|discriminate]. }
      lra. }
    assert (np_leb (round64 (- (trend_margin_flat * (1 + eps64)))) change = true)
      as L.
    { rewrite Ex. apply round64_mono. unfold eps64 in *.
      assert (0 <= (trend_margin_flat - Qabs exact) * (1 # 9007199254740992)) as P.
      { apply Qmult_le_0_compat; [lra|discriminate]. }
      lra. }
    unfold np_gtb.
    rewrite (np_leb_not_ltb _ _ (np_leb_trans _ _ _ U K3)).
    rewrite (np_leb_not_ltb _ _ (np_leb_trans _ _ _ K4 L)).
    reflexivity.
Qed.

Lemma price_trend_classification_witness :
  exists r,
    _analyze_trades sqrt_12
      [mkMarketTrade 102 1 102 false; mkMarketTrade 100 2 200 true]
    = Returned (Some r)
    /\ price_trend r = 1%Z.
Proof.
  destruct (price_trend_classification sqrt_12
              [mkMarketTrade 102 1 102 false; mkMarketTrade 100 2 200 true])
    as [r (Hr & H)].
  - discriminate.
  - exists r. split; [exact Hr|].
    destruct H as (_ & _ & _ & H & _).
    + apply (is_binary64_Z 102). reflexivity.
    + apply (is_binary64_Z 100). reflexivity.
    + cbn. discriminate.
    + apply H. vm_compute. reflexivity.
Defined.

(** C9, as stated, fails within rounding error of the threshold: for
    the two doubles below the exact relative change is greater than
    0.001, but its quotient in double precision rounds to the double
    0.001 itself, and price_trend is 0. *)
Lemma price_trend_rounds_to_threshold :
  is_binary64 9016206453993738 /\ is_binary64 9007199254738999
  /\ 1 # 1000 < (9016206453993738 - 9007199254738999) / 9007199254738999
  /\ exists r,
       _analyze_trades sqrt_12
         [mkMarketTrade 9016206453993738 1 9016206453993738 false;
          mkMarketTrade 9007199254738999 1 9007199254738999 true]
       = Returned (Some r)
       /\ price_trend r = 0%Z.
Proof.
  split.
  { exists 4508103226996869%Z, 1%Z. repeat split; vm_compute; congruence. }
  split.
  { apply (is_binary64_Z 9007199254738999). reflexivity. }
  split; [reflexivity|].
  eexists. split; [vm_compute; reflexivity|reflexivity].
Qed.

(** ** Python numbers: conversions and sums *)

Section PythonNumbers.
Import AddressAnalysisPy SpecPy.

(** Bounds of the form [k * 2 ^ e] are doubles. *)
Lemma is_binary64_scaled (k e : Z) :
  (Z.abs k < 2 ^ 53)%Z -> (-1074 <= e <= 971)%Z ->
  is_binary64 (inject_Z k * 2 ^ e).
Proof.
  intros Hk He. exists k, e. split; [assumption|]. split; [assumption|].
  reflexivity.
Qed.

Lemma is_binary64_0 : is_binary64 0.
Proof.
  exists 0%Z, 0%Z. split; [reflexivity|]. split; [lia|]. reflexivity.
Qed.

Lemma is_binary64_eq (a b : Q) : a == b -> is_binary64 a -> is_binary64 b.
Proof.
  intros E [m [e [Hm [He Hq]]]]. exists m, e. split; [assumption|].
  split; [assumption|]. now rewrite <- E.
Qed.

(** [float(z)] of an integer between two doubles. *)
Lemma to_float_int_between (z : Z) (a b : Q) :
  is_binary64 a -> is_binary64 b -> a <= inject_Z z -> inject_Z z <= b ->
  exists q, to_float (PyInt z) = Returned (Fin q) /\ a <= q /\ q <= b.
Proof.
  intros Ha Hb H1 H2.
  destruct (round64_between (inject_Z z) a b H1 H2 Ha Hb) as [v [E [L U]]].
  exists v. unfold to_float. rewrite E. auto.
Qed.

Lemma to_float_between (n : pynum) (a b : Q) :
  is_binary64 a -> is_binary64 b -> value_between a b n ->
  exists q, to_float n = Returned (Fin q) /\ a <= q /\ q <= b.
Proof.
  intros Ha Hb [v [E [L U]]]. destruct n as [z|x]; simpl in E.
  - injection E as <-. now apply to_float_int_between.
  - subst x. exists v. simpl. auto.
Qed.

(** A sum of two numbers whose values lie between doubles returns, and
    lies between the rounded bounds. *)
Lemma py_add_between (x y : pynum) (a b c d L U : Q) :
  is_binary64 a -> is_binary64 b -> is_binary64 c -> is_binary64 d ->
  is_binary64 L -> is_binary64 U ->
  L <= a + c -> b + d <= U ->
  value_between a b x -> value_between c d y ->
  exists s, py_add x y = Returned s /\ value_between L U s.
Proof.
  intros Ha Hb Hc Hd HL HU HLe HUe Hx Hy.
  assert (forall p q, a <= p -> p <= b -> c <= q -> q <= d ->
            exists s, Returned (PyFloat (f64_add (Fin p) (Fin q))) = Returned s
                      /\ value_between L U s) as Hfloat.
  { intros p q P1 P2 Q1 Q2.
    destruct (round64_between (p + q) L U) as [v [E [L1 U1]]];
      try assumption; [lra|lra|].
    exists (PyFloat (Fin v)). split.
    - unfold f64_add. simpl. now rewrite E.
    - exists v. simpl. auto. }
  destruct x as [zx|fx], y as [zy|fy].
  - destruct Hx as [vx [Ex [Lx Ux]]], Hy as [vy [Ey [Ly Uy]]].
    simpl in Ex, Ey. injection Ex as <-. injection Ey as <-.
    exists (PyInt (zx + zy)). split; [reflexivity|].
    exists (inject_Z (zx + zy)). split; [reflexivity|].
    rewrite inject_Z_plus. split; lra.
  - destruct (to_float_between _ a b Ha Hb Hx) as [p [Ep [P1 P2]]].
    destruct (to_float_between _ c d Hc Hd Hy) as [q [Eq' [Q1 Q2]]].
    unfold py_add. rewrite Ep. cbn [bind]. rewrite Eq'. cbn [bind].
    now apply Hfloat.
  - destruct (to_float_between _ a b Ha Hb Hx) as [p [Ep [P1 P2]]].
    destruct (to_float_between _ c d Hc Hd Hy) as [q [Eq' [Q1 Q2]]].
    unfold py_add. rewrite Ep. cbn [bind]. rewrite Eq'. cbn [bind].
    now apply Hfloat.
  - destruct (to_float_between _ a b Ha Hb Hx) as [p [Ep [P1 P2]]].
    destruct (to_float_between _ c d Hc Hd Hy) as [q [Eq' [Q1 Q2]]].
    unfold py_add. rewrite Ep. cbn [bind]. rewrite Eq'. cbn [bind].
    now apply Hfloat.
Qed.

(** The sum of numbers between [c] and [d], started from a value
    between [lo k] and [hi k], for bounds that are doubles and that one
    more item keeps valid. *)
Lemma py_sum_from_between (c d : Q) (lo hi : Z -> Q) (N : Z) :
  is_binary64 c -> is_binary64 d ->
  (forall j, (0 <= j <= N)%Z -> is_binary64 (lo j) /\ is_binary64 (hi j)) ->
  (forall j, (0 <= j < N)%Z -> lo (j + 1)%Z <= lo j + c /\ hi j + d <= hi (j + 1)%Z) ->
  forall (l : list pynum) (acc : pynum) (k : Z),
    (0 <= k)%Z -> (k + Z.of_nat (List.length l) <= N)%Z ->
    Forall (value_between c d) l ->
    value_between (lo k) (hi k) acc ->
    exists s, py_sum_from acc l = Returned s
              /\ value_between (lo (k + Z.of_nat (List.length l))%Z)
                               (hi (k + Z.of_nat (List.length l))%Z) s.
Proof.
  intros Hc Hd Hb Hstep l.
  induction l as [|x l IH]; intros acc k Hk HN Hl Hacc.
  - exists acc. split; [reflexivity|].
    cbn [List.length Z.of_nat]. now rewrite Z.add_0_r.
  - cbn [List.length] in *. rewrite Nat2Z.inj_succ in *.
    inversion Hl as [|? ? Hx Hl']; subst.
    destruct (Hb k ltac:(lia)) as [B1 B2].
    destruct (Hb (k + 1)%Z ltac:(lia)) as [B3 B4].
    destruct (Hstep k ltac:(lia)) as [S1 S2].
    destruct (py_add_between acc x (lo k) (hi k) c d
                (lo (k + 1)%Z) (hi (k + 1)%Z)) as [s [Es Hs]]; try assumption.
    destruct (IH s (k + 1)%Z ltac:(lia) ltac:(lia) Hl' Hs) as [s' [Es' Hs']].
    exists s'. split.
    + cbn [py_sum_from]. rewrite Es. cbn [bind]. exact Es'.
    + replace (k + Z.succ (Z.of_nat (List.length l)))%Z
        with (k + 1 + Z.of_nat (List.length l))%Z by lia.
      exact Hs'.
Qed.


Lemma is_binary64_pow2_126 : is_binary64 (2 ^ 126) /\ is_binary64 (- 2 ^ 126).
Proof.
  assert (is_binary64 (2 ^ 126)) as H by (apply is_binary64_pow2; lia).
  split; [exact H|]. now apply is_binary64_opp.
Qed.

Lemma int_bounded_value (k z : Z) :
  (0 <= k <= 2 ^ 63)%Z -> int_bounded k (PyInt z) ->
  - 2 ^ 126 <= inject_Z z /\ inject_Z z <= 2 ^ 126.
Proof.
  intros Hk H. simpl in H.
  assert (Z.abs z <= 2 ^ 126)%Z as Hz.
  { apply Z.le_trans with (k * 2 ^ 63)%Z; [exact H|].
    change (2 ^ 126)%Z with (2 ^ 63 * 2 ^ 63)%Z.
    apply Z.mul_le_mono_nonneg_r; lia. }
  rewrite (pow2_inject 126) by lia.
  rewrite <- inject_Z_opp, <- !Zle_Qle. lia.
Qed.

Lemma to_float_bounded (k : Z) (n : pynum) :
  (0 <= k <= 2 ^ 63)%Z -> int_bounded k n ->
  exists x, to_float n = Returned x.
Proof.
  intros Hk H. destruct n as [z|x]; [|now exists x].
  destruct (int_bounded_value k z Hk H) as [L U].
  destruct is_binary64_pow2_126 as [B1 B2].
  destruct (to_float_int_between z _ _ B2 B1 L U) as [q [E _]].
  now exists (Fin q).
Qed.

Lemma machine_number_bounded (n : pynum) :
  machine_number n -> int_bounded 1 n.
Proof.
  destruct n as [z|x]; simpl; [|trivial].
  unfold Int64.in_range. intro H.
  apply andb_prop in H. destruct H as [H1 H2].
  apply Z.leb_le in H1. apply Z.ltb_lt in H2. lia.
Qed.

Lemma int_bounded_mono (k k' : Z) (n : pynum) :
  (k <= k')%Z -> int_bounded k n -> int_bounded k' n.
Proof.
  intros Hk. destruct n as [z|x]; simpl; [|trivial].
  intro H. apply Z.le_trans with (k * 2 ^ 63)%Z; [exact H|].
  apply Z.mul_le_mono_nonneg_r; lia.
Qed.

(** Adding a machine number never raises while the sum of the [int]s
    met so far can be converted to a double. *)
Lemma py_add_machine (k : Z) (acc x : pynum) :
  (0 <= k < 2 ^ 63)%Z -> int_bounded k acc -> machine_number x ->
  exists s, py_add acc x = Returned s /\ int_bounded (k + 1) s.
Proof.
  intros Hk Hacc Hx.
  pose proof (machine_number_bounded x Hx) as Hx1.
  destruct (to_float_bounded k acc ltac:(lia) Hacc) as [p Ep].
  destruct (to_float_bounded 1 x ltac:(lia) Hx1) as [q Eq'].
  destruct acc as [za|fa], x as [zx|fx].
  - exists (PyInt (za + zx)). split; [reflexivity|].
    simpl in *. lia.
  - unfold py_add. rewrite Ep. cbn [bind]. rewrite Eq'. cbn [bind].
    eexists. split; [reflexivity|exact I].
  - unfold py_add. rewrite Ep. cbn [bind]. rewrite Eq'. cbn [bind].
    eexists. split; [reflexivity|exact I].
  - unfold py_add. rewrite Ep. cbn [bind]. rewrite Eq'. cbn [bind].
    eexists. split; [reflexivity|exact I].
Qed.

Lemma py_sum_from_machine (l : list pynum) :
  forall (acc : pynum) (k : Z),
    (0 <= k)%Z -> (k + Z.of_nat (List.length l) < 2 ^ 63)%Z ->
    int_bounded k acc -> Forall machine_number l ->
    exists s, py_sum_from acc l = Returned s
              /\ int_bounded (k + Z.of_nat (List.length l)) s.
Proof.
  induction l as [|x l IH]; intros acc k Hk HN Hacc Hl.
  - exists acc. split; [reflexivity|].
    cbn [List.length Z.of_nat]. now rewrite Z.add_0_r.
  - cbn [List.length] in *. rewrite Nat2Z.inj_succ in *.
    inversion Hl as [|? ? Hx Hl']; subst.
    destruct (py_add_machine k acc x ltac:(lia) Hacc Hx) as [s [Es Hs]].
    destruct (IH s (k + 1)%Z ltac:(lia) ltac:(lia) Hs Hl') as [s' [Es' Hs']].
    exists s'. split.
    + cbn [py_sum_from]. rewrite Es. cbn [bind]. exact Es'.
    + replace (k + Z.succ (Z.of_nat (List.length l)))%Z
        with (k + 1 + Z.of_nat (List.length l))%Z by lia.
      exact Hs'.
Qed.

Lemma py_sum_machine (l : list pynum) :
  (Z.of_nat (List.length l) < 2 ^ 63)%Z -> Forall machine_number l ->
  exists s, py_sum l = Returned s
            /\ int_bounded (Z.of_nat (List.length l)) s.
Proof.
  intros HN Hl.
  destruct (py_sum_from_machine l (PyInt 0) 0 ltac:(lia) ltac:(lia)) as [s [E H]];
    [simpl; lia|assumption|].
  exists s. split; [exact E|]. exact H.
Qed.

(** A non-zero integer is converted to a non-zero double. *)
Lemma to_float_int_nonzero (k z : Z) :
  (0 <= k <= 2 ^ 63)%Z -> int_bounded k (PyInt z) -> z <> 0%Z ->
  exists q, to_float (PyInt z) = Returned (Fin q) /\ ~ q == 0.
Proof.
  intros Hk H Hz.
  destruct (int_bounded_value k z Hk H) as [L U].
  destruct is_binary64_pow2_126 as [B1 B2].
  assert (is_binary64 1) as H1.
  { apply (is_binary64_eq (2 ^ 0)); [reflexivity|]. apply is_binary64_pow2. lia. }
  destruct (Z_lt_le_dec z 0) as [Hneg|Hpos].
  - destruct (to_float_int_between z (- 2 ^ 126) (- (1)) B2
                (is_binary64_opp _ H1) L) as [q [E [_ Hq]]].
    { change (- (1)) with (inject_Z (-1)). rewrite <- Zle_Qle. lia. }
    exists q. split; [exact E|]. intro C. rewrite C in Hq. lra.
  - destruct (to_float_int_between z 1 (2 ^ 126) H1 B1) as [q [E [Hq _]]];
      [|exact U|].
    { change 1 with (inject_Z 1). rewrite <- Zle_Qle. lia. }
    exists q. split; [exact E|]. intro C. rewrite C in Hq. lra.
Qed.

Lemma Qeq_bool_false (a b : Q) : ~ a == b -> Qeq_bool a b = false.
Proof.
  intro H. destruct (Qeq_bool a b) eqn:E; [|reflexivity].
  exfalso. apply H. now apply Qeq_bool_iff.
Qed.

(** A quotient of two sums of machine numbers returns a float as soon
    as the divisor is not 0. *)
Lemma py_truediv_machine (k : Z) (x y : pynum) :
  (0 <= k <= 2 ^ 63)%Z -> int_bounded k x -> int_bounded k y ->
  py_eq y (PyInt 0) = false ->
  exists q, py_truediv x y = Returned (PyFloat q).
Proof.
  intros Hk Hx Hy Hne.
  destruct (to_float_bounded k x Hk Hx) as [p Ep].
  assert (exists q, to_float y = Returned q /\ np_eqb q (Fin 0) = false) as [q [Eq' Hq]].
  { destruct y as [zy|fy].
    - assert (zy <> 0%Z) as Hz.
      { intro C. subst zy. discriminate Hne. }
      destruct (to_float_int_nonzero k zy Hk Hy Hz) as [q [E Hq]].
      exists (Fin q). split; [exact E|]. simpl. now apply Qeq_bool_false.
    - exists fy. split; [reflexivity|exact Hne]. }
  destruct x as [zx|fx], y as [zy|fy];
    try (unfold py_truediv; rewrite Ep; cbn [bind]; rewrite Eq'; cbn [bind];
         rewrite Hq; eexists; reflexivity).
  assert (zy <> 0%Z) as Hz.
  { intro C. subst zy. discriminate Hne. }
  unfold py_truediv. destruct (zy =? 0)%Z eqn:E0; [apply Z.eqb_eq in E0; contradiction|].
  destruct (int_bounded_value k zx Hk Hx) as [L U].
  destruct is_binary64_pow2_126 as [B1 B2].
  assert (Qabs (inject_Z zx / inject_Z zy) <= 2 ^ 126) as Hab.
  { unfold Qdiv. rewrite Qabs_Qmult.
    assert (Qabs (inject_Z zx) <= 2 ^ 126) as A1 by (apply Qabs_Qle_condition; split; assumption).
    assert (Qabs (/ inject_Z zy) <= 1) as A2.
    { rewrite Qabs_Qinv.
      assert (1 <= Qabs (inject_Z zy)) as A3.
      { change (Qabs (inject_Z zy)) with (inject_Z (Z.abs zy)).
        change 1 with (inject_Z 1). rewrite <- Zle_Qle. lia. }
      apply Qle_shift_inv_r; lra. }
    pose proof (Qabs_nonneg (inject_Z zx)) as N1.
    pose proof (Qabs_nonneg (/ inject_Z zy)) as N2.
    nra. }
  apply Qabs_Qle_condition in Hab. destruct Hab as [Q1 Q2].
  destruct (round64_between _ _ _ Q1 Q2 B2 B1) as [v [E _]].
  rewrite E. now exists (Fin v).
Qed.

End PythonNumbers.

(** ** [analyze_trades] on Python numbers: what the [try] block computes *)

Section AnalyzeTradesPy.
Import AddressAnalysisPy SpecPy.
Variable sharpe_of_array : ndarray -> npfloat.
Variable wide_sharpe_ratio : list pynum -> outcome npfloat.
Variable wide_max_drawdown : list pynum -> outcome pynum.
Variable hour : Q -> outcome nat.

Lemma select_address_dicts (trades : list record) (a : string) :
  Forall is_dict trades ->
  select_address a trades = Returned (address_trades trades a).
Proof.
  induction 1 as [|r trades [t ->] _ IH]; [reflexivity|].
  cbn [select_address]. rewrite IH. cbn [bind].
  unfold address_trades. cbn [flat_map].
  destruct (d_address t) as [a'|]; [|reflexivity].
  now destruct (String.eqb a' a).
Qed.

Lemma select_address_not_dict (trades : list record) (a : string) :
  In NotDict trades -> select_address a trades = Raised AttributeError.
Proof.
  induction trades as [|r trades IH]; intro H; [contradiction|].
  destruct r as [t|]; [|reflexivity].
  destruct H as [H|H]; [discriminate|].
  cbn [select_address]. now rewrite (IH H).
Qed.

Lemma machine_profit_number (t : TradeDict) :
  machine_profit t ->
  as_number (get_profit t) = Returned (number_of t)
  /\ machine_number (number_of t)
  /\ profit_of t = num_val (number_of t).
Proof.
  intros [n [E H]]. unfold number_of, profit_of. rewrite E. auto.
Qed.

Lemma Forall_machine_filter (f : TradeDict -> bool) (l : list TradeDict) :
  Forall machine_profit l -> Forall machine_profit (filter f l).
Proof.
  intro H. apply Forall_forall. intros t Ht.
  apply filter_In in Ht. destruct Ht as [Ht _].
  now apply (proj1 (Forall_forall _ _) H).
Qed.

Lemma filterM_profit_gt0 (l : list TradeDict) :
  Forall machine_profit l -> filterM profit_gt0 l = Returned (winning l).
Proof.
  intro H. apply filterM_pure.
  apply Forall_forall. intros t Ht.
  destruct (machine_profit_number t (proj1 (Forall_forall _ _) H t Ht))
    as [E [_ V]].
  unfold profit_gt0. rewrite E. cbn [bind]. now rewrite V.
Qed.

Lemma filterM_profit_lt0 (l : list TradeDict) :
  Forall machine_profit l -> filterM profit_lt0 l = Returned (losing l).
Proof.
  intro H. apply filterM_pure.
  apply Forall_forall. intros t Ht.
  destruct (machine_profit_number t (proj1 (Forall_forall _ _) H t Ht))
    as [E [_ V]].
  unfold profit_lt0. rewrite E. cbn [bind]. now rewrite V.
Qed.

Lemma profits_machine (l : list TradeDict) :
  Forall machine_profit l -> profits l = Returned (map number_of l).
Proof.
  intro H. apply mapM_pure.
  apply Forall_forall. intros t Ht.
  now destruct (machine_profit_number t (proj1 (Forall_forall _ _) H t Ht)).
Qed.

Lemma numbers_machine (l : list TradeDict) :
  Forall machine_profit l -> Forall machine_number (map number_of l).
Proof.
  intro H. apply Forall_map. apply Forall_forall. intros t Ht.
  now destruct (machine_profit_number t (proj1 (Forall_forall _ _) H t Ht))
    as [_ [M _]].
Qed.

Lemma all_of_some {A B} (f : A -> option B) (l : list A) :
  Forall (fun x => exists y, f x = Some y) l -> exists ys, all_of f l = Some ys.
Proof.
  induction 1 as [|x l [y Hy] _ [ys IH]].
  - now exists [].
  - exists (y :: ys). cbn [all_of]. now rewrite Hy, IH.
Qed.

(** numpy makes an [int64] or a [float64] array of machine numbers. *)
Lemma np_array_machine (l : list pynum) :
  Forall machine_number l -> exists arr, np_array l = Some arr.
Proof.
  intro H. unfold np_array.
  destruct (forallb is_int l) eqn:E.
  - destruct (all_of_some as_int64 l) as [ys Hys].
    + apply Forall_forall. intros n Hn.
      pose proof (proj1 (forallb_forall _ _) E n Hn) as Hi.
      pose proof (proj1 (Forall_forall _ _) H n Hn) as Hm.
      destruct n as [z|x]; [|discriminate].
      simpl in Hm. simpl. rewrite Hm. now exists z.
    + rewrite Hys. now eexists.
  - destruct (all_of_some as_double l) as [ys Hys].
    + apply Forall_forall. intros n Hn.
      pose proof (proj1 (Forall_forall _ _) H n Hn) as Hm.
      destruct n as [z|x]; simpl.
      * simpl in Hm. rewrite Hm. now eexists.
      * now eexists.
    + rewrite Hys. now eexists.
Qed.

Lemma _calculate_sharpe_ratio_machine (l : list pynum) :
  Forall machine_number l ->
  exists s, _calculate_sharpe_ratio sharpe_of_array wide_sharpe_ratio l
            = Returned s.
Proof.
  intro H. unfold _calculate_sharpe_ratio.
  destruct (negb (nonempty l)); [now eexists|].
  destruct (np_array_machine l H) as [arr ->].
  destruct (List.length l <? 2)%nat; now eexists.
Qed.

Lemma _calculate_max_drawdown_machine (l : list pynum) :
  Forall machine_number l ->
  exists d, _calculate_max_drawdown wide_max_drawdown l = Returned d.
Proof.
  intro H. unfold _calculate_max_drawdown.
  destruct (negb (nonempty l)); [now eexists|].
  destruct (np_array_machine l H) as [arr ->].
  destruct arr; now eexists.
Qed.

(** The share [w / n] of [w <= n] items, as Python rounds it. *)
Lemma py_truediv_share (w n : nat) :
  (w <= n)%nat -> (0 < n)%nat ->
  exists v,
    py_truediv (PyInt (Z.of_nat w)) (PyInt (Z.of_nat n))
    = Returned (PyFloat (Fin v))
    /\ round64 (inject_Z (Z.of_nat w) / inject_Z (Z.of_nat n)) = Fin v
    /\ 0 <= v /\ v <= 1.
Proof.
  intros Hw Hn. unfold py_truediv.
  destruct (Z.of_nat n =? 0)%Z eqn:E; [apply Z.eqb_eq in E; lia|].
  assert (0 < inject_Z (Z.of_nat n)) as Pn.
  { change 0 with (inject_Z 0). rewrite <- Zlt_Qlt. lia. }
  assert (0 <= inject_Z (Z.of_nat w)) as Pw.
  { change 0 with (inject_Z 0). rewrite <- Zle_Qle. lia. }
  assert (inject_Z (Z.of_nat w) <= inject_Z (Z.of_nat n)) as Pwn.
  { rewrite <- Zle_Qle. lia. }
  assert (is_binary64 1) as H1.
  { apply (is_binary64_eq (2 ^ 0)); [reflexivity|]. apply is_binary64_pow2. lia. }
  destruct (round64_between (inject_Z (Z.of_nat w) / inject_Z (Z.of_nat n)) 0 1)
    as [v [Ev [L U]]]; try assumption; try apply is_binary64_0.
  - apply Qle_shift_div_l; lra.
  - apply Qle_shift_div_r; lra.
  - exists v. rewrite Ev. auto.
Qed.

(** [analyze_trades] on a list of dictionaries whose trades of the
    address carry machine numbers: a result is returned, built from the
    trades of the address as follows. *)
Lemma analyze_trades_machine (trades : list record) (a : string) :
  Forall is_dict trades ->
  address_trades trades a <> [] ->
  Forall machine_profit (address_trades trades a) ->
  (Z.of_nat (List.length (address_trades trades a)) < 2 ^ 63)%Z ->
  let ats := address_trades trades a in
  exists r tp tl v,
    analyze_trades sharpe_of_array wide_sharpe_ratio wide_max_drawdown hour
      trades a = Returned (Some r)
    /\ total_trades r = List.length ats
    /\ win_rate r = PyFloat (Fin v)
    /\ round64 (inject_Z (Z.of_nat (List.length (winning ats)))
                / inject_Z (Z.of_nat (List.length ats))) = Fin v
    /\ 0 <= v /\ v <= 1
    /\ py_sum (map number_of (winning ats)) = Returned tp
    /\ total_profit r = tp
    /\ py_sum (map number_of (losing ats)) = Returned tl
    /\ total_loss r = tl
    /\ (py_eq tl (PyInt 0) = true -> profit_factor r = PyFloat PInf)
    /\ (py_eq tl (PyInt 0) = false ->
        exists q, py_truediv tp tl = Returned (PyFloat q)
                  /\ profit_factor r = PyFloat (np_abs q))
    /\ max_profit r = py_max (map number_of (winning ats)) (PyInt 0)
    /\ max_loss r = py_min (map number_of (losing ats)) (PyInt 0)
    /\ _calculate_max_drawdown wide_max_drawdown (map number_of ats)
       = Returned (max_drawdown r)
    /\ (if nonempty (winning ats)
        then py_truediv tp (PyInt (Z.of_nat (List.length (winning ats))))
        else Returned (PyInt 0)) = Returned (avg_profit r)
    /\ (if nonempty (losing ats)
        then py_truediv tl (PyInt (Z.of_nat (List.length (losing ats))))
        else Returned (PyInt 0)) = Returned (avg_loss r).
Proof.
  intros Hd Hne Hm Hlen ats.
  fold ats in Hne, Hm, Hlen.
  pose proof (Forall_machine_filter
                (fun t => np_gtb (profit_of t) (Fin 0)) ats Hm) as HW.
  pose proof (Forall_machine_filter
                (fun t => np_ltb (profit_of t) (Fin 0)) ats Hm) as HL.
  fold (winning ats) in HW. fold (losing ats) in HL.
  pose proof (filter_length_le (fun t => np_gtb (profit_of t) (Fin 0)) ats) as LW.
  pose proof (filter_length_le (fun t => np_ltb (profit_of t) (Fin 0)) ats) as LL.
  fold (winning ats) in LW. fold (losing ats) in LL.
  assert (0 < List.length ats)%nat as Hpos.
  { destruct ats; [congruence|simpl; lia]. }
  destruct (py_truediv_share _ _ LW Hpos) as [v [Ev [Rv [V0 V1]]]].
  destruct (py_sum_machine (map number_of (winning ats))) as [tp [Etp Btp]];
    [rewrite length_map; lia|now apply numbers_machine|].
  destruct (py_sum_machine (map number_of (losing ats))) as [tl [Etl Btl]];
    [rewrite length_map; lia|now apply numbers_machine|].
  rewrite length_map in Btp, Btl.
  assert (int_bounded (2 ^ 63) tp) as Btp'.
  { apply (int_bounded_mono (Z.of_nat (List.length (winning ats))) (2 ^ 63));
      [lia|exact Btp]. }
  assert (int_bounded (2 ^ 63) tl) as Btl'.
  { apply (int_bounded_mono (Z.of_nat (List.length (losing ats))) (2 ^ 63));
      [lia|exact Btl]. }
  assert (forall (s : pynum) (l : list TradeDict),
            int_bounded (2 ^ 63) s -> (List.length l <= List.length ats)%nat ->
            exists q, (if nonempty l
                       then py_truediv s (PyInt (Z.of_nat (List.length l)))
                       else Returned (PyInt 0)) = Returned q) as Havg.
  { intros s l Hs Hl. destruct l as [|t l]; [now eexists|].
    cbn [nonempty].
    assert (int_bounded (2 ^ 63) (PyInt (Z.of_nat (List.length (t :: l))))) as B.
    { unfold int_bounded. lia. }
    assert (py_eq (PyInt (Z.of_nat (List.length (t :: l)))) (PyInt 0) = false) as Z.
    { unfold py_eq. simpl num_val. unfold np_eqb.
      apply Qeq_bool_false. intro C.
      assert (0 < inject_Z (Z.of_nat (List.length (t :: l)))) as P.
      { change 0 with (inject_Z 0). rewrite <- Zlt_Qlt. cbn [List.length]. lia. }
      change (inject_Z 0) with 0 in C. rewrite C in P.
      exact (Qlt_irrefl _ P). }
    destruct (py_truediv_machine (2 ^ 63) s _ ltac:(lia) Hs B Z) as [q Eq'].
    exists (PyFloat q). exact Eq'. }
  destruct (Havg tp (winning ats) Btp' LW) as [ap Eap].
  destruct (Havg tl (losing ats) Btl' LL) as [al Eal].
  destruct (_calculate_sharpe_ratio_machine (map number_of ats)
              (numbers_machine ats Hm)) as [sr Esr].
  destruct (_calculate_max_drawdown_machine (map number_of ats)
              (numbers_machine ats Hm)) as [dd Edd].
  assert (exists pf,
            (if negb (py_eq tl (PyInt 0))
             then q <- py_truediv tp tl ;; ret (py_abs q)
             else ret (PyFloat PInf)) = Returned pf
            /\ (py_eq tl (PyInt 0) = true -> pf = PyFloat PInf)
            /\ (py_eq tl (PyInt 0) = false ->
                exists q, py_truediv tp tl = Returned (PyFloat q)
                          /\ pf = PyFloat (np_abs q))) as [pf [Epf [PF1 PF2]]].
  { destruct (py_eq tl (PyInt 0)) eqn:E0; cbn [negb].
    - exists (PyFloat PInf). split; [reflexivity|]. split; [auto|discriminate].
    - destruct (py_truediv_machine (2 ^ 63) tp tl ltac:(lia) Btp' Btl' E0)
        as [q Eq'].
      exists (PyFloat (np_abs q)). rewrite Eq'. cbn [bind py_abs].
      split; [reflexivity|]. split; [discriminate|].
      intros _. now exists q. }
  eexists _, tp, tl, v.
  split.
  - unfold analyze_trades, analyze_trades_body.
    rewrite (select_address_dicts trades a Hd). cbn [bind].
    fold ats.
    rewrite (proj2 (nonempty_true ats) Hne). cbn [negb].
    rewrite (filterM_profit_gt0 ats Hm). cbn [bind].
    rewrite (filterM_profit_lt0 ats Hm). cbn [bind].
    rewrite (proj2 (Nat.ltb_lt _ _) Hpos).
    rewrite Ev. cbn [bind].
    unfold sum_profit.
    rewrite (profits_machine _ HW). cbn [bind]. rewrite Etp. cbn [bind].
    rewrite (profits_machine _ HL). cbn [bind]. rewrite Etl. cbn [bind].
    rewrite Eap. cbn [bind]. rewrite Eal. cbn [bind].
    rewrite Epf. cbn [bind].
    rewrite (profits_machine _ Hm). cbn [bind].
    rewrite Esr. cbn [bind]. rewrite Edd. cbn [bind].
    cbn [try_except]. reflexivity.
  - cbn [total_trades win_rate total_profit total_loss profit_factor
         max_profit max_loss max_drawdown avg_profit avg_loss].
    repeat split; try reflexivity; try assumption.
Qed.

End AnalyzeTradesPy.

(** ** Win rate and the three classes of trades *)

Section WinRatePy.
Import AddressAnalysisPy SpecPy.
Variable sharpe_of_array : ndarray -> npfloat.
Variable wide_sharpe_ratio : list pynum -> outcome npfloat.
Variable wide_max_drawdown : list pynum -> outcome pynum.
Variable hour : Q -> outcome nat.

(** A value other than NaN is greater than, less than or equal to 0,
    and NaN is none of these. *)
Lemma sign_classes (x : npfloat) :
  ((if np_gtb x (Fin 0) then 1 else 0)
   + (if np_ltb x (Fin 0) then 1 else 0)
   + (if np_eqb x (Fin 0) then 1 else 0)
   + (if np_isnan x then 1 else 0) = 1)%nat.
Proof.
  destruct x as [q| | |]; try reflexivity.
  unfold np_gtb, np_ltb, np_eqb, np_isnan, Qlt_bool.
  destruct (Qcompare_spec 0 q) as [E|L|G].
  - assert (Qeq_bool q 0 = true) as -> by (apply Qeq_bool_iff; now symmetry).
    assert (Qle_bool q 0 = true) as H1 by (apply Qle_bool_iff; rewrite <- E; apply Qle_refl).
    assert (Qle_bool 0 q = true) as H2 by (apply Qle_bool_iff; rewrite <- E; apply Qle_refl).
    rewrite H1, H2. reflexivity.
  - assert (Qeq_bool q 0 = false) as -> by (apply Qeq_bool_false; intro C; rewrite C in L; exact (Qlt_irrefl _ L)).
    assert (Qle_bool q 0 = false) as H1.
    { destruct (Qle_bool q 0) eqn:E; [|reflexivity].
      apply Qle_bool_iff in E. exfalso. exact (Qlt_irrefl _ (Qlt_le_trans _ _ _ L E)). }
    assert (Qle_bool 0 q = true) as H2 by (apply Qle_bool_iff; now apply Qlt_le_weak).
    rewrite H1, H2. reflexivity.
  - assert (Qeq_bool q 0 = false) as -> by (apply Qeq_bool_false; intro C; rewrite C in G; exact (Qlt_irrefl _ G)).
    assert (Qle_bool 0 q = false) as H1.
    { destruct (Qle_bool 0 q) eqn:E; [|reflexivity].
      apply Qle_bool_iff in E. exfalso. exact (Qlt_irrefl _ (Qlt_le_trans _ _ _ G E)). }
    assert (Qle_bool q 0 = true) as H2 by (apply Qle_bool_iff; now apply Qlt_le_weak).
    rewrite H1, H2. reflexivity.
Qed.

Lemma four_classes (ts : list TradeDict) :
  List.length ts
  = (List.length (winning ts) + List.length (losing ts)
     + List.length (breakeven ts) + List.length (unordered ts))%nat.
Proof.
  unfold winning, losing, breakeven, unordered.
  induction ts as [|t ts IH]; [reflexivity|].
  cbn [filter List.length].
  pose proof (sign_classes (profit_of t)) as H.
  destruct (np_gtb (profit_of t) (Fin 0)), (np_ltb (profit_of t) (Fin 0)),
    (np_eqb (profit_of t) (Fin 0)), (np_isnan (profit_of t));
    cbn [List.length]; simpl in H; lia.
Qed.

Lemma unordered_nil (ts : list TradeDict) :
  Forall ordered_profit ts -> unordered ts = [].
Proof.
  unfold unordered. induction 1 as [|t ts [_ Ht] _ IH]; [reflexivity|].
  cbn [filter]. destruct (profit_of t); try exact IH. now contradiction Ht.
Qed.


(** C3.  For a list of dictionaries in which the trades of an address
    are not empty and carry machine numbers as profits (floats, NaN and
    the infinities included, and ints of the 64-bit range),
    [analyze_trades] returns a result whose win_rate is a float in
    [0, 1] and whose total_trades is the number of winning, losing,
    breakeven and NaN-profit trades together; when no profit is NaN,
    total_trades is |winning| + |losing| + |breakeven|.  A Python list
    holds fewer than [2 ^ 63] items. *)
Theorem win_rate_bounds_and_partition (trades : list record) (a : string) :
  Forall is_dict trades ->
  address_trades trades a <> [] ->
  Forall machine_profit (address_trades trades a) ->
  (Z.of_nat (List.length (address_trades trades a)) < 2 ^ 63)%Z ->
  let ats := address_trades trades a in
  exists r w,
    analyze_trades sharpe_of_array wide_sharpe_ratio wide_max_drawdown hour
      trades a = Returned (Some r)
    /\ win_rate r = PyFloat (Fin w) /\ 0 <= w /\ w <= 1
    /\ total_trades r
       = (List.length (winning ats) + List.length (losing ats)
          + List.length (breakeven ats) + List.length (unordered ats))%nat
    /\ (Forall ordered_profit ats ->
        total_trades r
        = (List.length (winning ats) + List.length (losing ats)
           + List.length (breakeven ats))%nat).
Proof.
  intros Hd Hne Hm Hlen ats.
  destruct (analyze_trades_machine sharpe_of_array wide_sharpe_ratio
              wide_max_drawdown hour trades a Hd Hne Hm Hlen)
    as (r & tp & tl & v & E & T & W & _ & V0 & V1 & _).
  fold ats in T.
  exists r, v. split; [exact E|]. split; [exact W|].
  split; [exact V0|]. split; [exact V1|].
  split.
  - rewrite T. apply four_classes.
  - intro Ho. rewrite T, (four_classes ats), (unordered_nil ats Ho).
    cbn [List.length]. lia.
Qed.

End WinRatePy.

Lemma win_rate_bounds_and_partition_witness :
  let trades := [SpecPy.int_trade "A" 10; SpecPy.float_trade "A" (Fin (-5 # 2));
                 SpecPy.int_trade "B" 7; SpecPy.float_trade "A" (Fin 0)] in
  let ats := SpecPy.address_trades trades "A" in
  exists r w,
    AddressAnalysisPy.analyze_trades SpecPy.sharpe_exact
      SpecPy.wide_sharpe_raises SpecPy.wide_drawdown_raises utc_hour
      trades "A" = Returned (Some r)
    /\ AddressAnalysisPy.win_rate r = AddressAnalysisPy.PyFloat (Fin w)
    /\ 0 <= w /\ w <= 1
    /\ AddressAnalysisPy.total_trades r
       = (List.length (SpecPy.winning ats) + List.length (SpecPy.losing ats)
          + List.length (SpecPy.breakeven ats)
          + List.length (SpecPy.unordered ats))%nat
    /\ (Forall SpecPy.ordered_profit ats ->
        AddressAnalysisPy.total_trades r
        = (List.length (SpecPy.winning ats) + List.length (SpecPy.losing ats)
           + List.length (SpecPy.breakeven ats))%nat).
Proof.
  apply (win_rate_bounds_and_partition SpecPy.sharpe_exact
           SpecPy.wide_sharpe_raises SpecPy.wide_drawdown_raises utc_hour
           [SpecPy.int_trade "A" 10; SpecPy.float_trade "A" (Fin (-5 # 2));
            SpecPy.int_trade "B" 7; SpecPy.float_trade "A" (Fin 0)] "A").
  - repeat constructor; eexists; reflexivity.
  - discriminate.
  - repeat constructor; eexists; (split; [reflexivity|]); reflexivity.
  - reflexivity.
Defined.

(** A single trade whose profit is NaN: the analysis returns a result
    with total_trades 1, and the trade is neither winning, nor losing,
    nor breakeven. *)
Lemma nan_profit_in_no_class :
  let trades := [SpecPy.float_trade "A" NaN] in
  let ats := SpecPy.address_trades trades "A" in
  exists r,
    AddressAnalysisPy.analyze_trades SpecPy.sharpe_exact
      SpecPy.wide_sharpe_raises SpecPy.wide_drawdown_raises utc_hour
      trades "A" = Returned (Some r)
    /\ AddressAnalysisPy.total_trades r = 1%nat
    /\ SpecPy.winning ats = [] /\ SpecPy.losing ats = []
    /\ SpecPy.breakeven ats = []
    /\ AddressAnalysisPy.total_trades r
       <> (List.length (SpecPy.winning ats) + List.length (SpecPy.losing ats)
           + List.length (SpecPy.breakeven ats))%nat.
Proof.
  eexists. split; [vm_compute; reflexivity|].
  repeat split; try reflexivity. discriminate.
Qed.

(** ** Profit factor *)

Section ProfitFactorPy.
Import AddressAnalysisPy SpecPy.
Variable sharpe_of_array : ndarray -> npfloat.
Variable wide_sharpe_ratio : list pynum -> outcome npfloat.
Variable wide_max_drawdown : list pynum -> outcome pynum.
Variable hour : Q -> outcome nat.

Lemma pow2_480 : 2 ^ 480 * 2 ^ (-480) == 1.
Proof. rewrite <- pow2_add. reflexivity. Qed.

Lemma pow2_960 : 2 ^ 960 == 2 ^ 480 * 2 ^ 480.
Proof. rewrite <- pow2_add. reflexivity. Qed.

Lemma moderate_winner (ts : list TradeDict) (t : TradeDict) :
  Forall moderate_profit ts -> In t (winning ts) ->
  value_between 0 (2 ^ 480) (number_of t).
Proof.
  intros Hm Ht. apply filter_In in Ht. destruct Ht as [Hin Hgt].
  destruct (proj1 (Forall_forall _ _) Hm t Hin) as [Hmach [q [Eq' Hq]]].
  destruct (machine_profit_number t Hmach) as [_ [_ V]].
  rewrite Eq' in Hgt. unfold np_gtb, np_ltb in Hgt.
  apply Qlt_bool_iff in Hgt.
  exists q. split; [now rewrite <- V|].
  split; [now apply Qlt_le_weak|].
  destruct Hq as [Hz|[_ Hu]].
  - rewrite Hz in Hgt. exfalso. exact (Qlt_irrefl _ Hgt).
  - rewrite Qabs_pos in Hu; [exact Hu|now apply Qlt_le_weak].
Qed.

Lemma moderate_loser (ts : list TradeDict) (t : TradeDict) :
  Forall moderate_profit ts -> In t (losing ts) ->
  value_between (- 2 ^ 480) (- 2 ^ (-480)) (number_of t).
Proof.
  intros Hm Ht. apply filter_In in Ht. destruct Ht as [Hin Hlt].
  destruct (proj1 (Forall_forall _ _) Hm t Hin) as [Hmach [q [Eq' Hq]]].
  destruct (machine_profit_number t Hmach) as [_ [_ V]].
  rewrite Eq' in Hlt. unfold np_ltb in Hlt.
  apply Qlt_bool_iff in Hlt.
  exists q. split; [now rewrite <- V|].
  destruct Hq as [Hz|[Hl Hu]].
  - rewrite Hz in Hlt. exfalso. exact (Qlt_irrefl _ Hlt).
  - rewrite Qabs_of_neg in Hl, Hu by now apply Qlt_le_weak.
    split; lra.
Qed.

Lemma scaled_step (j : Z) (M : Q) :
  inject_Z j * M + M == inject_Z (j + 1) * M.
Proof. rewrite inject_Z_plus. change (inject_Z 1) with 1. ring. Qed.

(** The sum of [n < 2 ^ 53] numbers between 0 and [2 ^ 480] lies
    between 0 and [n * 2 ^ 480]. *)
Lemma py_sum_gains (l : list pynum) :
  (Z.of_nat (List.length l) < 2 ^ 53)%Z ->
  Forall (value_between 0 (2 ^ 480)) l ->
  exists s, py_sum l = Returned s
            /\ value_between 0 (inject_Z (Z.of_nat (List.length l)) * 2 ^ 480) s.
Proof.
  intros Hn Hl.
  destruct (py_sum_from_between 0 (2 ^ 480)
              (fun _ => 0) (fun j => inject_Z j * 2 ^ 480) (2 ^ 53 - 1)
              is_binary64_0 (is_binary64_pow2 480 ltac:(lia)))
    with (l := l) (acc := PyInt 0) (k := 0%Z) as [s [E H]].
  - intros j Hj. split; [apply is_binary64_0|].
    apply is_binary64_scaled; lia.
  - intros j Hj. split; [lra|]. rewrite scaled_step. apply Qle_refl.
  - lia.
  - lia.
  - exact Hl.
  - exists 0. split; [reflexivity|]. split; [apply Qle_refl|].
    rewrite Qmult_0_l. apply Qle_refl.
  - exists s. split; [exact E|]. exact H.
Qed.

(** The sum of [0 < n < 2 ^ 53] numbers between [- 2 ^ 480] and
    [- 2 ^ -480] lies between [- n * 2 ^ 480] and [- 2 ^ -480]. *)
Lemma py_sum_losses (l : list pynum) :
  l <> [] ->
  (Z.of_nat (List.length l) < 2 ^ 53)%Z ->
  Forall (value_between (- 2 ^ 480) (- 2 ^ (-480))) l ->
  exists s, py_sum l = Returned s
            /\ value_between (- (inject_Z (Z.of_nat (List.length l)) * 2 ^ 480))
                             (- 2 ^ (-480)) s.
Proof.
  intros Hne Hn Hl.
  assert (is_binary64 (- 2 ^ 480)) as B1.
  { apply is_binary64_opp, is_binary64_pow2. lia. }
  assert (is_binary64 (- 2 ^ (-480))) as B2.
  { apply is_binary64_opp, is_binary64_pow2. lia. }
  pose proof (pow2_pos (-480)) as Pm.
  destruct (py_sum_from_between (- 2 ^ 480) (- 2 ^ (-480))
              (fun j => - (inject_Z j * 2 ^ 480))
              (fun j => if (j =? 0)%Z then 0 else - 2 ^ (-480))
              (2 ^ 53 - 1) B1 B2)
    with (l := l) (acc := PyInt 0) (k := 0%Z) as [s [E H]].
  - intros j Hj. split.
    + apply is_binary64_opp, is_binary64_scaled; lia.
    + destruct (j =? 0)%Z; [apply is_binary64_0|exact B2].
  - intros j Hj. split.
    + rewrite <- scaled_step. lra.
    + destruct (j =? 0)%Z eqn:E0.
      * assert ((j + 1 =? 0)%Z = false) as -> by (apply Z.eqb_neq; lia). lra.
      * assert ((j + 1 =? 0)%Z = false) as -> by (apply Z.eqb_neq; lia). lra.
  - lia.
  - lia.
  - exact Hl.
  - exists 0. split; [reflexivity|]. cbn [Z.eqb].
    rewrite Qmult_0_l. split; lra.
  - exists s. split; [exact E|].
    cbn beta in H. rewrite Z.add_0_l in H.
    assert ((Z.of_nat (List.length l) =? 0)%Z = false) as E0.
    { apply Z.eqb_neq. destruct l; [congruence|]. cbn [List.length]. lia. }
    rewrite E0 in H. exact H.
Qed.

(** The quotient of such sums is a finite float. *)
Lemma py_truediv_moderate (n : Z) (tp tl : pynum) (q : npfloat) :
  (0 <= n < 2 ^ 53)%Z ->
  value_between 0 (inject_Z n * 2 ^ 480) tp ->
  value_between (- (inject_Z n * 2 ^ 480)) (- 2 ^ (-480)) tl ->
  py_truediv tp tl = Returned (PyFloat q) ->
  exists v, q = Fin v.
Proof.
  intros Hn Hp Hl E.
  assert (is_binary64 (inject_Z n * 2 ^ 480)) as B1.
  { apply is_binary64_scaled; lia. }
  assert (is_binary64 (- (inject_Z n * 2 ^ 480))) as B2.
  { now apply is_binary64_opp. }
  assert (is_binary64 (- 2 ^ (-480))) as B3.
  { apply is_binary64_opp, is_binary64_pow2. lia. }
  destruct (to_float_between tp _ _ is_binary64_0 B1 Hp) as [p [Ep [P1 P2]]].
  destruct (to_float_between tl _ _ B2 B3 Hl) as [t [Et [T1 T2]]].
  pose proof (pow2_pos (-480)) as Pm.
  pose proof (pow2_pos 480) as PM.
  assert (forall x, f64_div (Fin p) (Fin t) = x -> exists v, x = Fin v) as Hdiv.
  { intros x <-. unfold f64_div. rewrite np_div_fin by (intro C; lra).
    assert (is_binary64 (- (inject_Z n * 2 ^ 960))) as B4.
    { apply is_binary64_opp, is_binary64_scaled; lia. }
    destruct (round64_between (p / t) (- (inject_Z n * 2 ^ 960)) 0)
      as [v [Ev _]]; try assumption; try apply is_binary64_0.
    - assert (p / t == (- p) / (- t)) as -> by (field; intro C; lra).
      apply Qle_shift_div_l; [lra|].
      rewrite pow2_960.
      assert (0 <= inject_Z n) as N0.
      { change 0 with (inject_Z 0). rewrite <- Zle_Qle. lia. }
      pose proof pow2_480 as P1'.
      assert (inject_Z n * 2 ^ 480 <= inject_Z n * (2 ^ 480 * 2 ^ 480) * (- t)) as K.
      { assert (inject_Z n * (2 ^ 480 * 2 ^ 480) * (- t)
                == inject_Z n * 2 ^ 480 * (2 ^ 480 * (- t))) as -> by ring.
        assert (1 <= 2 ^ 480 * (- t)) as K1.
        { rewrite <- P1'. apply Qmult_le_l; [exact PM|lra]. }
        assert (0 <= inject_Z n * 2 ^ 480) as K2 by (apply Qmult_le_0_compat; lra).
        nra. }
      lra.
    - assert (p / t == (- p) / (- t)) as -> by (field; intro C; lra).
      apply Qle_shift_div_r; lra.
    - simpl. exists v. exact Ev. }
  destruct tp as [zp|fp], tl as [zl|fl];
    try (unfold py_truediv in E; rewrite Ep in E; cbn [bind] in E;
         rewrite Et in E; cbn [bind] in E;
         destruct (np_eqb (Fin t) (Fin 0)); [discriminate|];
         injection E as E; now apply Hdiv).
  unfold py_truediv in E.
  destruct (zl =? 0)%Z; [discriminate|].
  destruct (round64 (inject_Z zp / inject_Z zl)) as [v| | |]; try discriminate.
  injection E as <-. now exists v.
Qed.


Lemma np_ltb_not_eqb (x : npfloat) :
  np_ltb x (Fin 0) = true -> np_eqb x (Fin 0) = false.
Proof.
  destruct x as [q| | |]; try reflexivity.
  unfold np_ltb, np_eqb. intro H. apply Qlt_bool_iff in H.
  apply Qeq_bool_false. intro C. rewrite C in H. exact (Qlt_irrefl _ H).
Qed.

(** A zero dividend gives a zero quotient. *)
Lemma f64_div_zero (p : Q) (y : npfloat) :
  p == 0 -> np_ltb y (Fin 0) = true -> f64_div (Fin p) y = Fin 0.
Proof.
  intros Hp Hy. destruct y as [t| | |]; try discriminate.
  - unfold np_ltb in Hy. apply Qlt_bool_iff in Hy.
    unfold f64_div. rewrite np_div_fin by (intro C; rewrite C in Hy; exact (Qlt_irrefl _ Hy)).
    simpl. apply round64_zero. rewrite Hp. unfold Qdiv. apply Qmult_0_l.
  - reflexivity.
Qed.

Lemma py_truediv_zero (tp tl : pynum) (q : npfloat) :
  py_eq tp (PyInt 0) = true -> py_lt tl (PyInt 0) = true ->
  py_truediv tp tl = Returned (PyFloat q) -> q = Fin 0.
Proof.
  intros Hp Hl E.
  assert (forall x, to_float tp = Returned x -> exists p, x = Fin p /\ p == 0) as Hx.
  { intros x Ex. destruct tp as [zp|fp].
    - unfold py_eq in Hp. simpl in Hp. apply Qeq_bool_iff in Hp.
      assert (round64 (inject_Z zp) = Fin 0) as R by now apply round64_zero.
      unfold to_float in Ex. rewrite R in Ex. injection Ex as <-.
      exists 0. split; reflexivity.
    - simpl in Ex. injection Ex as <-.
      unfold py_eq in Hp. simpl in Hp.
      destruct fp as [p| | |]; try discriminate.
      exists p. split; [reflexivity|]. now apply Qeq_bool_iff. }
  assert (forall y, to_float tl = Returned y -> np_ltb y (Fin 0) = true) as Hy.
  { intros y Ey. destruct tl as [zl|fl].
    - unfold py_lt in Hl. simpl in Hl. apply Qlt_bool_iff in Hl.
      unfold to_float in Ey.
      pose proof (round64_le_bound (inject_Z zl) 0 (Qlt_le_weak _ _ Hl)
                    is_binary64_0) as Hle.
      destruct (round64 (inject_Z zl)) as [t| | |] eqn:R; try discriminate.
      injection Ey as <-.
      unfold np_ltb. apply Qlt_bool_iff.
      simpl in Hle. apply Qle_bool_iff in Hle.
      destruct (Qlt_le_dec t 0) as [L|G]; [exact L|].
      exfalso.
      assert (t == 0) as T0 by (apply Qle_antisym; assumption).
      assert (is_binary64 (- (1))) as B1.
      { apply is_binary64_opp.
        apply (is_binary64_eq (2 ^ 0)); [reflexivity|]. apply is_binary64_pow2. lia. }
      assert (inject_Z zl <= - (1)) as Z1.
      { change (- (1)) with (inject_Z (-1)). rewrite <- Zle_Qle.
        change 0 with (inject_Z 0) in Hl. rewrite <- Zlt_Qlt in Hl. lia. }
      pose proof (round64_le_bound _ _ Z1 B1) as Hle1.
      rewrite R in Hle1. simpl in Hle1. apply Qle_bool_iff in Hle1. lra.
    - simpl in Ey. injection Ey as <-. exact Hl. }
  destruct tp as [zp|fp], tl as [zl|fl].
  - unfold py_truediv in E. destruct (zl =? 0)%Z; [discriminate|].
    unfold py_eq in Hp. simpl in Hp. apply Qeq_bool_iff in Hp.
    assert (round64 (inject_Z zp / inject_Z zl) = Fin 0) as R.
    { apply round64_zero. rewrite Hp. unfold Qdiv. apply Qmult_0_l. }
    rewrite R in E. now injection E as <-.
  - unfold py_truediv in E.
    destruct (to_float (PyInt zp)) as [x|] eqn:Ex; [|discriminate].
    cbn [bind] in E.
    destruct (Hx x eq_refl) as [p [-> P0]].
    cbn [to_float bind] in E.
    destruct (np_eqb fl (Fin 0)); [discriminate|].
    injection E as <-. apply f64_div_zero; [exact P0|]. now apply Hy.
  - unfold py_truediv in E. cbn [to_float bind] in E.
    destruct (Hx fp eq_refl) as [p [-> P0]].
    destruct (match round64 (inject_Z zl) with
              | Fin q => Returned (Fin q) | _ => Raised OverflowError end)
      as [y|] eqn:Ey; [|discriminate].
    cbn [bind] in E.
    destruct (np_eqb y (Fin 0)); [discriminate|].
    injection E as <-. apply f64_div_zero; [exact P0|]. now apply Hy.
  - unfold py_truediv in E. cbn [to_float bind] in E.
    destruct (Hx fp eq_refl) as [p [-> P0]].
    destruct (np_eqb fl (Fin 0)); [discriminate|].
    injection E as <-. apply f64_div_zero; [exact P0|]. now apply Hy.
Qed.

(** C2.  For a list of dictionaries in which the trades of an address
    are not empty and carry machine numbers as profits, [analyze_trades]
    returns a result in which profit_factor is +infinity whenever
    total_loss == 0 (whatever total_profit is), and is 0 whenever
    total_profit == 0 and total_loss < 0.  Conversely a profit_factor of
    +infinity means total_loss == 0 provided the quotient
    total_profit / total_loss cannot overflow: when the address has
    fewer than [2 ^ 53] trades, each with a profit that is 0 or of
    magnitude between [2 ^ -480] and [2 ^ 480]. *)
Theorem profit_factor_infinite_iff (trades : list record) (a : string) :
  Forall is_dict trades ->
  address_trades trades a <> [] ->
  Forall machine_profit (address_trades trades a) ->
  (Z.of_nat (List.length (address_trades trades a)) < 2 ^ 63)%Z ->
  exists r,
    analyze_trades sharpe_of_array wide_sharpe_ratio wide_max_drawdown hour
      trades a = Returned (Some r)
    /\ (py_eq (total_loss r) (PyInt 0) = true ->
        num_val (profit_factor r) = PInf)
    /\ (py_eq (total_profit r) (PyInt 0) = true ->
        py_lt (total_loss r) (PyInt 0) = true ->
        num_val (profit_factor r) = Fin 0)
    /\ (Forall moderate_profit (address_trades trades a) ->
        (Z.of_nat (List.length (address_trades trades a)) < 2 ^ 53)%Z ->
        (num_val (profit_factor r) = PInf
         <-> py_eq (total_loss r) (PyInt 0) = true)).
Proof.
  intros Hd Hne Hm Hlen.
  destruct (analyze_trades_machine sharpe_of_array wide_sharpe_ratio
              wide_max_drawdown hour trades a Hd Hne Hm Hlen)
    as (r & tp & tl & v & E & T & _ & _ & _ & _ & Etp & Rtp & Etl & Rtl & PF1 & PF2 & _).
  set (ats := address_trades trades a) in *.
  exists r. split; [exact E|]. rewrite Rtp, Rtl.
  split; [|split].
  - intro H0. now rewrite (PF1 H0).
  - intros Hp Hl.
    assert (py_eq tl (PyInt 0) = false) as H0 by now apply np_ltb_not_eqb.
    destruct (PF2 H0) as [q [Eq' ->]].
    rewrite (py_truediv_zero tp tl q Hp Hl Eq'). reflexivity.
  - intros Hmod Hn. split; [|intro H0; now rewrite (PF1 H0)].
    intro Hinf.
    destruct (py_eq tl (PyInt 0)) eqn:H0; [reflexivity|exfalso].
    destruct (PF2 eq_refl) as [q [Eq' Hpf]].
    pose proof (filter_length_le (fun t => np_gtb (profit_of t) (Fin 0)) ats) as LW.
    pose proof (filter_length_le (fun t => np_ltb (profit_of t) (Fin 0)) ats) as LL.
    fold (winning ats) in LW. fold (losing ats) in LL.
    destruct (py_sum_gains (map number_of (winning ats))) as [tp' [Etp' Btp]].
    { rewrite length_map. lia. }
    { apply Forall_map, Forall_forall. intros t Ht.
      now apply (moderate_winner ats). }
    rewrite Etp in Etp'. injection Etp' as <-.
    rewrite length_map in Btp.
    destruct (losing ats) as [|t0 ls] eqn:EL.
    { cbn in Etl. injection Etl as <-. discriminate H0. }
    destruct (py_sum_losses (map number_of (t0 :: ls))) as [tl' [Etl' Btl]].
    { discriminate. }
    { rewrite length_map. lia. }
    { apply Forall_map, Forall_forall. intros t Ht.
      apply (moderate_loser ats); [exact Hmod|]. now rewrite EL. }
    rewrite Etl in Etl'. injection Etl' as <-.
    rewrite length_map in Btl.
    set (n := Z.of_nat (List.length ats)).
    assert (0 <= inject_Z (Z.of_nat (List.length (winning ats))) * 2 ^ 480
            <= inject_Z n * 2 ^ 480) as [W0 W1].
    { pose proof (pow2_pos 480) as PM. split.
      - apply Qmult_le_0_compat; [|lra].
        change 0 with (inject_Z 0). rewrite <- Zle_Qle. lia.
      - apply Qmult_le_compat_r; [|lra]. rewrite <- Zle_Qle. unfold n. lia. }
    assert (inject_Z (Z.of_nat (List.length (t0 :: ls))) * 2 ^ 480
            <= inject_Z n * 2 ^ 480) as L1.
    { pose proof (pow2_pos 480) as PM.
      apply Qmult_le_compat_r; [|lra]. rewrite <- Zle_Qle. unfold n. lia. }
    assert (value_between 0 (inject_Z n * 2 ^ 480) tp) as Vp.
    { destruct Btp as [x [Ex [X1 X2]]]. exists x. split; [exact Ex|]. split; lra. }
    assert (value_between (- (inject_Z n * 2 ^ 480)) (- 2 ^ (-480)) tl) as Vl.
    { destruct Btl as [x [Ex [X1 X2]]]. exists x. split; [exact Ex|]. split; lra. }
    destruct (py_truediv_moderate n tp tl q ltac:(unfold n; lia) Vp Vl Eq') as [w ->].
    rewrite Hpf in Hinf. discriminate Hinf.
Qed.

End ProfitFactorPy.

Lemma profit_factor_infinite_iff_witness :
  let trades := [SpecPy.int_trade "A" 10; SpecPy.float_trade "A" (Fin (-5 # 2));
                 SpecPy.int_trade "B" 7; SpecPy.float_trade "A" (Fin 0)] in
  exists r,
    AddressAnalysisPy.analyze_trades SpecPy.sharpe_exact
      SpecPy.wide_sharpe_raises SpecPy.wide_drawdown_raises utc_hour
      trades "A" = Returned (Some r)
    /\ (AddressAnalysisPy.py_eq (AddressAnalysisPy.total_loss r)
          (AddressAnalysisPy.PyInt 0) = true ->
        AddressAnalysisPy.num_val (AddressAnalysisPy.profit_factor r) = PInf)
    /\ (AddressAnalysisPy.py_eq (AddressAnalysisPy.total_profit r)
          (AddressAnalysisPy.PyInt 0) = true ->
        AddressAnalysisPy.py_lt (AddressAnalysisPy.total_loss r)
          (AddressAnalysisPy.PyInt 0) = true ->
        AddressAnalysisPy.num_val (AddressAnalysisPy.profit_factor r) = Fin 0)
    /\ (Forall SpecPy.moderate_profit (SpecPy.address_trades trades "A") ->
        (Z.of_nat (List.length (SpecPy.address_trades trades "A")) < 2 ^ 53)%Z ->
        (AddressAnalysisPy.num_val (AddressAnalysisPy.profit_factor r) = PInf
         <-> AddressAnalysisPy.py_eq (AddressAnalysisPy.total_loss r)
               (AddressAnalysisPy.PyInt 0) = true)).
Proof.
  apply (profit_factor_infinite_iff SpecPy.sharpe_exact
           SpecPy.wide_sharpe_raises SpecPy.wide_drawdown_raises utc_hour
           [SpecPy.int_trade "A" 10; SpecPy.float_trade "A" (Fin (-5 # 2));
            SpecPy.int_trade "B" 7; SpecPy.float_trade "A" (Fin 0)] "A").
  - repeat constructor; eexists; reflexivity.
  - discriminate.
  - repeat constructor; eexists; (split; [reflexivity|]); reflexivity.
  - reflexivity.
Defined.

(** Without the bound on the profits the quotient can overflow: for the
    profits [2 ^ 700] and [- 2 ^ -700] total_loss is not 0 and
    profit_factor is +infinity. *)
Lemma profit_factor_overflows :
  exists r,
    AddressAnalysisPy.analyze_trades SpecPy.sharpe_exact
      SpecPy.wide_sharpe_raises SpecPy.wide_drawdown_raises utc_hour
      [SpecPy.float_trade "A" (Fin (2 ^ 700));
       SpecPy.float_trade "A" (Fin (- 2 ^ (-700)))] "A" = Returned (Some r)
    /\ AddressAnalysisPy.py_eq (AddressAnalysisPy.total_loss r)
         (AddressAnalysisPy.PyInt 0) = false
    /\ AddressAnalysisPy.profit_factor r = AddressAnalysisPy.PyFloat PInf.
Proof.
  eexists. split; [vm_compute; reflexivity|].
  split; reflexivity.
Qed.

(** ** Maximum drawdown on machine numbers *)

Section MaxDrawdownPy.
Import AddressAnalysisPy SpecPy.
Variable wide_max_drawdown : list pynum -> outcome pynum.

(** *** [float64] arrays *)

Lemma np_maximum_cases (x y : npfloat) :
  Float64.np_maximum x y = x \/ Float64.np_maximum x y = y.
Proof.
  unfold Float64.np_maximum.
  destruct (np_isnan x); [now left|].
  destruct (np_isnan y); [now right|].
  destruct (np_ltb x y); [now right|now left].
Qed.

Lemma np_leb_refl (x : npfloat) : x <> NaN -> np_leb x x = true.
Proof.
  destruct x as [q| | |]; try reflexivity; [|congruence].
  intros _. apply Qle_bool_iff, Qle_refl.
Qed.

Lemma np_leb_total (x y : npfloat) :
  x <> NaN -> y <> NaN -> np_ltb x y = false -> np_leb y x = true.
Proof.
  destruct x as [a| | |], y as [b| | |]; cbn; try congruence.
  intros _ _ H. apply Qlt_bool_false_iff in H. now apply Qle_bool_iff.
Qed.

Lemma np_ltb_leb (x y : npfloat) : np_ltb x y = true -> np_leb x y = true.
Proof.
  destruct x as [a| | |], y as [b| | |]; cbn; try congruence.
  intro H. apply Qlt_bool_iff in H. apply Qle_bool_iff. now apply Qlt_le_weak.
Qed.

Lemma np_isnan_false (x : npfloat) : np_isnan x = false <-> x <> NaN.
Proof. destruct x; simpl; split; congruence. Qed.

(** The maximum of two values is NaN or at least the first. *)
Lemma np_maximum_ge (x y : npfloat) :
  Float64.np_maximum x y = NaN
  \/ np_leb x (Float64.np_maximum x y) = true.
Proof.
  unfold Float64.np_maximum.
  destruct (np_isnan x) eqn:Ex.
  { left. destruct x; try discriminate. reflexivity. }
  destruct (np_isnan y) eqn:Ey.
  { left. destruct y; try discriminate. reflexivity. }
  right. destruct (np_ltb x y) eqn:L.
  - now apply np_ltb_leb.
  - apply np_leb_refl. now apply np_isnan_false.
Qed.

Lemma fold_np_maximum_nan (l : list npfloat) :
  fold_left Float64.np_maximum l NaN = NaN.
Proof. induction l as [|y l IH]; [reflexivity|exact IH]. Qed.

(** [np.max] is NaN or at least the first entry. *)
Lemma fold_np_maximum_ge (l : list npfloat) (x : npfloat) :
  fold_left Float64.np_maximum l x = NaN
  \/ np_leb x (fold_left Float64.np_maximum l x) = true.
Proof.
  revert x. induction l as [|y l IH]; intro x; cbn [fold_left].
  - destruct x as [q| | |]; try (right; reflexivity); [|now left].
    right. apply Qle_bool_iff, Qle_refl.
  - destruct (np_maximum_ge x y) as [E|L].
    + left. rewrite E. apply fold_np_maximum_nan.
    + destruct (IH (Float64.np_maximum x y)) as [E|L'].
      * now left.
      * right. exact (np_leb_trans _ _ _ L L').
Qed.

Lemma fold_np_maximum_zero (l : list npfloat) :
  Forall (fun y => y = Fin 0) l ->
  fold_left Float64.np_maximum l (Fin 0) = Fin 0.
Proof.
  induction 1 as [|y l -> _ IH]; [reflexivity|exact IH].
Qed.

Lemma f64_sub_self (x : npfloat) :
  f64_sub x x = Fin 0 \/ f64_sub x x = NaN.
Proof.
  destruct x as [q| | |]; try (right; reflexivity).
  left. unfold f64_sub, np_sub. simpl. apply round64_zero. ring.
Qed.

Lemma float64_drawdown_head (x : npfloat) (l : list npfloat) :
  Float64.max_drawdown (x :: l)
  = fold_left Float64.np_maximum
      (Float64.arr_sub (Float64.maximum_accumulate_from x (Float64.cumsum_from x l))
                       (Float64.cumsum_from x l))
      (f64_sub x x).
Proof. reflexivity. Qed.

(** The drawdown of a [float64] array is NaN or not negative. *)
Lemma float64_drawdown_nan_or_nonneg (a : list npfloat) :
  Float64.max_drawdown a = NaN
  \/ np_leb (Fin 0) (Float64.max_drawdown a) = true.
Proof.
  destruct a as [|x l]; [right; reflexivity|].
  rewrite float64_drawdown_head.
  destruct (f64_sub_self x) as [E|E]; rewrite E.
  - apply fold_np_maximum_ge.
  - left. apply fold_np_maximum_nan.
Qed.

Lemma f64_sub_fin_nonneg (m c : Q) :
  c <= m -> np_leb (Fin 0) (f64_sub (Fin m) (Fin c)) = true.
Proof.
  intro H. unfold f64_sub, np_sub. simpl.
  apply round64_ge_bound; [lra|].
  exists 0%Z, 0%Z. split; [reflexivity|]. split; [lia|]. reflexivity.
Qed.

(** While the cumulative sums are finite, the running maximum is finite
    and no difference is negative. *)
Lemma float64_differences_nonneg (l : list npfloat) (m : Q) :
  Forall is_finite l ->
  Forall (fun y => np_leb (Fin 0) y = true)
    (Float64.arr_sub (Float64.maximum_accumulate_from (Fin m) l) l).
Proof.
  intro H. revert m. induction H as [|c l [q ->] _ IH]; intro m; cbn.
  - constructor.
  - unfold Float64.np_maximum. cbn [np_isnan np_ltb].
    destruct (Qlt_bool m q) eqn:L; constructor.
    + apply f64_sub_fin_nonneg, Qle_refl.
    + apply IH.
    + apply f64_sub_fin_nonneg. now apply Qlt_bool_false_iff.
    + apply IH.
Qed.

Lemma fold_np_maximum_nonneg (l : list npfloat) (x : npfloat) :
  np_leb (Fin 0) x = true ->
  Forall (fun y => np_leb (Fin 0) y = true) l ->
  np_leb (Fin 0) (fold_left Float64.np_maximum l x) = true.
Proof.
  intros Hx H. revert x Hx. induction H as [|y l Hy _ IH]; intros x Hx.
  - exact Hx.
  - cbn [fold_left]. apply IH.
    destruct (np_maximum_cases x y) as [-> | ->]; assumption.
Qed.

Lemma float64_drawdown_nonneg (a : list npfloat) :
  Forall is_finite (Float64.cumsum a) ->
  np_leb (Fin 0) (Float64.max_drawdown a) = true.
Proof.
  destruct a as [|x l]; [reflexivity|].
  intro H. rewrite float64_drawdown_head.
  cbn [Float64.cumsum] in H. inversion H as [|? ? [q ->] Hl]; subst.
  apply fold_np_maximum_nonneg.
  - apply f64_sub_fin_nonneg, Qle_refl.
  - now apply float64_differences_nonneg.
Qed.

(** Along finite, non-decreasing cumulative sums the running maximum is
    the current sum, and every difference is 0. *)
Lemma float64_differences_zero (l : list npfloat) (m c : Q) :
  m == c ->
  Forall is_finite l ->
  non_decreasing_float (Fin c :: l) ->
  Forall (fun y => y = Fin 0)
    (Float64.arr_sub (Float64.maximum_accumulate_from (Fin m) l) l).
Proof.
  intros Hm H. revert m c Hm.
  induction H as [|x l [q ->] _ IH]; intros m c Hm Hnd; cbn.
  - constructor.
  - cbn in Hnd. destruct Hnd as [Hcq Hnd].
    apply Qle_bool_iff in Hcq.
    unfold Float64.np_maximum. cbn [np_isnan np_ltb].
    destruct (Qlt_bool m q) eqn:L; constructor.
    + unfold f64_sub, np_sub. simpl. apply round64_zero. ring.
    + apply (IH q q); [reflexivity|exact Hnd].
    + apply Qlt_bool_false_iff in L.
      unfold f64_sub, np_sub. simpl. apply round64_zero. lra.
    + apply Qlt_bool_false_iff in L.
      apply (IH m q); [lra|exact Hnd].
Qed.

Lemma float64_drawdown_zero (a : list npfloat) :
  Forall is_finite (Float64.cumsum a) ->
  non_decreasing_float (Float64.cumsum a) ->
  Float64.max_drawdown a = Fin 0.
Proof.
  destruct a as [|x l]; [reflexivity|].
  intros H Hnd. rewrite float64_drawdown_head.
  cbn [Float64.cumsum] in H, Hnd. inversion H as [|? ? [q ->] Hl]; subst.
  assert (f64_sub (Fin q) (Fin q) = Fin 0) as ->.
  { unfold f64_sub, np_sub. simpl. apply round64_zero. ring. }
  apply fold_np_maximum_zero.
  apply (float64_differences_zero _ q q); [reflexivity|exact Hl|exact Hnd].
Qed.

(** Doubles with non-decreasing exact running sums have non-decreasing
    rounded running sums, as long as these are finite. *)
Lemma cumsum_from_increments (l : list Q) (acc : Q) :
  non_decreasing (acc :: Numpy.cumsum_from acc l) -> Forall (fun q => 0 <= q) l.
Proof.
  revert acc. induction l as [|q l IH]; intros acc H; [constructor|].
  cbn in H. destruct H as [H1 H2]. constructor; [lra|].
  apply (IH (acc + q)). exact H2.
Qed.

Lemma float64_cumsum_from_monotone (l : list Q) (v : Q) :
  is_binary64 v ->
  Forall (fun q => 0 <= q) l ->
  Forall is_finite (Float64.cumsum_from (Fin v) (map Fin l)) ->
  non_decreasing_float (Fin v :: Float64.cumsum_from (Fin v) (map Fin l)).
Proof.
  intros Hv H. revert v Hv. induction H as [|q l Hq _ IH]; intros v Hv Hf.
  - exact I.
  - cbn [map Float64.cumsum_from] in *.
    inversion Hf as [|? ? [s Es] Hf']; subst.
    assert (round64 (v + q) = Fin s) as E by exact Es.
    rewrite Es in *.
    assert (is_binary64 s) as Hs by exact (round64_is_binary64 (v + q) s E).
    split.
    + pose proof (round64_ge_bound (v + q) v ltac:(lra) Hv) as G.
      rewrite E in G. exact G.
    + apply IH; assumption.
Qed.

Lemma float64_drawdown_zero_exact (qs : list Q) :
  Forall is_binary64 qs ->
  Forall is_finite (Float64.cumsum (map Fin qs)) ->
  non_decreasing (Numpy.cumsum qs) ->
  Float64.max_drawdown (map Fin qs) = Fin 0.
Proof.
  intros Hb Hf Hnd. apply float64_drawdown_zero; [exact Hf|].
  destruct qs as [|q l]; [exact I|].
  cbn [map Float64.cumsum] in *.
  inversion Hb as [|? ? Hq Hl]; subst.
  inversion Hf as [|? ? _ Hf']; subst.
  apply float64_cumsum_from_monotone; [exact Hq| |exact Hf'].
  unfold Numpy.cumsum in Hnd. cbn [Numpy.cumsum_from] in Hnd.
  apply (cumsum_from_increments l (0 + q)). exact Hnd.
Qed.

(** *** [int64] arrays *)

Lemma wrap_in_range (z : Z) : Int64.in_range z = true -> Int64.wrap z = z.
Proof.
  unfold Int64.in_range, Int64.wrap. intro H.
  apply andb_prop in H. destruct H as [H1 H2].
  apply Z.leb_le in H1. apply Z.ltb_lt in H2.
  rewrite Z.mod_small; lia.
Qed.

Lemma wrap_zero (z : Z) : Int64.wrap (z - z) = 0%Z.
Proof. rewrite Z.sub_diag. reflexivity. Qed.

Lemma fold_Zmax_ge (l : list Z) (x : Z) : (x <= fold_left Z.max l x)%Z.
Proof.
  revert x. induction l as [|y l IH]; intro x; cbn [fold_left]; [lia|].
  specialize (IH (Z.max x y)). lia.
Qed.

Lemma fold_Zmax_zero (l : list Z) :
  Forall (fun y => y = 0%Z) l -> fold_left Z.max l 0%Z = 0%Z.
Proof.
  induction 1 as [|y l -> _ IH]; [reflexivity|exact IH].
Qed.

Lemma int64_drawdown_head (x : Z) (l : list Z) :
  Int64.max_drawdown (x :: l)
  = fold_left Z.max
      (Int64.arr_sub (Int64.maximum_accumulate_from x (Int64.cumsum_from x l))
                     (Int64.cumsum_from x l))
      (Int64.wrap (x - x)).
Proof. reflexivity. Qed.

(** The drawdown of an [int64] array is never negative: its first
    difference is 0. *)
Lemma int64_drawdown_nonneg (a : list Z) : (0 <= Int64.max_drawdown a)%Z.
Proof.
  destruct a as [|x l]; [reflexivity|].
  rewrite int64_drawdown_head, wrap_zero. apply fold_Zmax_ge.
Qed.

Lemma int64_cumsum_from_exact (l : list Z) (acc : Z) :
  Forall (fun s => Int64.in_range s = true) (running_sums_from acc l) ->
  Int64.cumsum_from acc l = running_sums_from acc l.
Proof.
  revert acc. induction l as [|x l IH]; intros acc H; [reflexivity|].
  cbn [running_sums_from Int64.cumsum_from] in *.
  inversion H as [|? ? H1 H2]; subst.
  rewrite (wrap_in_range _ H1). f_equal. now apply IH.
Qed.

Lemma int64_differences_zero (l : list Z) (m : Z) :
  non_decreasing_int (m :: l) ->
  Forall (fun y => y = 0%Z)
    (Int64.arr_sub (Int64.maximum_accumulate_from m l) l).
Proof.
  revert m. induction l as [|x l IH]; intros m H; cbn.
  - constructor.
  - cbn in H. destruct H as [H1 H2].
    rewrite (Z.max_r m x H1). constructor.
    + apply wrap_zero.
    + now apply IH.
Qed.

Lemma int64_drawdown_zero (a : list Z) :
  Forall (fun s => Int64.in_range s = true) (running_sums a) ->
  non_decreasing_int (running_sums a) ->
  Int64.max_drawdown a = 0%Z.
Proof.
  destruct a as [|x l]; [reflexivity|].
  unfold running_sums. cbn [running_sums_from]. rewrite Z.add_0_l.
  intros H Hnd. rewrite int64_drawdown_head, wrap_zero.
  inversion H as [|? ? _ Hl]; subst.
  rewrite (int64_cumsum_from_exact l x Hl).
  apply fold_Zmax_zero. now apply int64_differences_zero.
Qed.

(** C4.  For a list of profits of which numpy makes an [int64] or a
    [float64] array, [_calculate_max_drawdown] returns a value that is
    NaN or not negative.  On an [int64] array it is never negative, and
    it is 0 when the running sums of the profits fit in 64 bits and are
    non-decreasing.  On a [float64] array whose computed cumulative sums
    are all finite it is not negative, and it is 0 when these sums are
    non-decreasing, in particular when the profits are doubles whose
    exact running sums are non-decreasing. *)
Theorem max_drawdown_nonneg_and_zero (returns : list pynum) (arr : ndarray) :
  np_array returns = Some arr ->
  exists d,
    _calculate_max_drawdown wide_max_drawdown returns = Returned d
    /\ (num_val d = NaN \/ np_leb (Fin 0) (num_val d) = true)
    /\ match arr with
       | Int64Array a =>
           np_leb (Fin 0) (num_val d) = true
           /\ (Forall (fun s => Int64.in_range s = true) (running_sums a) ->
               non_decreasing_int (running_sums a) ->
               num_val d = Fin 0)
       | Float64Array a =>
           Forall is_finite (Float64.cumsum a) ->
           np_leb (Fin 0) (num_val d) = true
           /\ (non_decreasing_float (Float64.cumsum a) -> num_val d = Fin 0)
           /\ (forall qs, a = map Fin qs -> Forall is_binary64 qs ->
               non_decreasing (Numpy.cumsum qs) -> num_val d = Fin 0)
       end.
Proof.
  intro Harr. unfold _calculate_max_drawdown.
  destruct returns as [|x returns].
  - cbn [nonempty negb]. exists (PyFloat (Fin 0)).
    split; [reflexivity|]. split; [now right|].
    cbn in Harr. injection Harr as <-.
    split; [reflexivity|]. intros _ _. reflexivity.
  - cbn [nonempty negb]. rewrite Harr.
    destruct arr as [a|a].
    + exists (PyInt (Int64.max_drawdown a)).
      split; [reflexivity|].
      assert (np_leb (Fin 0) (num_val (PyInt (Int64.max_drawdown a))) = true) as N.
      { cbn [num_val np_leb]. apply Qle_bool_iff.
        change 0 with (inject_Z 0). rewrite <- Zle_Qle.
        apply int64_drawdown_nonneg. }
      split; [now right|]. split; [exact N|].
      intros H Hnd. cbn [num_val]. now rewrite (int64_drawdown_zero a H Hnd).
    + exists (PyFloat (Float64.max_drawdown a)).
      split; [reflexivity|]. cbn [num_val].
      split; [apply float64_drawdown_nan_or_nonneg|].
      intro Hf. split; [now apply float64_drawdown_nonneg|].
      split.
      * intro Hnd. now apply float64_drawdown_zero.
      * intros qs -> Hb Hnd. now apply float64_drawdown_zero_exact.
Qed.

End MaxDrawdownPy.

Lemma max_drawdown_nonneg_and_zero_witness :
  (exists d,
     AddressAnalysisPy._calculate_max_drawdown SpecPy.wide_drawdown_raises
       [AddressAnalysisPy.PyInt 1; AddressAnalysisPy.PyInt 0;
        AddressAnalysisPy.PyInt 2] = Returned d
     /\ AddressAnalysisPy.num_val d = Fin 0)
  /\ (exists d,
        AddressAnalysisPy._calculate_max_drawdown SpecPy.wide_drawdown_raises
          [AddressAnalysisPy.PyFloat (Fin (1 # 2)); AddressAnalysisPy.PyFloat (Fin 3);
           AddressAnalysisPy.PyFloat (Fin (1 # 4))] = Returned d
        /\ AddressAnalysisPy.num_val d = Fin 0).
Proof.
  split.
  - destruct (max_drawdown_nonneg_and_zero SpecPy.wide_drawdown_raises
                [AddressAnalysisPy.PyInt 1; AddressAnalysisPy.PyInt 0;
                 AddressAnalysisPy.PyInt 2]
                (AddressAnalysisPy.Int64Array [1; 0; 2]%Z) eq_refl)
      as [d [E [_ [_ H]]]].
    exists d. split; [exact E|]. apply H.
    + repeat constructor.
    + cbn. lia.
  - destruct (max_drawdown_nonneg_and_zero SpecPy.wide_drawdown_raises
                [AddressAnalysisPy.PyFloat (Fin (1 # 2)); AddressAnalysisPy.PyFloat (Fin 3);
                 AddressAnalysisPy.PyFloat (Fin (1 # 4))]
                (AddressAnalysisPy.Float64Array [Fin (1 # 2); Fin 3; Fin (1 # 4)])
                eq_refl)
      as [d [E [_ H]]].
    exists d. split; [exact E|].
    destruct H as [_ [H _]].
    + repeat constructor; eexists; vm_compute; reflexivity.
    + apply H. vm_compute. auto.
Defined.

(** Two lists of profits whose exact running sums are non-decreasing:
    on the integers the 64-bit sums wrap around and the drawdown is 6,
    on the doubles the second sum overflows and the drawdown is NaN. *)
Lemma max_drawdown_wraps_and_overflows :
  SpecPy.non_decreasing_int
    (SpecPy.running_sums [3; 2 ^ 63 - 3; 2 ^ 63 - 3]%Z)
  /\ AddressAnalysisPy._calculate_max_drawdown SpecPy.wide_drawdown_raises
       (map AddressAnalysisPy.PyInt [3; 2 ^ 63 - 3; 2 ^ 63 - 3]%Z)
     = Returned (AddressAnalysisPy.PyInt 6)
  /\ is_binary64 (2 ^ 1023)
  /\ non_decreasing (Numpy.cumsum [2 ^ 1023; 2 ^ 1023])
  /\ AddressAnalysisPy._calculate_max_drawdown SpecPy.wide_drawdown_raises
       [AddressAnalysisPy.PyFloat (Fin (2 ^ 1023));
        AddressAnalysisPy.PyFloat (Fin (2 ^ 1023))]
     = Returned (AddressAnalysisPy.PyFloat NaN).
Proof.
  split; [cbn; lia|].
  split; [vm_compute; reflexivity|].
  split; [apply is_binary64_pow2; lia|].
  split; [|vm_compute; reflexivity].
  cbn. split; [|exact I]. vm_compute. discriminate.
Qed.

(** ** Klines: trend label with a short history *)

Lemma np_ltb_nan_r (x : npfloat) : np_ltb x NaN = false.
Proof. now destruct x. Qed.

Lemma np_ltb_nan_l (x : npfloat) : np_ltb NaN x = false.
Proof. reflexivity. Qed.

Lemma classify_trend_nan_ma25 (p : Q) (m7 r : npfloat) :
  classify_trend p m7 NaN r = neutral.
Proof.
  unfold classify_trend, np_gtb.
  rewrite np_ltb_nan_l, np_ltb_nan_r.
  now rewrite !andb_false_r.
Qed.

Lemma rolling_mean_last_short (w : nat) (s : list Q) :
  (List.length s < w)%nat -> rolling_mean_last w s = NaN.
Proof.
  intro H. unfold rolling_mean_last.
  apply Nat.ltb_lt in H. now rewrite H.
Qed.

Lemma _analyze_price_some (klines : list Kline) (r : PriceAnalysis) :
  _analyze_price klines = Returned (Some r) ->
  klines <> []
  /\ ma25 r = rolling_mean_last 25 (map k_close klines)
  /\ trend r = classify_trend (current_price r) (ma7 r) (ma25 r) (rsi r).
Proof.
  unfold _analyze_price, _analyze_price_body.
  destruct klines as [|k klines]; [discriminate|].
  cbn [nonempty negb].
  destruct (py_div _ _) as [q|e]; cbn [bind try_except]; [|discriminate].
  intro H. injection H as <-. split; [discriminate|]. split; reflexivity.
Qed.

Lemma short_history_result (klines : list Kline) (r : PriceAnalysis) :
  (List.length klines < 25)%nat ->
  _analyze_price klines = Returned (Some r) ->
  ma25 r = NaN /\ trend r = neutral.
Proof.
  intros Hlen Hr. apply _analyze_price_some in Hr.
  destruct Hr as (_ & Hm & Ht).
  rewrite rolling_mean_last_short in Hm by now rewrite length_map.
  split; [exact Hm|]. rewrite Ht, Hm. apply classify_trend_nan_ma25.
Qed.

(** C10.  For every non-empty kline list with fewer than 25 entries,
    the 25-period moving average is NaN, every ordered comparison with
    NaN is false, and any result [_analyze_price] returns carries
    ma25 = NaN and the trend label 'neutral': the other four labels
    cannot be produced.  A result is returned as soon as the first
    close is not 0 (otherwise the percentage change divides by zero
    and the result is empty). *)
Theorem short_history_trend_neutral (klines : list Kline) :
  klines <> [] ->
  (List.length klines < 25)%nat ->
  rolling_mean_last 25 (map k_close klines) = NaN
  /\ (forall x, np_ltb x NaN = false /\ np_ltb NaN x = false
                /\ np_gtb x NaN = false /\ np_gtb NaN x = false
                /\ np_leb x NaN = false /\ np_leb NaN x = false)
  /\ (forall r, _analyze_price klines = Returned (Some r) ->
                ma25 r = NaN /\ trend r = neutral)
  /\ (~ hd 0 (map k_close klines) == 0 ->
      exists r, _analyze_price klines = Returned (Some r)
                /\ ma25 r = NaN /\ trend r = neutral)
  /\ (hd 0 (map k_close klines) == 0 ->
      _analyze_price klines = Returned None).
Proof.
  intros Hne Hlen.
  assert (rolling_mean_last 25 (map k_close klines) = NaN) as Hma.
  { apply rolling_mean_last_short. now rewrite length_map. }
  assert (forall r, _analyze_price klines = Returned (Some r) ->
                    ma25 r = NaN /\ trend r = neutral) as Hres.
  { intros r Hr. now apply (short_history_result klines). }
  split; [exact Hma|]. split; [|split; [exact Hres|split]].
  - intro x. unfold np_gtb. repeat split; now destruct x.
  - intro Hz. apply Qeq_bool_false_iff in Hz.
    assert (exists r, _analyze_price klines = Returned (Some r)) as [r Hr].
    { unfold _analyze_price, _analyze_price_body.
      destruct klines as [|k klines]; [congruence|].
      cbn [nonempty negb]. unfold iloc_first.
      rewrite (py_div_returns _ _ Hz). cbn [bind try_except]. eauto. }
    exists r. split; [exact Hr|]. now apply Hres.
  - intro Hz. unfold _analyze_price, _analyze_price_body.
    destruct klines as [|k klines]; [congruence|].
    cbn [nonempty negb]. unfold iloc_first.
    now rewrite (py_div_raises _ _ Hz).
Qed.

Lemma short_history_trend_neutral_witness :
  exists r,
    _analyze_price
      [mkKline 0 10 12 9 11 5 1 55 3; mkKline 1 11 15 10 14 7 2 98 4]
    = Returned (Some r)
    /\ ma25 r = NaN /\ trend r = neutral.
Proof.
  destruct (short_history_trend_neutral
              [mkKline 0 10 12 9 11 5 1 55 3; mkKline 1 11 15 10 14 7 2 98 4])
    as (_ & _ & _ & H & _).
  - discriminate.
  - cbn. lia.
  - apply H. vm_compute. discriminate.
Defined.

(** With a client that honours the requested limit, [analyze_market]
    asks for 24 klines and so never reports a trend other than
    'neutral'. *)
Lemma analyze_market_trend_neutral
  (sqrt : Q -> Q) (client : Client) (symbol : string)
  (m : MarketResult) (p : PriceAnalysis) :
  (forall s n, (List.length (get_klines client s n) <= n)%nat) ->
  analyze_market sqrt client symbol = Returned (Some m) ->
  price_analysis m = Some p ->
  trend p = neutral.
Proof.
  intros Hlimit Hm Hp.
  unfold analyze_market, analyze_market_body in Hm.
  destruct (try_except_returns
              (analyze_market_depth_body (get_orderbook client symbol 20)) None)
    as [d Hd].
  destruct (try_except_returns
              (_analyze_trades_body sqrt (get_trades client symbol 100)) None)
    as [t Ht].
  destruct (try_except_returns
              (_analyze_price_body (get_klines client symbol 24)) None)
    as [pa Hpa].
  unfold analyze_market_depth, _analyze_trades in Hm.
  rewrite Hd, Ht in Hm. cbn [bind] in Hm.
  unfold _analyze_price in Hm at 1. rewrite Hpa in Hm.
  cbn [bind try_except] in Hm. injection Hm as <-.
  cbn in Hp. subst pa.
  pose proof (Hlimit symbol 24%nat) as Hl.
  apply (short_history_result (get_klines client symbol 24) p); [lia|].
  exact Hpa.
Qed.

(* ================================================================== *)
(** * Further properties of the analysis code *)

Import MarketDiscovery SpecMore SpecTables.

(** ** Sums, maxima and minima of rationals *)


Lemma Qsum_nonpos (l : list Q) : Forall (fun x => x <= 0) l -> Qsum l <= 0.
Proof.
  induction 1 as [|x l Hx _ IH].
  - apply Qle_refl.
  - rewrite Qsum_cons. lra.
Qed.


Lemma Qsum_neg (l : list Q) :
  l <> [] -> Forall (fun x => x < 0) l -> Qsum l < 0.
Proof.
  intros Hne H. destruct H as [|x l Hx Hl]; [congruence|].
  rewrite Qsum_cons.
  assert (Qsum l <= 0) as Hs.
  { apply Qsum_nonpos. eapply Forall_impl; [|exact Hl].
    intros a Ha. now apply Qlt_le_weak. }
  lra.
Qed.

Lemma Qlen_cons {A} (x : A) (l : list A) : Qlen (x :: l) == 1 + Qlen l.
Proof.
  unfold Qlen. cbn [List.length]. rewrite Nat2Z.inj_succ.
  unfold Z.succ. rewrite inject_Z_plus. ring.
Qed.

Lemma Qsum_le_len_mul (l : list Q) (M : Q) :
  Forall (fun x => x <= M) l -> Qsum l <= Qlen l * M.
Proof.
  induction 1 as [|x l Hx _ IH].
  - unfold Qlen, Qsum. cbn [List.length fold_left Z.of_nat].
    change (inject_Z 0) with 0. rewrite Qmult_0_l. apply Qle_refl.
  - rewrite Qsum_cons, Qlen_cons.
    setoid_replace ((1 + Qlen l) * M) with (M + Qlen l * M) by ring. lra.
Qed.

Lemma Qsum_ge_len_mul (l : list Q) (m : Q) :
  Forall (fun x => m <= x) l -> Qlen l * m <= Qsum l.
Proof.
  induction 1 as [|x l Hx _ IH].
  - unfold Qlen, Qsum. cbn [List.length fold_left Z.of_nat].
    change (inject_Z 0) with 0. rewrite Qmult_0_l. apply Qle_refl.
  - rewrite Qsum_cons, Qlen_cons.
    setoid_replace ((1 + Qlen l) * m) with (m + Qlen l * m) by ring. lra.
Qed.

(** [max] with a strict comparison taken from a total preorder returns
    an element of the list that no element exceeds. *)
Lemma max_by_from_spec {A} (v : A -> Q) (l : list A) (best : A) :
  let m := max_by_from (fun x b => Qlt_bool (v b) (v x)) best l in
  In m (best :: l) /\ v best <= v m /\ (forall x, In x l -> v x <= v m).
Proof.
  revert best. induction l as [|y l IH]; intro best; cbn [max_by_from].
  - split; [now left|]. split; [apply Qle_refl|]. intros x [].
  - destruct (IH (if Qlt_bool (v best) (v y) then y else best))
      as (Hin & Hbest & Hall).
    destruct (Qlt_bool (v best) (v y)) eqn:E.
    + apply Qlt_bool_iff in E. split; [|split].
      * destruct Hin as [<-|Hin]; [right; now left|right; now right].
      * lra.
      * intros x [<-|Hx]; [exact Hbest|now apply Hall].
    + apply Qlt_bool_false_iff in E. split; [|split].
      * destruct Hin as [<-|Hin]; [now left|right; now right].
      * exact Hbest.
      * intros x [<-|Hx]; [lra|now apply Hall].
Qed.

Lemma min_by_from_spec {A} (v : A -> Q) (l : list A) (best : A) :
  let m := max_by_from (fun x b => Qlt_bool (v x) (v b)) best l in
  In m (best :: l) /\ v m <= v best /\ (forall x, In x l -> v m <= v x).
Proof.
  revert best. induction l as [|y l IH]; intro best; cbn [max_by_from].
  - split; [now left|]. split; [apply Qle_refl|]. intros x [].
  - destruct (IH (if Qlt_bool (v y) (v best) then y else best))
      as (Hin & Hbest & Hall).
    destruct (Qlt_bool (v y) (v best)) eqn:E.
    + apply Qlt_bool_iff in E. split; [|split].
      * destruct Hin as [<-|Hin]; [right; now left|right; now right].
      * lra.
      * intros x [<-|Hx]; [exact Hbest|now apply Hall].
    + apply Qlt_bool_false_iff in E. split; [|split].
      * destruct Hin as [<-|Hin]; [now left|right; now right].
      * exact Hbest.
      * intros x [<-|Hx]; [lra|now apply Hall].
Qed.

Lemma py_max_spec (l : list Q) (d : Q) :
  l <> [] -> In (py_max l d) l /\ (forall x, In x l -> x <= py_max l d).
Proof.
  destruct l as [|y l]; [congruence|]. intros _.
  unfold py_max, max_by.
  destruct (max_by_from_spec (fun q => q) l y) as (Hin & Hy & Hall).
  split; [exact Hin|]. intros x [<-|Hx]; [exact Hy|now apply Hall].
Qed.

Lemma py_min_spec (l : list Q) (d : Q) :
  l <> [] -> In (py_min l d) l /\ (forall x, In x l -> py_min l d <= x).
Proof.
  destruct l as [|y l]; [congruence|]. intros _.
  unfold py_min, max_by.
  destruct (min_by_from_spec (fun q => q) l y) as (Hin & Hy & Hall).
  split; [exact Hin|]. intros x [<-|Hx]; [exact Hy|now apply Hall].
Qed.

Lemma winning_profits_pos (ats : list Trade) :
  Forall (fun x => 0 < x) (map num_profit (winning ats)).
Proof.
  apply Forall_forall. intros x Hx. apply in_map_iff in Hx.
  destruct Hx as [t [<- Ht]]. apply filter_In in Ht.
  now apply Qlt_bool_iff.
Qed.

Lemma losing_profits_neg (ats : list Trade) :
  Forall (fun x => x < 0) (map num_profit (losing ats)).
Proof.
  apply Forall_forall. intros x Hx. apply in_map_iff in Hx.
  destruct Hx as [t [<- Ht]]. apply filter_In in Ht.
  now apply Qlt_bool_iff.
Qed.

Lemma map_nonempty {A B} (f : A -> B) (l : list A) : l <> [] -> map f l <> [].
Proof. destruct l; cbn; congruence. Qed.

Lemma Qdiv_le_of_le_mul (a b c : Q) : 0 < b -> a <= b * c -> a / b <= c.
Proof.
  intros Hb H. apply Qle_shift_div_r; [exact Hb|]. lra.
Qed.

Lemma Qdiv_ge_of_ge_mul (a b c : Q) : 0 < b -> b * c <= a -> c <= a / b.
Proof.
  intros Hb H. apply Qle_shift_div_l; [exact Hb|]. lra.
Qed.

(** ** Net profit and drawdown *)

Lemma Qsum_sign_split (l : list Q) :
  Qsum (filter (fun x => Qlt_bool 0 x) l)
  + Qsum (filter (fun x => Qlt_bool x 0) l) == Qsum l.
Proof.
  induction l as [|x l IH]; [reflexivity|].
  cbn [filter].
  destruct (Qlt_bool 0 x) eqn:Hp, (Qlt_bool x 0) eqn:Hn;
    rewrite ?Qsum_cons;
    repeat match goal with
           | H : Qlt_bool _ _ = true |- _ => apply Qlt_bool_iff in H
           | H : Qlt_bool _ _ = false |- _ => apply Qlt_bool_false_iff in H
           end; lra.
Qed.

Lemma map_filter_profit (f : Q -> bool) (l : list Trade) :
  map num_profit (filter (fun t => f (num_profit t)) l)
  = filter f (map num_profit l).
Proof.
  induction l as [|t l IH]; [reflexivity|].
  cbn [filter map]. destruct (f (num_profit t)); cbn [map]; now rewrite IH.
Qed.

Lemma last_default {A} (l : list A) (d d' : A) :
  l <> [] -> last l d = last l d'.
Proof.
  induction l as [|x l IH]; [congruence|]. intros _.
  destruct l as [|y l]; [reflexivity|].
  change (last (y :: l) d = last (y :: l) d'). apply IH. discriminate.
Qed.

Lemma last_cumsum_from (l : list Q) (acc : Q) :
  last (cumsum_from acc l) acc == acc + Qsum l.
Proof.
  revert acc. induction l as [|x l IH]; intro acc.
  - cbn. unfold Qsum. cbn. ring.
  - cbn [cumsum_from]. rewrite Qsum_cons.
    destruct l as [|y l].
    + cbn. unfold Qsum. cbn. ring.
    + change (last ((acc + x) :: cumsum_from (acc + x) (y :: l)) acc)
        with (last (cumsum_from (acc + x) (y :: l)) acc).
      rewrite (last_default _ acc (acc + x)) by discriminate.
      rewrite IH. ring.
Qed.

Lemma Qsum_filter_neg_nonpos (l : list Q) :
  Qsum (filter (fun x => Qlt_bool x 0) l) <= 0.
Proof.
  apply Qsum_nonpos. apply Forall_forall. intros x Hx.
  apply filter_In in Hx. destruct Hx as [_ Hx].
  apply Qlt_bool_iff in Hx. now apply Qlt_le_weak.
Qed.

(** Drawdowns after a point where the drawdown is at most [B] exceed
    [B] by no more than the losses met since. *)
Lemma drawdown_from_bound (l : list Q) (a m B : Q) :
  0 <= B -> m - a <= B ->
  Forall (fun d => d <= B - Qsum (filter (fun x => Qlt_bool x 0) l))
         (arr_sub (maximum_accumulate_from m (cumsum_from a l))
                  (cumsum_from a l)).
Proof.
  revert a m B. induction l as [|x l IH]; intros a m B HB Hm.
  - constructor.
  - cbn [cumsum_from maximum_accumulate_from arr_sub filter].
    pose proof (Qsum_filter_neg_nonpos l) as HS.
    pose proof (Qmaxb_ge_r m (a + x)) as Hge.
    assert (Qmaxb m (a + x) - (a + x) <= B + (if Qlt_bool x 0 then - x else 0)
            /\ 0 <= B + (if Qlt_bool x 0 then - x else 0)) as [Hd HB'].
    { destruct (Qlt_bool x 0) eqn:E.
      - apply Qlt_bool_iff in E.
        destruct (Qmaxb_cases m (a + x)) as [C|C]; rewrite C; split; lra.
      - apply Qlt_bool_false_iff in E.
        destruct (Qmaxb_cases m (a + x)) as [C|C]; rewrite C; split; lra. }
    assert (B + (if Qlt_bool x 0 then - x else 0)
              - Qsum (filter (fun y => Qlt_bool y 0) l)
            == B - Qsum (if Qlt_bool x 0
                         then x :: filter (fun y => Qlt_bool y 0) l
                         else filter (fun y => Qlt_bool y 0) l)) as Heq.
    { destruct (Qlt_bool x 0); [rewrite Qsum_cons|]; ring. }
    constructor.
    + rewrite <- Heq. lra.
    + eapply Forall_impl; [|apply (IH _ _ _ HB' Hd)].
      intros d Hdd. cbv beta in Hdd. rewrite <- Heq. exact Hdd.
Qed.

Lemma max_drawdown_in_drawdowns (returns : list Q) :
  returns <> [] ->
  In (_calculate_max_drawdown returns)
     (arr_sub (maximum_accumulate (cumsum returns)) (cumsum returns)).
Proof.
  intro Hne. unfold _calculate_max_drawdown.
  destruct returns as [|x returns]; [congruence|].
  cbn [nonempty negb].
  set (c := cumsum (x :: returns)).
  assert (List.length (arr_sub (maximum_accumulate c) c)
          = S (List.length returns)) as Hlen.
  { rewrite arr_sub_length by apply maximum_accumulate_length.
    unfold c, cumsum. cbn. now rewrite cumsum_from_length. }
  rewrite Hlen. cbn [Nat.ltb Nat.leb].
  apply np_max_in. intro E. rewrite E in Hlen. discriminate.
Qed.

Lemma max_drawdown_le_losses (returns : list Q) :
  _calculate_max_drawdown returns
  <= - Qsum (filter (fun x => Qlt_bool x 0) returns).
Proof.
  destruct returns as [|x l].
  - cbn. unfold Qsum. cbn. lra.
  - pose proof (max_drawdown_in_drawdowns (x :: l)) as Hin.
    specialize (Hin ltac:(discriminate)).
    revert Hin. generalize (_calculate_max_drawdown (x :: l)). intros d Hin.
    unfold cumsum in Hin.
    cbn [cumsum_from maximum_accumulate arr_sub] in Hin.
    pose proof (Qsum_filter_neg_nonpos l) as HS.
    assert (Qsum (filter (fun y => Qlt_bool y 0) (x :: l))
            <= Qsum (filter (fun y => Qlt_bool y 0) l)) as Hx.
    { cbn [filter]. destruct (Qlt_bool x 0) eqn:E; [|apply Qle_refl].
      apply Qlt_bool_iff in E. rewrite Qsum_cons. lra. }
    destruct Hin as [<-|Hin].
    + lra.
    + pose proof (drawdown_from_bound l (0 + x) (0 + x) 0) as Hb.
      assert (0 + x - (0 + x) <= 0) as H0 by lra.
      specialize (Hb (Qle_refl 0) H0).
      pose proof (proj1 (Forall_forall _ _) Hb d Hin) as Hd.
      cbv beta in Hd. lra.
Qed.

(** ** Ranking: empty rankings and the effect of the threshold *)

Lemma np_ltb_false_trans (x y z : npfloat) :
  y <> NaN -> np_ltb x y = false -> np_ltb y z = false -> np_ltb x z = false.
Proof.
  destruct x as [a| | |], y as [b| | |], z as [c| | |]; cbn;
    try congruence.
  intros _ H1 H2. apply Qlt_bool_false_iff in H1, H2.
  apply Qlt_bool_false_iff. lra.
Qed.

Section ListSortFilter.
Context {A : Type}.
Variable key : A -> npfloat.
Variable reverse : bool.
Variable p : A -> bool.

Lemma sort_lt_false_trans (x y z : A) :
  key y <> NaN ->
  sort_lt key reverse x y = false -> sort_lt key reverse y z = false ->
  sort_lt key reverse x z = false.
Proof.
  unfold sort_lt. intros Hy H1 H2. destruct reverse.
  - now apply np_ltb_false_trans with (key y).
  - now apply np_ltb_false_trans with (key y).
Qed.

Lemma sorted_strongly (s : list A) :
  Forall (fun y => key y <> NaN) s ->
  Sorted (fun a b => sort_lt key reverse a b = false) s ->
  StronglySorted (fun a b => sort_lt key reverse a b = false) s.
Proof.
  intros Hnan Hs. induction Hs as [|y s Hs IH Hhd]; constructor.
  - apply IH. now inversion Hnan.
  - inversion Hnan as [|? ? _ Hnan']; subst.
    specialize (IH Hnan').
    destruct Hhd as [|z s Hyz]; constructor; [exact Hyz|].
    inversion IH as [|? ? _ Hall]; subst.
    inversion Hnan' as [|? ? Hz _]; subst.
    eapply Forall_impl; [|exact Hall].
    intros w Hzw. now apply sort_lt_false_trans with z.
Qed.

Lemma sort_insert_front (x : A) (t : list A) :
  match t with
  | [] => True
  | w :: _ => sort_lt key reverse x w = false
  end ->
  sort_insert key reverse x t = x :: t.
Proof.
  destruct t as [|w t]; [reflexivity|]. cbn. now intros ->.
Qed.

Lemma sort_insert_filter (x : A) (s : list A) :
  Forall (fun y => key y <> NaN) s ->
  StronglySorted (fun a b => sort_lt key reverse a b = false) s ->
  filter p (sort_insert key reverse x s)
  = if p x then sort_insert key reverse x (filter p s) else filter p s.
Proof.
  intros Hnan Hs. induction Hs as [|y s Hs IH Hall].
  - cbn. now destruct (p x).
  - inversion Hnan as [|? ? Hy Hnan']; subst. specialize (IH Hnan').
    cbn [sort_insert]. destruct (sort_lt key reverse x y) eqn:E.
    + cbn [filter]. rewrite IH.
      destruct (p x), (p y); try reflexivity.
      cbn [sort_insert]. now rewrite E.
    + change (filter p (x :: y :: s))
        with (if p x then x :: filter p (y :: s) else filter p (y :: s)).
      destruct (p x) eqn:Px; [|reflexivity].
      symmetry. apply sort_insert_front.
      destruct (filter p (y :: s)) as [|w t] eqn:F; [exact I|].
      assert (In w (y :: s)) as Hw.
      { assert (In w (filter p (y :: s))) as Hin by (rewrite F; now left).
        now apply filter_In in Hin. }
      destruct Hw as [<-|Hw]; [exact E|].
      apply sort_lt_false_trans with y; [exact Hy|exact E|].
      exact (proj1 (Forall_forall _ _) Hall w Hw).
Qed.

Lemma list_sort_filter (l : list A) :
  Forall (fun y => key y <> NaN) l ->
  list_sort key reverse (filter p l) = filter p (list_sort key reverse l).
Proof.
  induction 1 as [|x l Hx Hl IH]; [reflexivity|].
  cbn [list_sort filter].
  assert (Forall (fun y => key y <> NaN) (list_sort key reverse l)) as Hs.
  { apply Forall_forall. intros y Hy.
    apply (Permutation_in _ (list_sort_perm key reverse l)) in Hy.
    exact (proj1 (Forall_forall _ _) Hl y Hy). }
  rewrite sort_insert_filter;
    [|exact Hs|apply sorted_strongly; [exact Hs|apply list_sort_sorted]].
  destruct (p x); [cbn [list_sort]; now rewrite IH|exact IH].
Qed.

End ListSortFilter.

Section RankingMore.
Variable sqrt : Q -> Q.
Variable hour : Q -> outcome nat.
Variable set_iter : list string -> list string.

Lemma qualifying_raise (trades : list Trade) (m1 m2 : Z)
  (addresses : list string) :
  (m1 <= m2)%Z ->
  qualifying sqrt hour trades m2 addresses
  = filter (fun r => (m2 <=? Z.of_nat (total_trades r))%Z)
           (qualifying sqrt hour trades m1 addresses).
Proof.
  intro Hle. induction addresses as [|a rest IH]; [reflexivity|].
  cbn [qualifying flat_map].
  fold (qualifying sqrt hour trades m1 rest).
  fold (qualifying sqrt hour trades m2 rest).
  rewrite filter_app, <- IH. f_equal.
  destruct (analysis_of sqrt hour trades a) as [r|]; [|reflexivity].
  destruct (m2 <=? Z.of_nat (total_trades r))%Z eqn:E2,
           (m1 <=? Z.of_nat (total_trades r))%Z eqn:E1;
    cbn [filter]; rewrite ?E2; try reflexivity.
  apply Z.leb_le in E2. apply Z.leb_gt in E1. lia.
Qed.

Lemma find_top_traders_nil_of_no_qualifying (trades : list Trade)
  (min_trades : Z) :
  (forall a r, In a (set_iter (truthy_addresses trades)) ->
               analyze_trades sqrt hour trades a = Returned (Some r) ->
               (Z.of_nat (total_trades r) < min_trades)%Z) ->
  find_top_traders sqrt hour set_iter trades min_trades = Returned [].
Proof.
  intro H. rewrite find_top_traders_sorted_qualifying.
  destruct (qualifying sqrt hour trades min_trades
              (set_iter (truthy_addresses trades))) as [|r q] eqn:E;
    [reflexivity|].
  exfalso.
  assert (In r (qualifying sqrt hour trades min_trades
                  (set_iter (truthy_addresses trades)))) as Hin
    by (rewrite E; now left).
  apply in_qualifying in Hin. destruct Hin as [a (Ha & Hr & Hmin)].
  specialize (H a r Ha Hr). lia.
Qed.

End RankingMore.

(** X6.  [find_top_traders] returns the empty list when no record
    carries a non-empty address (as for records without an 'address'
    key), and when every address has fewer than min_trades trades. *)
Theorem find_top_traders_empty_ranking
  (sqrt : Q -> Q) (hour : Q -> outcome nat)
  (set_iter : list string -> list string)
  (trades : list Trade) (min_trades : Z) :
  set_order set_iter ->
  (truthy_addresses trades = [] ->
   find_top_traders sqrt hour set_iter trades min_trades = Returned [])
  /\ ((forall a, In a (truthy_addresses trades) ->
         (Z.of_nat (List.length (address_trades trades a)) < min_trades)%Z) ->
      find_top_traders sqrt hour set_iter trades min_trades = Returned []).
Proof.
  intro Hset. split.
  - intro E. apply find_top_traders_nil_of_no_qualifying.
    intros a r Ha. apply (Hset (truthy_addresses trades)) in Ha.
    rewrite E in Ha. contradiction.
  - intro Hfew. apply find_top_traders_nil_of_no_qualifying.
    intros a r Ha Hr. apply (Hset (truthy_addresses trades)) in Ha.
    destruct (analysis_address sqrt hour trades a r Hr) as [_ ->].
    now apply Hfew.
Qed.

Lemma find_top_traders_empty_ranking_witness :
  find_top_traders sqrt_12 utc_hour first_seen
    [mkTrade None (Some (PyNum 3)) (Some "SOL_USDC") None;
     mkTrade (Some "") (Some (PyNum 1)) None None] 1 = Returned []
  /\ find_top_traders sqrt_12 utc_hour first_seen
       [trade "A" 1; trade "B" 2; trade "A" 3] 3 = Returned [].
Proof.
  split.
  - apply (proj1 (find_top_traders_empty_ranking sqrt_12 utc_hour first_seen
                    _ 1%Z set_order_first_seen)). reflexivity.
  - apply (proj2 (find_top_traders_empty_ranking sqrt_12 utc_hour first_seen
                    _ 3%Z set_order_first_seen)).
    intros a Ha. cbn in Ha.
    destruct Ha as [<-|[<-|[<-|[]]]]; vm_compute; reflexivity.
Defined.

(** X7.  Raising the threshold only removes entries: when no Sharpe
    ratio of the ranking for [m1] is NaN and m1 <= m2, the ranking for
    [m2] is the ranking for [m1] without the results that have fewer
    than [m2] trades, in the same order. *)
Theorem find_top_traders_raise_threshold
  (sqrt : Q -> Q) (hour : Q -> outcome nat)
  (set_iter : list string -> list string)
  (trades : list Trade) (m1 m2 : Z) (l1 : list AddressResult) :
  (m1 <= m2)%Z ->
  find_top_traders sqrt hour set_iter trades m1 = Returned l1 ->
  Forall (fun r => sharpe_ratio r <> NaN) l1 ->
  find_top_traders sqrt hour set_iter trades m2
  = Returned (filter (fun r => (m2 <=? Z.of_nat (total_trades r))%Z) l1).
Proof.
  intros Hle H1 Hnan.
  rewrite find_top_traders_sorted_qualifying in H1. injection H1 as <-.
  rewrite find_top_traders_sorted_qualifying.
  rewrite (qualifying_raise sqrt hour trades m1 m2 _ Hle).
  f_equal. apply list_sort_filter.
  apply Forall_forall. intros r Hr.
  apply (proj1 (Forall_forall _ _) Hnan).
  apply (Permutation_in _ (Permutation_sym (list_sort_perm _ _ _))).
  exact Hr.
Qed.

Lemma find_top_traders_raise_threshold_witness :
  find_top_traders sqrt_12 utc_hour first_seen
    [trade "A" 1; trade "B" 2; trade "A" 3; trade "C" 1; trade "C" 5;
     trade "C" 2] 3
  = Returned
      (filter (fun r => (3 <=? Z.of_nat (total_trades r))%Z)
         (match find_top_traders sqrt_12 utc_hour first_seen
                  [trade "A" 1; trade "B" 2; trade "A" 3; trade "C" 1;
                   trade "C" 5; trade "C" 2] 1 with
          | Returned l => l
          | Raised _ => []
          end)).
Proof.
  apply (find_top_traders_raise_threshold sqrt_12 utc_hour first_seen
           _ 1%Z 3%Z).
  - lia.
  - vm_compute. reflexivity.
  - vm_compute. repeat constructor; discriminate.
Defined.

(** ** Market depth: ranges and symmetry *)

(** The record [analyze_market_depth] builds for a book with first
    levels [bid0] and [ask0]. *)
Lemma analyze_market_depth_some (ob : OrderBook) (r : DepthResult) :
  analyze_market_depth ob = Returned (Some r) ->
  exists bid0 bids' ask0 asks',
    bids ob = bid0 :: bids' /\ asks ob = ask0 :: asks'
    /\ ~ (level_price bid0 + level_price ask0) / 2 == 0
    /\ bid_volume r = Qsum (map level_size (bids ob))
    /\ ask_volume r = Qsum (map level_size (asks ob))
    /\ spread r = level_price ask0 - level_price bid0
    /\ mid_price r = (level_price bid0 + level_price ask0) / 2
    /\ spread_percentage r = spread r / mid_price r * 100
    /\ imbalance r
       = (if Qlt_bool 0 (bid_volume r + ask_volume r)
          then (bid_volume r - ask_volume r) / (bid_volume r + ask_volume r)
          else 0).
Proof.
  unfold analyze_market_depth, analyze_market_depth_body.
  destruct (bids ob) as [|bid0 bids'] eqn:Eb; [discriminate|].
  destruct (asks ob) as [|ask0 asks'] eqn:Ea; [discriminate|].
  rewrite (py_div_returns _ 2 two_nonzero). cbn [bind].
  destruct (Qeq_bool ((level_price bid0 + level_price ask0) / 2) 0) eqn:Em.
  - apply Qeq_bool_iff in Em. rewrite (py_div_raises _ _ Em). discriminate.
  - rewrite (py_div_returns _ _ Em). cbn [bind].
    apply Qeq_bool_false_iff in Em.
    set (bv := Qsum (map level_size (bid0 :: bids'))).
    set (av := Qsum (map level_size (ask0 :: asks'))).
    destruct (Qlt_bool 0 (bv + av)) eqn:Hv.
    + assert (Qeq_bool (bv + av) 0 = false) as Hnz.
      { apply Qeq_bool_false_iff. apply Qlt_bool_iff in Hv. lra. }
      rewrite (py_div_returns _ _ Hnz). cbn [bind try_except].
      intro H. injection H as <-.
      exists bid0, bids', ask0, asks'.
      cbn [bid_volume ask_volume spread mid_price spread_percentage imbalance].
      rewrite Hv. repeat split; try reflexivity. exact Em.
    + cbn [bind try_except]. intro H. injection H as <-.
      exists bid0, bids', ask0, asks'.
      cbn [bid_volume ask_volume spread mid_price spread_percentage imbalance].
      rewrite Hv. repeat split; try reflexivity. exact Em.
Qed.

Lemma analyze_market_depth_returns (ob : OrderBook)
  (bid0 ask0 : Q * Q) (bids' asks' : list (Q * Q)) :
  bids ob = bid0 :: bids' -> asks ob = ask0 :: asks' ->
  ~ (level_price bid0 + level_price ask0) / 2 == 0 ->
  exists r, analyze_market_depth ob = Returned (Some r).
Proof.
  intros Hb Ha Hmid.
  unfold analyze_market_depth, analyze_market_depth_body.
  rewrite Hb, Ha.
  rewrite (py_div_returns _ 2 two_nonzero). cbn [bind].
  apply Qeq_bool_false_iff in Hmid.
  rewrite (py_div_returns _ _ Hmid). cbn [bind].
  match goal with
  | |- context [Qlt_bool 0 ?v] => destruct (Qlt_bool 0 v) eqn:Hv
  end.
  - match goal with
    | |- context [py_div ?n ?d] =>
        assert (Qeq_bool d 0 = false) as Hnz
          by (apply Qeq_bool_false_iff; apply Qlt_bool_iff in Hv; lra);
        rewrite (py_div_returns n d Hnz)
    end.
    cbn [bind try_except]. eauto.
  - cbn [bind try_except]. eauto.
Qed.




(** X9.  With positive best prices the depth analysis always returns
    a result, with a positive mid price; if moreover the book is not
    crossed (best_bid <= best_ask) the spread is not negative and the
    spread percentage lies in [0, 200].  (Prices taken as exact
    rationals, for which the percentage stays below 200; in double
    precision 200 is reached, for a bid of 1e-17 and an ask of 1.) *)
Theorem depth_of_positive_prices (ob : OrderBook)
  (bid0 ask0 : Q * Q) (bids' asks' : list (Q * Q)) :
  bids ob = bid0 :: bids' -> asks ob = ask0 :: asks' ->
  0 < level_price bid0 -> 0 < level_price ask0 ->
  exists r,
    analyze_market_depth ob = Returned (Some r)
    /\ 0 < mid_price r
    /\ (level_price bid0 <= level_price ask0 ->
        0 <= spread r
        /\ 0 <= spread_percentage r /\ spread_percentage r <= 200).
Proof.
  intros Hb Ha Hpb Hpa.
  set (b := level_price bid0) in *. set (a := level_price ask0) in *.
  assert ((b + a) / 2 == (b + a) * (1 # 2)) as Hmid by reflexivity.
  assert (~ (b + a) / 2 == 0) as Hnz by (rewrite Hmid; lra).
  destruct (analyze_market_depth_returns ob bid0 ask0 bids' asks' Hb Ha Hnz)
    as [r Hr].
  exists r. split; [exact Hr|].
  apply analyze_market_depth_some in Hr.
  destruct Hr as (bid1 & bids1 & ask1 & asks1 & Hb1 & Ha1 & _ & _ & _
                  & Hs & Hm & Hp & _).
  rewrite Hb in Hb1. rewrite Ha in Ha1.
  injection Hb1 as <- <-. injection Ha1 as <- <-.
  fold b a in Hs, Hm. rewrite Hp, Hs, Hm. clear Hp Hs Hm.
  split; [rewrite Hmid; lra|].
  intro Hle.
  assert (0 < (b + a) / 2) as Hpos by (rewrite Hmid; lra).
  split; [lra|].
  assert (0 <= (a - b) / ((b + a) / 2)) as H0.
  { apply Qle_shift_div_l; [exact Hpos|]. lra. }
  assert ((a - b) / ((b + a) / 2) < 2) as H2.
  { apply Qlt_shift_div_r; [exact Hpos|]. rewrite Hmid. lra. }
  split; lra.
Qed.

Lemma depth_of_positive_prices_witness :
  exists r,
    analyze_market_depth (mkOrderBook [(100, 2); (99, 3)] [(101, 1)])
    = Returned (Some r)
    /\ 0 <= spread r /\ spread_percentage r <= 200.
Proof.
  destruct (depth_of_positive_prices
              (mkOrderBook [(100, 2); (99, 3)] [(101, 1)])
              (100, 2) (101, 1) [(99, 3)] [] eq_refl eq_refl)
    as [r (Hr & _ & H)].
  - vm_compute. reflexivity.
  - vm_compute. reflexivity.
  - exists r. split; [exact Hr|].
    destruct H as (H1 & _ & H3); [vm_compute; discriminate|].
    split; [exact H1|exact H3].
Defined.

(** X10.  Exchanging the two sides of the book exchanges the volumes,
    keeps the mid price and negates spread, spread percentage and
    imbalance. *)
Theorem depth_sides_exchanged (ob : OrderBook) (r : DepthResult) :
  analyze_market_depth ob = Returned (Some r) ->
  exists r',
    analyze_market_depth (mkOrderBook (asks ob) (bids ob)) = Returned (Some r')
    /\ bid_volume r' = ask_volume r /\ ask_volume r' = bid_volume r
    /\ mid_price r' == mid_price r
    /\ spread r' == - spread r
    /\ spread_percentage r' == - spread_percentage r
    /\ imbalance r' == - imbalance r.
Proof.
  intro H. apply analyze_market_depth_some in H.
  destruct H as (bid0 & bids' & ask0 & asks' & Hb & Ha & Hmid & Hbv & Hav
                 & Hs & Hm & Hp & Hi).
  set (b := level_price bid0) in *. set (a := level_price ask0) in *.
  assert ((a + b) / 2 == (b + a) / 2) as Hsym by (field).
  assert (~ (a + b) / 2 == 0) as Hmid' by (now rewrite Hsym).
  destruct (analyze_market_depth_returns (mkOrderBook (asks ob) (bids ob))
              ask0 bid0 asks' bids' Ha Hb Hmid') as [r' Hr'].
  exists r'. split; [exact Hr'|].
  apply analyze_market_depth_some in Hr'.
  destruct Hr' as (x0 & xs & y0 & ys & Hx & Hy & _ & Hbv' & Hav'
                   & Hs' & Hm' & Hp' & Hi').
  cbn [bids asks] in Hx, Hy, Hbv', Hav'.
  rewrite Ha in Hx. rewrite Hb in Hy.
  injection Hx as <- <-. injection Hy as <- <-.
  fold a b in Hs', Hm'.
  rewrite <- Hav in Hbv'. rewrite <- Hbv in Hav'.
  split; [exact Hbv'|]. split; [exact Hav'|].
  assert (mid_price r' == mid_price r) as Emid by (now rewrite Hm', Hm).
  assert (spread r' == - spread r) as Espread by (rewrite Hs', Hs; ring).
  assert (~ mid_price r == 0) as Hnz by (now rewrite Hm).
  split; [exact Emid|]. split; [exact Espread|]. split.
  - rewrite Hp', Hp, Emid, Espread. field. exact Hnz.
  - rewrite Hi', Hi, Hbv', Hav'.
    set (bv := bid_volume r). set (av := ask_volume r).
    destruct (Qlt_bool 0 (av + bv)) eqn:E1, (Qlt_bool 0 (bv + av)) eqn:E2;
      repeat match goal with
             | H : Qlt_bool _ _ = true |- _ => apply Qlt_bool_iff in H
             | H : Qlt_bool _ _ = false |- _ => apply Qlt_bool_false_iff in H
             end; try (exfalso; lra).
    + field. lra.
    + ring.
Qed.

Lemma depth_sides_exchanged_witness :
  exists r',
    analyze_market_depth (mkOrderBook [(101, 1)] [(100, 2); (99, 3)])
    = Returned (Some r')
    /\ bid_volume r' = Qsum [1].
Proof.
  destruct (depth_sides_exchanged
              (mkOrderBook [(100, 2); (99, 3)] [(101, 1)]) _ eq_refl)
    as [r' (Hr' & Hbv & _)].
  exists r'. split; [exact Hr'|exact Hbv].
Defined.

(** ** Requests: kline window and rate limit *)

Import BackpackRequests.

(** Case analysis on the range checks, innermost test first. *)
Ltac no_test t :=
  lazymatch t with
  | context [Z.gtb _ _] => fail
  | context [Z.geb _ _] => fail
  | _ => idtac
  end.

Ltac split_tests :=
  repeat match goal with
         | |- context [(?x >? ?y)%Z] =>
             no_test x; no_test y; destruct (Z.gtb_spec x y)
         | |- context [(?x >=? ?y)%Z] =>
             no_test x; no_test y; destruct (Z.geb_spec x y)
         end.

(** X11.  Whatever the arguments, the window [get_klines] requests is
    well formed and lies in the past: startTime < endTime <=
    current_time - 8h (the last eight hours are never requested).  A
    window start < end <= current_time is passed on shifted by 8 hours,
    and without arguments the window is the 24 hours ending 8 hours
    before the current time. *)
Theorem get_klines_window_well_formed
  (current_time : Z) (start_time end_time : option Z) :
  (fst (get_klines_window current_time start_time end_time)
   < snd (get_klines_window current_time start_time end_time))%Z
  /\ (snd (get_klines_window current_time start_time end_time)
      <= current_time - ms_8h)%Z
  /\ (forall s e, start_time = Some s -> end_time = Some e ->
        (s < e)%Z -> (e <= current_time)%Z ->
        get_klines_window current_time start_time end_time
        = ((s - ms_8h)%Z, (e - ms_8h)%Z))
  /\ get_klines_window current_time None None
     = ((current_time - ms_24h - ms_8h)%Z, (current_time - ms_8h)%Z).
Proof.
  unfold get_klines_window, ms_24h, ms_8h. cbv zeta.
  split; [|split; [|split]].
  - destruct start_time as [s|], end_time as [e|]; cbn [fst snd];
      split_tests; lia.
  - destruct start_time as [s|], end_time as [e|]; cbn [fst snd];
      split_tests; lia.
  - intros s e -> -> Hse Hec.
    split_tests; try lia; reflexivity.
  - split_tests; try lia; reflexivity.
Qed.

Lemma get_klines_window_well_formed_witness :
  get_klines_window 1700000000000%Z
    (Some 1699990000000%Z) (Some 1699999000000%Z)
  = ((1699990000000 - ms_8h)%Z, (1699999000000 - ms_8h)%Z).
Proof.
  destruct (get_klines_window_well_formed 1700000000000%Z
              (Some 1699990000000%Z) (Some 1699999000000%Z))
    as (_ & _ & H & _).
  apply (H _ _ eq_refl eq_refl); lia.
Defined.

(** X12.  The second pair of range checks in [get_klines] never
    changes anything: the window is the one computed without them. *)
Theorem get_klines_second_checks_idle
  (current_time : Z) (start_time end_time : option Z) :
  get_klines_window current_time start_time end_time
  = get_klines_window_short current_time start_time end_time.
Proof.
  unfold get_klines_window, get_klines_window_short, ms_24h, ms_8h.
  cbv zeta.
  destruct start_time as [s|], end_time as [e|];
    split_tests; try lia; reflexivity.
Qed.

Lemma py_max0_cases (x : Q) :
  (0 < x /\ py_max0 x = x) \/ (x <= 0 /\ py_max0 x = 0).
Proof.
  unfold py_max0. destruct (Qlt_bool 0 x) eqn:E.
  - left. apply Qlt_bool_iff in E. now split.
  - right. apply Qlt_bool_false_iff in E. now split.
Qed.

(** X13.  With a positive requests_per_minute, [_check_rate_limit]
    returns and spaces requests: given the guarantees of the clock, the
    new last_request_time is at least 60/requests_per_minute after the
    previous one.  It sleeps only for a positive time, and for at most
    one interval when the clock reading is not before the previous
    request.  With requests_per_minute = 0 it raises
    [ZeroDivisionError]. *)
Theorem check_rate_limit_spacing (t1 t2 : Q) (rate_limit : RateLimit) :
  (0 < requests_per_minute rate_limit ->
   exists rl' slept,
     _check_rate_limit t1 t2 rate_limit = Returned (rl', slept)
     /\ requests_per_minute rl' = requests_per_minute rate_limit
     /\ last_request_time rl' = t2
     /\ (clock_contract t1 t2 slept ->
         last_request_time rate_limit + 60 / requests_per_minute rate_limit
         <= last_request_time rl')
     /\ (forall w, slept = Some w ->
           0 < w
           /\ (last_request_time rate_limit <= t1 ->
               w <= 60 / requests_per_minute rate_limit)))
  /\ (requests_per_minute rate_limit == 0 ->
      _check_rate_limit t1 t2 rate_limit = Raised ZeroDivisionError).
Proof.
  unfold _check_rate_limit. split.
  - intro Hpos.
    assert (Qeq_bool (requests_per_minute rate_limit) 0 = false) as Hnz.
    { apply Qeq_bool_false_iff. lra. }
    rewrite (py_div_returns _ _ Hnz). cbn [bind].
    set (I := 60 / requests_per_minute rate_limit).
    set (last := last_request_time rate_limit).
    eexists. eexists. split; [reflexivity|].
    cbn [requests_per_minute last_request_time].
    split; [reflexivity|]. split; [reflexivity|].
    destruct (py_max0_cases (I - (t1 - last))) as [[Hx E]|[Hx E]]; rewrite E.
    + assert (Qlt_bool 0 (I - (t1 - last)) = true) as Hb
        by now apply Qlt_bool_iff.
      rewrite Hb. split.
      * cbn [clock_contract]. intro Hc. lra.
      * intros w Hw. injection Hw as <-. split; [exact Hx|]. intro. lra.
    + assert (Qlt_bool 0 0 = false) as Hb by reflexivity.
      rewrite Hb. split.
      * cbn [clock_contract]. intro Hc. lra.
      * intros w Hw. discriminate.
  - intro Hz. now rewrite (py_div_raises _ _ Hz).
Qed.

Lemma check_rate_limit_spacing_witness :
  exists rl' slept,
    _check_rate_limit (1 # 100) (4 # 100) initial_rate_limit
    = Returned (rl', slept)
    /\ last_request_time initial_rate_limit
       + 60 / requests_per_minute initial_rate_limit
       <= last_request_time rl'.
Proof.
  destruct (check_rate_limit_spacing (1 # 100) (4 # 100) initial_rate_limit)
    as [H _].
  destruct H as [rl' [slept (Hr & _ & _ & Hc & _)]]; [vm_compute; reflexivity|].
  exists rl', slept. split; [exact Hr|]. apply Hc.
  vm_compute in Hr. injection Hr as <- <-. vm_compute. discriminate.
Defined.

(** ** Market trades: summary figures *)

Lemma _analyze_trades_fields (sqrt : Q -> Q) (trades : list MarketTrade) :
  trades <> [] ->
  exists r,
    _analyze_trades sqrt trades = Returned (Some r)
    /\ ta_total_trades r = List.length trades
    /\ total_volume r = Qsum (map quantity trades)
    /\ total_value r = Qsum (map quoteQuantity trades)
    /\ avg_trade_size r = total_volume r / Qlen trades
    /\ avg_trade_value r = total_value r / Qlen trades
    /\ buy_ratio r
       = Qlen (filter (fun t => negb (isBuyerMaker t)) trades) / Qlen trades
    /\ price_trend r
       = classify_price_change
           (f64_div (f64_sub (Fin (hd 0 (map price trades)))
                             (Fin (last (map price trades) 0)))
                    (Fin (last (map price trades) 0)))
    /\ volatility r
       = np_mul (series_std sqrt
                   (NaN :: pct_change_tail (hd 0 (map price trades))
                             (tl (map price trades))))
                (Fin (sqrt (Qlen trades))).
Proof.
  intro Hne. unfold _analyze_trades, _analyze_trades_body.
  assert (nonempty trades = true) as Hn by now apply nonempty_true.
  rewrite Hn. cbn [negb].
  rewrite (py_div_returns _ _ (Qlen_nonzero trades Hne)).
  cbn [bind try_except]. eexists. split; [reflexivity|].
  repeat split.
Qed.

Lemma _analyze_trades_empty (sqrt : Q -> Q) :
  _analyze_trades sqrt [] = Returned None.
Proof. reflexivity. Qed.

Lemma classify_price_change_values (c : npfloat) :
  classify_price_change c = 1%Z \/ classify_price_change c = 0%Z
  \/ classify_price_change c = (-1)%Z.
Proof.
  unfold classify_price_change.
  destruct (np_gtb c trend_threshold); [now left|].
  destruct (np_ltb c (np_neg trend_threshold)); [right; now right|right; now left].
Qed.

(** X14.  For a non-empty list of market trades a summary is
    returned: total_trades is the number of trades, buy_ratio lies in
    [0, 1] and is 0 exactly when no trade is a taker buy (isBuyerMaker
    false), and price_trend is one of -1, 0, 1. *)
Theorem trade_summary_consistent (sqrt : Q -> Q) (trades : list MarketTrade) :
  trades <> [] ->
  exists r,
    _analyze_trades sqrt trades = Returned (Some r)
    /\ ta_total_trades r = List.length trades
    /\ 0 <= buy_ratio r /\ buy_ratio r <= 1
    /\ (buy_ratio r == 0
        <-> filter (fun t => negb (isBuyerMaker t)) trades = [])
    /\ (price_trend r = 1%Z \/ price_trend r = 0%Z \/ price_trend r = (-1)%Z).
Proof.
  intro Hne.
  destruct (_analyze_trades_fields sqrt trades Hne)
    as [r (Hr & Hn & _ & _ & _ & _ & Hb & Ht & _)].
  exists r. split; [exact Hr|]. split; [exact Hn|].
  pose proof (Qlen_pos trades Hne) as Hpos.
  assert (~ Qlen trades == 0) as Hnz by lra.
  rewrite Hb, Ht.
  split; [|split; [|split]].
  - apply Qle_shift_div_l; [exact Hpos|].
    rewrite Qmult_0_l. apply Qlen_nonneg.
  - apply Qle_shift_div_r; [exact Hpos|].
    rewrite Qmult_1_l. apply Qlen_le, filter_length_le.
  - destruct (filter (fun t => negb (isBuyerMaker t)) trades) as [|t0 bs].
    + split; [reflexivity|]. intros _. unfold Qlen at 1.
      cbn [List.length Z.of_nat]. unfold Qdiv. apply Qmult_0_l.
    + split; [|discriminate]. intro E. exfalso.
      assert (0 < Qlen (t0 :: bs)) as P by (apply Qlen_pos; discriminate).
      assert (Qlen (t0 :: bs) == 0 * Qlen trades) as K.
      { rewrite <- E. field. exact Hnz. }
      lra.
  - apply classify_price_change_values.
Qed.

Lemma trade_summary_consistent_witness :
  exists r,
    _analyze_trades sqrt_12
      [mkMarketTrade 102 1 102 false; mkMarketTrade 100 2 200 true;
       mkMarketTrade 101 3 303 false]
    = Returned (Some r)
    /\ ta_total_trades r = 3%nat /\ buy_ratio r <= 1.
Proof.
  destruct (trade_summary_consistent sqrt_12
              [mkMarketTrade 102 1 102 false; mkMarketTrade 100 2 200 true;
               mkMarketTrade 101 3 303 false])
    as [r (Hr & Hn & _ & Hb & _)]; [discriminate|].
  exists r. split; [exact Hr|]. split; [exact Hn|exact Hb].
Defined.

Lemma np_mul_nan_l (x : npfloat) : np_mul NaN x = NaN.
Proof. reflexivity. Qed.

Lemma series_std_short (sqrt : Q -> Q) (s : list npfloat) :
  (List.length (filter (fun x => negb (np_isnan x)) s) <= 1)%nat ->
  series_std sqrt s = NaN.
Proof.
  intro H. unfold series_std. apply Nat.leb_le in H. now rewrite H.
Qed.

(** X15.  With one or two trades the volatility is NaN (the sample
    standard deviation needs two price changes), and with a single
    trade the price trend is 0. *)
Theorem few_trades_volatility_nan (sqrt : Q -> Q) (trades : list MarketTrade) :
  trades <> [] ->
  (List.length trades <= 2)%nat ->
  exists r,
    _analyze_trades sqrt trades = Returned (Some r)
    /\ volatility r = NaN
    /\ (List.length trades = 1%nat -> price_trend r = 0%Z).
Proof.
  intros Hne Hlen.
  destruct (_analyze_trades_fields sqrt trades Hne)
    as [r (Hr & _ & _ & _ & _ & _ & _ & Ht & Hv)].
  exists r. split; [exact Hr|]. split.
  - rewrite Hv. rewrite series_std_short; [reflexivity|].
    destruct trades as [|t1 [|t2 [|t3 trades]]]; cbn in Hlen; try lia;
      try congruence.
    + cbn. lia.
    + cbn [map hd tl pct_change_tail filter np_isnan negb].
      match goal with
      | |- context [np_isnan ?v] => destruct (np_isnan v)
      end; cbn; lia.
  - intro H1. rewrite Ht.
    destruct trades as [|t1 [|t2 trades]]; cbn in H1; try lia.
    cbn [map hd last].
    assert (f64_sub (Fin (price t1)) (Fin (price t1)) = Fin 0) as Es.
    { unfold f64_sub, np_sub. cbn [np_neg np_add f64].
      apply round64_zero. ring. }
    rewrite Es. unfold f64_div, np_div.
    destruct (Qeq_bool (price t1) 0) eqn:E.
    + reflexivity.
    + apply Qeq_bool_false_iff in E. cbn [f64].
      rewrite (round64_zero (0 / price t1)) by (field; exact E).
      reflexivity.
Qed.

Lemma few_trades_volatility_nan_witness :
  exists r,
    _analyze_trades sqrt_12
      [mkMarketTrade 102 1 102 false; mkMarketTrade 100 2 200 true]
    = Returned (Some r)
    /\ volatility r = NaN.
Proof.
  destruct (few_trades_volatility_nan sqrt_12
              [mkMarketTrade 102 1 102 false; mkMarketTrade 100 2 200 true])
    as [r (Hr & Hv & _)]; [discriminate|cbn; lia|].
  exists r. split; [exact Hr|exact Hv].
Defined.

(** ** Klines: the price summary *)

Lemma _analyze_price_fields (klines : list Kline) (r : PriceAnalysis) :
  _analyze_price klines = Returned (Some r) ->
  let closes := map k_close klines in
  klines <> []
  /\ ~ hd 0 closes == 0
  /\ current_price r = last closes 0
  /\ price_change_24h r = last closes 0 - hd 0 closes
  /\ price_change_percentage_24h r
     = (last closes 0 - hd 0 closes) / hd 0 closes * 100
  /\ high_24h r = np_max 0 (map k_high klines)
  /\ low_24h r = np_min 0 (map k_low klines)
  /\ volume_24h r = Qsum (map k_volume klines)
  /\ ma7 r = rolling_mean_last 7 closes
  /\ ma25 r = rolling_mean_last 25 closes
  /\ rsi r
     = np_sub (Fin 100)
         (np_div (Fin 100)
            (np_add (Fin 1)
               (np_div (rolling_mean_last 14 (gains closes))
                       (rolling_mean_last 14 (losses closes)))))
  /\ trend r = classify_trend (current_price r) (ma7 r) (ma25 r) (rsi r).
Proof.
  unfold _analyze_price, _analyze_price_body.
  destruct klines as [|k klines]; [discriminate|].
  cbn [nonempty negb]. unfold iloc_first, iloc_last.
  intro H. cbv zeta.
  set (closes := map k_close (k :: klines)) in *.
  destruct (Qeq_bool (hd 0 closes) 0) eqn:E.
  - apply Qeq_bool_iff in E. rewrite (py_div_raises _ _ E) in H. discriminate.
  - rewrite (py_div_returns _ _ E) in H. cbn [bind try_except] in H.
    injection H as <-. apply Qeq_bool_false_iff in E.
    split; [discriminate|]. split; [exact E|]. repeat split.
Qed.

Lemma _analyze_price_returns (klines : list Kline) :
  klines <> [] -> ~ hd 0 (map k_close klines) == 0 ->
  exists r, _analyze_price klines = Returned (Some r).
Proof.
  intros Hne Hz. unfold _analyze_price, _analyze_price_body.
  destruct klines as [|k klines]; [congruence|].
  cbn [nonempty negb]. unfold iloc_first.
  apply Qeq_bool_false_iff in Hz.
  rewrite (py_div_returns _ _ Hz). cbn [bind try_except]. eauto.
Qed.

Lemma Qminb_le_l (x y : Q) : Qminb x y <= x.
Proof.
  unfold Qminb. destruct (Qle_bool x y) eqn:E.
  - apply Qle_refl.
  - assert (Qlt_bool y x = true) as H by (unfold Qlt_bool; now rewrite E).
    apply Qlt_bool_iff in H. now apply Qlt_le_weak.
Qed.

Lemma Qminb_le_r (x y : Q) : Qminb x y <= y.
Proof.
  unfold Qminb. destruct (Qle_bool x y) eqn:E.
  - now apply Qle_bool_iff.
  - apply Qle_refl.
Qed.

Lemma Qminb_cases (x y : Q) : Qminb x y = x \/ Qminb x y = y.
Proof. unfold Qminb. destruct (Qle_bool x y); auto. Qed.

Lemma fold_Qmaxb_bounds (l : list Q) (m : Q) :
  m <= fold_left Qmaxb l m /\ forall x, In x l -> x <= fold_left Qmaxb l m.
Proof.
  revert m. induction l as [|y l IH]; intro m; cbn [fold_left].
  - split; [apply Qle_refl|]. intros x [].
  - destruct (IH (Qmaxb m y)) as [H1 H2].
    pose proof (Qmaxb_ge_l m y). pose proof (Qmaxb_ge_r m y).
    split; [lra|]. intros x [<-|Hx]; [lra|now apply H2].
Qed.

Lemma fold_Qminb_bounds (l : list Q) (m : Q) :
  fold_left Qminb l m <= m /\ forall x, In x l -> fold_left Qminb l m <= x.
Proof.
  revert m. induction l as [|y l IH]; intro m; cbn [fold_left].
  - split; [apply Qle_refl|]. intros x [].
  - destruct (IH (Qminb m y)) as [H1 H2].
    pose proof (Qminb_le_l m y). pose proof (Qminb_le_r m y).
    split; [lra|]. intros x [<-|Hx]; [lra|now apply H2].
Qed.

Lemma np_max_upper (d : Q) (l : list Q) (x : Q) : In x l -> x <= np_max d l.
Proof.
  destruct l as [|y l]; [intros []|]. cbn [np_max].
  destruct (fold_Qmaxb_bounds l y) as [H1 H2].
  intros [<-|Hx]; [exact H1|now apply H2].
Qed.

Lemma np_min_lower (d : Q) (l : list Q) (x : Q) : In x l -> np_min d l <= x.
Proof.
  destruct l as [|y l]; [intros []|]. cbn [np_min].
  destruct (fold_Qminb_bounds l y) as [H1 H2].
  intros [<-|Hx]; [exact H1|now apply H2].
Qed.

Lemma np_min_in (d : Q) (l : list Q) : l <> [] -> In (np_min d l) l.
Proof.
  destruct l as [|x l]; [congruence|]. intros _. cbn [np_min].
  assert (forall l' m, In (fold_left Qminb l' m) (m :: l')) as H.
  { induction l' as [|y l' IH]; intro m; cbn [fold_left].
    - now left.
    - destruct (IH (Qminb m y)) as [E|E].
      + rewrite <- E.
        destruct (Qminb_cases m y) as [C|C]; rewrite C.
        * now left.
        * right. now left.
      + right. right. exact E. }
  apply H.
Qed.

(** X16.  [_analyze_price] returns a result exactly for a non-empty
    kline list whose first close is not 0.  In a result, current_price
    is the last close, price_change_24h is positive exactly when the
    last close exceeds the first and negative exactly when it is below,
    high_24h is the greatest high and low_24h the least low of the
    klines. *)
Theorem price_summary (klines : list Kline) :
  ((exists r, _analyze_price klines = Returned (Some r))
   <-> (klines <> [] /\ ~ hd 0 (map k_close klines) == 0))
  /\ (forall r, _analyze_price klines = Returned (Some r) ->
        current_price r = last (map k_close klines) 0
        /\ (0 < price_change_24h r
            <-> hd 0 (map k_close klines) < current_price r)
        /\ (price_change_24h r < 0
            <-> current_price r < hd 0 (map k_close klines))
        /\ In (high_24h r) (map k_high klines)
        /\ In (low_24h r) (map k_low klines)
        /\ (forall k, In k klines ->
              low_24h r <= k_low k /\ k_high k <= high_24h r)).
Proof.
  split.
  - split.
    + intros [r Hr]. apply _analyze_price_fields in Hr.
      destruct Hr as (Hne & Hz & _). now split.
    + intros [Hne Hz]. now apply _analyze_price_returns.
  - intros r Hr. apply _analyze_price_fields in Hr.
    destruct Hr as (Hne & Hz & Hc & Hd & Hp & Hh & Hl & _).
    rewrite Hd, Hc, Hh, Hl.
    split; [reflexivity|]. split; [split; lra|]. split; [split; lra|].
    split; [apply np_max_in; now apply map_nonempty|].
    split; [apply np_min_in; now apply map_nonempty|].
    intros k Hk. split.
    + apply np_min_lower. now apply in_map.
    + apply np_max_upper. now apply in_map.
Qed.

Lemma price_summary_witness :
  exists r,
    _analyze_price
      [mkKline 0 10 12 9 11 5 1 55 3; mkKline 1 11 15 10 14 7 2 98 4]
    = Returned (Some r)
    /\ current_price r = 14 /\ high_24h r = 15 /\ low_24h r = 9.
Proof.
  destruct (price_summary
              [mkKline 0 10 12 9 11 5 1 55 3; mkKline 1 11 15 10 14 7 2 98 4])
    as [[_ Hex] _].
  destruct Hex as [r Hr]; [split; [discriminate|vm_compute; discriminate]|].
  exists r. split; [exact Hr|].
  vm_compute in Hr. injection Hr as <-. repeat split.
Defined.

Lemma rolling_mean_last_long (w : nat) (s : list Q) :
  (w <= List.length s)%nat ->
  rolling_mean_last w s = Fin (np_mean (skipn (List.length s - w) s)).
Proof.
  intro H. unfold rolling_mean_last.
  apply Nat.ltb_ge in H. now rewrite H.
Qed.


Lemma np_mean_between (l : list Q) (lo hi : Q) :
  l <> [] -> Forall (fun x => lo <= x /\ x <= hi) l ->
  lo <= np_mean l /\ np_mean l <= hi.
Proof.
  intros Hne H. unfold np_mean.
  pose proof (Qlen_pos l Hne) as Hpos. split.
  - apply Qdiv_ge_of_ge_mul; [exact Hpos|]. apply Qsum_ge_len_mul.
    eapply Forall_impl; [|exact H]. now intros x [Hx _].
  - apply Qdiv_le_of_le_mul; [exact Hpos|]. apply Qsum_le_len_mul.
    eapply Forall_impl; [|exact H]. now intros x [_ Hx].
Qed.




(** ** Klines: the RSI *)














(** ** Klines: what the trend labels mean *)

Lemma rolling_mean_last_cases (w : nat) (s : list Q) :
  (rolling_mean_last w s = NaN /\ (List.length s < w)%nat)
  \/ (exists m, rolling_mean_last w s = Fin m /\ (w <= List.length s)%nat).
Proof.
  destruct (Nat.lt_ge_cases (List.length s) w) as [H|H].
  - left. split; [now apply rolling_mean_last_short|exact H].
  - right. eexists. split; [now apply rolling_mean_last_long|exact H].
Qed.

Lemma classify_trend_nan_ma7 (p : Q) (m25 r : npfloat) :
  classify_trend p NaN m25 r = neutral.
Proof.
  unfold classify_trend, np_gtb. rewrite np_ltb_nan_l, np_ltb_nan_r.
  reflexivity.
Qed.

Ltac bools_to_props :=
  repeat match goal with
         | H : Qlt_bool _ _ = true |- _ => apply Qlt_bool_iff in H
         | H : Qlt_bool _ _ = false |- _ => apply Qlt_bool_false_iff in H
         end.

Lemma classify_trend_finite (c a b : Q) (rsi : npfloat) :
  let t := classify_trend c (Fin a) (Fin b) rsi in
  ((t = strong_up \/ t = up) <-> (b < a /\ a < c))
  /\ ((t = strong_down \/ t = down) <-> (c < a /\ a < b))
  /\ (t = strong_up -> np_gtb rsi (Fin 70) = true)
  /\ (t = up -> np_gtb rsi (Fin 70) = false)
  /\ (t = strong_down -> np_ltb rsi (Fin 30) = true)
  /\ (t = down -> np_ltb rsi (Fin 30) = false).
Proof.
  unfold classify_trend.
  change (np_gtb (Fin c) (Fin a)) with (Qlt_bool a c).
  change (np_gtb (Fin a) (Fin b)) with (Qlt_bool b a).
  change (np_ltb (Fin c) (Fin a)) with (Qlt_bool c a).
  change (np_ltb (Fin a) (Fin b)) with (Qlt_bool a b).
  destruct (Qlt_bool a c) eqn:E1, (Qlt_bool b a) eqn:E2,
           (Qlt_bool c a) eqn:E3, (Qlt_bool a b) eqn:E4,
           (np_gtb rsi (Fin 70)) eqn:E5, (np_ltb rsi (Fin 30)) eqn:E6;
    cbn [andb]; bools_to_props;
    repeat match goal with
           | |- _ /\ _ => split
           | |- _ <-> _ => split
           end;
    intros;
    repeat match goal with
           | H : _ \/ _ |- _ => destruct H
           | H : _ /\ _ |- _ => destruct H
           end;
    try discriminate; try reflexivity; try lra; auto;
    exfalso; lra.
Qed.

(** X19.  The trend label of a price result says what it names: an
    upward label ('strong_up' or 'up') is given exactly when both
    moving averages are defined and current_price > ma7 > ma25, a
    downward one exactly when current_price < ma7 < ma25; 'strong_up'
    needs rsi > 70 and 'up' is kept for the rest, likewise 'strong_down'
    with rsi < 30; and any label other than 'neutral' needs at least 25
    klines. *)
Theorem trend_label_meaning (klines : list Kline) (r : PriceAnalysis) :
  _analyze_price klines = Returned (Some r) ->
  ((trend r = strong_up \/ trend r = up) <->
   exists m7 m25, ma7 r = Fin m7 /\ ma25 r = Fin m25
                  /\ m25 < m7 /\ m7 < current_price r)
  /\ ((trend r = strong_down \/ trend r = down) <->
      exists m7 m25, ma7 r = Fin m7 /\ ma25 r = Fin m25
                     /\ current_price r < m7 /\ m7 < m25)
  /\ (trend r = strong_up -> np_gtb (rsi r) (Fin 70) = true)
  /\ (trend r = up -> np_gtb (rsi r) (Fin 70) = false)
  /\ (trend r = strong_down -> np_ltb (rsi r) (Fin 30) = true)
  /\ (trend r = down -> np_ltb (rsi r) (Fin 30) = false)
  /\ (trend r <> neutral -> (25 <= List.length klines)%nat).
Proof.
  intro Hr. apply _analyze_price_fields in Hr.
  destruct Hr as (_ & _ & _ & _ & _ & _ & _ & _ & H7 & H25 & _ & Ht).
  rewrite Ht. clear Ht.
  destruct (rolling_mean_last_cases 7 (map k_close klines))
    as [[E7 _]|[m7 [E7 _]]]; rewrite E7 in H7; rewrite H7.
  - rewrite classify_trend_nan_ma7.
    repeat match goal with
           | |- _ /\ _ => split
           | |- _ <-> _ => split
           end; intros;
      repeat match goal with
             | H : _ \/ _ |- _ => destruct H
             | H : exists _, _ |- _ => destruct H
             | H : _ /\ _ |- _ => destruct H
             end; try discriminate; congruence.
  - destruct (rolling_mean_last_cases 25 (map k_close klines))
      as [[E25 _]|[m25 [E25 L25]]]; rewrite E25 in H25; rewrite H25.
    + rewrite classify_trend_nan_ma25.
      repeat match goal with
             | |- _ /\ _ => split
             | |- _ <-> _ => split
             end; intros;
        repeat match goal with
               | H : _ \/ _ |- _ => destruct H
               | H : exists _, _ |- _ => destruct H
               | H : _ /\ _ |- _ => destruct H
               end; try discriminate; congruence.
    + rewrite length_map in L25.
      destruct (classify_trend_finite (current_price r) m7 m25 (rsi r))
        as (Hup & Hdown & H1 & H2 & H3 & H4).
      split; [|split; [|repeat split; auto]].
      * rewrite Hup. split.
        -- intros [Ha Hb]. now exists m7, m25.
        -- intros (x & y & Ex & Ey & Ha & Hb).
           injection Ex as <-. injection Ey as <-. now split.
      * rewrite Hdown. split.
        -- intros [Ha Hb]. now exists m7, m25.
        -- intros (x & y & Ex & Ey & Ha & Hb).
           injection Ex as <-. injection Ey as <-. now split.
Qed.

Lemma trend_label_meaning_witness :
  exists r,
    _analyze_price
      (map (fun n => mkKline 0 n n n n 1 1 1 1)
         [1; 2; 3; 4; 5; 6; 7; 8; 9; 10; 11; 12; 13; 14; 15; 16; 17; 18; 19;
          20; 21; 22; 23; 24; 25])
    = Returned (Some r)
    /\ trend r = strong_up
    /\ np_gtb (rsi r) (Fin 70) = true.
Proof.
  eexists. split; [vm_compute; reflexivity|].
  split; [reflexivity|].
  destruct (trend_label_meaning
              (map (fun n => mkKline 0 n n n n 1 1 1 1)
                 [1; 2; 3; 4; 5; 6; 7; 8; 9; 10; 11; 12; 13; 14; 15; 16; 17;
                  18; 19; 20; 21; 22; 23; 24; 25]) _ eq_refl)
    as (_ & _ & H & _).
  apply H. reflexivity.
Defined.

(** ** [analyze_market]: how the three parts compose *)





(** ** [find_active_markets] *)

Section Discovery.
Variable sqrt : Q -> Q.
Variable client : Client.

Lemma analyze_market_total (symbol : string) :
  analyze_market sqrt client symbol
  = Returned (market_analysis_of sqrt client symbol).
Proof.
  unfold market_analysis_of.
  destruct (try_except_returns (analyze_market_body sqrt client symbol) None)
    as [v Hv].
  unfold analyze_market. now rewrite Hv.
Qed.

Lemma active_markets_loop_in_order (markets : list Market)
  (min_trades : Z) (min_volume : Q) :
  active_markets_loop sqrt client markets min_trades min_volume
  = Returned (active_in_order sqrt client markets min_trades min_volume).
Proof.
  unfold active_in_order.
  induction markets as [|m rest IH]; [reflexivity|].
  cbn [active_markets_loop truthy_symbols flat_map].
  fold (truthy_symbols rest).
  destruct (m_symbol m) as [s|]; [|exact IH].
  destruct (String.eqb s ""); [exact IH|].
  cbn [app flat_map].
  rewrite analyze_market_total. cbn [bind].
  destruct (market_analysis_of sqrt client s) as [an|]; [|exact IH].
  rewrite IH. cbn [bind].
  now destruct (is_active min_trades min_volume an).
Qed.

Lemma find_active_markets_sorted (markets : list Market)
  (min_trades : Z) (min_volume : Q) :
  find_active_markets sqrt client markets min_trades min_volume
  = Returned (list_sort (fun x => Fin (get_total_value (am_analysis x))) true
                (active_in_order sqrt client markets min_trades min_volume)).
Proof.
  unfold find_active_markets, find_active_markets_body.
  now rewrite active_markets_loop_in_order.
Qed.

Lemma in_active_in_order (markets : list Market)
  (min_trades : Z) (min_volume : Q) (x : ActiveMarket) :
  In x (active_in_order sqrt client markets min_trades min_volume)
  <-> (In (am_symbol x) (truthy_symbols markets)
       /\ analyze_market sqrt client (am_symbol x)
          = Returned (Some (am_analysis x))
       /\ is_active min_trades min_volume (am_analysis x) = true).
Proof.
  unfold active_in_order. rewrite in_flat_map. split.
  - intros [s [Hs Hx]]. rewrite analyze_market_total.
    destruct (market_analysis_of sqrt client s) as [an|] eqn:E;
      [|contradiction].
    destruct (is_active min_trades min_volume an) eqn:Ea; [|contradiction].
    destruct Hx as [<-|[]]. cbn [am_symbol am_analysis].
    rewrite E. now repeat split.
  - intros (Hs & Han & Hact). exists (am_symbol x). split; [exact Hs|].
    rewrite analyze_market_total in Han. injection Han as ->.
    rewrite Hact. left. now destruct x.
Qed.

End Discovery.

Lemma in_truthy_symbols (markets : list Market) (s : string) :
  In s (truthy_symbols markets)
  <-> (s <> "" /\ exists m, In m markets /\ m_symbol m = Some s).
Proof.
  unfold truthy_symbols. rewrite in_flat_map. split.
  - intros [m [Hm Hs]]. destruct (m_symbol m) as [s'|] eqn:E; [|contradiction].
    destruct (String.eqb_spec s' "") as [->|Hne]; [contradiction|].
    destruct Hs as [<-|[]]. split; [exact Hne|]. now exists m.
  - intros [Hne [m [Hm E]]]. exists m. split; [exact Hm|]. rewrite E.
    destruct (String.eqb_spec s "") as [->|_]; [congruence|]. now left.
Qed.

Lemma strongly_sorted_weaken {A} (R S : A -> A -> Prop) (l : list A) :
  (forall a b, R a b -> S a b) -> StronglySorted R l -> StronglySorted S l.
Proof.
  intros HRS H. induction H as [|x l Hl IH Hx]; constructor.
  - exact IH.
  - eapply Forall_impl; [|exact Hx]. intros b. apply HRS.
Qed.

(** X21.  [find_active_markets] returns exactly the markets with a
    non-empty symbol whose analysis has total_trades >= min_trades and
    total_value >= min_volume (a missing trade analysis counting as 0
    for both), sorted by descending total_value, markets of equal
    value staying in the order of the market list. *)
Theorem find_active_markets_ranking
  (sqrt : Q -> Q) (client : Client) (markets : list Market)
  (min_trades : Z) (min_volume : Q) :
  exists l,
    find_active_markets sqrt client markets min_trades min_volume = Returned l
    /\ (forall x, In x l <->
          (am_symbol x <> ""
           /\ (exists m, In m markets /\ m_symbol m = Some (am_symbol x))
           /\ analyze_market sqrt client (am_symbol x)
              = Returned (Some (am_analysis x))
           /\ (min_trades <= get_total_trades (am_analysis x))%Z
           /\ min_volume <= get_total_value (am_analysis x)))
    /\ StronglySorted value_ge l
    /\ (forall v,
          filter (same_value v) l
          = filter (same_value v)
              (active_in_order sqrt client markets min_trades min_volume)).
Proof.
  set (q := active_in_order sqrt client markets min_trades min_volume).
  set (key := fun x : ActiveMarket => Fin (get_total_value (am_analysis x))).
  exists (list_sort key true q).
  pose proof (list_sort_perm key true q) as Hperm.
  split; [apply find_active_markets_sorted|]. split; [|split].
  - intro x. split.
    + intro H. apply (Permutation_in _ Hperm) in H.
      apply in_active_in_order in H. destruct H as (Hs & Han & Hact).
      apply in_truthy_symbols in Hs. destruct Hs as [Hne Hm].
      unfold is_active in Hact. apply andb_true_iff in Hact.
      destruct Hact as [H1 H2]. apply Z.leb_le in H1. apply Qle_bool_iff in H2.
      now repeat split.
    + intros (Hne & Hm & Han & H1 & H2).
      apply (Permutation_in _ (Permutation_sym Hperm)).
      apply in_active_in_order. split; [|split; [exact Han|]].
      * apply in_truthy_symbols. now split.
      * unfold is_active. apply andb_true_iff. split.
        -- now apply Z.leb_le.
        -- now apply Qle_bool_iff.
  - assert (StronglySorted (fun a b => sort_lt key true a b = false)
                           (list_sort key true q)) as Hs.
    { apply sorted_strongly; [|apply list_sort_sorted].
      apply Forall_forall. intros x _. unfold key. discriminate. }
    eapply strongly_sorted_weaken; [|exact Hs].
    intros a b Hab. unfold value_ge. unfold sort_lt, key in Hab.
    cbn [np_ltb] in Hab. now apply Qlt_bool_false_iff.
  - intro v. apply list_sort_stable.
    intros x y Hx Hy. unfold same_value in Hx, Hy.
    apply Qeq_bool_iff in Hx, Hy. unfold sort_lt, key. cbn [np_ltb].
    apply Qlt_bool_false_iff. rewrite <- Hx, <- Hy. apply Qle_refl.
Qed.

(** ** Symbol distribution *)








Lemma max_by_from_nat_spec {A} (v : A -> nat) (l : list A) (best : A) :
  let m := max_by_from (fun x b => (v b <? v x)%nat) best l in
  In m (best :: l) /\ (v best <= v m)%nat
  /\ (forall x, In x l -> (v x <= v m)%nat).
Proof.
  revert best. induction l as [|y l IH]; intro best; cbn [max_by_from].
  - split; [now left|]. split; [lia|]. intros x [].
  - destruct (IH (if (v best <? v y)%nat then y else best))
      as (Hin & Hbest & Hall).
    destruct (Nat.ltb_spec (v best) (v y)) as [E|E].
    + split; [|split].
      * destruct Hin as [<-|Hin]; [right; now left|right; now right].
      * lia.
      * intros x [<-|Hx]; [exact Hbest|now apply Hall].
    + split; [|split].
      * destruct Hin as [<-|Hin]; [now left|right; now right].
      * exact Hbest.
      * intros x [<-|Hx]; [lia|now apply Hall].
Qed.



(** ** Time distribution *)

Lemma count_add_count (k h : nat) (tbl : list (nat * nat)) :
  hour_count k (count_add h tbl)
  = if Nat.eqb k h then S (hour_count h tbl) else hour_count k tbl.
Proof.
  unfold hour_count.
  induction tbl as [|[k0 c] tbl IH]; cbn [count_add find fst snd].
  - destruct (Nat.eqb_spec h k) as [E1|H1], (Nat.eqb_spec k h) as [E2|H2];
      try reflexivity; congruence.
  - destruct (Nat.eqb_spec k0 h) as [E0|H0]; cbn [find fst snd].
    + subst k0. destruct (Nat.eqb_spec h k) as [E1|H1].
      * subst k. rewrite Nat.eqb_refl. reflexivity.
      * destruct (Nat.eqb_spec k h) as [H2|H2]; [congruence|reflexivity].
    + destruct (Nat.eqb_spec k0 k) as [E1|H1].
      * subst k0. destruct (Nat.eqb_spec k h) as [H2|H2];
          [congruence|reflexivity].
      * rewrite IH. destruct (Nat.eqb_spec k h) as [H2|H2]; reflexivity.
Qed.

Lemma count_add_keys (k h : nat) (tbl : list (nat * nat)) :
  In k (map fst (count_add h tbl)) <-> k = h \/ In k (map fst tbl).
Proof.
  induction tbl as [|[k0 c] tbl IH]; cbn [count_add map fst In].
  - split; [intros [H|[]]; now left|intros [H|[]]; now left].
  - destruct (Nat.eqb_spec k0 h) as [E0|H0]; cbn [map fst In].
    + intuition congruence.
    + rewrite IH. intuition congruence.
Qed.

Lemma count_add_nodup (h : nat) (tbl : list (nat * nat)) :
  NoDup (map fst tbl) -> NoDup (map fst (count_add h tbl)).
Proof.
  induction tbl as [|[k0 c] tbl IH]; cbn [count_add map fst]; intro H.
  - repeat constructor. intros [].
  - inversion H as [|? ? Hnotin Hnd]; subst.
    destruct (Nat.eqb_spec k0 h) as [E0|H0]; cbn [map fst].
    + now constructor.
    + constructor; [|now apply IH].
      rewrite count_add_keys. intros [E|E]; [congruence|contradiction].
Qed.

Lemma value_counts_from (hours : list nat) (tbl : list (nat * nat)) :
  let tbl' := fold_left (fun tbl h => count_add h tbl) hours tbl in
  (forall k, hour_count k tbl'
             = (hour_count k tbl + count_occ Nat.eq_dec hours k)%nat)
  /\ (NoDup (map fst tbl) -> NoDup (map fst tbl')).
Proof.
  revert tbl. induction hours as [|h hours IH]; intro tbl; cbn [fold_left].
  - split; [intro k; cbn; lia|auto].
  - destruct (IH (count_add h tbl)) as [Hc Hnd]. split.
    + intro k. rewrite Hc, count_add_count. cbn [count_occ].
      destruct (Nat.eqb_spec k h) as [->|Hkh].
      * destruct (Nat.eq_dec h h); [lia|congruence].
      * destruct (Nat.eq_dec h k); [congruence|lia].
    + intro H. apply Hnd. now apply count_add_nodup.
Qed.

Lemma hour_find_in_nodup (tbl : list (nat * nat)) (e : nat * nat) :
  NoDup (map fst tbl) -> In e tbl ->
  find (fun x => Nat.eqb (fst x) (fst e)) tbl = Some e.
Proof.
  induction tbl as [|x tbl IH]; [intros _ []|].
  intros Hnd Hin. inversion Hnd as [|? ? Hnotin Hnd']; subst.
  cbn [find]. destruct Hin as [->|Hin].
  - now rewrite Nat.eqb_refl.
  - destruct (Nat.eqb_spec (fst x) (fst e)) as [E|_].
    + exfalso. apply Hnotin. rewrite E. now apply in_map.
    + now apply IH.
Qed.

Lemma mapM_length {A B} (f : A -> outcome B) (l : list A) (l' : list B) :
  mapM f l = Returned l' -> List.length l' = List.length l.
Proof.
  revert l'. induction l as [|x l IH]; intros l' H; cbn in H.
  - now injection H as <-.
  - destruct (f x) as [y|e]; cbn in H; [|discriminate].
    destruct (mapM f l) as [ys|e]; cbn in H; [|discriminate].
    injection H as <-. cbn. f_equal. now apply IH.
Qed.

(** X23.  If the timestamp of a trade is not a number, or its hour
    cannot be derived, the time distribution is the empty mapping;
    otherwise, for a non-empty list, most_active_hour is an hour of
    some trade that no other hour exceeds in number of trades. *)
Theorem time_distribution_mode (hour : Q -> outcome nat) (trades : list Trade) :
  (forall e, mapM (trade_hour hour) trades = Raised e ->
             _analyze_time_distribution hour trades = None)
  /\ (forall hours, mapM (trade_hour hour) trades = Returned hours ->
        trades <> [] ->
        exists h,
          _analyze_time_distribution hour trades
          = Some (mkTimeDistribution (Some h))
          /\ In h hours
          /\ forall h', (count_occ Nat.eq_dec hours h'
                         <= count_occ Nat.eq_dec hours h)%nat).
Proof.
  unfold _analyze_time_distribution.
  change (mapM (fun t => ts <- as_num (get_timestamp t) ;; hour (ts / 1000))
               trades)
    with (mapM (trade_hour hour) trades).
  split.
  - intros e H. now rewrite H.
  - intros hours H Hne. rewrite H. cbn [bind try_except].
    pose proof (mapM_length _ _ _ H) as Hlen.
    destruct (value_counts_from hours []) as [Hc Hnd].
    specialize (Hnd (NoDup_nil _)). fold (value_counts hours) in Hc, Hnd.
    assert (forall e, In e (value_counts hours) ->
              snd e = count_occ Nat.eq_dec hours (fst e)) as Hentry.
    { intros e He. pose proof (hour_find_in_nodup _ e Hnd He) as Hf.
      pose proof (Hc (fst e)) as H1. unfold hour_count in H1.
      rewrite Hf in H1. cbn in H1. exact H1. }
    assert (forall k, (0 < count_occ Nat.eq_dec hours k)%nat ->
              exists e, In e (value_counts hours) /\ fst e = k) as Hkey.
    { intros k Hk. pose proof (Hc k) as H1. unfold hour_count in H1.
      destruct (find (fun e => Nat.eqb (fst e) k) (value_counts hours))
        as [e|] eqn:Hf; [|cbn in H1; lia].
      apply find_some in Hf. destruct Hf as [Hin Heq].
      exists e. split; [exact Hin|]. now apply Nat.eqb_eq. }
    destruct hours as [|h0 hours'] eqn:Eh.
    { destruct trades; [congruence|discriminate]. }
    rewrite <- Eh in *.
    destruct (Hkey h0) as [e0 [He0 _]].
    { rewrite Eh. cbn. destruct (Nat.eq_dec h0 h0); [lia|congruence]. }
    destruct (value_counts hours) as [|x tbl] eqn:Ev; [contradiction|].
    cbn [max_by option_map].
    destruct (max_by_from_nat_spec (fun e => snd e) tbl x)
      as (Hin & Hb & Hall).
    set (m := max_by_from _ x tbl) in *.
    exists (fst m). split; [reflexivity|].
    assert (forall e, In e (x :: tbl) -> (snd e <= snd m)%nat) as Hmax.
    { intros e [<-|He]; [exact Hb|now apply Hall]. }
    pose proof (Hentry m Hin) as Hm.
    split.
    + apply (count_occ_In Nat.eq_dec). rewrite <- Hm.
      pose proof (Hmax e0 He0) as H1. pose proof (Hentry e0 He0) as H2.
      destruct (Hkey h0) as [e1 [He1 E1]].
      { rewrite Eh. cbn. destruct (Nat.eq_dec h0 h0); [lia|congruence]. }
      pose proof (Hmax e1 He1) as H3. pose proof (Hentry e1 He1) as H4.
      rewrite E1 in H4.
      assert (0 < count_occ Nat.eq_dec hours h0)%nat as H5.
      { rewrite Eh. cbn. destruct (Nat.eq_dec h0 h0); [lia|congruence]. }
      lia.
    + intro h'. rewrite <- Hm.
      destruct (count_occ Nat.eq_dec hours h') eqn:E; [lia|].
      destruct (Hkey h') as [e [He <-]]; [lia|].
      rewrite <- E, <- (Hentry e He). now apply Hmax.
Qed.

Lemma time_distribution_mode_witness :
  exists h,
    _analyze_time_distribution utc_hour
      [mkTrade (Some "A") None None (Some (PyNum 3600000));
       mkTrade (Some "A") None None (Some (PyNum 7200000));
       mkTrade (Some "A") None None (Some (PyNum 7300000))]
    = Some (mkTimeDistribution (Some h))
    /\ In h [1; 2; 2]%nat.
Proof.
  destruct (time_distribution_mode utc_hour
              [mkTrade (Some "A") None None (Some (PyNum 3600000));
               mkTrade (Some "A") None None (Some (PyNum 7200000));
               mkTrade (Some "A") None None (Some (PyNum 7300000))])
    as [_ H].
  destruct (H [1; 2; 2]%nat) as [h (Hr & Hin & _)].
  - vm_compute. reflexivity.
  - discriminate.
  - exists h. split; [exact Hr|exact Hin].
Defined.

(** ** Sharpe ratio: degenerate samples and the order of trades *)

Lemma np_mean_const (l : list Q) (e : Q) :
  l <> [] -> Forall (fun x => x == e) l -> np_mean l == e.
Proof.
  intros Hne H.
  destruct (np_mean_between l e e Hne) as [H1 H2].
  - eapply Forall_impl; [|exact H]. intros x Hx. cbv beta in Hx.
    rewrite Hx. split; apply Qle_refl.
  - now apply Qle_antisym.
Qed.

Lemma np_mul_inf_pos (s : Q) :
  0 < s -> np_mul PInf (Fin s) = PInf /\ np_mul NInf (Fin s) = NInf.
Proof.
  intro H. unfold np_mul. cbn [np_sign]. unfold Qsign.
  rewrite (proj1 (Qlt_alt _ _) H). split; reflexivity.
Qed.

Lemma sqrt_12_zero (v : Q) : v == 0 -> sqrt_12 v == 0.
Proof.
  intro H. unfold sqrt_12.
  assert (Qnum v = 0%Z) as Hn.
  { unfold Qeq in H. cbn in H. lia. }
  rewrite Hn. reflexivity.
Qed.

Lemma Qsum_perm (l l' : list Q) : Permutation l l' -> Qsum l == Qsum l'.
Proof.
  induction 1 as [|x l l' _ IH|x y l|l l' l'' _ IH1 _ IH2].
  - reflexivity.
  - rewrite !Qsum_cons, IH. reflexivity.
  - rewrite !Qsum_cons. ring.
  - now rewrite IH1.
Qed.

Lemma Qsum_map_ext {A} (f g : A -> Q) (l : list A) :
  (forall x, f x == g x) -> Qsum (map f l) == Qsum (map g l).
Proof.
  intro Hfg. induction l as [|z l IH]; [reflexivity|].
  cbn [map]. rewrite !Qsum_cons, IH, Hfg. reflexivity.
Qed.

Lemma Qsum_map_perm {A} (f g : A -> Q) (l l' : list A) :
  Permutation l l' -> (forall x, f x == g x) ->
  Qsum (map f l) == Qsum (map g l').
Proof.
  intros Hp Hfg.
  rewrite (Qsum_perm _ _ (Permutation_map f Hp)).
  now apply Qsum_map_ext.
Qed.

Lemma filter_perm {A} (f : A -> bool) (l l' : list A) :
  Permutation l l' -> Permutation (filter f l) (filter f l').
Proof.
  induction 1 as [|x l l' _ IH|x y l|l l' l'' _ IH1 _ IH2].
  - apply perm_nil.
  - cbn. destruct (f x); [now apply perm_skip|exact IH].
  - cbn. destruct (f x), (f y);
      try apply perm_swap; apply Permutation_refl.
  - now apply perm_trans with (filter f l').
Qed.

Lemma Qlen_perm {A} (l l' : list A) : Permutation l l' -> Qlen l = Qlen l'.
Proof.
  intro H. unfold Qlen. now rewrite (Permutation_length H).
Qed.

Lemma nonempty_perm {A} (l l' : list A) :
  Permutation l l' -> nonempty l = nonempty l'.
Proof.
  intro H. pose proof (Permutation_length H) as E.
  destruct l, l'; cbn in *; try reflexivity; discriminate.
Qed.

Lemma py_max_perm (l l' : list Q) (d : Q) :
  Permutation l l' -> py_max l d == py_max l' d.
Proof.
  intro H. destruct l as [|x l].
  - apply Permutation_nil in H. subst. reflexivity.
  - assert (l' <> []) as Hne'.
    { intro E. subst. apply Permutation_sym, Permutation_nil in H.
      discriminate. }
    destruct (py_max_spec (x :: l) d) as [Hin Hmax]; [discriminate|].
    destruct (py_max_spec l' d Hne') as [Hin' Hmax'].
    apply Qle_antisym.
    + apply Hmax'. now apply (Permutation_in _ H).
    + apply Hmax. now apply (Permutation_in _ (Permutation_sym H)).
Qed.

Lemma py_min_perm (l l' : list Q) (d : Q) :
  Permutation l l' -> py_min l d == py_min l' d.
Proof.
  intro H. destruct l as [|x l].
  - apply Permutation_nil in H. subst. reflexivity.
  - assert (l' <> []) as Hne'.
    { intro E. subst. apply Permutation_sym, Permutation_nil in H.
      discriminate. }
    destruct (py_min_spec (x :: l) d) as [Hin Hmin]; [discriminate|].
    destruct (py_min_spec l' d Hne') as [Hin' Hmin'].
    apply Qle_antisym.
    + apply Hmin. now apply (Permutation_in _ (Permutation_sym H)).
    + apply Hmin'. now apply (Permutation_in _ H).
Qed.

Lemma np_div_same (a a' b b' : Q) :
  a == a' -> b == b' ->
  np_same (np_div (Fin a) (Fin b)) (np_div (Fin a') (Fin b')).
Proof.
  intros Ha Hb. unfold np_div, Qsign.
  rewrite Hb.
  destruct (Qeq_bool b' 0).
  - rewrite Ha. destruct (0 ?= a'); exact I.
  - cbn. now rewrite Ha, Hb.
Qed.

Lemma np_mul_same (x x' : npfloat) (s : Q) :
  np_same x x' -> np_same (np_mul x (Fin s)) (np_mul x' (Fin s)).
Proof.
  destruct x as [a| | |], x' as [a'| | |]; cbn [np_same]; try contradiction.
  - intro H. cbn. now rewrite H.
  - intros _. destruct (np_mul PInf (Fin s)); cbn; try exact I.
    apply Qeq_refl.
  - intros _. destruct (np_mul NInf (Fin s)); cbn; try exact I.
    apply Qeq_refl.
  - intros _. exact I.
Qed.

Lemma sharpe_ratio_perm (sqrt : Q -> Q) (l l' : list Q) :
  (forall x y, x == y -> sqrt x == sqrt y) ->
  Permutation l l' ->
  np_same (_calculate_sharpe_ratio sqrt l) (_calculate_sharpe_ratio sqrt l').
Proof.
  intros Hsqrt Hp.
  unfold _calculate_sharpe_ratio, _calculate_sharpe_ratio_rf.
  rewrite <- (nonempty_perm _ _ Hp).
  destruct (nonempty l); cbn [negb]; [|apply Qeq_refl].
  rewrite !length_map, <- (Permutation_length Hp).
  destruct (List.length l <? 2)%nat; [apply Qeq_refl|].
  set (f := fun r : Q => r - (2 # 100) / 252).
  assert (Permutation (map f l) (map f l')) as Hpe
    by now apply Permutation_map.
  assert (np_mean (map f l) == np_mean (map f l')) as Hmean.
  { unfold np_mean. now rewrite (Qsum_perm _ _ Hpe), (Qlen_perm _ _ Hpe). }
  apply np_mul_same. apply np_div_same; [exact Hmean|].
  unfold np_std. apply Hsqrt. unfold np_var, np_mean.
  rewrite (Qsum_map_perm
             (fun x => (x - Qsum (map f l) / Qlen (map f l))
                       * (x - Qsum (map f l) / Qlen (map f l)))
             (fun x => (x - Qsum (map f l') / Qlen (map f l'))
                       * (x - Qsum (map f l') / Qlen (map f l')))
             _ _ Hpe).
  - unfold Qlen. now rewrite !length_map, (Permutation_length Hp).
  - intro x. unfold np_mean in Hmean. now rewrite Hmean.
Qed.

Lemma sqrt_12_red_proper (x y : Q) : x == y -> sqrt_12_red x == sqrt_12_red y.
Proof.
  intro H. unfold sqrt_12_red. now rewrite (Qred_complete x y H).
Qed.

(** ** Signs of the gross figures *)

Section GrossFiguresPy.
Import AddressAnalysisPy SpecPy.
Variable sharpe_of_array : ndarray -> npfloat.
Variable wide_sharpe_ratio : list pynum -> outcome npfloat.
Variable wide_max_drawdown : list pynum -> outcome pynum.
Variable hour : Q -> outcome nat.

Lemma is_binary64_1 : is_binary64 1.
Proof.
  apply (is_binary64_eq (2 ^ 0)); [reflexivity|]. apply is_binary64_pow2. lia.
Qed.

Lemma max_by_from_in {A} (gt : A -> A -> bool) (l : list A) (best : A) :
  In (max_by_from gt best l) (best :: l).
Proof.
  revert best. induction l as [|y l IH]; intro best; cbn [max_by_from].
  - now left.
  - destruct (IH (if gt y best then y else best)) as [E|E].
    + rewrite <- E. destruct (gt y best); [right; now left|now left].
    + right. now right.
Qed.

(** [float(z)] keeps the sign of [z]. *)
Lemma to_float_int_sign (z : Z) (x : npfloat) :
  to_float (PyInt z) = Returned x ->
  exists q, x = Fin q
            /\ ((0 <= z)%Z -> 0 <= q) /\ ((0 < z)%Z -> 1 <= q)
            /\ ((z <= 0)%Z -> q <= 0) /\ ((z < 0)%Z -> q <= - (1)).
Proof.
  unfold to_float. intro E.
  destruct (round64 (inject_Z z)) as [q| | |] eqn:R; try discriminate.
  injection E as <-. exists q. split; [reflexivity|].
  assert (is_binary64 (- (1))) as Bm1 by (apply is_binary64_opp, is_binary64_1).
  repeat split; intro Hz.
  - pose proof (round64_ge_bound (inject_Z z) 0) as G.
    rewrite R in G. simpl in G. apply Qle_bool_iff, G; [|apply is_binary64_0].
    change 0 with (inject_Z 0). rewrite <- Zle_Qle. exact Hz.
  - pose proof (round64_ge_bound (inject_Z z) 1) as G.
    rewrite R in G. simpl in G. apply Qle_bool_iff, G; [|apply is_binary64_1].
    change 1 with (inject_Z 1). rewrite <- Zle_Qle. lia.
  - pose proof (round64_le_bound (inject_Z z) 0) as G.
    rewrite R in G. simpl in G. apply Qle_bool_iff, G; [|apply is_binary64_0].
    change 0 with (inject_Z 0). rewrite <- Zle_Qle. exact Hz.
  - pose proof (round64_le_bound (inject_Z z) (- (1))) as G.
    rewrite R in G. simpl in G. apply Qle_bool_iff, G; [|exact Bm1].
    change (- (1)) with (inject_Z (-1)). rewrite <- Zle_Qle. lia.
Qed.


Lemma f64_add_pos (a x : npfloat) (b : Q) :
  np_leb (Fin 0) a = true -> np_leb (Fin b) x = true ->
  0 < b -> is_binary64 b ->
  np_ltb (Fin 0) (f64_add a x) = true.
Proof.
  intros Ha Hx Hb Bb.
  destruct a as [qa| | |]; try discriminate;
    destruct x as [q| | |]; try discriminate; try reflexivity.
  simpl in Ha, Hx. apply Qle_bool_iff in Ha, Hx.
  unfold f64_add. simpl.
  apply (np_ltb_leb_trans (Fin 0) (Fin b)).
  - simpl. now apply Qlt_bool_iff.
  - apply round64_ge_bound; [lra|exact Bb].
Qed.

Lemma f64_add_neg (a x : npfloat) (b : Q) :
  np_leb a (Fin 0) = true -> np_leb x (Fin b) = true ->
  b < 0 -> is_binary64 b ->
  np_ltb (f64_add a x) (Fin 0) = true.
Proof.
  intros Ha Hx Hb Bb.
  destruct a as [qa| | |]; try discriminate;
    destruct x as [q| | |]; try discriminate; try reflexivity.
  simpl in Ha, Hx. apply Qle_bool_iff in Ha, Hx.
  unfold f64_add. simpl.
  apply (np_leb_ltb_trans _ (Fin b)).
  - apply round64_le_bound; [lra|exact Bb].
  - simpl. now apply Qlt_bool_iff.
Qed.

(** A positive double, or a positive integer converted to a double, is
    at least some positive double. *)
Lemma pos_number_bound (x : pynum) (fx : npfloat) :
  to_float x = Returned fx ->
  np_ltb (Fin 0) (num_val x) = true -> double_number x ->
  exists b, 0 < b /\ is_binary64 b /\ np_leb (Fin b) fx = true.
Proof.
  intros E Hp Hd. destruct x as [z|f].
  - destruct (to_float_int_sign z fx E) as [q [-> [_ [H1 _]]]].
    simpl in Hp. apply Qlt_bool_iff in Hp.
    change 0 with (inject_Z 0) in Hp. rewrite <- Zlt_Qlt in Hp.
    exists 1. split; [reflexivity|]. split; [apply is_binary64_1|].
    simpl. apply Qle_bool_iff. now apply H1.
  - simpl in E. injection E as <-. simpl in Hp.
    destruct f as [q| | |]; try discriminate.
    + simpl in Hp. apply Qlt_bool_iff in Hp.
      exists q. split; [exact Hp|]. split; [exact Hd|].
      simpl. apply Qle_bool_iff, Qle_refl.
    + exists 1. split; [reflexivity|]. split; [apply is_binary64_1|reflexivity].
Qed.

Lemma neg_number_bound (x : pynum) (fx : npfloat) :
  to_float x = Returned fx ->
  np_ltb (num_val x) (Fin 0) = true -> double_number x ->
  exists b, b < 0 /\ is_binary64 b /\ np_leb fx (Fin b) = true.
Proof.
  intros E Hp Hd. destruct x as [z|f].
  - destruct (to_float_int_sign z fx E) as [q [-> [_ [_ [_ H1]]]]].
    simpl in Hp. apply Qlt_bool_iff in Hp.
    change 0 with (inject_Z 0) in Hp. rewrite <- Zlt_Qlt in Hp.
    exists (- (1)). split; [reflexivity|].
    split; [apply is_binary64_opp, is_binary64_1|].
    simpl. apply Qle_bool_iff. now apply H1.
  - simpl in E. injection E as <-. simpl in Hp.
    destruct f as [q| | |]; try discriminate.
    + simpl in Hp. apply Qlt_bool_iff in Hp.
      exists q. split; [exact Hp|]. split; [exact Hd|].
      simpl. apply Qle_bool_iff, Qle_refl.
    + exists (- (1)). split; [reflexivity|].
      split; [apply is_binary64_opp, is_binary64_1|reflexivity].
Qed.

Lemma nonneg_number_float (x : pynum) (fx : npfloat) :
  to_float x = Returned fx ->
  np_leb (Fin 0) (num_val x) = true -> np_leb (Fin 0) fx = true.
Proof.
  intros E Hp. destruct x as [z|f].
  - destruct (to_float_int_sign z fx E) as [q [-> [H0 _]]].
    simpl in Hp. apply Qle_bool_iff in Hp.
    change 0 with (inject_Z 0) in Hp. rewrite <- Zle_Qle in Hp.
    simpl. apply Qle_bool_iff. now apply H0.
  - simpl in E. now injection E as <-.
Qed.

Lemma nonpos_number_float (x : pynum) (fx : npfloat) :
  to_float x = Returned fx ->
  np_leb (num_val x) (Fin 0) = true -> np_leb fx (Fin 0) = true.
Proof.
  intros E Hp. destruct x as [z|f].
  - destruct (to_float_int_sign z fx E) as [q [-> [_ [_ [H0 _]]]]].
    simpl in Hp. apply Qle_bool_iff in Hp.
    change 0 with (inject_Z 0) in Hp. rewrite <- Zle_Qle in Hp.
    simpl. apply Qle_bool_iff. now apply H0.
  - simpl in E. now injection E as <-.
Qed.

(** Adding a positive number to a non-negative sum gives a positive
    sum; rounding cannot bring it down to 0. *)
Lemma py_add_pos (acc x s : pynum) :
  py_add acc x = Returned s ->
  np_leb (Fin 0) (num_val acc) = true ->
  np_ltb (Fin 0) (num_val x) = true -> double_number x ->
  np_ltb (Fin 0) (num_val s) = true.
Proof.
  intros E Ha Hx Hd.
  assert (forall fa fx,
            to_float acc = Returned fa -> to_float x = Returned fx ->
            np_ltb (Fin 0) (f64_add fa fx) = true) as Hf.
  { intros fa fx Ea Ex.
    destruct (pos_number_bound x fx Ex Hx Hd) as [b [Hb [Bb Hle]]].
    apply (f64_add_pos fa fx b); try assumption.
    now apply (nonneg_number_float acc). }
  destruct acc as [za|fa], x as [zx|fx];
    try (unfold py_add in E;
         destruct (to_float _) as [pa|] eqn:Ea in E; [|discriminate];
         cbn [bind] in E;
         destruct (to_float _) as [px|] eqn:Ex in E; [|discriminate];
         cbn [bind] in E; injection E as <-; simpl; now apply Hf).
  injection E as <-. simpl in *.
  apply Qle_bool_iff in Ha. apply Qlt_bool_iff in Hx. apply Qlt_bool_iff.
  change 0 with (inject_Z 0) in *. rewrite <- Zle_Qle in Ha.
  rewrite <- Zlt_Qlt in Hx. rewrite <- Zlt_Qlt. lia.
Qed.

Lemma py_add_neg (acc x s : pynum) :
  py_add acc x = Returned s ->
  np_leb (num_val acc) (Fin 0) = true ->
  np_ltb (num_val x) (Fin 0) = true -> double_number x ->
  np_ltb (num_val s) (Fin 0) = true.
Proof.
  intros E Ha Hx Hd.
  assert (forall fa fx,
            to_float acc = Returned fa -> to_float x = Returned fx ->
            np_ltb (f64_add fa fx) (Fin 0) = true) as Hf.
  { intros fa fx Ea Ex.
    destruct (neg_number_bound x fx Ex Hx Hd) as [b [Hb [Bb Hle]]].
    apply (f64_add_neg fa fx b); try assumption.
    now apply (nonpos_number_float acc). }
  destruct acc as [za|fa], x as [zx|fx];
    try (unfold py_add in E;
         destruct (to_float _) as [pa|] eqn:Ea in E; [|discriminate];
         cbn [bind] in E;
         destruct (to_float _) as [px|] eqn:Ex in E; [|discriminate];
         cbn [bind] in E; injection E as <-; simpl; now apply Hf).
  injection E as <-. simpl in *.
  apply Qle_bool_iff in Ha. apply Qlt_bool_iff in Hx. apply Qlt_bool_iff.
  change 0 with (inject_Z 0) in *. rewrite <- Zle_Qle in Ha.
  rewrite <- Zlt_Qlt in Hx. rewrite <- Zlt_Qlt. lia.
Qed.

Lemma py_sum_from_pos (l : list pynum) (acc s : pynum) :
  py_sum_from acc l = Returned s ->
  np_ltb (Fin 0) (num_val acc) = true ->
  Forall (fun x => np_ltb (Fin 0) (num_val x) = true /\ double_number x) l ->
  np_ltb (Fin 0) (num_val s) = true.
Proof.
  revert acc. induction l as [|x l IH]; intros acc E Ha Hl.
  - now injection E as <-.
  - cbn [py_sum_from] in E.
    destruct (py_add acc x) as [s'|] eqn:Es; [|discriminate].
    cbn [bind] in E. inversion Hl as [|? ? [Hx Hd] Hl']; subst.
    apply (IH s' E); [|exact Hl'].
    apply (py_add_pos acc x s' Es); [now apply np_ltb_leb|exact Hx|exact Hd].
Qed.

Lemma py_sum_from_neg (l : list pynum) (acc s : pynum) :
  py_sum_from acc l = Returned s ->
  np_ltb (num_val acc) (Fin 0) = true ->
  Forall (fun x => np_ltb (num_val x) (Fin 0) = true /\ double_number x) l ->
  np_ltb (num_val s) (Fin 0) = true.
Proof.
  revert acc. induction l as [|x l IH]; intros acc E Ha Hl.
  - now injection E as <-.
  - cbn [py_sum_from] in E.
    destruct (py_add acc x) as [s'|] eqn:Es; [|discriminate].
    cbn [bind] in E. inversion Hl as [|? ? [Hx Hd] Hl']; subst.
    apply (IH s' E); [|exact Hl'].
    apply (py_add_neg acc x s' Es); [now apply np_ltb_leb|exact Hx|exact Hd].
Qed.

(** The sum of positive numbers is positive, and 0 for none. *)
Lemma py_sum_pos (l : list pynum) (s : pynum) :
  py_sum l = Returned s ->
  Forall (fun x => np_ltb (Fin 0) (num_val x) = true /\ double_number x) l ->
  (l = [] /\ s = PyInt 0)
  \/ (l <> [] /\ np_ltb (Fin 0) (num_val s) = true).
Proof.
  intros E Hl. destruct l as [|x l].
  - left. split; [reflexivity|]. now injection E as <-.
  - right. split; [discriminate|].
    unfold py_sum in E. cbn [py_sum_from] in E.
    destruct (py_add (PyInt 0) x) as [s'|] eqn:Es; [|discriminate].
    cbn [bind] in E. inversion Hl as [|? ? [Hx Hd] Hl']; subst.
    apply (py_sum_from_pos l s' s E); [|exact Hl'].
    now apply (py_add_pos (PyInt 0) x s' Es).
Qed.

Lemma py_sum_neg (l : list pynum) (s : pynum) :
  py_sum l = Returned s ->
  Forall (fun x => np_ltb (num_val x) (Fin 0) = true /\ double_number x) l ->
  (l = [] /\ s = PyInt 0)
  \/ (l <> [] /\ np_ltb (num_val s) (Fin 0) = true).
Proof.
  intros E Hl. destruct l as [|x l].
  - left. split; [reflexivity|]. now injection E as <-.
  - right. split; [discriminate|].
    unfold py_sum in E. cbn [py_sum_from] in E.
    destruct (py_add (PyInt 0) x) as [s'|] eqn:Es; [|discriminate].
    cbn [bind] in E. inversion Hl as [|? ? [Hx Hd] Hl']; subst.
    apply (py_sum_from_neg l s' s E); [|exact Hl'].
    now apply (py_add_neg (PyInt 0) x s' Es).
Qed.


(** An average has the sign of the sum. *)
Lemma f64_div_nonneg (a : npfloat) (n : Q) :
  np_leb (Fin 0) a = true -> 0 < n ->
  np_leb (Fin 0) (f64_div a (Fin n)) = true.
Proof.
  intros Ha Hn. destruct a as [qa| | |]; try discriminate.
  - simpl in Ha. apply Qle_bool_iff in Ha.
    unfold f64_div. rewrite np_div_fin by (intro C; lra). simpl.
    apply round64_ge_bound; [|apply is_binary64_0].
    apply Qle_shift_div_l; lra.
  - unfold f64_div. now rewrite (proj1 (proj1 (np_div_inf n) Hn)).
Qed.

Lemma f64_div_nonpos (a : npfloat) (n : Q) :
  np_leb a (Fin 0) = true -> 0 < n ->
  np_leb (f64_div a (Fin n)) (Fin 0) = true.
Proof.
  intros Ha Hn. destruct a as [qa| | |]; try discriminate.
  - simpl in Ha. apply Qle_bool_iff in Ha.
    unfold f64_div. rewrite np_div_fin by (intro C; lra). simpl.
    apply round64_le_bound; [|apply is_binary64_0].
    apply Qle_shift_div_r; lra.
  - unfold f64_div. now rewrite (proj2 (proj1 (np_div_inf n) Hn)).
Qed.

Lemma py_truediv_count_sign (tp q : pynum) (n : Z) :
  (0 < n)%Z ->
  py_truediv tp (PyInt n) = Returned q ->
  (np_leb (Fin 0) (num_val tp) = true -> np_leb (Fin 0) (num_val q) = true)
  /\ (np_leb (num_val tp) (Fin 0) = true -> np_leb (num_val q) (Fin 0) = true).
Proof.
  intros Hn E.
  assert (0 < inject_Z n) as Pn.
  { change 0 with (inject_Z 0). rewrite <- Zlt_Qlt. exact Hn. }
  destruct tp as [z|f].
  - unfold py_truediv in E.
    destruct (n =? 0)%Z; [discriminate|].
    destruct (round64 (inject_Z z / inject_Z n)) as [v| | |] eqn:R; try discriminate.
    injection E as <-. simpl. split; intro H; apply Qle_bool_iff in H.
    + pose proof (round64_ge_bound (inject_Z z / inject_Z n) 0) as G.
      rewrite R in G. apply G; [|apply is_binary64_0].
      apply Qle_shift_div_l; lra.
    + pose proof (round64_le_bound (inject_Z z / inject_Z n) 0) as G.
      rewrite R in G. apply G; [|apply is_binary64_0].
      apply Qle_shift_div_r; lra.
  - unfold py_truediv in E. cbn [to_float bind] in E.
    destruct (match round64 (inject_Z n) with
              | Fin q0 => Returned (Fin q0) | _ => Raised OverflowError end)
      as [fn|] eqn:En; [|discriminate].
    cbn [bind] in E.
    destruct (to_float_int_sign n fn En) as [qn [-> [_ [H1 _]]]].
    specialize (H1 Hn).
    destruct (np_eqb (Fin qn) (Fin 0)); [discriminate|].
    injection E as <-. simpl. split; intro H.
    + apply f64_div_nonneg; [exact H|lra].
    + apply f64_div_nonpos; [exact H|lra].
Qed.

Lemma winners_positive (ts : list TradeDict) :
  Forall machine_profit ts -> Forall double_profit ts ->
  Forall (fun x => np_ltb (Fin 0) (num_val x) = true /\ double_number x)
    (map number_of (winning ts)).
Proof.
  intros Hm Hd. apply Forall_map, Forall_forall. intros t Ht.
  apply filter_In in Ht. destruct Ht as [Hin Hgt].
  destruct (machine_profit_number t (proj1 (Forall_forall _ _) Hm t Hin))
    as [_ [_ V]].
  split; [now rewrite <- V|].
  exact (proj1 (Forall_forall _ _) Hd t Hin).
Qed.

Lemma losers_negative (ts : list TradeDict) :
  Forall machine_profit ts -> Forall double_profit ts ->
  Forall (fun x => np_ltb (num_val x) (Fin 0) = true /\ double_number x)
    (map number_of (losing ts)).
Proof.
  intros Hm Hd. apply Forall_map, Forall_forall. intros t Ht.
  apply filter_In in Ht. destruct Ht as [Hin Hlt].
  destruct (machine_profit_number t (proj1 (Forall_forall _ _) Hm t Hin))
    as [_ [_ V]].
  split; [now rewrite <- V|].
  exact (proj1 (Forall_forall _ _) Hd t Hin).
Qed.

Lemma np_gtb_not_eqb (x : npfloat) :
  np_ltb (Fin 0) x = true -> np_eqb x (Fin 0) = false.
Proof.
  destruct x as [q| | |]; try reflexivity; try discriminate.
  unfold np_ltb, np_eqb. intro H. apply Qlt_bool_iff in H.
  apply Qeq_bool_false. intro C. rewrite C in H. exact (Qlt_irrefl _ H).
Qed.

(** X1.  For a list of dictionaries in which the trades of an address
    are not empty and carry doubles or 64-bit integers as profits,
    [analyze_trades] returns a result with total_loss <= 0 <=
    total_profit, avg_loss <= 0 <= avg_profit and max_loss <= 0 <=
    max_profit; total_profit is 0 exactly when no trade of the address
    wins and total_loss is 0 exactly when none loses. *)
Theorem gross_figures_signs (trades : list record) (a : string) :
  Forall is_dict trades ->
  address_trades trades a <> [] ->
  Forall machine_profit (address_trades trades a) ->
  Forall double_profit (address_trades trades a) ->
  (Z.of_nat (List.length (address_trades trades a)) < 2 ^ 63)%Z ->
  exists r,
    analyze_trades sharpe_of_array wide_sharpe_ratio wide_max_drawdown hour
      trades a = Returned (Some r)
    /\ np_leb (num_val (total_loss r)) (Fin 0) = true
    /\ np_leb (Fin 0) (num_val (total_profit r)) = true
    /\ np_leb (num_val (avg_loss r)) (Fin 0) = true
    /\ np_leb (Fin 0) (num_val (avg_profit r)) = true
    /\ np_leb (num_val (max_loss r)) (Fin 0) = true
    /\ np_leb (Fin 0) (num_val (max_profit r)) = true
    /\ (py_eq (total_profit r) (PyInt 0) = true
        <-> winning (address_trades trades a) = [])
    /\ (py_eq (total_loss r) (PyInt 0) = true
        <-> losing (address_trades trades a) = []).
Proof.
  intros Hd Hne Hm Hdb Hlen.
  destruct (analyze_trades_machine sharpe_of_array wide_sharpe_ratio
              wide_max_drawdown hour trades a Hd Hne Hm Hlen)
    as (r & tp & tl & v & E & _ & _ & _ & _ & _ & Etp & Rtp & Etl & Rtl
        & _ & _ & Mp & Ml & _ & Ap & Al).
  set (ats := address_trades trades a) in *.
  pose proof (winners_positive ats Hm Hdb) as HW.
  pose proof (losers_negative ats Hm Hdb) as HL.
  exists r. split; [exact E|]. rewrite Rtp, Rtl, Mp, Ml.
  assert (np_leb (Fin 0) (num_val tp) = true
          /\ (py_eq tp (PyInt 0) = true <-> winning ats = [])) as [Ptp Ztp].
  { destruct (py_sum_pos _ tp Etp HW) as [[E0 ->]|[N0 P]].
    - split; [reflexivity|]. split; [intros _|reflexivity].
      now apply map_eq_nil in E0.
    - split; [now apply np_ltb_leb|]. split.
      + intro C.
        assert (py_eq tp (PyInt 0) = false) as K by exact (np_gtb_not_eqb _ P).
        congruence.
      + intro C. rewrite C in N0. now contradiction N0. }
  assert (np_leb (num_val tl) (Fin 0) = true
          /\ (py_eq tl (PyInt 0) = true <-> losing ats = [])) as [Ptl Ztl].
  { destruct (py_sum_neg _ tl Etl HL) as [[E0 ->]|[N0 P]].
    - split; [reflexivity|]. split; [intros _|reflexivity].
      now apply map_eq_nil in E0.
    - split; [now apply np_ltb_leb|]. split.
      + intro C.
        assert (py_eq tl (PyInt 0) = false) as K by exact (np_ltb_not_eqb _ P).
        congruence.
      + intro C. rewrite C in N0. now contradiction N0. }
  split; [exact Ptl|]. split; [exact Ptp|].
  split.
  { destruct (losing ats) as [|t0 ls] eqn:EL; cbn [nonempty] in Al.
    - injection Al as <-. reflexivity.
    - assert (0 < Z.of_nat (List.length (t0 :: ls)))%Z as Hn
        by (cbn [List.length]; lia).
      exact (proj2 (py_truediv_count_sign tl _ _ Hn Al) Ptl). }
  split.
  { destruct (winning ats) as [|t0 ws] eqn:EW; cbn [nonempty] in Ap.
    - injection Ap as <-. reflexivity.
    - assert (0 < Z.of_nat (List.length (t0 :: ws)))%Z as Hn
        by (cbn [List.length]; lia).
      exact (proj1 (py_truediv_count_sign tp _ _ Hn Ap) Ptp). }
  split.
  { unfold py_min, max_by.
    destruct (map number_of (losing ats)) as [|x l] eqn:EL; [reflexivity|].
    pose proof (max_by_from_in (fun x0 best => py_lt x0 best) l x) as Hin.
    apply np_ltb_leb.
    exact (proj1 (proj1 (Forall_forall _ _) HL _ Hin)). }
  split.
  { unfold py_max, max_by.
    destruct (map number_of (winning ats)) as [|x l] eqn:EW; [reflexivity|].
    pose proof (max_by_from_in (fun x0 best => py_gt x0 best) l x) as Hin.
    apply np_ltb_leb.
    exact (proj1 (proj1 (Forall_forall _ _) HW _ Hin)). }
  split; assumption.
Qed.

End GrossFiguresPy.

Lemma gross_figures_signs_witness :
  let trades := [SpecPy.float_trade "A" (Fin (1 # 2)); SpecPy.int_trade "A" (-3);
                 SpecPy.int_trade "B" 7; SpecPy.float_trade "A" (Fin (1 # 4))] in
  exists r,
    AddressAnalysisPy.analyze_trades SpecPy.sharpe_exact
      SpecPy.wide_sharpe_raises SpecPy.wide_drawdown_raises utc_hour
      trades "A" = Returned (Some r)
    /\ np_leb (AddressAnalysisPy.num_val (AddressAnalysisPy.avg_loss r)) (Fin 0)
       = true
    /\ np_leb (Fin 0) (AddressAnalysisPy.num_val (AddressAnalysisPy.avg_profit r))
       = true.
Proof.
  destruct (gross_figures_signs SpecPy.sharpe_exact
              SpecPy.wide_sharpe_raises SpecPy.wide_drawdown_raises utc_hour
              [SpecPy.float_trade "A" (Fin (1 # 2)); SpecPy.int_trade "A" (-3);
               SpecPy.int_trade "B" 7; SpecPy.float_trade "A" (Fin (1 # 4))] "A")
    as (r & E & _ & _ & H3 & H4 & _).
  - repeat constructor; eexists; reflexivity.
  - discriminate.
  - repeat constructor; eexists; (split; [reflexivity|]); reflexivity.
  - repeat constructor.
    + exists 1%Z, (-1)%Z. split; [reflexivity|]. split; [lia|]. reflexivity.
    + exists 1%Z, (-2)%Z. split; [reflexivity|]. split; [lia|]. reflexivity.
  - reflexivity.
  - exists r. split; [exact E|]. split; [exact H3|exact H4].
Defined.

(** In double precision the average of the winning profits can exceed
    the largest of them: for three profits of 0.1 the sum is
    0.30000000000000004 and its third is 0.10000000000000002. *)
Lemma avg_profit_exceeds_max_profit :
  exists r,
    AddressAnalysisPy.analyze_trades SpecPy.sharpe_exact
      SpecPy.wide_sharpe_raises SpecPy.wide_drawdown_raises utc_hour
      [SpecPy.float_trade "A" (Fin (3602879701896397 # 36028797018963968));
       SpecPy.float_trade "A" (Fin (3602879701896397 # 36028797018963968));
       SpecPy.float_trade "A" (Fin (3602879701896397 # 36028797018963968))] "A"
    = Returned (Some r)
    /\ AddressAnalysisPy.py_gt (AddressAnalysisPy.avg_profit r)
         (AddressAnalysisPy.max_profit r) = true.
Proof.
  eexists. split; [vm_compute; reflexivity|]. vm_compute. reflexivity.
Qed.

(** ** The profit factor is not negative *)

Section ProfitFactorSignPy.
Import AddressAnalysisPy SpecPy.
Variable sharpe_of_array : ndarray -> npfloat.
Variable wide_sharpe_ratio : list pynum -> outcome npfloat.
Variable wide_max_drawdown : list pynum -> outcome pynum.
Variable hour : Q -> outcome nat.

Lemma np_abs_nan_or_nonneg (x : npfloat) :
  np_abs x = NaN \/ np_leb (Fin 0) (np_abs x) = true.
Proof.
  destruct x as [q| | |]; [right|right|right|left]; try reflexivity.
  simpl. apply Qle_bool_iff, Qabs_nonneg.
Qed.

(** X2.  The profit factor of a result on machine numbers is never
    negative: it is NaN or at least 0.  When the address has fewer than
    [2 ^ 53] trades, each with a profit that is 0 or of magnitude
    between [2 ^ -480] and [2 ^ 480], it is +infinity if no trade loses
    and a finite double that is not negative otherwise. *)
Theorem profit_factor_not_negative (trades : list record) (a : string) :
  Forall is_dict trades ->
  address_trades trades a <> [] ->
  Forall machine_profit (address_trades trades a) ->
  (Z.of_nat (List.length (address_trades trades a)) < 2 ^ 63)%Z ->
  exists r,
    analyze_trades sharpe_of_array wide_sharpe_ratio wide_max_drawdown hour
      trades a = Returned (Some r)
    /\ (num_val (profit_factor r) = NaN
        \/ np_leb (Fin 0) (num_val (profit_factor r)) = true)
    /\ (Forall moderate_profit (address_trades trades a) ->
        (Z.of_nat (List.length (address_trades trades a)) < 2 ^ 53)%Z ->
        (losing (address_trades trades a) = [] ->
         num_val (profit_factor r) = PInf)
        /\ (losing (address_trades trades a) <> [] ->
            exists q, num_val (profit_factor r) = Fin q
                      /\ 0 <= q /\ is_binary64 q)).
Proof.
  intros Hd Hne Hm Hlen.
  destruct (analyze_trades_machine sharpe_of_array wide_sharpe_ratio
              wide_max_drawdown hour trades a Hd Hne Hm Hlen)
    as (r & tp & tl & v & E & T & _ & _ & _ & _ & Etp & Rtp & Etl & Rtl
        & PF1 & PF2 & _).
  set (ats := address_trades trades a) in *.
  exists r. split; [exact E|]. split.
  - destruct (py_eq tl (PyInt 0)) eqn:H0.
    + right. now rewrite (PF1 eq_refl).
    + destruct (PF2 eq_refl) as [q [_ ->]]. apply np_abs_nan_or_nonneg.
  - intros Hmod Hn. split.
    + intro EL. rewrite EL in Etl. cbn in Etl. injection Etl as <-.
      now rewrite (PF1 eq_refl).
    + intro NL.
      pose proof (filter_length_le (fun t => np_gtb (profit_of t) (Fin 0)) ats) as LW.
      pose proof (filter_length_le (fun t => np_ltb (profit_of t) (Fin 0)) ats) as LL.
      fold (winning ats) in LW. fold (losing ats) in LL.
      destruct (py_sum_gains (map number_of (winning ats))) as [tp' [Etp' Btp]].
      { rewrite length_map. lia. }
      { apply Forall_map, Forall_forall. intros t Ht.
        now apply (moderate_winner ats). }
      rewrite Etp in Etp'. injection Etp' as <-.
      rewrite length_map in Btp.
      destruct (py_sum_losses (map number_of (losing ats))) as [tl' [Etl' Btl]].
      { now apply map_nonempty. }
      { rewrite length_map. lia. }
      { apply Forall_map, Forall_forall. intros t Ht.
        now apply (moderate_loser ats). }
      rewrite Etl in Etl'. injection Etl' as <-.
      rewrite length_map in Btl.
      set (n := Z.of_nat (List.length ats)).
      pose proof (pow2_pos 480) as PM.
      pose proof (pow2_pos (-480)) as Pm.
      assert (value_between 0 (inject_Z n * 2 ^ 480) tp) as Vp.
      { destruct Btp as [x [Ex [X1 X2]]]. exists x. split; [exact Ex|].
        split; [exact X1|]. apply Qle_trans with (1 := X2).
        apply Qmult_le_compat_r; [|lra]. rewrite <- Zle_Qle. unfold n. lia. }
      assert (value_between (- (inject_Z n * 2 ^ 480)) (- 2 ^ (-480)) tl) as Vl.
      { destruct Btl as [x [Ex [X1 X2]]]. exists x. split; [exact Ex|].
        split; [|exact X2]. apply Qle_trans with (2 := X1).
        apply Qopp_le_compat.
        apply Qmult_le_compat_r; [|lra]. rewrite <- Zle_Qle. unfold n. lia. }
      assert (py_eq tl (PyInt 0) = false) as H0.
      { destruct Vl as [x [Ex [_ X2]]]. unfold py_eq. rewrite Ex. simpl.
        apply Qeq_bool_false. intro C. change (inject_Z 0) with 0 in C. lra. }
      destruct (PF2 H0) as [q [Eq' ->]].
      destruct (py_truediv_moderate n tp tl q ltac:(unfold n; lia) Vp Vl Eq')
        as [w ->].
      exists (Qabs w). split; [reflexivity|]. split; [apply Qabs_nonneg|].
      assert (is_binary64 w) as Bw.
      { destruct tp as [zp|fp], tl as [zl|fl]; unfold py_truediv in Eq'.
        - destruct (zl =? 0)%Z; [discriminate|].
          destruct (round64 (inject_Z zp / inject_Z zl)) as [u| | |] eqn:R;
            try discriminate.
          injection Eq' as <-. exact (round64_is_binary64 _ _ R).
        - destruct (to_float (PyInt zp)) as [x|]; [|discriminate].
          cbn [bind to_float] in Eq'.
          destruct (np_eqb fl (Fin 0)); [discriminate|].
          injection Eq' as Eq'. unfold f64_div, f64 in Eq'.
          destruct (np_div x fl) as [u| | |]; try discriminate.
          exact (round64_is_binary64 _ _ Eq').
        - cbn [bind to_float] in Eq'.
          destruct (match round64 (inject_Z zl) with
                    | Fin q0 => Returned (Fin q0) | _ => Raised OverflowError end)
            as [y|]; [|discriminate].
          cbn [bind] in Eq'.
          destruct (np_eqb y (Fin 0)); [discriminate|].
          injection Eq' as Eq'. unfold f64_div, f64 in Eq'.
          destruct (np_div fp y) as [u| | |]; try discriminate.
          exact (round64_is_binary64 _ _ Eq').
        - cbn [bind to_float] in Eq'.
          destruct (np_eqb fl (Fin 0)); [discriminate|].
          injection Eq' as Eq'. unfold f64_div, f64 in Eq'.
          destruct (np_div fp fl) as [u| | |]; try discriminate.
          exact (round64_is_binary64 _ _ Eq'). }
      destruct (Qlt_le_dec w 0) as [N|P].
      * apply (is_binary64_eq (- w)); [|now apply is_binary64_opp].
        symmetry. apply Qabs_of_neg. now apply Qlt_le_weak.
      * apply (is_binary64_eq w); [|exact Bw].
        symmetry. now apply Qabs_pos.
Qed.

End ProfitFactorSignPy.

Lemma profit_factor_not_negative_witness :
  let trades := [SpecPy.int_trade "A" 10; SpecPy.float_trade "A" (Fin (-5 # 2));
                 SpecPy.int_trade "B" 7; SpecPy.float_trade "A" (Fin 0)] in
  exists r,
    AddressAnalysisPy.analyze_trades SpecPy.sharpe_exact
      SpecPy.wide_sharpe_raises SpecPy.wide_drawdown_raises utc_hour
      trades "A" = Returned (Some r)
    /\ (AddressAnalysisPy.num_val (AddressAnalysisPy.profit_factor r) = NaN
        \/ np_leb (Fin 0)
             (AddressAnalysisPy.num_val (AddressAnalysisPy.profit_factor r))
           = true).
Proof.
  destruct (profit_factor_not_negative SpecPy.sharpe_exact
              SpecPy.wide_sharpe_raises SpecPy.wide_drawdown_raises utc_hour
              [SpecPy.int_trade "A" 10; SpecPy.float_trade "A" (Fin (-5 # 2));
               SpecPy.int_trade "B" 7; SpecPy.float_trade "A" (Fin 0)] "A")
    as (r & E & H & _).
  - repeat constructor; eexists; reflexivity.
  - discriminate.
  - repeat constructor; eexists; (split; [reflexivity|]); reflexivity.
  - reflexivity.
  - exists r. split; [exact E|exact H].
Defined.

(** ** Integer profits: net profit, drawdown and the order of trades *)

Section IntegerProfitsPy.
Import AddressAnalysisPy SpecPy.
Variable sharpe_of_array : ndarray -> npfloat.
Variable wide_sharpe_ratio : list pynum -> outcome npfloat.
Variable wide_max_drawdown : list pynum -> outcome pynum.
Variable hour : Q -> outcome nat.

Lemma int_profit_number (t : TradeDict) :
  int_profit t ->
  machine_profit t /\ number_of t = PyInt (int_of t)
  /\ profit_of t = Fin (inject_Z (int_of t))
  /\ Int64.in_range (int_of t) = true.
Proof.
  intros [z [E H]]. unfold machine_profit, number_of, profit_of, int_of.
  rewrite E. repeat split; try assumption. now exists (PyInt z).
Qed.

Lemma int_profits_machine (ts : list TradeDict) :
  Forall int_profit ts -> Forall machine_profit ts.
Proof.
  intro H. eapply Forall_impl; [|exact H].
  intros t Ht. now destruct (int_profit_number t Ht).
Qed.

Lemma Forall_int_filter (f : TradeDict -> bool) (l : list TradeDict) :
  Forall int_profit l -> Forall int_profit (filter f l).
Proof.
  intro H. apply Forall_forall. intros t Ht.
  apply filter_In in Ht. destruct Ht as [Ht _].
  now apply (proj1 (Forall_forall _ _) H).
Qed.

Lemma numbers_of_ints (ts : list TradeDict) :
  Forall int_profit ts -> map number_of ts = map PyInt (map int_of ts).
Proof.
  induction 1 as [|t ts Ht _ IH]; [reflexivity|].
  cbn [map]. rewrite IH.
  now destruct (int_profit_number t Ht) as [_ [-> _]].
Qed.

(** The sum of Python integers is exact. *)
Lemma py_sum_from_ints (zs : list Z) (acc : Z) :
  py_sum_from (PyInt acc) (map PyInt zs) = Returned (PyInt (acc + Zsum zs)).
Proof.
  revert acc. induction zs as [|z zs IH]; intro acc; cbn.
  - now rewrite Z.add_0_r.
  - rewrite IH. do 2 f_equal. unfold Zsum. lia.
Qed.

Lemma py_sum_ints (zs : list Z) :
  py_sum (map PyInt zs) = Returned (PyInt (Zsum zs)).
Proof. unfold py_sum. now rewrite py_sum_from_ints. Qed.

Lemma winning_ints (ts : list TradeDict) :
  Forall int_profit ts ->
  map int_of (winning ts) = filter (fun z => (0 <? z)%Z) (map int_of ts).
Proof.
  induction 1 as [|t ts Ht _ IH]; [reflexivity|].
  unfold winning in *. cbn [filter map].
  destruct (int_profit_number t Ht) as [_ [_ [-> _]]].
  assert (np_gtb (Fin (inject_Z (int_of t))) (Fin 0) = (0 <? int_of t)%Z) as ->.
  { unfold np_gtb, np_ltb.
    destruct (0 <? int_of t)%Z eqn:E.
    - apply Qlt_bool_iff. apply Z.ltb_lt in E.
      change 0 with (inject_Z 0). now rewrite <- Zlt_Qlt.
    - apply Qlt_bool_false_iff. apply Z.ltb_ge in E.
      change 0 with (inject_Z 0). now rewrite <- Zle_Qle. }
  destruct (0 <? int_of t)%Z; cbn [map]; now rewrite IH.
Qed.

Lemma losing_ints (ts : list TradeDict) :
  Forall int_profit ts ->
  map int_of (losing ts) = filter (fun z => (z <? 0)%Z) (map int_of ts).
Proof.
  induction 1 as [|t ts Ht _ IH]; [reflexivity|].
  unfold losing in *. cbn [filter map].
  destruct (int_profit_number t Ht) as [_ [_ [-> _]]].
  assert (np_ltb (Fin (inject_Z (int_of t))) (Fin 0) = (int_of t <? 0)%Z) as ->.
  { unfold np_ltb.
    destruct (int_of t <? 0)%Z eqn:E.
    - apply Qlt_bool_iff. apply Z.ltb_lt in E.
      change 0 with (inject_Z 0). now rewrite <- Zlt_Qlt.
    - apply Qlt_bool_false_iff. apply Z.ltb_ge in E.
      change 0 with (inject_Z 0). now rewrite <- Zle_Qle. }
  destruct (int_of t <? 0)%Z; cbn [map]; now rewrite IH.
Qed.

Lemma Zsum_sign_split (l : list Z) :
  (Zsum (filter (fun z => 0 <? z) l) + Zsum (filter (fun z => z <? 0) l)
   = Zsum l)%Z.
Proof.
  induction l as [|x l IH]; [reflexivity|].
  cbn [filter].
  unfold Zsum in *.
  destruct (0 <? x)%Z eqn:Hp, (x <? 0)%Z eqn:Hn; cbn [fold_right];
    try apply Z.ltb_lt in Hp; try apply Z.ltb_lt in Hn;
    try apply Z.ltb_ge in Hp; try apply Z.ltb_ge in Hn; lia.
Qed.

Lemma Zsum_filter_neg_nonpos (l : list Z) :
  (Zsum (filter (fun z => z <? 0) l) <= 0)%Z.
Proof.
  induction l as [|x l IH]; [reflexivity|].
  cbn [filter]. destruct (x <? 0)%Z eqn:E; [|exact IH].
  apply Z.ltb_lt in E. unfold Zsum in *. cbn [fold_right]. lia.
Qed.

Lemma all_of_ints (zs : list Z) :
  Forall (fun z => Int64.in_range z = true) zs ->
  all_of as_int64 (map PyInt zs) = Some zs.
Proof.
  induction 1 as [|z zs Hz _ IH]; [reflexivity|].
  cbn [map all_of as_int64]. now rewrite Hz, IH.
Qed.

Lemma np_array_ints (zs : list Z) :
  Forall (fun z => Int64.in_range z = true) zs ->
  np_array (map PyInt zs) = Some (Int64Array zs).
Proof.
  intro H. unfold np_array.
  assert (forallb is_int (map PyInt zs) = true) as ->.
  { apply forallb_forall. intros n Hn. apply in_map_iff in Hn.
    now destruct Hn as [z [<- _]]. }
  now rewrite (all_of_ints zs H).
Qed.

Lemma ints_in_range (ts : list TradeDict) :
  Forall int_profit ts ->
  Forall (fun z => Int64.in_range z = true) (map int_of ts).
Proof.
  intro H. apply Forall_map. eapply Forall_impl; [|exact H].
  intros t Ht. now destruct (int_profit_number t Ht) as [_ [_ [_ R]]].
Qed.

(** [analyze_trades] on integer profits: the totals are the exact sums
    and the drawdown is that of the [int64] array. *)
Lemma analyze_trades_ints (trades : list record) (a : string) :
  Forall is_dict trades ->
  address_trades trades a <> [] ->
  Forall int_profit (address_trades trades a) ->
  (Z.of_nat (List.length (address_trades trades a)) < 2 ^ 63)%Z ->
  let ats := address_trades trades a in
  let profits := map int_of ats in
  exists r v,
    analyze_trades sharpe_of_array wide_sharpe_ratio wide_max_drawdown hour
      trades a = Returned (Some r)
    /\ total_trades r = List.length ats
    /\ win_rate r = PyFloat (Fin v)
    /\ round64 (inject_Z (Z.of_nat (List.length (winning ats)))
                / inject_Z (Z.of_nat (List.length ats))) = Fin v
    /\ total_profit r = PyInt (Zsum (filter (fun z => (0 <? z)%Z) profits))
    /\ total_loss r = PyInt (Zsum (filter (fun z => (z <? 0)%Z) profits))
    /\ max_drawdown r = PyInt (Int64.max_drawdown profits)
    /\ max_profit r
       = py_max (map PyInt (filter (fun z => (0 <? z)%Z) profits)) (PyInt 0)
    /\ max_loss r
       = py_min (map PyInt (filter (fun z => (z <? 0)%Z) profits)) (PyInt 0)
    /\ (if nonempty (winning ats)
        then py_truediv (total_profit r)
               (PyInt (Z.of_nat (List.length (winning ats))))
        else Returned (PyInt 0)) = Returned (avg_profit r)
    /\ (if nonempty (losing ats)
        then py_truediv (total_loss r)
               (PyInt (Z.of_nat (List.length (losing ats))))
        else Returned (PyInt 0)) = Returned (avg_loss r)
    /\ (py_eq (total_loss r) (PyInt 0) = true ->
        profit_factor r = PyFloat PInf)
    /\ (py_eq (total_loss r) (PyInt 0) = false ->
        exists q, py_truediv (total_profit r) (total_loss r)
                  = Returned (PyFloat q)
                  /\ profit_factor r = PyFloat (np_abs q)).
Proof.
  intros Hd Hne Hi Hlen ats profits.
  pose proof (int_profits_machine _ Hi) as Hm.
  destruct (analyze_trades_machine sharpe_of_array wide_sharpe_ratio
              wide_max_drawdown hour trades a Hd Hne Hm Hlen)
    as (r & tp & tl & v & E & T & W & R & _ & _ & Etp & Rtp & Etl & Rtl
        & PF1 & PF2 & Mp & Ml & Dd & Ap & Al).
  fold ats in T, R, Etp, Etl, Mp, Ml, Dd, Ap, Al, Hi, Hne.
  pose proof (Forall_int_filter (fun t => np_gtb (profit_of t) (Fin 0)) ats Hi) as HW.
  pose proof (Forall_int_filter (fun t => np_ltb (profit_of t) (Fin 0)) ats Hi) as HL.
  fold (winning ats) in HW. fold (losing ats) in HL.
  rewrite (numbers_of_ints _ HW), (winning_ints ats Hi) in Etp, Mp.
  rewrite (numbers_of_ints _ HL), (losing_ints ats Hi) in Etl, Ml.
  fold profits in Etp, Etl, Mp, Ml.
  rewrite py_sum_ints in Etp, Etl.
  injection Etp as Etp. injection Etl as Etl.
  rewrite (numbers_of_ints _ Hi) in Dd. fold profits in Dd.
  assert (max_drawdown r = PyInt (Int64.max_drawdown profits)) as Ed.
  { unfold _calculate_max_drawdown in Dd.
    assert (nonempty (map PyInt profits) = true) as Hn.
    { unfold profits. destruct ats; [congruence|reflexivity]. }
    rewrite Hn in Dd. cbn [negb] in Dd.
    rewrite (np_array_ints profits (ints_in_range ats Hi)) in Dd.
    now injection Dd as <-. }
  exists r, v. rewrite Rtp, Rtl, <- Etp, <- Etl.
  repeat split; try assumption.
  - now rewrite Etp.
  - now rewrite Etl.
  - rewrite Etl. exact PF1.
  - rewrite Etp, Etl. exact PF2.
Qed.


Lemma last_running_sums_from (l : list Z) (acc : Z) :
  last (running_sums_from acc l) acc = (acc + Zsum l)%Z.
Proof.
  revert acc. induction l as [|x l IH]; intro acc.
  - cbn. lia.
  - cbn [running_sums_from].
    destruct l as [|y l].
    + cbn. lia.
    + change (last ((acc + x)%Z :: running_sums_from (acc + x) (y :: l)) acc)
        with (last (running_sums_from (acc + x) (y :: l)) acc).
      rewrite (last_default _ acc (acc + x)%Z) by discriminate.
      rewrite IH. unfold Zsum. cbn [fold_right]. lia.
Qed.

Lemma int64_cumsum_exact (l : list Z) :
  Forall (fun s => Int64.in_range s = true) (running_sums l) ->
  Int64.cumsum l = running_sums l.
Proof.
  destruct l as [|x l]; [reflexivity|].
  unfold running_sums. cbn [running_sums_from Int64.cumsum].
  rewrite Z.add_0_l. intro H. inversion H as [|? ? _ Hl]; subst.
  now rewrite (int64_cumsum_from_exact l x Hl).
Qed.

(** X3.  For integer profits of the 64-bit range, gross profit and
    gross loss add up to the net profit of the address: total_profit
    and total_loss are integers and total_profit + total_loss is the
    sum of all profits of the address; when the running sums fit in 64
    bits, it is also the last cumulative sum over which the drawdown is
    computed. *)
Theorem net_profit_of_integer_profits (trades : list record) (a : string) :
  Forall is_dict trades ->
  address_trades trades a <> [] ->
  Forall int_profit (address_trades trades a) ->
  (Z.of_nat (List.length (address_trades trades a)) < 2 ^ 63)%Z ->
  let profits := map int_of (address_trades trades a) in
  exists r tp tl,
    analyze_trades sharpe_of_array wide_sharpe_ratio wide_max_drawdown hour
      trades a = Returned (Some r)
    /\ total_profit r = PyInt tp /\ total_loss r = PyInt tl
    /\ (tp + tl = Zsum profits)%Z
    /\ (Forall (fun s => Int64.in_range s = true) (running_sums profits) ->
        last (Int64.cumsum profits) 0%Z = (tp + tl)%Z).
Proof.
  intros Hd Hne Hi Hlen profits.
  destruct (analyze_trades_ints trades a Hd Hne Hi Hlen)
    as (r & v & E & _ & _ & _ & Tp & Tl & _).
  fold profits in Tp, Tl.
  exists r. eexists. eexists.
  split; [exact E|]. split; [exact Tp|]. split; [exact Tl|].
  pose proof (Zsum_sign_split profits) as Hs.
  split; [exact Hs|].
  intro Hr. rewrite (int64_cumsum_exact profits Hr), Hs.
  unfold running_sums. rewrite last_running_sums_from. lia.
Qed.

Lemma wrap_small (z : Z) :
  (- 2 ^ 63 <= z < 2 ^ 63)%Z -> Int64.wrap z = z.
Proof.
  intro H. unfold Int64.wrap. rewrite Z.mod_small; lia.
Qed.

Lemma half_range_in_range (l : list Z) :
  Forall (fun s => (- 2 ^ 62 <= s < 2 ^ 62)%Z) l ->
  Forall (fun s => Int64.in_range s = true) l.
Proof.
  intro H. eapply Forall_impl; [|exact H].
  intros s Hs. cbv beta in Hs. unfold Int64.in_range.
  apply andb_true_intro. split; [apply Z.leb_le|apply Z.ltb_lt]; lia.
Qed.

(** Differences after a point where the difference is at most [B]
    exceed [B] by no more than the losses met since, as long as the
    running sums stay within [- 2 ^ 62, 2 ^ 62). *)
Lemma int64_differences_bound (l : list Z) (s m B : Z) :
  Forall (fun c => (- 2 ^ 62 <= c < 2 ^ 62)%Z) (running_sums_from s l) ->
  (- 2 ^ 62 <= m < 2 ^ 62)%Z -> (0 <= B)%Z -> (m - s <= B)%Z ->
  Forall (fun d => (d <= B - Zsum (filter (fun z => z <? 0) l))%Z)
    (Int64.arr_sub (Int64.maximum_accumulate_from m (running_sums_from s l))
                   (running_sums_from s l)).
Proof.
  revert s m B. induction l as [|x l IH]; intros s m B Hr Hm HB Hms.
  - constructor.
  - cbn [running_sums_from Int64.maximum_accumulate_from Int64.arr_sub filter] in *.
    inversion Hr as [|? ? Hc Hr']; subst.
    pose proof (Zsum_filter_neg_nonpos l) as HS.
    set (c := (s + x)%Z) in *.
    set (B' := (B + (if (x <? 0)%Z then - x else 0))%Z).
    assert ((Z.max m c - c <= B')%Z /\ (0 <= B')%Z) as [Hd HB'].
    { unfold B'. destruct (x <? 0)%Z eqn:E.
      - apply Z.ltb_lt in E. unfold c. lia.
      - apply Z.ltb_ge in E. unfold c. lia. }
    assert ((B' - Zsum (filter (fun z => z <? 0) l)
             = B - Zsum (if (x <? 0)%Z
                         then x :: filter (fun z => z <? 0) l
                         else filter (fun z => z <? 0) l))%Z) as Heq.
    { unfold B'. destruct (x <? 0)%Z; unfold Zsum; cbn [fold_right]; lia. }
    rewrite <- Heq.
    constructor.
    + rewrite wrap_small by lia. lia.
    + apply IH; try assumption. lia.
Qed.

Lemma fold_Zmax_le (l : list Z) (x b : Z) :
  (x <= b)%Z -> Forall (fun d => (d <= b)%Z) l ->
  (fold_left Z.max l x <= b)%Z.
Proof.
  intros Hx H. revert x Hx. induction H as [|y l Hy _ IH]; intros x Hx.
  - exact Hx.
  - cbn [fold_left]. apply IH. lia.
Qed.

Lemma int64_drawdown_le_losses (profits : list Z) :
  Forall (fun c => (- 2 ^ 62 <= c < 2 ^ 62)%Z) (running_sums profits) ->
  (Int64.max_drawdown profits <= - Zsum (filter (fun z => z <? 0) profits))%Z.
Proof.
  destruct profits as [|x l].
  - intros _. reflexivity.
  - unfold running_sums. cbn [running_sums_from]. rewrite Z.add_0_l.
    intro H. inversion H as [|? ? Hx Hl]; subst.
    rewrite int64_drawdown_head, wrap_zero.
    rewrite (int64_cumsum_from_exact l x (half_range_in_range _ Hl)).
    pose proof (Zsum_filter_neg_nonpos l) as HS.
    assert (Zsum (filter (fun z => z <? 0) (x :: l))
            <= Zsum (filter (fun z => z <? 0) l))%Z as Hx'.
    { cbn [filter]. destruct (x <? 0)%Z eqn:E; [|lia].
      apply Z.ltb_lt in E. unfold Zsum. cbn [fold_right]. lia. }
    apply fold_Zmax_le; [lia|].
    pose proof (int64_differences_bound l x x 0 Hl Hx ltac:(lia) ltac:(lia)) as Hb.
    eapply Forall_impl; [|exact Hb]. intros d Hd. cbv beta in Hd. lia.
Qed.

(** X4.  For integer profits of the 64-bit range the maximum drawdown
    of a result is an integer that is never negative; when the running
    sums of the profits stay within [- 2 ^ 62, 2 ^ 62) it does not
    exceed the gross loss, max_drawdown <= - total_loss, and it is 0
    for an address without losing trades. *)
Theorem integer_drawdown_within_gross_loss (trades : list record) (a : string) :
  Forall is_dict trades ->
  address_trades trades a <> [] ->
  Forall int_profit (address_trades trades a) ->
  (Z.of_nat (List.length (address_trades trades a)) < 2 ^ 63)%Z ->
  let profits := map int_of (address_trades trades a) in
  exists r d tl,
    analyze_trades sharpe_of_array wide_sharpe_ratio wide_max_drawdown hour
      trades a = Returned (Some r)
    /\ max_drawdown r = PyInt d /\ total_loss r = PyInt tl
    /\ (0 <= d)%Z
    /\ (Forall (fun s => (- 2 ^ 62 <= s < 2 ^ 62)%Z) (running_sums profits) ->
        (d <= - tl)%Z
        /\ (losing (address_trades trades a) = [] -> d = 0%Z)).
Proof.
  intros Hd Hne Hi Hlen profits.
  destruct (analyze_trades_ints trades a Hd Hne Hi Hlen)
    as (r & v & E & _ & _ & _ & _ & Tl & Dd & _).
  fold profits in Tl, Dd.
  exists r. eexists. eexists.
  split; [exact E|]. split; [exact Dd|]. split; [exact Tl|].
  pose proof (int64_drawdown_nonneg profits) as H0.
  split; [exact H0|].
  intro Hr. pose proof (int64_drawdown_le_losses profits Hr) as H1.
  split; [exact H1|].
  intro EL.
  pose proof (losing_ints _ Hi) as K. rewrite EL in K. cbn [map] in K.
  fold profits in K. rewrite <- K in H1. cbn in H1. lia.
Qed.

Lemma Zsum_perm (l l' : list Z) : Permutation l l' -> Zsum l = Zsum l'.
Proof.
  unfold Zsum.
  induction 1 as [|x l l' _ IH|x y l|l l' l'' _ IH1 _ IH2]; cbn [fold_right];
    lia.
Qed.

Lemma fold_Zmax_perm (l l' : list Z) :
  Permutation l l' -> forall b, fold_left Z.max l b = fold_left Z.max l' b.
Proof.
  induction 1 as [|x l l' _ IH|x y l|l l' l'' _ IH1 _ IH2]; intro b;
    cbn [fold_left].
  - reflexivity.
  - apply IH.
  - f_equal. lia.
  - now rewrite IH1.
Qed.

Lemma fold_Zmin_perm (l l' : list Z) :
  Permutation l l' -> forall b, fold_left Z.min l b = fold_left Z.min l' b.
Proof.
  induction 1 as [|x l l' _ IH|x y l|l l' l'' _ IH1 _ IH2]; intro b;
    cbn [fold_left].
  - reflexivity.
  - apply IH.
  - f_equal. lia.
  - now rewrite IH1.
Qed.

(** [max] and [min] of Python integers. *)
Lemma max_by_from_ints (l : list Z) (b : Z) :
  max_by_from (fun x best => py_gt x best) (PyInt b) (map PyInt l)
  = PyInt (fold_left Z.max l b).
Proof.
  revert b. induction l as [|x l IH]; intro b; [reflexivity|].
  cbn [map max_by_from fold_left].
  assert (py_gt (PyInt x) (PyInt b) = (b <? x)%Z) as ->.
  { unfold py_gt, np_gtb. simpl.
    destruct (b <? x)%Z eqn:E.
    - apply Qlt_bool_iff. apply Z.ltb_lt in E. now rewrite <- Zlt_Qlt.
    - apply Qlt_bool_false_iff. apply Z.ltb_ge in E. now rewrite <- Zle_Qle. }
  destruct (b <? x)%Z eqn:E.
  - apply Z.ltb_lt in E. rewrite IH. f_equal. f_equal. lia.
  - apply Z.ltb_ge in E. rewrite IH. f_equal. f_equal. lia.
Qed.

Lemma min_by_from_ints (l : list Z) (b : Z) :
  max_by_from (fun x best => py_lt x best) (PyInt b) (map PyInt l)
  = PyInt (fold_left Z.min l b).
Proof.
  revert b. induction l as [|x l IH]; intro b; [reflexivity|].
  cbn [map max_by_from fold_left].
  assert (py_lt (PyInt x) (PyInt b) = (x <? b)%Z) as ->.
  { unfold py_lt. simpl.
    destruct (x <? b)%Z eqn:E.
    - apply Qlt_bool_iff. apply Z.ltb_lt in E. now rewrite <- Zlt_Qlt.
    - apply Qlt_bool_false_iff. apply Z.ltb_ge in E. now rewrite <- Zle_Qle. }
  destruct (x <? b)%Z eqn:E.
  - apply Z.ltb_lt in E. rewrite IH. f_equal. f_equal. lia.
  - apply Z.ltb_ge in E. rewrite IH. f_equal. f_equal. lia.
Qed.

Lemma py_max_gains (l : list Z) :
  py_max (map PyInt (filter (fun z => (0 <? z)%Z) l)) (PyInt 0)
  = PyInt (fold_left Z.max (filter (fun z => (0 <? z)%Z) l) 0%Z).
Proof.
  unfold py_max, max_by.
  destruct (filter (fun z => (0 <? z)%Z) l) as [|x l'] eqn:E; [reflexivity|].
  cbn [map fold_left]. rewrite max_by_from_ints.
  assert (In x (filter (fun z => (0 <? z)%Z) l)) as Hin by (rewrite E; now left).
  apply filter_In in Hin. destruct Hin as [_ Hx]. apply Z.ltb_lt in Hx.
  now rewrite Z.max_r by lia.
Qed.

Lemma py_min_losses (l : list Z) :
  py_min (map PyInt (filter (fun z => (z <? 0)%Z) l)) (PyInt 0)
  = PyInt (fold_left Z.min (filter (fun z => (z <? 0)%Z) l) 0%Z).
Proof.
  unfold py_min, max_by.
  destruct (filter (fun z => (z <? 0)%Z) l) as [|x l'] eqn:E; [reflexivity|].
  cbn [map fold_left]. rewrite min_by_from_ints.
  assert (In x (filter (fun z => (z <? 0)%Z) l)) as Hin by (rewrite E; now left).
  apply filter_In in Hin. destruct Hin as [_ Hx]. apply Z.ltb_lt in Hx.
  now rewrite Z.min_r by lia.
Qed.

(** X25.  For integer profits of the 64-bit range the figures of an
    address, apart from the Sharpe ratio, the maximum drawdown and the
    two distributions, do not depend on the order of its trades: for
    two trade lists whose records of the address are permutations of
    each other, trade count, win rate, totals, averages, extremes and
    profit factor are the same.  (Sums of floats depend on the order of
    the trades.) *)
Theorem integer_figures_independent_of_order
  (trades1 trades2 : list record) (a : string) :
  Forall is_dict trades1 -> Forall is_dict trades2 ->
  address_trades trades1 a <> [] ->
  Forall int_profit (address_trades trades1 a) ->
  (Z.of_nat (List.length (address_trades trades1 a)) < 2 ^ 63)%Z ->
  Permutation (address_trades trades1 a) (address_trades trades2 a) ->
  exists r1 r2,
    analyze_trades sharpe_of_array wide_sharpe_ratio wide_max_drawdown hour
      trades1 a = Returned (Some r1)
    /\ analyze_trades sharpe_of_array wide_sharpe_ratio wide_max_drawdown hour
         trades2 a = Returned (Some r2)
    /\ total_trades r1 = total_trades r2
    /\ win_rate r1 = win_rate r2
    /\ total_profit r1 = total_profit r2
    /\ total_loss r1 = total_loss r2
    /\ avg_profit r1 = avg_profit r2
    /\ avg_loss r1 = avg_loss r2
    /\ max_profit r1 = max_profit r2
    /\ max_loss r1 = max_loss r2
    /\ profit_factor r1 = profit_factor r2.
Proof.
  intros Hd1 Hd2 Hne1 Hi1 Hlen1 Hp.
  set (ats1 := address_trades trades1 a) in *.
  set (ats2 := address_trades trades2 a) in *.
  assert (ats2 <> []) as Hne2.
  { intro C. rewrite C in Hp. apply Permutation_sym, Permutation_nil in Hp.
    contradiction. }
  assert (Forall int_profit ats2) as Hi2.
  { apply Forall_forall. intros t Ht.
    apply (proj1 (Forall_forall _ _) Hi1).
    now apply (Permutation_in _ (Permutation_sym Hp)). }
  pose proof (Permutation_length Hp) as Elen.
  assert (Z.of_nat (List.length ats2) < 2 ^ 63)%Z as Hlen2 by (rewrite <- Elen; exact Hlen1).
  destruct (analyze_trades_ints trades1 a Hd1 Hne1 Hi1 Hlen1)
    as (r1 & v1 & E1 & T1 & W1 & R1 & Tp1 & Tl1 & _ & Mp1 & Ml1 & Ap1 & Al1
        & PF1 & PF1').
  destruct (analyze_trades_ints trades2 a Hd2 Hne2 Hi2 Hlen2)
    as (r2 & v2 & E2 & T2 & W2 & R2 & Tp2 & Tl2 & _ & Mp2 & Ml2 & Ap2 & Al2
        & PF2 & PF2').
  fold ats1 in T1, R1, Tp1, Tl1, Mp1, Ml1, Ap1, Al1.
  fold ats2 in T2, R2, Tp2, Tl2, Mp2, Ml2, Ap2, Al2.
  pose proof (filter_perm (fun t => np_gtb (profit_of t) (Fin 0)) _ _ Hp) as HW.
  pose proof (filter_perm (fun t => np_ltb (profit_of t) (Fin 0)) _ _ Hp) as HL.
  fold (winning ats1) (winning ats2) in HW.
  fold (losing ats1) (losing ats2) in HL.
  pose proof (Permutation_map int_of Hp) as Hpi.
  pose proof (filter_perm (fun z => (0 <? z)%Z) _ _ Hpi) as HWi.
  pose proof (filter_perm (fun z => (z <? 0)%Z) _ _ Hpi) as HLi.
  assert (total_profit r1 = total_profit r2) as Etp.
  { rewrite Tp1, Tp2. f_equal. now apply Zsum_perm. }
  assert (total_loss r1 = total_loss r2) as Etl.
  { rewrite Tl1, Tl2. f_equal. now apply Zsum_perm. }
  exists r1, r2. split; [exact E1|]. split; [exact E2|].
  split; [now rewrite T1, T2|].
  split.
  { rewrite W1, W2. rewrite (Permutation_length HW), Elen in R1.
    rewrite R1 in R2. now injection R2 as ->. }
  split; [exact Etp|]. split; [exact Etl|].
  split.
  { rewrite (nonempty_perm _ _ HW), (Permutation_length HW), Etp in Ap1.
    rewrite Ap1 in Ap2. now injection Ap2. }
  split.
  { rewrite (nonempty_perm _ _ HL), (Permutation_length HL), Etl in Al1.
    rewrite Al1 in Al2. now injection Al2. }
  split.
  { rewrite Mp1, Mp2, !py_max_gains. f_equal. now apply fold_Zmax_perm. }
  split.
  { rewrite Ml1, Ml2, !py_min_losses. f_equal. now apply fold_Zmin_perm. }
  destruct (py_eq (total_loss r1) (PyInt 0)) eqn:Z1.
  - rewrite (PF1 eq_refl). rewrite Etl in Z1. now rewrite (PF2 Z1).
  - destruct (PF1' eq_refl) as [q1 [D1 ->]].
    rewrite Etl in Z1. destruct (PF2' Z1) as [q2 [D2 ->]].
    rewrite Etp, Etl, D2 in D1. now injection D1 as ->.
Qed.

End IntegerProfitsPy.

Lemma net_profit_of_integer_profits_witness :
  let trades := [SpecPy.int_trade "A" 10; SpecPy.int_trade "B" 7;
                 SpecPy.int_trade "A" (-5); SpecPy.int_trade "A" 0] in
  exists r,
    AddressAnalysisPy.analyze_trades SpecPy.sharpe_exact
      SpecPy.wide_sharpe_raises SpecPy.wide_drawdown_raises utc_hour
      trades "A" = Returned (Some r)
    /\ AddressAnalysisPy.total_profit r = AddressAnalysisPy.PyInt 10
    /\ AddressAnalysisPy.total_loss r = AddressAnalysisPy.PyInt (-5)
    /\ (10 + -5 = SpecPy.Zsum [10; -5; 0])%Z.
Proof.
  destruct (net_profit_of_integer_profits SpecPy.sharpe_exact
              SpecPy.wide_sharpe_raises SpecPy.wide_drawdown_raises utc_hour
              [SpecPy.int_trade "A" 10; SpecPy.int_trade "B" 7;
               SpecPy.int_trade "A" (-5); SpecPy.int_trade "A" 0] "A")
    as (r & tp & tl & E & Tp & Tl & S & _).
  - repeat constructor; eexists; reflexivity.
  - discriminate.
  - repeat constructor; eexists; (split; [reflexivity|]); reflexivity.
  - reflexivity.
  - exists r. split; [exact E|].
    vm_compute in E. injection E as <-.
    repeat split.
Defined.

Lemma integer_drawdown_within_gross_loss_witness :
  let trades := [SpecPy.int_trade "A" (-4); SpecPy.int_trade "A" 10;
                 SpecPy.int_trade "A" (-5); SpecPy.int_trade "A" (-2)] in
  exists r d tl,
    AddressAnalysisPy.analyze_trades SpecPy.sharpe_exact
      SpecPy.wide_sharpe_raises SpecPy.wide_drawdown_raises utc_hour
      trades "A" = Returned (Some r)
    /\ AddressAnalysisPy.max_drawdown r = AddressAnalysisPy.PyInt d
    /\ AddressAnalysisPy.total_loss r = AddressAnalysisPy.PyInt tl
    /\ (0 <= d <= - tl)%Z.
Proof.
  destruct (integer_drawdown_within_gross_loss SpecPy.sharpe_exact
              SpecPy.wide_sharpe_raises SpecPy.wide_drawdown_raises utc_hour
              [SpecPy.int_trade "A" (-4); SpecPy.int_trade "A" 10;
               SpecPy.int_trade "A" (-5); SpecPy.int_trade "A" (-2)] "A")
    as (r & d & tl & E & Dd & Tl & H0 & H).
  - repeat constructor; eexists; reflexivity.
  - discriminate.
  - repeat constructor; eexists; (split; [reflexivity|]); reflexivity.
  - reflexivity.
  - exists r, d, tl. split; [exact E|]. split; [exact Dd|]. split; [exact Tl|].
    destruct H as [H1 _]; [repeat constructor; cbn; lia|]. lia.
Defined.

Lemma integer_figures_independent_of_order_witness :
  exists r1 r2,
    AddressAnalysisPy.analyze_trades SpecPy.sharpe_exact
      SpecPy.wide_sharpe_raises SpecPy.wide_drawdown_raises utc_hour
      [SpecPy.int_trade "A" 10; SpecPy.int_trade "A" (-5);
       SpecPy.int_trade "A" 20] "A" = Returned (Some r1)
    /\ AddressAnalysisPy.analyze_trades SpecPy.sharpe_exact
         SpecPy.wide_sharpe_raises SpecPy.wide_drawdown_raises utc_hour
         [SpecPy.int_trade "A" (-5); SpecPy.int_trade "B" 1;
          SpecPy.int_trade "A" 20; SpecPy.int_trade "A" 10] "A"
       = Returned (Some r2)
    /\ AddressAnalysisPy.avg_profit r1 = AddressAnalysisPy.avg_profit r2
    /\ AddressAnalysisPy.profit_factor r1 = AddressAnalysisPy.profit_factor r2.
Proof.
  destruct (integer_figures_independent_of_order SpecPy.sharpe_exact
              SpecPy.wide_sharpe_raises SpecPy.wide_drawdown_raises utc_hour
              [SpecPy.int_trade "A" 10; SpecPy.int_trade "A" (-5);
               SpecPy.int_trade "A" 20]
              [SpecPy.int_trade "A" (-5); SpecPy.int_trade "B" 1;
               SpecPy.int_trade "A" 20; SpecPy.int_trade "A" 10] "A")
    as (r1 & r2 & E1 & E2 & _ & _ & _ & _ & Ap & _ & _ & _ & Pf).
  - repeat constructor; eexists; reflexivity.
  - repeat constructor; eexists; reflexivity.
  - discriminate.
  - repeat constructor; eexists; (split; [reflexivity|]); reflexivity.
  - reflexivity.
  - cbn. apply (Permutation_cons_app [_; _] []). apply Permutation_refl.
  - exists r1, r2. split; [exact E1|]. split; [exact E2|].
    split; [exact Ap|exact Pf].
Defined.

(** ** Klines: monotone closes *)

Lemma Qsum_app (l1 l2 : list Q) : Qsum (l1 ++ l2) == Qsum l1 + Qsum l2.
Proof.
  induction l1 as [|x l1 IH]; cbn [app].
  - unfold Qsum at 2. cbn. ring.
  - rewrite !Qsum_cons, IH. ring.
Qed.

Lemma Qlen_app {A} (l1 l2 : list A) : Qlen (l1 ++ l2) == Qlen l1 + Qlen l2.
Proof.
  unfold Qlen. rewrite length_app, Nat2Z.inj_add, inject_Z_plus. reflexivity.
Qed.

Lemma Qsum_lt_len_mul (l : list Q) (M : Q) :
  l <> [] -> Forall (fun x => x < M) l -> Qsum l < Qlen l * M.
Proof.
  intros Hne H. destruct H as [|x l Hx Hl]; [congruence|].
  assert (Qsum l <= Qlen l * M) as Hs.
  { apply Qsum_le_len_mul. eapply Forall_impl; [|exact Hl].
    intros a Ha. now apply Qlt_le_weak. }
  rewrite Qsum_cons, Qlen_cons.
  setoid_replace ((1 + Qlen l) * M) with (M + Qlen l * M) by ring.
  lra.
Qed.


Lemma np_mean_suffix_greater (l1 l2 : list Q) (b : Q) :
  l1 <> [] -> l2 <> [] ->
  Forall (fun x => x < b) l1 -> Forall (fun y => b <= y) l2 ->
  np_mean (l1 ++ l2) < np_mean l2.
Proof.
  intros H1 H2 F1 F2. unfold np_mean.
  pose proof (Qlen_pos l1 H1) as P1. pose proof (Qlen_pos l2 H2) as P2.
  pose proof (Qsum_lt_len_mul l1 b H1 F1) as S1.
  pose proof (Qsum_ge_len_mul l2 b F2) as S2.
  rewrite Qsum_app, Qlen_app.
  set (q := Qsum l2 / Qlen l2).
  assert (q * Qlen l2 == Qsum l2) as Eq.
  { unfold q. field. lra. }
  assert (b <= q) as Hb.
  { unfold q. apply Qdiv_ge_of_ge_mul; [exact P2|exact S2]. }
  apply Qlt_shift_div_r; [lra|].
  assert (Qlen l1 * b <= Qlen l1 * q) as Hm.
  { apply Qmult_le_l; [exact P1|exact Hb]. }
  setoid_replace (q * (Qlen l1 + Qlen l2)) with (Qlen l1 * q + q * Qlen l2)
    by ring.
  rewrite Eq. lra.
Qed.

Lemma Qsum_map_opp (l : list Q) : Qsum (map Qopp l) == - Qsum l.
Proof.
  induction l as [|x l IH]; cbn [map].
  - reflexivity.
  - rewrite !Qsum_cons, IH. ring.
Qed.

Lemma np_mean_map_opp (l : list Q) : np_mean (map Qopp l) == - np_mean l.
Proof.
  unfold np_mean. rewrite Qsum_map_opp.
  unfold Qlen. rewrite length_map.
  unfold Qdiv. ring.
Qed.

Lemma increasing_tail (x : Q) (l : list Q) :
  increasing (x :: l) -> increasing l.
Proof.
  destruct l as [|y l]; [now cbn|]. now intros [_ H].
Qed.

Lemma increasing_lower (x : Q) (l : list Q) :
  increasing (x :: l) -> Forall (fun y => x < y) l.
Proof.
  revert x. induction l as [|y l IH]; intros x H; [constructor|].
  destruct H as [Hxy Hl]. constructor; [exact Hxy|].
  eapply Forall_impl; [|exact (IH y Hl)].
  intros a Ha. cbv beta in *. lra.
Qed.


Lemma increasing_split (l1 l2 : list Q) (b : Q) :
  increasing (l1 ++ b :: l2) ->
  Forall (fun x => x < b) l1 /\ Forall (fun y => b <= y) (b :: l2).
Proof.
  induction l1 as [|x l1 IH]; cbn [app]; intro H.
  - split; [constructor|]. constructor; [apply Qle_refl|].
    eapply Forall_impl; [|exact (increasing_lower b l2 H)].
    intros a Ha. now apply Qlt_le_weak.
  - destruct (IH (increasing_tail _ _ H)) as [F1 F2].
    split; [|exact F2]. constructor; [|exact F1].
    pose proof (increasing_lower x _ H) as Hx.
    apply (proj1 (Forall_forall _ _) Hx b).
    apply in_or_app. right. now left.
Qed.

Lemma increasing_mean_skipn (k : nat) (l : list Q) :
  increasing l -> (0 < k)%nat -> (k < List.length l)%nat ->
  np_mean l < np_mean (skipn k l).
Proof.
  intros Hinc Hk Hlen.
  pose proof (firstn_skipn k l) as E.
  destruct (skipn k l) as [|b l2] eqn:Es.
  - apply (f_equal (@List.length Q)) in Es.
    rewrite length_skipn in Es. cbn in Es. lia.
  - rewrite <- E at 1. rewrite <- E in Hinc.
    destruct (increasing_split _ _ _ Hinc) as [F1 F2].
    apply np_mean_suffix_greater with b; [|discriminate|exact F1|exact F2].
    intro E0. apply (f_equal (@List.length Q)) in E0.
    rewrite length_firstn in E0. cbn in E0. lia.
Qed.

Lemma decreasing_opp (l : list Q) : decreasing l -> increasing (map Qopp l).
Proof.
  induction l as [|x l IH]; [now cbn|].
  destruct l as [|y l]; [now cbn|].
  intros [Hxy Hl]. cbn [map]. split; [lra|].
  exact (IH Hl).
Qed.

Lemma decreasing_mean_skipn (k : nat) (l : list Q) :
  decreasing l -> (0 < k)%nat -> (k < List.length l)%nat ->
  np_mean (skipn k l) < np_mean l.
Proof.
  intros Hdec Hk Hlen.
  pose proof (increasing_mean_skipn k (map Qopp l) (decreasing_opp l Hdec) Hk)
    as H.
  rewrite length_map in H. specialize (H Hlen).
  rewrite skipn_map, !np_mean_map_opp in H. lra.
Qed.














(** ** [TraderAnalysis.analyze_trades]: signed trade values *)








